(** * Swarm motion engine of Shard_Frotend: SpatialGrid and ParticleSystem

    Shallow embedding of [SpatialGrid.js] and of the pairing / force /
    integration part of [src/components/ParticleSystem.js].

    Numbers.  The engine is modelled twice.  The first model, which
    covers the whole tick, takes JavaScript numbers as exact reals ([R]);
    it carries the properties that do not depend on how a floating-point
    operation rounds: which fields a pass writes, which agents it links or
    releases, what the timers do.  The second model ([Dbl], [DblV3],
    [DblGrid], [DblPS]) computes the grid query, the distance tests of the
    pairing pass and the velocity clamp with the rounding of IEEE 754
    doubles; it carries the properties that compare a computed number
    with a threshold.  Counters that the code only increments, decrements
    and compares (frames, cooldown, grace) and array indices are integers.

    Randomness.  Every [Math.random()] call reads the next element of a
    stream [rng : nat -> R] carried in the engine state. *)

From Stdlib Require Import Reals Lra Lia ZArith.
From stdpp Require Import gmap list strings.

Local Open Scope R_scope.

(** ** Comparisons and JavaScript truthiness on numbers *)

Definition Rltb (a b : R) : bool := if Rlt_dec a b then true else false.
Definition Rleb (a b : R) : bool := if Rle_dec a b then true else false.
Definition Rgtb (a b : R) : bool := Rltb b a.

(** [a || d] on numbers: [d] when [a] is 0. *)
Definition num_or (a d : R) : R := if Req_dec_T a 0 then d else a.

(** ** THREE.Vector3

    The operations of three.js that the engine calls, with the library's
    definitions: [normalize] divides by [length() || 1], [divideScalar s]
    multiplies by [1 / s], [setLength l] is [normalize().multiplyScalar(l)]. *)

Record Vector3 := mkV { vx : R; vy : R; vz : R }.

Module V3.

Definition zero : Vector3 := mkV 0 0 0.

Definition add (a b : Vector3) : Vector3 :=
  mkV (vx a + vx b) (vy a + vy b) (vz a + vz b).

Definition subVectors (a b : Vector3) : Vector3 :=
  mkV (vx a - vx b) (vy a - vy b) (vz a - vz b).

Definition addVectors (a b : Vector3) : Vector3 := add a b.

Definition multiplyScalar (a : Vector3) (s : R) : Vector3 :=
  mkV (vx a * s) (vy a * s) (vz a * s).

Definition divideScalar (a : Vector3) (s : R) : Vector3 :=
  multiplyScalar a (1 / s).

Definition addScaledVector (a v : Vector3) (s : R) : Vector3 :=
  mkV (vx a + vx v * s) (vy a + vy v * s) (vz a + vz v * s).

Definition lengthSq (a : Vector3) : R :=
  vx a * vx a + vy a * vy a + vz a * vz a.

Definition length (a : Vector3) : R := sqrt (lengthSq a).

Definition normalize (a : Vector3) : Vector3 :=
  divideScalar a (num_or (length a) 1).

Definition setLength (a : Vector3) (l : R) : Vector3 :=
  multiplyScalar (normalize a) l.

Definition lerp (a v : Vector3) (alpha : R) : Vector3 :=
  mkV (vx a + (vx v - vx a) * alpha)
      (vy a + (vy v - vy a) * alpha)
      (vz a + (vz v - vz a) * alpha).

Definition distanceToSquared (a v : Vector3) : R :=
  let dx := vx a - vx v in
  let dy := vy a - vy v in
  let dz := vz a - vz v in
  dx * dx + dy * dy + dz * dz.

Definition distanceTo (a v : Vector3) : R := sqrt (distanceToSquared a v).

Definition crossVectors (a b : Vector3) : Vector3 :=
  mkV (vy a * vz b - vz a * vy b)
      (vz a * vx b - vx a * vz b)
      (vx a * vy b - vy a * vx b).

Definition setY (a : Vector3) (y : R) : Vector3 := mkV (vx a) y (vz a).

End V3.

(** Horizontal (x, z) distance between two points. *)
Definition planarDistance (a b : Vector3) : R :=
  sqrt ((vx a - vx b) * (vx a - vx b) + (vz a - vz b) * (vz a - vz b)).

(** ** SpatialGrid

    The bucket key is the string [`${cx},${cz}`] of two integers; it is
    modelled by the pair [(cx, cz)]. *)

Inductive outcome (A : Type) : Type :=
  | Returned (a : A)
  | Thrown (msg : string).
Arguments Returned {A} a.
Arguments Thrown {A} msg.

Record SpatialGrid := mkGrid {
  cellSize : R;
  grid : gmap (Z * Z) (list nat)
}.

Module Grid.

(** [constructor(cellSize)]: stores the argument, no check. *)
Definition constructor (c : R) : outcome SpatialGrid :=
  Returned (mkGrid c ∅).

Definition _hash (g : SpatialGrid) (x z : R) : Z * Z :=
  (Zfloor (x / cellSize g), Zfloor (z / cellSize g)).

Definition clear (g : SpatialGrid) : SpatialGrid := mkGrid (cellSize g) ∅.

Definition insert (g : SpatialGrid) (index : nat) (position : Vector3)
  : SpatialGrid :=
  let key := _hash g (vx position) (vz position) in
  let cell := match grid g !! key with Some c => c | None => [] end in
  mkGrid (cellSize g) (<[key := cell ++ [index]]> (grid g)).

(** The values of [for (let d = -cells; d <= cells; d++)]. *)
Definition offsets (cells : Z) : list Z :=
  map (fun k => (- cells + Z.of_nat k)%Z) (seq 0 (Z.to_nat (2 * cells + 1))).

Definition getNearby (g : SpatialGrid) (position : Vector3) (radius : R)
  : list nat :=
  let cells := Zceil (radius / cellSize g) in
  let cx := Zfloor (vx position / cellSize g) in
  let cz := Zfloor (vz position / cellSize g) in
  flat_map (fun dx =>
    flat_map (fun dz =>
      match grid g !! ((cx + dx)%Z, (cz + dz)%Z) with
      | Some cell => cell
      | None => []
      end) (offsets cells)) (offsets cells).

(** Inserting a list of (index, position) pairs, in order. *)
Definition insertAll (g : SpatialGrid) (agents : list (nat * Vector3))
  : SpatialGrid :=
  fold_left (fun g a => insert g (fst a) (snd a)) agents g.

End Grid.

(** ** Engine data *)

(** [this.motionSystem]: the entries read by the pairing, force and
    integration code (grain and evolving entries are rendering-only). *)
Record MotionSystem := mkMotion {
  followLerp : R;
  maxVelocity : R;
  swarmWeight : R;
  maxOffset : R;
  minSeparation : R;
  repulsionStrength : R;
  repulsionWeight : R;
  complementaryRange : R;
  complementaryPull : R;
  attractionWeight : R;
  pairFormRadius : R;
  pairKeepRadius : R;
  pairMinFrames : Z;
  pairBreakProb : R;
  pairCooldown : Z;
  pairDesiredSeparation : R;
  pairSeparationStrength : R;
  pairCohesionStrength : R;
  pairAlignmentStrength : R;
  pairTravelSpeed : R;
  pairHeadingSmoothing : R;
  pairHeadingJitter : R;
  pairJitterInterval : Z;
  pairEaseFrames : Z;
  breakGraceFrames : Z;
  wanderStrength : R;
  wanderInPair : R;
  circularBias : R;
  explorationPairedScale : R;
  maxRange : R;
  avoidCenterRadius : R;
  avoidCenterStrength : R;
  pairingWeight : R;
  explorationWeight : R;
  headingTangentWeight : R;
  headingVelocityWeight : R
}.

(** The literal assigned in the constructor. *)
Definition defaultMotion : MotionSystem := {|
  followLerp := 0.05;
  maxVelocity := 1.5;
  swarmWeight := 0.20;
  maxOffset := 5;
  minSeparation := 30;
  repulsionStrength := 0.20;
  repulsionWeight := 0.4;
  complementaryRange := 35;
  complementaryPull := 0.008;
  attractionWeight := 0.2;
  pairFormRadius := 25;
  pairKeepRadius := 35;
  pairMinFrames := 480;
  pairBreakProb := 0.0003;
  pairCooldown := 240;
  pairDesiredSeparation := 25;
  pairSeparationStrength := 0.32;
  pairCohesionStrength := 0.5;
  pairAlignmentStrength := 3.2;
  pairTravelSpeed := 2;
  pairHeadingSmoothing := 0.04;
  pairHeadingJitter := 1;
  pairJitterInterval := 280;
  pairEaseFrames := 150;
  breakGraceFrames := 300;
  wanderStrength := 0.45;
  wanderInPair := 0.015;
  circularBias := 0.18;
  explorationPairedScale := 0.10;
  maxRange := 180;
  avoidCenterRadius := 50;
  avoidCenterStrength := 0.8;
  pairingWeight := 1.6;
  explorationWeight := 0.4;
  headingTangentWeight := 0.85;
  headingVelocityWeight := 0.15
|}.

(** One entry of [this._pairStates]; [partner] and [breakPartner] hold an
    index or -1. *)
Record PairState := mkPairState {
  partner : Z;
  frames : Z;
  cooldown : Z;
  breakFrames : Z;
  breakDir : Vector3;
  breakGrace : Z;
  breakPartner : Z;
  breakFade : Z;
  breakHeading : Vector3;
  breakEase : R;
  breakThisFrame : bool
}.

(** The object pushed by [update] for a new slot ([breakThisFrame] is
    absent there, which reads as false). *)
Definition newPairState : PairState :=
  mkPairState (-1) 0 0 0 V3.zero 0 (-1) 0 V3.zero 1 false.

Definition set_partner (s : PairState) (v : Z) : PairState :=
  mkPairState v (frames s) (cooldown s) (breakFrames s) (breakDir s)
    (breakGrace s) (breakPartner s) (breakFade s) (breakHeading s)
    (breakEase s) (breakThisFrame s).
Definition set_frames (s : PairState) (v : Z) : PairState :=
  mkPairState (partner s) v (cooldown s) (breakFrames s) (breakDir s)
    (breakGrace s) (breakPartner s) (breakFade s) (breakHeading s)
    (breakEase s) (breakThisFrame s).
Definition set_cooldown (s : PairState) (v : Z) : PairState :=
  mkPairState (partner s) (frames s) v (breakFrames s) (breakDir s)
    (breakGrace s) (breakPartner s) (breakFade s) (breakHeading s)
    (breakEase s) (breakThisFrame s).
Definition set_breakGrace (s : PairState) (v : Z) : PairState :=
  mkPairState (partner s) (frames s) (cooldown s) (breakFrames s) (breakDir s)
    v (breakPartner s) (breakFade s) (breakHeading s)
    (breakEase s) (breakThisFrame s).
Definition set_breakPartner (s : PairState) (v : Z) : PairState :=
  mkPairState (partner s) (frames s) (cooldown s) (breakFrames s) (breakDir s)
    (breakGrace s) v (breakFade s) (breakHeading s)
    (breakEase s) (breakThisFrame s).
Definition set_breakFade (s : PairState) (v : Z) : PairState :=
  mkPairState (partner s) (frames s) (cooldown s) (breakFrames s) (breakDir s)
    (breakGrace s) (breakPartner s) v (breakHeading s)
    (breakEase s) (breakThisFrame s).
Definition set_breakHeading (s : PairState) (v : Vector3) : PairState :=
  mkPairState (partner s) (frames s) (cooldown s) (breakFrames s) (breakDir s)
    (breakGrace s) (breakPartner s) (breakFade s) v
    (breakEase s) (breakThisFrame s).
Definition set_breakEase (s : PairState) (v : R) : PairState :=
  mkPairState (partner s) (frames s) (cooldown s) (breakFrames s) (breakDir s)
    (breakGrace s) (breakPartner s) (breakFade s) (breakHeading s)
    v (breakThisFrame s).
Definition set_breakThisFrame (s : PairState) (v : bool) : PairState :=
  mkPairState (partner s) (frames s) (cooldown s) (breakFrames s) (breakDir s)
    (breakGrace s) (breakPartner s) (breakFade s) (breakHeading s)
    (breakEase s) v.

(** One entry of [this.peaks], without its grains.  [exploreSeed] is absent
    on peaks made by [createSinglePeak]; [evolvingLock] is only tested for
    truthiness. *)
Record Peak := mkPeak {
  currentPyramidCenter : Vector3;
  nextPyramidCenter : Vector3;
  categoryVisible : bool;
  exploreSeed : option R;
  evolvingLock : bool;
  evolvingTargetCenter : option Vector3;
  evolvingMoveSpeed : option R
}.

Definition set_center (p : Peak) (c : Vector3) : Peak :=
  mkPeak c (nextPyramidCenter p) (categoryVisible p) (exploreSeed p)
    (evolvingLock p) (evolvingTargetCenter p) (evolvingMoveSpeed p).
Definition set_evolvingLock (p : Peak) (b : bool) : Peak :=
  mkPeak (currentPyramidCenter p) (nextPyramidCenter p) (categoryVisible p)
    (exploreSeed p) b (evolvingTargetCenter p) (evolvingMoveSpeed p).

(** [solid.userData.solution], reduced to the two category labels. *)
Record Solid := mkSolid {
  actual_category : option string;
  assigned_category : option string
}.

Record Engine := mkEngine {
  peaks : list Peak;
  peakSolids : list Solid;
  time : R;
  updateInterval : Z;
  frameCounter : Z;
  targetLocked : bool;
  frozenSwarmPositions : option (list Vector3);
  categoryFilterActive : bool;
  stopAllMovement : bool;
  evolvingActive : bool;
  spatialGrid : SpatialGrid;
  motionSystem : MotionSystem;
  _pairStates : list PairState;
  _lastPositions : list Vector3;
  _pairDirections : list (option Vector3);
  _velocities : list Vector3;
  rng : nat -> R;
  rngPos : nat
}.

Definition set_peaks (e : Engine) (v : list Peak) : Engine :=
  mkEngine v (peakSolids e) (time e) (updateInterval e)
    (frameCounter e) (targetLocked e) (frozenSwarmPositions e)
    (categoryFilterActive e) (stopAllMovement e) (evolvingActive e)
    (spatialGrid e) (motionSystem e) (_pairStates e) (_lastPositions e)
    (_pairDirections e) (_velocities e) (rng e) (rngPos e).
Definition set_clock (e : Engine) (t : R) (fc : Z) : Engine :=
  mkEngine (peaks e) (peakSolids e) t (updateInterval e)
    fc (targetLocked e) (frozenSwarmPositions e)
    (categoryFilterActive e) (stopAllMovement e) (evolvingActive e)
    (spatialGrid e) (motionSystem e) (_pairStates e) (_lastPositions e)
    (_pairDirections e) (_velocities e) (rng e) (rngPos e).
Definition set_spatialGrid (e : Engine) (v : SpatialGrid) : Engine :=
  mkEngine (peaks e) (peakSolids e) (time e)
    (updateInterval e) (frameCounter e) (targetLocked e)
    (frozenSwarmPositions e) (categoryFilterActive e) (stopAllMovement e)
    (evolvingActive e) v (motionSystem e) (_pairStates e) (_lastPositions e)
    (_pairDirections e) (_velocities e) (rng e) (rngPos e).
Definition set_pairStates (e : Engine) (v : list PairState) : Engine :=
  mkEngine (peaks e) (peakSolids e) (time e)
    (updateInterval e) (frameCounter e) (targetLocked e)
    (frozenSwarmPositions e) (categoryFilterActive e) (stopAllMovement e)
    (evolvingActive e) (spatialGrid e) (motionSystem e) v (_lastPositions e)
    (_pairDirections e) (_velocities e) (rng e) (rngPos e).
Definition set_lastPositions (e : Engine) (v : list Vector3) : Engine :=
  mkEngine (peaks e) (peakSolids e) (time e)
    (updateInterval e) (frameCounter e) (targetLocked e)
    (frozenSwarmPositions e) (categoryFilterActive e) (stopAllMovement e)
    (evolvingActive e) (spatialGrid e) (motionSystem e) (_pairStates e) v
    (_pairDirections e) (_velocities e) (rng e) (rngPos e).
Definition set_pairDirections (e : Engine) (v : list (option Vector3))
  : Engine :=
  mkEngine (peaks e) (peakSolids e) (time e)
    (updateInterval e) (frameCounter e) (targetLocked e)
    (frozenSwarmPositions e) (categoryFilterActive e) (stopAllMovement e)
    (evolvingActive e) (spatialGrid e) (motionSystem e) (_pairStates e)
    (_lastPositions e) v (_velocities e) (rng e) (rngPos e).
Definition set_velocities (e : Engine) (v : list Vector3) : Engine :=
  mkEngine (peaks e) (peakSolids e) (time e)
    (updateInterval e) (frameCounter e) (targetLocked e)
    (frozenSwarmPositions e) (categoryFilterActive e) (stopAllMovement e)
    (evolvingActive e) (spatialGrid e) (motionSystem e) (_pairStates e)
    (_lastPositions e) (_pairDirections e) v (rng e) (rngPos e).
Definition set_rngPos (e : Engine) (v : nat) : Engine :=
  mkEngine (peaks e) (peakSolids e) (time e)
    (updateInterval e) (frameCounter e) (targetLocked e)
    (frozenSwarmPositions e) (categoryFilterActive e) (stopAllMovement e)
    (evolvingActive e) (spatialGrid e) (motionSystem e) (_pairStates e)
    (_lastPositions e) (_pairDirections e) (_velocities e) (rng e) v.

(** [Math.random()]. *)
Definition random (e : Engine) : R * Engine :=
  (rng e (rngPos e), set_rngPos e (S (rngPos e))).

(** [arr[i]] for a number [i] that may be -1: [None] is [undefined]. *)
Definition lookupZ {A} (l : list A) (i : Z) : option A :=
  if (i <? 0)%Z then None else l !! Z.to_nat i.

(** [arr[k] = v] on an array that may be shorter than [k] (holes are
    [None]). *)
Definition setSparse {A} (l : list (option A)) (k : nat) (v : A)
  : list (option A) :=
  if (k <? length l)%nat then <[k := Some v]> l
  else l ++ replicate (k - length l) None ++ [Some v].

Definition getSparse {A} (l : list (option A)) (k : Z) : option A :=
  match lookupZ l k with Some (Some v) => Some v | _ => None end.

(** A throwing computation is [None]. *)
Fixpoint foldM {A S} (f : A -> S -> option S) (l : list A) (s : S)
  : option S :=
  match l with
  | [] => Some s
  | a :: l' => match f a s with Some s' => foldM f l' s' | None => None end
  end.

(** ** Categories *)

(** [complementary_map[c]]: [None] is [undefined]. *)
Definition complementary_map (c : string) : option string :=
  if String.eqb c "low" then Some "mid"%string
  else if String.eqb c "high" then Some "mid"%string
  else if String.eqb c "mid" then Some "rhythmic"%string
  else if String.eqb c "rhythmic" then Some "mid"%string
  else None.

(** Truthiness of a possibly missing string: the empty string is falsy. *)
Definition truthy (c : option string) : bool :=
  match c with
  | Some s => negb (String.eqb s "")
  | None => false
  end.

(** [complementary_map[a] === b] for strings [a], [b]. *)
Definition maps_to (a b : string) : bool :=
  match complementary_map a with
  | Some c => String.eqb c b
  | None => false
  end.

(** [catA && catB && (complementary_map[catA] === catB ||
    complementary_map[catB] === catA)], also used with [catA] known truthy. *)
Definition complementary (catA catB : option string) : bool :=
  match catA, catB with
  | Some a, Some b => truthy catA && truthy catB && (maps_to a b || maps_to b a)
  | _, _ => false
  end.

(** [solid?.userData?.solution?.actual_category ??
     solid?.userData?.solution?.assigned_category] at index [i]. *)
Definition pairCategory (e : Engine) (i : nat) : option string :=
  match peakSolids e !! i with
  | Some s =>
      match actual_category s with
      | Some c => Some c
      | None => assigned_category s
      end
  | None => None
  end.

(** ** _findPairs *)

(** First loop: cooldown and grace countdown of one state. *)
Definition tickTimers (s : PairState) : PairState :=
  let s1 := if (0 <? cooldown s)%Z then set_cooldown s (cooldown s - 1)%Z
            else s in
  if (0 <? breakGrace s1)%Z then
    let s2 := set_breakGrace s1 (breakGrace s1 - 1)%Z in
    if (breakGrace s2 =? 0)%Z then set_breakPartner s2 (-1) else s2
  else s1.

(** Second step: [spatialGrid.clear()] and one [insert] per peak. *)
Definition rebuildGrid (e : Engine) : Engine :=
  set_spatialGrid e
    (Grid.insertAll (Grid.clear (spatialGrid e))
       (imap (fun i p => (i, currentPyramidCenter p)) (peaks e))).

(** The writes of a distance break between [i] and its partner, in the
    order of the source (the two states may be the same object). *)
Definition breakWrites (M : MotionSystem) (i : nat) (partnerIdx : Z)
    (ps : list PairState) : list PairState :=
  let grace := breakGraceFrames M in
  let p := Z.to_nat partnerIdx in
  let ps := alter (fun s => set_breakPartner (set_breakGrace s grace)
                              partnerIdx) i ps in
  let ps := alter (fun s => set_breakPartner (set_breakGrace s grace)
                              (Z.of_nat i)) p ps in
  let ps := alter (fun s => set_cooldown (set_frames (set_partner s (-1)) 0)
                              (pairCooldown M)) i ps in
  alter (fun s => set_cooldown (set_frames (set_partner s (-1)) 0)
                    (pairCooldown M)) p ps.

(** Body of the distance-break loop for index [i]. *)
Definition breakCheck (i : nat) (e : Engine) : Engine :=
  match _pairStates e !! i with
  | None => e
  | Some state =>
      let partnerIdx := partner state in
      if (partnerIdx =? -1)%Z then e
      else
        match lookupZ (_pairStates e) partnerIdx,
              peaks e !! i, lookupZ (peaks e) partnerIdx with
        | Some partnerState, Some A, Some B =>
            let dist := V3.distanceTo (currentPyramidCenter A)
                                      (currentPyramidCenter B) in
            if Rgtb dist (pairKeepRadius (motionSystem e)) then
              set_pairStates e
                (breakWrites (motionSystem e) i partnerIdx (_pairStates e))
            else e
        | _, _, _ => e
        end
  end.

Definition breakLoop (e : Engine) : Engine :=
  fold_left (fun e i => breakCheck i e) (seq 0 (length (_pairStates e))) e.

(** Body of [for (const j of nearbyIndices)]: the accumulator is
    [(bestPartner, bestDist)]; [None] is the TypeError of reading
    [stB.partner] on a missing state. *)
Definition considerCandidate (e : Engine) (i : nat) (peakA : Peak)
    (catA : option string) (j : nat) (acc : Z * R) : option (Z * R) :=
  if (i =? j)%nat then Some acc
  else
    match _pairStates e !! j with
    | None => None
    | Some stB =>
        if negb (partner stB =? -1)%Z || (0 <? cooldown stB)%Z then Some acc
        else
          match peaks e !! j with
          | None => Some acc
          | Some peakB =>
              let catB := pairCategory e j in
              if negb (complementary catA catB) then Some acc
              else
                let dist := V3.distanceTo (currentPyramidCenter peakA)
                                          (currentPyramidCenter peakB) in
                if Rleb dist (snd acc) then Some (Z.of_nat j, dist)
                else Some acc
          end
    end.

(** The candidate search of the formation pass for agent [i]. *)
Definition bestCandidate (e : Engine) (i : nat) (peakA : Peak)
    (catA : option string) : option (Z * R) :=
  foldM (considerCandidate e i peakA catA)
    (Grid.getNearby (spatialGrid e) (currentPyramidCenter peakA)
       (pairFormRadius (motionSystem e)))
    (-1, pairFormRadius (motionSystem e))%Z.

(** [new THREE.Vector3(Math.random() - 0.5, 0, Math.random() - 0.5)
    .normalize()]. *)
Definition randomDirection (e : Engine) : Vector3 * Engine :=
  let '(r1, e1) := random e in
  let '(r2, e2) := random e1 in
  (V3.normalize (mkV (r1 - 0.5) 0 (r2 - 0.5)), e2).

(** The linking writes once [bestPartner] is found. *)
Definition linkPair (i : nat) (bestPartner : Z) (e : Engine) : Engine :=
  let ps := alter (fun s => set_frames (set_partner s bestPartner) 0) i
              (_pairStates e) in
  let ps := alter (fun s => set_frames (set_partner s (Z.of_nat i)) 0)
              (Z.to_nat bestPartner) ps in
  let e1 := set_pairStates e ps in
  let pairIndex := Z.min (Z.of_nat i) bestPartner in
  match getSparse (_pairDirections e1) pairIndex with
  | Some _ => e1
  | None =>
      let '(d, e2) := randomDirection e1 in
      set_pairDirections e2
        (setSparse (_pairDirections e2) (Z.to_nat pairIndex) d)
  end.

(** Body of the formation loop for index [i]; [None] is a TypeError. *)
Definition formPair (i : nat) (e : Engine) : option Engine :=
  match _pairStates e !! i with
  | None => None
  | Some state =>
      if negb (partner state =? -1)%Z || (0 <? cooldown state)%Z then Some e
      else
        match peaks e !! i with
        | None => Some e
        | Some peakA =>
            let catA := pairCategory e i in
            if negb (truthy catA) then Some e
            else
              match bestCandidate e i peakA catA with
              | None => None
              | Some (bestPartner, _) =>
                  if (bestPartner =? -1)%Z then Some e
                  else Some (linkPair i bestPartner e)
              end
        end
  end.

Definition timersStep (e : Engine) : Engine :=
  set_pairStates e (map tickTimers (_pairStates e)).

Definition _findPairs (e : Engine) : option Engine :=
  let e1 := timersStep e in
  let e2 := rebuildGrid e1 in
  let e3 := breakLoop e2 in
  foldM formPair (seq 0 (length (peaks e3))) e3.

(** ** _breakPair *)

(** The writes of [_breakPair] on one state, [other] being the index
    stored as [breakPartner]. *)
Definition brokenState (M : MotionSystem) (other : Z)
    (currentHeading : Vector3) (currentEase : R) (s : PairState)
  : PairState :=
  let grace := breakGraceFrames M in
  mkPairState (-1) 0 (pairCooldown M) (breakFrames s) (breakDir s)
    grace other grace currentHeading currentEase true.

Definition _breakPair (indexA : nat) (indexB : Z) (currentHeading : Vector3)
    (currentEase : R) (e : Engine) : Engine :=
  let M := motionSystem e in
  let ps := alter (brokenState M indexB currentHeading currentEase) indexA
              (_pairStates e) in
  let ps := match lookupZ ps indexB with
            | Some _ =>
                alter (brokenState M (Z.of_nat indexA) currentHeading
                         currentEase) (Z.to_nat indexB) ps
            | None => ps
            end in
  set_pairStates e ps.

(** ** _applyPairingForces *)

(** The [while] loop that pads [_pairDirections] with [n] random unit
    headings. *)
Fixpoint growDirections (n : nat) (e : Engine) : Engine :=
  match n with
  | O => e
  | S n' =>
      let '(d, e1) := randomDirection e in
      growDirections n'
        (set_pairDirections e1 (_pairDirections e1 ++ [Some d]))
  end.

(** The tangent computed by the lower-indexed member, before smoothing. *)
Definition desiredHeading (index : nat) (state : PairState) (fr : Z)
    (pc qc : Vector3) (e : Engine) : Vector3 * Engine :=
  let M := motionSystem e in
  let center := V3.multiplyScalar (V3.addVectors pc qc) 0.5 in
  let radial := V3.setY center 0 in
  let tangent :=
    if Rgtb (V3.lengthSq radial) 1e-6
    then V3.normalize (V3.crossVectors radial (mkV 0 1 0))
    else mkV 1 0 0 in
  let lastMine := match _lastPositions e !! index with
                  | Some l => l | None => pc end in
  let lastPartner := match lookupZ (_lastPositions e) (partner state) with
                     | Some l => l | None => qc end in
  let myVel := V3.subVectors pc lastMine in
  let partnerVel := V3.subVectors qc lastPartner in
  let avgVel := V3.addVectors myVel partnerVel in
  let tangent :=
    if Rgtb (V3.lengthSq avgVel) 1e-6
    then V3.normalize
           (V3.addScaledVector
              (V3.multiplyScalar tangent
                 (num_or (headingTangentWeight M) 0.85))
              (V3.normalize avgVel)
              (num_or (headingVelocityWeight M) 0.15))
    else tangent in
  if (Z.rem fr (pairJitterInterval M) =? 0)%Z then
    let '(r, e1) := random e in
    let jitterRad := (pairHeadingJitter M * PI / 180) * (r - 0.5) in
    let c := cos jitterRad in
    let s := sin jitterRad in
    (V3.normalize (mkV (vx tangent * c - vz tangent * s) 0
                       (vx tangent * s + vz tangent * c)), e1)
  else (tangent, e).

(** The smoothstep ease of a pair that has lasted [fr] frames. *)
Definition pairEase (M : MotionSystem) (fr : Z) : R :=
  let easeProgress := Rmin 1 (IZR fr / IZR (Z.max 1 (pairEaseFrames M))) in
  easeProgress * easeProgress * (3 - 2 * easeProgress).

(** The paired branch; [state] is the state read at entry.  [None] is the
    TypeError of using a missing shared heading. *)
Definition pairedForces (index : nat) (peak : Peak) (state : PairState)
    (forceOffset : Vector3) (e : Engine) : option (Vector3 * Engine) :=
  let M := motionSystem e in
  let fr := (frames state + 1)%Z in
  let e := set_pairStates e
             (alter (fun s => set_frames s (frames s + 1)%Z) index
                (_pairStates e)) in
  match lookupZ (peaks e) (partner state) with
  | None => Some (forceOffset, e)
  | Some partnerPeak =>
      let pc := currentPyramidCenter peak in
      let qc := currentPyramidCenter partnerPeak in
      let toPartner := V3.subVectors qc pc in
      let dist := V3.length toPartner in
      if Rltb dist 1e-6 then Some (forceOffset, e)
      else
        let u := V3.normalize toPartner in
        let D := pairDesiredSeparation M in
        let F :=
          if Rltb dist D then
            let proximity := 1 - dist / D in
            let separationForce :=
              proximity * pairSeparationStrength M * pairingWeight M in
            V3.addScaledVector forceOffset u (- separationForce)
          else if Rgtb dist (D * 1.5) then
            let excess := dist - D in
            let cohesionForce :=
              (excess / D) * pairSeparationStrength M * 0.5
              * pairingWeight M in
            V3.addScaledVector forceOffset u cohesionForce
          else forceOffset in
        let midpoint := V3.multiplyScalar (V3.addVectors pc qc) 0.5 in
        let toMidpoint := V3.subVectors midpoint pc in
        let F := V3.addScaledVector F (V3.normalize toMidpoint)
                   (pairCohesionStrength M * pairingWeight M) in
        let pairIndex := Z.min (Z.of_nat index) (partner state) in
        match getSparse (_pairDirections e) pairIndex with
        | None => None
        | Some heading0 =>
            let '(heading, e) :=
              if (Z.of_nat index =? pairIndex)%Z then
                let '(tangent, e1) := desiredHeading index state fr pc qc e in
                let h := V3.normalize
                           (V3.lerp heading0 tangent
                              (pairHeadingSmoothing M)) in
                (h, set_pairDirections e1
                      (<[Z.to_nat pairIndex := Some h]>
                         (_pairDirections e1)))
              else (heading0, e) in
            let ease := pairEase M fr in
            let alignForce := ease * pairAlignmentStrength M
                              * pairingWeight M in
            let travelForce := ease * pairTravelSpeed M * pairingWeight M in
            let F := V3.addScaledVector F heading alignForce in
            let F := V3.addScaledVector F heading travelForce in
            let '(r1, e) := random e in
            let F := mkV (vx F + (r1 - 0.5) * wanderInPair M * 0.5)
                         (vy F) (vz F) in
            let '(r2, e) := random e in
            let F := mkV (vx F) (vy F)
                         (vz F + (r2 - 0.5) * wanderInPair M * 0.5) in
            if (pairMinFrames M <? fr)%Z then
              let '(r3, e) := random e in
              if Rltb r3 (pairBreakProb M)
              then Some (F, _breakPair index (partner state) heading ease e)
              else Some (F, e)
            else Some (F, e)
        end
  end.

(** The solo branch: fading echo of the pair forces, then wander. *)
Definition soloForces (index : nat) (state : PairState)
    (forceOffset : Vector3) (e : Engine) : Vector3 * Engine :=
  let M := motionSystem e in
  let fading := (0 <? breakFade state)%Z
                && Rgtb (V3.lengthSq (breakHeading state)) 1e-6 in
  let F :=
    if fading then
      let fadeProgress :=
        IZR (breakFade state) / IZR (Z.max 1 (breakGraceFrames M)) in
      let storedEase := num_or (breakEase state) 1 in
      let alignForce := fadeProgress * storedEase
                        * pairAlignmentStrength M * pairingWeight M in
      let travelForce := fadeProgress * storedEase
                         * pairTravelSpeed M * pairingWeight M in
      V3.addScaledVector forceOffset (breakHeading state)
        (alignForce + travelForce)
    else forceOffset in
  let fade := if fading then (breakFade state - 1)%Z else breakFade state in
  let e := if fading
           then set_pairStates e
                  (alter (fun s => set_breakFade s (breakFade s - 1)%Z) index
                     (_pairStates e))
           else e in
  let explorationScale :=
    if (0 <? fade)%Z
    then 1 - IZR fade / IZR (Z.max 1 (breakGraceFrames M))
    else 1 in
  let '(r1, e) := random e in
  let F := mkV (vx F + (r1 - 0.5) * wanderStrength M * explorationScale)
               (vy F) (vz F) in
  let '(r2, e) := random e in
  let F := mkV (vx F) (vy F)
               (vz F + (r2 - 0.5) * wanderStrength M * explorationScale) in
  (F, e).

Definition _applyPairingForces (index : nat) (forceOffset : Vector3)
    (e : Engine) : option (Vector3 * Engine) :=
  match peaks e !! index, _pairStates e !! index with
  | Some peak, Some state =>
      let e := growDirections (length (peaks e) - length (_pairDirections e))
                 e in
      if negb (partner state =? -1)%Z
      then pairedForces index peak state forceOffset e
      else Some (soloForces index state forceOffset e)
  | _, _ => None
  end.

(** ** _applyRepulsionForces *)

(** Body of the neighbour loop for neighbour [j].  [delta.normalize()]
    works in place, so the attraction part sees the normalized [delta]
    when the repulsion part ran. *)
Definition repulsionFrom (e : Engine) (index : nat) (peak : Peak)
    (myState : option PairState) (forceOffset : Vector3) (j : nat)
  : Vector3 :=
  let M := motionSystem e in
  if (index =? j)%nat then forceOffset
  else
    match peaks e !! j with
    | None => forceOffset
    | Some other =>
        let delta := V3.subVectors (currentPyramidCenter peak)
                                   (currentPyramidCenter other) in
        let dist := V3.length delta in
        if Rltb dist 0.0001 then forceOffset
        else
          let graceScale :=
            match myState with
            | Some s =>
                if (0 <? breakGrace s)%Z
                   && (Z.of_nat j =? breakPartner s)%Z
                then 1 - IZR (breakGrace s)
                         / IZR (Z.max 1 (breakGraceFrames M))
                else 1
            | None => 1
            end in
          let withPartner :=
            match myState with
            | Some s => negb (partner s =? -1)%Z
                        && (Z.of_nat j =? partner s)%Z
            | None => false
            end in
          let withOther :=
            match myState with
            | Some s => negb (partner s =? -1)%Z
                        && negb (Z.of_nat j =? partner s)%Z
            | None => true
            end in
          let repulsionScale := if withPartner then 0.4 else 1 in
          let '(F, delta) :=
            if Rltb dist (minSeparation M) then
              let push := (1 - dist / minSeparation M) * repulsionStrength M
                          * repulsionWeight M * graceScale * repulsionScale in
              (V3.addScaledVector forceOffset (V3.normalize delta)
                 (push * minSeparation M), V3.normalize delta)
            else (forceOffset, delta) in
          match peakSolids e !! index, peakSolids e !! j with
          | Some solidA, Some solidB =>
              if complementary (actual_category solidA)
                               (actual_category solidB) then
                if withOther then F
                else
                  let inner := minSeparation M * 1.2 in
                  if Rltb dist (complementaryRange M) && Rgtb dist inner then
                    let t := (dist - inner)
                             / Rmax 1e-6 (complementaryRange M - inner) in
                    let t := Rmin (Rmax t 0) 1 in
                    let smooth := (1 - t) * (1 - t) in
                    let pull := complementaryPull M * attractionWeight M
                                * smooth * graceScale in
                    V3.addScaledVector F (V3.normalize delta)
                      (- pull * minSeparation M)
                  else F
              else F
          | _, _ => F
          end
    end.

Definition _applyRepulsionForces (index : nat) (forceOffset : Vector3)
    (e : Engine) : option Vector3 :=
  match peaks e !! index with
  | None => None
  | Some peak =>
      let M := motionSystem e in
      let searchRadius := Rmax (minSeparation M) (complementaryRange M) in
      let nearbyIndices :=
        Grid.getNearby (spatialGrid e) (currentPyramidCenter peak)
          searchRadius in
      Some (fold_left (repulsionFrom e index peak (_pairStates e !! index))
              nearbyIndices forceOffset)
  end.

(** ** _applyExplorationForces *)

(** The four contributions, kept apart so that each can be named. *)
Definition circularPart (M : MotionSystem) (scale seed time : R) : Vector3 :=
  let orbitAngle := time * 0.07 + seed * 0.013 in
  let orbitRadius := 40 in
  let circularDrift := mkV (cos orbitAngle * orbitRadius) 0
                           (sin orbitAngle * orbitRadius) in
  V3.multiplyScalar (V3.normalize circularDrift)
    (circularBias M * explorationWeight M * scale).

Definition noisePart (M : MotionSystem) (scale seed time : R) : Vector3 :=
  let noisePhase := time * 0.12 + seed * 0.3 in
  let noiseX := sin (noisePhase * 1.31 + seed * 0.2) in
  let noiseZ := cos (noisePhase * 1.17 + seed * 0.35) in
  mkV (noiseX * wanderStrength M * scale) 0
      (noiseZ * wanderStrength M * scale).

(** Outer boundary: the push added to the force, and [radial] after the
    in-place [normalize]. *)
Definition outerPart (M : MotionSystem) (radial : Vector3) (radialLen : R)
  : Vector3 * Vector3 :=
  if Rgtb radialLen (maxRange M) then
    let excess := radialLen - maxRange M in
    let pushInward := excess * 0.05 in
    (V3.multiplyScalar (V3.normalize radial) (- pushInward),
     V3.normalize radial)
  else (V3.zero, radial).

(** Center avoidance: the push added to the force. *)
Definition centerAvoidance (M : MotionSystem) (radial : Vector3)
    (radialLen : R) (e : Engine) : Vector3 * Engine :=
  if Rltb radialLen (avoidCenterRadius M) then
    let proximity := 1 - radialLen / avoidCenterRadius M in
    let pushOutward := proximity * proximity * avoidCenterStrength M in
    if Rgtb radialLen 1e-4 then
      (V3.multiplyScalar (V3.normalize radial) pushOutward, e)
    else
      let '(randomDir, e1) := randomDirection e in
      (V3.multiplyScalar randomDir (avoidCenterStrength M), e1)
  else (V3.zero, e).

Definition _applyExplorationForces (index : nat) (forceOffset : Vector3)
    (time : R) (e : Engine) : option (Vector3 * Engine) :=
  match peaks e !! index with
  | None => None
  | Some peak =>
      let M := motionSystem e in
      let isPaired := match _pairStates e !! index with
                      | Some state => negb (partner state =? -1)%Z
                      | None => false
                      end in
      let scale := if isPaired then explorationPairedScale M else 1 in
      let seed := match exploreSeed peak with
                  | Some s => num_or s 0 | None => 0 end in
      let F := V3.add forceOffset (circularPart M scale seed time) in
      let F := V3.add F (noisePart M scale seed time) in
      let radial := V3.setY (currentPyramidCenter peak) 0 in
      let radialLen := V3.length radial in
      let '(push, radial) := outerPart M radial radialLen in
      let F := V3.add F push in
      let '(push, e) := centerAvoidance M radial radialLen e in
      Some (V3.add F push, e)
  end.

(** ** update: the motion part of one frame *)

Definition generateSwarmPeakPositions (numPeaks : nat) (time : R)
  : list Vector3 :=
  let baseRadius := 50 in
  let spread := 75 in
  map (fun i : nat =>
         let t := time + INR i * 10 in
         let angle := sin (t * 0.13 + INR i) * PI
                      + cos (t * 0.17 + INR i * 0.5) * PI * 0.5 in
         let radius := baseRadius + sin (t * 0.07 + INR i) * spread * 0.5
                       + cos (t * 0.11 + INR i) * spread * 0.3 in
         mkV (cos angle * radius) 0 (sin angle * radius))
      (seq 0 numPeaks).

(** The three [while] loops that pad the per-agent arrays; nothing is ever
    removed from them. *)
Definition resizeArrays (e : Engine) : Engine :=
  let n := length (peaks e) in
  let e := set_pairStates e
             (_pairStates e
                ++ replicate (n - length (_pairStates e)) newPairState) in
  let e := set_lastPositions e
             (_lastPositions e
                ++ replicate (n - length (_lastPositions e)) V3.zero) in
  set_velocities e
    (_velocities e ++ replicate (n - length (_velocities e)) V3.zero).

(** [arr[i] = v] on an array of vectors; a slot created by the
    [if (!arr[i])] guards is a zero vector. *)
Definition setAt (l : list Vector3) (i : nat) (v : Vector3) : list Vector3 :=
  if (i <? length l)%nat then <[i := v]> l
  else l ++ replicate (i - length l) V3.zero ++ [v].

(** Damping and clamp of the accumulated force offset. *)
Definition dampForce (M : MotionSystem) (forceOffset : Vector3) : Vector3 :=
  let dampingFactor := 0.85 in
  let F := V3.multiplyScalar forceOffset dampingFactor in
  if Rgtb (V3.length F) (maxOffset M) then V3.setLength F (maxOffset M)
  else F.

(** Velocity blend and clamp: the new stored velocity. *)
Definition stepVelocity (M : MotionSystem) (center baseTarget F : Vector3)
    (paired : bool) (velocity : Vector3) : Vector3 :=
  let swirlWeight := if paired then swarmWeight M * 0.55 else swarmWeight M in
  let swirlTarget := V3.lerp center baseTarget swirlWeight in
  let adjustedTarget := V3.add swirlTarget F in
  let desiredMove := V3.subVectors adjustedTarget center in
  let desiredVel := V3.multiplyScalar desiredMove (followLerp M) in
  let velocity := V3.lerp velocity desiredVel 0.3 in
  if Rgtb (V3.length velocity) (maxVelocity M)
  then V3.setLength velocity (maxVelocity M)
  else velocity.

(** The three force passes for peak [i], starting from a zero offset. *)
Definition accumulateForces (i : nat) (e : Engine)
  : option (Vector3 * Engine) :=
  match _pairStates e !! i with
  | None => None
  | Some _ =>
      let e := set_pairStates e
                 (alter (fun s => set_breakThisFrame s false) i
                    (_pairStates e)) in
      match _applyPairingForces i V3.zero e with
      | None => None
      | Some (F, e) =>
          match _pairStates e !! i with
          | None => None
          | Some st =>
              match (if breakThisFrame st then Some F
                     else _applyRepulsionForces i F e) with
              | None => None
              | Some F => _applyExplorationForces i F (time e) e
              end
          end
      end
  end.

(** The ordinary motion of peak [i]: forces, damping, velocity, position. *)
Definition integratePeak (swarmPositions : list Vector3) (i : nat)
    (peak : Peak) (e : Engine) : option Engine :=
  match swarmPositions !! i with
  | None => None
  | Some baseTarget =>
      match accumulateForces i e with
      | None => None
      | Some (forceOffset, e) =>
          let M := motionSystem e in
          let F := dampForce M forceOffset in
          let velocity := match _velocities e !! i with
                          | Some v => v | None => V3.zero end in
          let paired := match _pairStates e !! i with
                        | Some state => negb (partner state =? -1)%Z
                        | None => false
                        end in
          let center := currentPyramidCenter peak in
          let velocity := stepVelocity M center baseTarget F paired
                            velocity in
          let e := set_velocities e (setAt (_velocities e) i velocity) in
          Some (set_peaks e
                  (alter (fun p => set_center p (V3.add center velocity)) i
                     (peaks e)))
      end
  end.

(** Body of the movement loop for index [i]. *)
Definition movePeak (swarmPositions : list Vector3) (i : nat) (e : Engine)
  : option Engine :=
  match peaks e !! i with
  | None => Some e
  | Some peak =>
      if categoryFilterActive e && negb (categoryVisible peak) then Some e
      else if stopAllMovement e then Some e
      else if evolvingActive e && evolvingLock peak then Some e
      else
        match (if evolvingLock peak then None
               else evolvingTargetCenter peak) with
        | Some target =>
            let speed := match evolvingMoveSpeed peak with
                         | Some s => s | None => 0.1 end in
            let c := V3.lerp (currentPyramidCenter peak) target speed in
            let peak' :=
              if Rltb (V3.distanceTo c target) 0.02
              then set_evolvingLock (set_center peak target) true
              else set_center peak c in
            Some (set_peaks e (<[i := peak']> (peaks e)))
        | None => integratePeak swarmPositions i peak e
        end
  end.

(** The loop that copies every center into [_lastPositions]. *)
Definition recordLastPositions (e : Engine) : Engine :=
  fold_left (fun e i =>
               match peaks e !! i with
               | Some p => set_lastPositions e
                             (setAt (_lastPositions e) i
                                (currentPyramidCenter p))
               | None => e
               end) (seq 0 (length (peaks e))) e.

Definition swarmTargets (e : Engine) : list Vector3 :=
  match frozenSwarmPositions e with
  | Some frozen =>
      if targetLocked e && (length frozen =? length (peaks e))%nat
      then frozen
      else generateSwarmPeakPositions (length (peaks e)) (time e)
  | None => generateSwarmPeakPositions (length (peaks e)) (time e)
  end.

(** One simulation tick: everything [update] does once the frame-skip test
    has passed, up to the grain, solid and lighting updates, which read the
    centers and write none of the fields modelled here. *)
Definition tick (e : Engine) : option Engine :=
  let e := resizeArrays e in
  let swarmPositions := swarmTargets e in
  match _findPairs e with
  | None => None
  | Some e =>
      match foldM (movePeak swarmPositions) (seq 0 (length (peaks e))) e with
      | None => None
      | Some e => Some (recordLastPositions e)
      end
  end.

Definition update (e : Engine) : option Engine :=
  if (length (peaks e) =? 0)%nat then Some e
  else
    let e := set_clock e (time e + 0.016) (frameCounter e + 1)%Z in
    if negb (Z.rem (frameCounter e) (updateInterval e / 16) =? 0)%Z
    then Some e
    else tick e.

(** ** Population changes *)

(** [createSinglePeak(index, totalPeaks)], without the grains. *)
Definition createSinglePeak (index totalPeaks : nat) (e : Engine) : Engine :=
  let peakSpacing := 80 in
  let c := mkV (INR index * peakSpacing - (INR totalPeaks * peakSpacing) / 2)
               0 0 in
  set_peaks e (peaks e ++ [mkPeak c c true None false None None]).

(** [removeSinglePeak(index)]: [peaks.splice(index, 1)] (the height
    history spliced with it is rendering state). *)
Definition removeSinglePeak (index : nat) (e : Engine) : Engine :=
  if (length (peaks e) <=? index)%nat then e
  else set_peaks e (delete index (peaks e)).

Definition repositionPeaks (e : Engine) : Engine :=
  let peakSpacing := 30 in
  let n := length (peaks e) in
  set_peaks e
    (imap (fun i p =>
             let newX := INR i * peakSpacing - (INR n * peakSpacing) / 2 in
             mkPeak (mkV newX (vy (currentPyramidCenter p))
                              (vz (currentPyramidCenter p)))
                    (mkV newX (vy (nextPyramidCenter p))
                              (vz (nextPyramidCenter p)))
                    (categoryVisible p) (exploreSeed p) (evolvingLock p)
                    (evolvingTargetCenter p) (evolvingMoveSpeed p))
          (peaks e)).

Definition adjustPeakCount (targetCount : nat) (e : Engine) : Engine :=
  if (targetCount =? 0)%nat then e
  else
    let currentCount := length (peaks e) in
    let e :=
      if (currentCount <? targetCount)%nat then
        fold_left (fun e i => createSinglePeak i targetCount e)
          (seq currentCount (targetCount - currentCount)) e
      else if (targetCount <? currentCount)%nat then
        fold_left (fun e i => removeSinglePeak i e)
          (rev (seq targetCount (currentCount - targetCount))) e
      else e in
    repositionPeaks e.

(** ** ParticleSystem constructor *)

(** [initPeaks]: ten peaks on the x axis.  A peak literal draws its
    [exploreSeed] first, then each of its 300 grains draws 13 numbers, so
    peak [i] reads draw number [i * 3901]. *)
Definition initPeaks (rng : nat -> R) : list Peak :=
  let numPeaks := 10%nat in
  let peakSpacing := 30 in
  map (fun i : nat =>
         let c := mkV (INR i * peakSpacing - (INR numPeaks * peakSpacing) / 2)
                      0 0 in
         mkPeak c c true (Some (rng (i * 3901)%nat * 1000)) false None None)
      (seq 0 numPeaks).

(** The fields of the motion engine that [new ParticleSystem(scene,
    baseRadius)] builds when it is given a scene; the calls of
    [this.scene.add] are in [ParticleSystem_new] below.  Neither argument
    reaches the grid or the motion table. *)
Definition ParticleSystem_constructor (baseRadius : R) (rng : nat -> R)
  : outcome Engine :=
  match Grid.constructor 50 with
  | Thrown msg => Thrown msg
  | Returned g =>
      Returned
        {| peaks := initPeaks rng;
           peakSolids := [];
           time := 0;
           updateInterval := 40;
           frameCounter := 0;
           targetLocked := false;
           frozenSwarmPositions := None;
           categoryFilterActive := false;
           stopAllMovement := false;
           evolvingActive := false;
           spatialGrid := g;
           motionSystem := defaultMotion;
           _pairStates := [];
           _lastPositions := [];
           _pairDirections := [];
           _velocities := [];
           rng := rng;
           rngPos := (10 * 3901)%nat |}
  end.


(** * Specification vocabulary *)

(** The cell stored under a key, empty when the key is absent. *)
Definition bucket (g : SpatialGrid) (key : Z * Z) : list nat :=
  match grid g !! key with Some c => c | None => [] end.


(** Pairing links are mutual: for indices [i], [j] that both have a state,
    [i]'s partner is [j] exactly when [j]'s partner is [i]. *)
Definition symmetric (ps : list PairState) : Prop :=
  forall (i j : nat) (si sj : PairState),
    ps !! i = Some si -> ps !! j = Some sj ->
    (partner si = Z.of_nat j <-> partner sj = Z.of_nat i).

(** The same on the bare list of partner fields. *)
Definition symZ (P : list Z) : Prop :=
  forall (i j : nat) (a b : Z),
    P !! i = Some a -> P !! j = Some b ->
    (a = Z.of_nat j <-> b = Z.of_nat i).

Definition partners (ps : list PairState) : list Z := partner <$> ps.

(** What makes [j] a pairing candidate for [i] (whose category is [catA]):
    another index, with a peak, unpaired, with no cooldown left and a
    complementary category. *)
Definition eligible (e : Engine) (i : nat) (catA : option string) (j : nat)
  : bool :=
  negb (i =? j)%nat &&
  match _pairStates e !! j, peaks e !! j with
  | Some stB, Some _ =>
      (partner stB =? -1)%Z && negb (0 <? cooldown stB)%Z
      && complementary catA (pairCategory e j)
  | _, _ => false
  end.

(** Distance from [peakA] to the peak at index [j]. *)
Definition distFrom (e : Engine) (peakA : Peak) (j : nat) : R :=
  match peaks e !! j with
  | Some peakB => V3.distanceTo (currentPyramidCenter peakA)
                                (currentPyramidCenter peakB)
  | None => 0
  end.

(** One step of the candidate search, on indices that have a state. *)
Definition pick (e : Engine) (i : nat) (peakA : Peak) (catA : option string)
    (acc : Z * R) (j : nat) : Z * R :=
  if eligible e i catA j && Rleb (distFrom e peakA j) (snd acc)
  then (Z.of_nat j, distFrom e peakA j)
  else acc.

(** Everything a force pass leaves alone: all fields but the pair states,
    the shared headings and the position in the random stream. *)
Definition world (e : Engine) :=
  (peaks e, peakSolids e, time e, updateInterval e, frameCounter e,
   targetLocked e, frozenSwarmPositions e, categoryFilterActive e,
   stopAllMovement e, evolvingActive e, spatialGrid e, motionSystem e,
   _lastPositions e, _velocities e, rng e).

(** Stored partner indices are -1 or the index of an existing state. *)
Definition inRange (ps : list PairState) : Prop :=
  forall (i : nat) (s : PairState),
    ps !! i = Some s ->
    partner s = (-1)%Z \/ (0 <= partner s < Z.of_nat (length ps))%Z.

Definition inRangeZ (P : list Z) : Prop :=
  forall (i : nat) (a : Z),
    P !! i = Some a -> a = (-1)%Z \/ (0 <= a < Z.of_nat (length P))%Z.

(** The invariant of the pairing registry. *)
Definition linked (ps : list PairState) : Prop := symmetric ps /\ inRange ps.

(** The moves of the partner fields: a break clears a link (on both ends
    when the partner has a state), a formation links two unpaired agents,
    a resize appends unpaired slots. *)
Inductive pbreak : list Z -> list Z -> Prop :=
  | pbreak_pair (P : list Z) (i : nat) (p : Z) :
      P !! i = Some p -> (0 <= p)%Z -> is_Some (P !! Z.to_nat p) ->
      pbreak P (alter (fun _ => (-1)%Z) (Z.to_nat p)
                  (alter (fun _ => (-1)%Z) i P))
  | pbreak_one (P : list Z) (i : nat) (p : Z) :
      P !! i = Some p -> (p < 0)%Z \/ P !! Z.to_nat p = None ->
      pbreak P (alter (fun _ => (-1)%Z) i P).

Inductive pstep : list Z -> list Z -> Prop :=
  | pstep_break (P P' : list Z) : pbreak P P' -> pstep P P'
  | pstep_link (P : list Z) (i j : nat) :
      i <> j -> P !! i = Some (-1)%Z -> P !! j = Some (-1)%Z ->
      pstep P (alter (fun _ => Z.of_nat i) j
                 (alter (fun _ => Z.of_nat j) i P))
  | pstep_grow (P : list Z) (n : nat) :
      pstep P (P ++ replicate n (-1)%Z).

Definition linkedZ (P : list Z) : Prop := symZ P /\ inRangeZ P.

(** The fields that neither the pairing pass nor the movement of a peak
    touches. *)
Definition config (e : Engine) :=
  (peakSolids e, time e, updateInterval e, frameCounter e, targetLocked e,
   frozenSwarmPositions e, categoryFilterActive e, stopAllMovement e,
   evolvingActive e, motionSystem e, rng e).


(** Every stored link has its shared heading: the entry of
    [_pairDirections] at the lower index of the pair is present. *)
Definition headed (P : list Z) (D : list (option Vector3)) : Prop :=
  forall (i : nat) (a : Z),
    P !! i = Some a -> a <> (-1)%Z ->
    is_Some (getSparse D (Z.min (Z.of_nat i) a)).

(** Headings are only ever added or replaced. *)
Definition dirsGrow (D D' : list (option Vector3)) : Prop :=
  (length D <= length D')%nat /\
  forall k : Z, is_Some (getSparse D k) -> is_Some (getSparse D' k).

(** The invariant of the engine between ticks. *)
Definition wf (e : Engine) : Prop :=
  linked (_pairStates e)
  /\ headed (partners (_pairStates e)) (_pairDirections e).

(** The spatial grid holds exactly the current centers. *)
Definition gridBuilt (e : Engine) : Prop :=
  spatialGrid e
  = Grid.insertAll (Grid.clear (spatialGrid e))
      (imap (fun i p => (i, currentPyramidCenter p)) (peaks e)).

(** Every index stored in the grid is below [n]. *)
Definition gridBound (g : SpatialGrid) (n : nat) : Prop :=
  forall (key : Z * Z) (j : nat), In j (bucket g key) -> (j < n)%nat.

(** [headed] on an engine state. *)
Definition headedE (e : Engine) : Prop :=
  headed (partners (_pairStates e)) (_pairDirections e).

(** ** Concrete scenes *)

(** A peak at [c] with default flags, as [createSinglePeak] makes it. *)
Definition peakAt (c : Vector3) : Peak := mkPeak c c true None false None None.

(** A solid whose solution carries the category [c]. *)
Definition solidOf (c : string) : Solid := mkSolid (Some c) None.

(** An unpaired state, and a state paired with [p]. *)
Definition pairedWith (p : Z) : PairState := set_partner newPairState p.

(** An engine as the constructor leaves it, with the given population,
    solids, pair states and headings, and a constant random stream. *)
Definition sceneOf (pks : list Peak) (solids : list Solid)
    (ps : list PairState) (dirs : list (option Vector3)) (r : R) : Engine :=
  {| peaks := pks;
     peakSolids := solids;
     time := 0;
     updateInterval := 40;
     frameCounter := 0;
     targetLocked := false;
     frozenSwarmPositions := None;
     categoryFilterActive := false;
     stopAllMovement := false;
     evolvingActive := false;
     spatialGrid := mkGrid 50 ∅;
     motionSystem := defaultMotion;
     _pairStates := ps;
     _lastPositions := [];
     _pairDirections := dirs;
     _velocities := [];
     rng := fun _ => r;
     rngPos := 0 |}.

(** Two complementary agents, paired with each other, [d] units apart on
    the x axis. *)
Definition coupleScene (d : R) : Engine :=
  sceneOf [peakAt (mkV 0 0 0); peakAt (mkV d 0 0)]
          [solidOf "low"; solidOf "mid"]
          [pairedWith 1; pairedWith 0]
          [Some (mkV 1 0 0)] 0.

(** The state of an agent right after a distance break from [other]. *)
Definition brokenFrom (M : MotionSystem) (other : nat) (s : PairState)
  : Prop :=
  partner s = (-1)%Z /\ frames s = 0%Z /\ cooldown s = pairCooldown M
  /\ breakGrace s = breakGraceFrames M /\ breakPartner s = Z.of_nat other.

(** The couple [i], [j] is still linked and untouched. *)
Definition stillLinked (i j : nat) (si sj : PairState) (e' : Engine) : Prop :=
  _pairStates e' !! i = Some si /\ _pairStates e' !! j = Some sj.

(** Both members carry the marks of a break from each other. *)
Definition bothBroken (M : MotionSystem) (i j : nat) (e' : Engine) : Prop :=
  exists si' sj',
    _pairStates e' !! i = Some si' /\ _pairStates e' !! j = Some sj' /\
    brokenFrom M j si' /\ brokenFrom M i sj'.

(** One "low" agent at the origin and two "mid" agents, both 10 units
    away from it, all unpaired; the grid holds the three centers. *)
Definition tieScene : Engine :=
  rebuildGrid
    (sceneOf [peakAt (mkV 0 0 0); peakAt (mkV 10 0 0); peakAt (mkV 0 0 10)]
             [solidOf "low"; solidOf "mid"; solidOf "mid"]
             [newPairState; newPairState; newPairState]
             [] 0).

(** Ten peaks as [initPeaks] places them, agents 3 and 7 paired with each
    other, and the auxiliary arrays sized by an earlier tick. *)
Definition crowdScene : Engine :=
  resizeArrays
    (sceneOf (map (fun i : nat => peakAt (mkV (INR i * 30 - 150) 0 0))
                  (seq 0 10))
             []
             (<[7%nat := pairedWith 3]>
                (<[3%nat := pairedWith 7]> (replicate 10 newPairState)))
             [None; None; None; Some (mkV 1 0 0)] 0).

(** A lone agent at [c] on a stream of draws that are all [r]. *)
Definition loneScene (c : Vector3) (r : R) : Engine :=
  sceneOf [peakAt c] [] [newPairState] [] r.

(** The first statement of the force passes of peak [i]: its break flag
    is lowered. *)
Definition resetFlag (i : nat) (e : Engine) : Engine :=
  set_pairStates e
    (alter (fun s => set_breakThisFrame s false) i (_pairStates e)).

(** Whether the lower-indexed member redraws the heading jitter on this
    frame (one more [Math.random()] call before the break test). *)
Definition jitters (i : nat) (state : PairState) (M : MotionSystem) : bool :=
  (Z.of_nat i =? Z.min (Z.of_nat i) (partner state))%Z
  && (Z.rem (frames state + 1) (pairJitterInterval M) =? 0)%Z.

(** Position in the random stream of the draw compared with
    [pairBreakProb]: after two draws per heading padded by the [while]
    loop, the jitter draw if any, and the two wander draws. *)
Definition breakDrawPos (i : nat) (state : PairState) (e : Engine) : nat :=
  (rngPos e + 2 * (length (peaks e) - length (_pairDirections e))
   + (if jitters i state (motionSystem e) then 1 else 0) + 2)%nat.

(** The pairing-force pass of agent [i] triggers a probabilistic break. *)
Definition breakTriggered (i : nat) (e : Engine) : Prop :=
  exists state peak partnerPeak,
    _pairStates e !! i = Some state /\ peaks e !! i = Some peak /\
    partner state <> (-1)%Z /\
    lookupZ (peaks e) (partner state) = Some partnerPeak /\
    1e-6 <= V3.length (V3.subVectors (currentPyramidCenter partnerPeak)
                                     (currentPyramidCenter peak)) /\
    (pairMinFrames (motionSystem e) < frames state + 1)%Z /\
    rng e (breakDrawPos i state e) < pairBreakProb (motionSystem e).

(** The force offset of agent [q] goes through all three passes. *)
Definition repulsionApplied (q : nat) (e : Engine) : Prop :=
  exists F1 e1 F2,
    _applyPairingForces q V3.zero (resetFlag q e) = Some (F1, e1) /\
    _applyRepulsionForces q F1 e1 = Some F2 /\
    accumulateForces q e = _applyExplorationForces q F2 (time e1) e1.

(** The force offset of agent [q] skips the repulsion pass. *)
Definition repulsionSkipped (q : nat) (e : Engine) : Prop :=
  exists F1 e1 st,
    _applyPairingForces q V3.zero (resetFlag q e) = Some (F1, e1) /\
    _pairStates e1 !! q = Some st /\ partner st = (-1)%Z /\
    breakThisFrame st = true /\
    accumulateForces q e = _applyExplorationForces q F1 (time e1) e1 /\
    is_Some (accumulateForces q e).

(** A couple that has been paired for 500 frames, on a stream of draws
    that are all 0. *)
Definition agedCouple : Engine :=
  sceneOf [peakAt (mkV 0 0 0); peakAt (mkV 10 0 0)]
          [solidOf "low"; solidOf "mid"]
          [set_frames (pairedWith 1) 500; set_frames (pairedWith 0) 500]
          [Some (mkV 1 0 0)] 0.

(** ** The horizontal plane *)

Definition flatVecs (l : list Vector3) : Prop :=
  forall (i : nat) (v : Vector3), l !! i = Some v -> vy v = 0.

Definition flatDirs (D : list (option Vector3)) : Prop :=
  forall (k : nat) (d : Vector3), D !! k = Some (Some d) -> vy d = 0.

Definition flatStates (ps : list PairState) : Prop :=
  forall (i : nat) (s : PairState),
    ps !! i = Some s -> vy (breakHeading s) = 0.

Definition flatPeaks (pks : list Peak) : Prop :=
  forall (i : nat) (p : Peak),
    pks !! i = Some p ->
    vy (currentPyramidCenter p) = 0
    /\ forall t, evolvingTargetCenter p = Some t -> vy t = 0.

(** Every vector the motion engine works with lies in the plane y = 0. *)
Definition flat (e : Engine) : Prop :=
  flatPeaks (peaks e) /\ flatVecs (_velocities e)
  /\ flatVecs (_lastPositions e) /\ flatDirs (_pairDirections e)
  /\ flatStates (_pairStates e)
  /\ forall fz, frozenSwarmPositions e = Some fz -> flatVecs fz.

(** All agents are at one height. *)
Definition level (pks : list Peak) : Prop :=
  forall (j k : nat) (p q : Peak),
    pks !! j = Some p -> pks !! k = Some q ->
    vy (currentPyramidCenter p) = vy (currentPyramidCenter q).

(** * The mode switches of the engine *)

Definition set_evolvingActive (e : Engine) (v : bool) : Engine :=
  mkEngine (peaks e) (peakSolids e) (time e) (updateInterval e)
    (frameCounter e) (targetLocked e) (frozenSwarmPositions e)
    (categoryFilterActive e) (stopAllMovement e) v
    (spatialGrid e) (motionSystem e) (_pairStates e) (_lastPositions e)
    (_pairDirections e) (_velocities e) (rng e) (rngPos e).
Definition set_categoryFilterActive (e : Engine) (v : bool) : Engine :=
  mkEngine (peaks e) (peakSolids e) (time e) (updateInterval e)
    (frameCounter e) (targetLocked e) (frozenSwarmPositions e)
    v (stopAllMovement e) (evolvingActive e)
    (spatialGrid e) (motionSystem e) (_pairStates e) (_lastPositions e)
    (_pairDirections e) (_velocities e) (rng e) (rngPos e).
Definition set_categoryVisible (p : Peak) (v : bool) : Peak :=
  mkPeak (currentPyramidCenter p) (nextPyramidCenter p) v (exploreSeed p)
    (evolvingLock p) (evolvingTargetCenter p) (evolvingMoveSpeed p).

(** A solid is passed to the engine by reference.  A reference is
    modelled by the position of the object in [peakSolids] (the solids of
    that array are distinct objects, one per solution); a number that is
    not a position stands for an object that is not in the array. *)
Definition indexOfSolid (e : Engine) (solid : nat) : option nat :=
  if (solid <? length (peakSolids e))%nat then Some solid else None.

(** ** Evolving alignment *)

(** Body of [targetList.forEach] in [startEvolvingAlignment]; an entry is
    [{solid, target}]. *)
Definition aimPeak (entry : nat * Vector3) (e : Engine) : Engine :=
  match indexOfSolid e (fst entry) with
  | Some peakIndex =>
      set_peaks e
        (alter (fun peak =>
                  mkPeak (currentPyramidCenter peak) (nextPyramidCenter peak)
                    (categoryVisible peak) (exploreSeed peak)
                    false (Some (snd entry)) (Some 0.12))
           peakIndex (peaks e))
  | None => e
  end.

(** [startEvolvingAlignment(targetList)] (the second definition in the
    class body, which is the one in effect). *)
Definition startEvolvingAlignment (targetList : list (nat * Vector3))
    (e : Engine) : Engine :=
  match targetList with
  | [] => e
  | _ => fold_left (fun e entry => aimPeak entry e) targetList
           (set_evolvingActive e true)
  end.

(** Body of [targetList.forEach] in [startEvolvingAlignmentInstant],
    without the grains and the solid's own position. *)
Definition snapPeak (entry : nat * Vector3) (e : Engine) : Engine :=
  match indexOfSolid e (fst entry) with
  | Some peakIndex =>
      match peaks e !! peakIndex with
      | Some peak =>
          let target := snd entry in
          let e := set_peaks e
                     (<[peakIndex :=
                          set_evolvingLock (set_center peak target) true]>
                        (peaks e)) in
          let e := set_lastPositions e
                     (<[peakIndex := target]> (_lastPositions e)) in
          set_velocities e (<[peakIndex := V3.zero]> (_velocities e))
      | None => e
      end
  | None => e
  end.

(** [startEvolvingAlignmentInstant(targetList)]. *)
Definition startEvolvingAlignmentInstant (targetList : list (nat * Vector3))
    (e : Engine) : Engine :=
  match targetList with
  | [] => e
  | _ =>
      let e := set_evolvingActive e true in
      let n := length (peaks e) in
      let e := set_lastPositions e
                 (_lastPositions e
                    ++ replicate (n - length (_lastPositions e)) V3.zero) in
      let e := set_velocities e
                 (_velocities e
                    ++ replicate (n - length (_velocities e)) V3.zero) in
      fold_left (fun e entry => snapPeak entry e) targetList e
  end.

(** [stopEvolvingAlignment()]: the three evolving fields are deleted from
    every peak, so that they read as [undefined]. *)
Definition stopEvolvingAlignment (e : Engine) : Engine :=
  set_peaks (set_evolvingActive e false)
    (map (fun p => mkPeak (currentPyramidCenter p) (nextPyramidCenter p)
                     (categoryVisible p) (exploreSeed p) false None None)
         (peaks e)).

(** ** Category filter *)

(** [applyCategoryVisibilityBySolids(visibleSolids, grainsPerSolution)]:
    the flag and the visibility of every peak (the [visible] flags of
    solids and grains are rendering state). *)
Definition applyCategoryVisibilityBySolids (visibleSolids : list nat)
    (e : Engine) : Engine :=
  set_peaks (set_categoryFilterActive e true)
    (imap (fun i peak =>
             let isVisible :=
               match peakSolids e !! i with
               | Some _ => bool_decide (i ∈ visibleSolids)
               | None => false
               end in
             set_categoryVisible peak isVisible)
          (peaks e)).

(** [clearCategoryVisibility()]. *)
Definition clearCategoryVisibility (e : Engine) : Engine :=
  set_peaks (set_categoryFilterActive e false)
    (map (fun peak => set_categoryVisible peak true) (peaks e)).

(** ** Further scenes *)


(** ** Exploration *)

(** The factor [scale] of [_applyExplorationForces] for agent [index]. *)
Definition explorationScale (e : Engine) (index : nat) : R :=
  match _pairStates e !! index with
  | Some state =>
      if negb (partner state =? -1)%Z
      then explorationPairedScale (motionSystem e) else 1
  | None => 1
  end.


(** ** The movement loop *)



(** ** Population layout *)

(** Where [repositionPeaks] puts peak [i] of [n] on the x axis. *)
Definition slotX (i n : nat) : R := INR i * 30 - (INR n * 30) / 2.

(** A peak moved to the x coordinate [x], as [repositionPeaks] does. *)
Definition movedToX (p : Peak) (x : R) : Peak :=
  mkPeak (mkV x (vy (currentPyramidCenter p)) (vz (currentPyramidCenter p)))
         (mkV x (vy (nextPyramidCenter p)) (vz (nextPyramidCenter p)))
         (categoryVisible p) (exploreSeed p) (evolvingLock p)
         (evolvingTargetCenter p) (evolvingMoveSpeed p).

(** ** The engine in use *)

(** [this.peakSolids = ...]: the array is replaced as a whole by
    [regenerateWithSolutions]. *)
Definition set_peakSolids (e : Engine) (v : list Solid) : Engine :=
  mkEngine (peaks e) v (time e) (updateInterval e)
    (frameCounter e) (targetLocked e) (frozenSwarmPositions e)
    (categoryFilterActive e) (stopAllMovement e) (evolvingActive e)
    (spatialGrid e) (motionSystem e) (_pairStates e) (_lastPositions e)
    (_pairDirections e) (_velocities e) (rng e) (rngPos e).

(** The three fields that save mode writes from outside the class:
    [targetLocked], [stopAllMovement] and [frozenSwarmPositions]. *)
Definition set_saveMode (e : Engine) (locked stop : bool)
    (frozen : option (list Vector3)) : Engine :=
  mkEngine (peaks e) (peakSolids e) (time e) (updateInterval e)
    (frameCounter e) locked frozen
    (categoryFilterActive e) stop (evolvingActive e)
    (spatialGrid e) (motionSystem e) (_pairStates e) (_lastPositions e)
    (_pairDirections e) (_velocities e) (rng e) (rngPos e).

(** The states an engine can be in: built by the constructor, then any
    sequence of frames, population changes, alignments, filters, and
    writes of the solids array and of the save-mode fields with
    arbitrary values (which covers [regenerateWithSolutions] and
    [ensureArraySizes], whatever the solid factory returns). *)
Inductive reachable : Engine -> Prop :=
  | reach_new (baseRadius : R) (rng : nat -> R) (e : Engine) :
      ParticleSystem_constructor baseRadius rng = Returned e -> reachable e
  | reach_update (e e' : Engine) :
      reachable e -> update e = Some e' -> reachable e'
  | reach_adjust (e : Engine) (targetCount : nat) :
      reachable e -> reachable (adjustPeakCount targetCount e)
  | reach_aim (e : Engine) (targetList : list (nat * Vector3)) :
      reachable e -> reachable (startEvolvingAlignment targetList e)
  | reach_snap (e : Engine) (targetList : list (nat * Vector3)) :
      reachable e -> reachable (startEvolvingAlignmentInstant targetList e)
  | reach_stop (e : Engine) :
      reachable e -> reachable (stopEvolvingAlignment e)
  | reach_filter (e : Engine) (visibleSolids : list nat) :
      reachable e ->
      reachable (applyCategoryVisibilityBySolids visibleSolids e)
  | reach_clear (e : Engine) :
      reachable e -> reachable (clearCategoryVisibility e)
  | reach_solids (e : Engine) (solids : list Solid) :
      reachable e -> reachable (set_peakSolids e solids)
  | reach_save (e : Engine) (locked stop : bool)
      (frozen : option (list Vector3)) :
      reachable e -> reachable (set_saveMode e locked stop frozen).

(** ** Pair formation *)



(** ** What the pairing pass reads *)

(** All that [_findPairs] reads of an engine: the centers of the peaks,
    the solids, the motion table, the pair states, the shared headings,
    the random stream and the cell size of the grid. *)
Definition pairingInput (e : Engine) :=
  (map currentPyramidCenter (peaks e), peakSolids e, motionSystem e,
   _pairStates e, _pairDirections e, rng e, rngPos e,
   cellSize (spatialGrid e)).

(** The same with the whole grid, which the pass rewrites. *)
Definition pairingView (e : Engine) :=
  (map currentPyramidCenter (peaks e), peakSolids e, motionSystem e,
   _pairStates e, _pairDirections e, rng e, rngPos e, spatialGrid e).

(** * The engine in double precision

    The definitions above compute with exact reals.  Where a property
    depends on how a comparison, a floor or a rescaling comes out, the
    code is modelled again with the arithmetic of IEEE 754 binary64: a
    double is the real number it stands for, and [+], [-], [*], [/] and
    [Math.sqrt] return the exact result rounded to the nearest double,
    ties to even.  [Math.floor] and [Math.ceil] are exact.  Infinities,
    NaN and the sign of zero have no counterpart here: a result beyond
    the largest double, and a division by zero, are outside this model. *)

(** ** IEEE 754 binary64 rounding *)

Module Dbl.

(** [2^k] for an integer [k]. *)
Definition pow2 (k : Z) : R :=
  if (0 <=? k)%Z then IZR (2 ^ k) else / IZR (2 ^ (- k)).

(** [floor(log2 |x|)] for [x <> 0]. *)
Definition mag (x : R) : Z := Zfloor (ln (Rabs x) / ln 2).

(** Nearest integer, ties to even. *)
Definition nearestE (y : R) : Z :=
  let f := Zfloor y in
  if Rltb (y - IZR f) (1 / 2) then f
  else if Rltb (1 / 2) (y - IZR f) then (f + 1)%Z
  else if Z.even f then f else (f + 1)%Z.

(** The exponent of the binade of [x], not below that of the subnormal
    numbers. *)
Definition expo (x : R) : Z := Z.max (mag x) (-1022).

(** Round to nearest, ties to even, on 53 significant bits with gradual
    underflow: the result of every basic operation on doubles is [rnd] of
    the exact result, as long as it does not overflow. *)
Definition rnd (x : R) : R :=
  IZR (nearestE (x * pow2 (52 - expo x))) * pow2 (expo x - 52).

Definition add (a b : R) : R := rnd (a + b).
Definition sub (a b : R) : R := rnd (a - b).
Definition mul (a b : R) : R := rnd (a * b).
Definition div (a b : R) : R := rnd (a / b).
Definition sqrt (a : R) : R := rnd (R_sqrt.sqrt a).

End Dbl.

(** ** THREE.Vector3 on doubles *)

Module DblV3.

Definition add (a b : Vector3) : Vector3 :=
  mkV (Dbl.add (vx a) (vx b)) (Dbl.add (vy a) (vy b)) (Dbl.add (vz a) (vz b)).

Definition subVectors (a b : Vector3) : Vector3 :=
  mkV (Dbl.sub (vx a) (vx b)) (Dbl.sub (vy a) (vy b)) (Dbl.sub (vz a) (vz b)).

Definition multiplyScalar (a : Vector3) (s : R) : Vector3 :=
  mkV (Dbl.mul (vx a) s) (Dbl.mul (vy a) s) (Dbl.mul (vz a) s).

Definition divideScalar (a : Vector3) (s : R) : Vector3 :=
  multiplyScalar a (Dbl.div 1 s).

(** [Math.sqrt(x * x + y * y + z * z)], summed from the left. *)
Definition length (a : Vector3) : R :=
  Dbl.sqrt (Dbl.add (Dbl.add (Dbl.mul (vx a) (vx a)) (Dbl.mul (vy a) (vy a)))
                    (Dbl.mul (vz a) (vz a))).

Definition normalize (a : Vector3) : Vector3 :=
  divideScalar a (num_or (length a) 1).

Definition setLength (a : Vector3) (l : R) : Vector3 :=
  multiplyScalar (normalize a) l.

(** [this.x += (v.x - this.x) * alpha], and so on. *)
Definition lerp (a v : Vector3) (alpha : R) : Vector3 :=
  mkV (Dbl.add (vx a) (Dbl.mul (Dbl.sub (vx v) (vx a)) alpha))
      (Dbl.add (vy a) (Dbl.mul (Dbl.sub (vy v) (vy a)) alpha))
      (Dbl.add (vz a) (Dbl.mul (Dbl.sub (vz v) (vz a)) alpha)).

Definition distanceToSquared (a v : Vector3) : R :=
  let dx := Dbl.sub (vx a) (vx v) in
  let dy := Dbl.sub (vy a) (vy v) in
  let dz := Dbl.sub (vz a) (vz v) in
  Dbl.add (Dbl.add (Dbl.mul dx dx) (Dbl.mul dy dy)) (Dbl.mul dz dz).

Definition distanceTo (a v : Vector3) : R :=
  Dbl.sqrt (distanceToSquared a v).

End DblV3.

(** ** SpatialGrid on doubles

    A cell index is an integer-valued double; [cx + dx] is a double
    addition, and the key is the decimal string of its result. *)

Module DblGrid.

Definition _hash (g : SpatialGrid) (x z : R) : Z * Z :=
  (Zfloor (Dbl.div x (cellSize g)), Zfloor (Dbl.div z (cellSize g))).

Definition clear (g : SpatialGrid) : SpatialGrid := mkGrid (cellSize g) ∅.

Definition insert (g : SpatialGrid) (index : nat) (position : Vector3)
  : SpatialGrid :=
  let key := _hash g (vx position) (vz position) in
  let cell := match grid g !! key with Some c => c | None => [] end in
  mkGrid (cellSize g) (<[key := cell ++ [index]]> (grid g)).

Definition insertAll (g : SpatialGrid) (agents : list (nat * Vector3))
  : SpatialGrid :=
  fold_left (fun g a => insert g (fst a) (snd a)) agents g.

(** [cx + dx] of the key. *)
Definition cellKey (c d : Z) : Z := Zfloor (Dbl.add (IZR c) (IZR d)).

(** [None]: the call does not return.  The counter of
    [for (let d = -cells; d <= cells; d++)] stops advancing at [2^53],
    so the loop does not end when [cells] is [2^53] or more; below that
    the counter takes the integers from [-cells] to [cells].  With a cell
    size of 0 the quotient is [Infinity] for a positive radius (the loop
    does not end) and NaN or [-Infinity] otherwise (the loop body never
    runs). *)
Definition getNearby (g : SpatialGrid) (position : Vector3) (radius : R)
  : option (list nat) :=
  if Req_dec_T (cellSize g) 0 then
    if Rltb 0 radius then None else Some []
  else
    let cells := Zceil (Dbl.div radius (cellSize g)) in
    if (2 ^ 53 <=? cells)%Z then None
    else
      let cx := Zfloor (Dbl.div (vx position) (cellSize g)) in
      let cz := Zfloor (Dbl.div (vz position) (cellSize g)) in
      Some (flat_map (fun dx =>
              flat_map (fun dz =>
                match grid g !! (cellKey cx dx, cellKey cz dz) with
                | Some cell => cell
                | None => []
                end) (Grid.offsets cells)) (Grid.offsets cells)).

End DblGrid.

(** ** The pairing pass and the velocity step on doubles *)

Module DblPS.

Definition rebuildGrid (e : Engine) : Engine :=
  set_spatialGrid e
    (DblGrid.insertAll (DblGrid.clear (spatialGrid e))
       (imap (fun i p => (i, currentPyramidCenter p)) (peaks e))).

(** Body of the distance-break loop for index [i]. *)
Definition breakCheck (i : nat) (e : Engine) : Engine :=
  match _pairStates e !! i with
  | None => e
  | Some state =>
      let partnerIdx := partner state in
      if (partnerIdx =? -1)%Z then e
      else
        match lookupZ (_pairStates e) partnerIdx,
              peaks e !! i, lookupZ (peaks e) partnerIdx with
        | Some partnerState, Some A, Some B =>
            let dist := DblV3.distanceTo (currentPyramidCenter A)
                                         (currentPyramidCenter B) in
            if Rgtb dist (pairKeepRadius (motionSystem e)) then
              set_pairStates e
                (breakWrites (motionSystem e) i partnerIdx (_pairStates e))
            else e
        | _, _, _ => e
        end
  end.

Definition breakLoop (e : Engine) : Engine :=
  fold_left (fun e i => breakCheck i e) (seq 0 (List.length (_pairStates e))) e.

(** Body of [for (const j of nearbyIndices)]; [None] is the TypeError of
    reading [stB.partner] on a missing state. *)
Definition considerCandidate (e : Engine) (i : nat) (peakA : Peak)
    (catA : option string) (j : nat) (acc : Z * R) : option (Z * R) :=
  if (i =? j)%nat then Some acc
  else
    match _pairStates e !! j with
    | None => None
    | Some stB =>
        if negb (partner stB =? -1)%Z || (0 <? cooldown stB)%Z then Some acc
        else
          match peaks e !! j with
          | None => Some acc
          | Some peakB =>
              let catB := pairCategory e j in
              if negb (complementary catA catB) then Some acc
              else
                let dist := DblV3.distanceTo (currentPyramidCenter peakA)
                                             (currentPyramidCenter peakB) in
                if Rleb dist (snd acc) then Some (Z.of_nat j, dist)
                else Some acc
          end
    end.

(** The candidate search of the formation pass for agent [i]; [None]
    when the grid query does not return or the loop raises. *)
Definition bestCandidate (e : Engine) (i : nat) (peakA : Peak)
    (catA : option string) : option (Z * R) :=
  match DblGrid.getNearby (spatialGrid e) (currentPyramidCenter peakA)
          (pairFormRadius (motionSystem e)) with
  | None => None
  | Some nearbyIndices =>
      foldM (considerCandidate e i peakA catA) nearbyIndices
        (-1, pairFormRadius (motionSystem e))%Z
  end.

Definition randomDirection (e : Engine) : Vector3 * Engine :=
  let '(r1, e1) := random e in
  let '(r2, e2) := random e1 in
  (DblV3.normalize (mkV (Dbl.sub r1 0.5) 0 (Dbl.sub r2 0.5)), e2).

Definition linkPair (i : nat) (bestPartner : Z) (e : Engine) : Engine :=
  let ps := alter (fun s => set_frames (set_partner s bestPartner) 0) i
              (_pairStates e) in
  let ps := alter (fun s => set_frames (set_partner s (Z.of_nat i)) 0)
              (Z.to_nat bestPartner) ps in
  let e1 := set_pairStates e ps in
  let pairIndex := Z.min (Z.of_nat i) bestPartner in
  match getSparse (_pairDirections e1) pairIndex with
  | Some _ => e1
  | None =>
      let '(d, e2) := randomDirection e1 in
      set_pairDirections e2
        (setSparse (_pairDirections e2) (Z.to_nat pairIndex) d)
  end.

(** Body of the formation loop for index [i]. *)
Definition formPair (i : nat) (e : Engine) : option Engine :=
  match _pairStates e !! i with
  | None => None
  | Some state =>
      if negb (partner state =? -1)%Z || (0 <? cooldown state)%Z then Some e
      else
        match peaks e !! i with
        | None => Some e
        | Some peakA =>
            let catA := pairCategory e i in
            if negb (truthy catA) then Some e
            else
              match bestCandidate e i peakA catA with
              | None => None
              | Some (bestPartner, _) =>
                  if (bestPartner =? -1)%Z then Some e
                  else Some (linkPair i bestPartner e)
              end
        end
  end.

(** The velocity after [velocity.lerp(desiredVel, 0.3)]; the literals
    0.55 and 0.3 are the doubles nearest to them. *)
Definition blendVelocity (M : MotionSystem) (center baseTarget F : Vector3)
    (paired : bool) (velocity : Vector3) : Vector3 :=
  let swirlWeight := if paired then Dbl.mul (swarmWeight M) (Dbl.rnd 0.55)
                     else swarmWeight M in
  let swirlTarget := DblV3.lerp center baseTarget swirlWeight in
  let adjustedTarget := DblV3.add swirlTarget F in
  let desiredMove := DblV3.subVectors adjustedTarget center in
  let desiredVel := DblV3.multiplyScalar desiredMove (followLerp M) in
  DblV3.lerp velocity desiredVel (Dbl.rnd 0.3).

(** [if (velocity.length() > M.maxVelocity)
       velocity.setLength(M.maxVelocity)]. *)
Definition clampVelocity (M : MotionSystem) (velocity : Vector3) : Vector3 :=
  if Rgtb (DblV3.length velocity) (maxVelocity M)
  then DblV3.setLength velocity (maxVelocity M)
  else velocity.

(** The velocity stored by the integration step. *)
Definition stepVelocity (M : MotionSystem) (center baseTarget F : Vector3)
    (paired : bool) (velocity : Vector3) : Vector3 :=
  clampVelocity M (blendVelocity M center baseTarget F paired velocity).

(** Distance from [peakA] to the peak at index [j], as [distanceTo]
    computes it. *)
Definition distFrom (e : Engine) (peakA : Peak) (j : nat) : R :=
  match peaks e !! j with
  | Some peakB => DblV3.distanceTo (currentPyramidCenter peakA)
                                   (currentPyramidCenter peakB)
  | None => 0
  end.

(** One step of the candidate search, on indices that have a state. *)
Definition pick (e : Engine) (i : nat) (peakA : Peak) (catA : option string)
    (acc : Z * R) (j : nat) : Z * R :=
  if eligible e i catA j && Rleb (distFrom e peakA j) (snd acc)
  then (Z.of_nat j, distFrom e peakA j)
  else acc.

(** The spatial grid holds exactly the current centers. *)
Definition gridBuilt (e : Engine) : Prop :=
  spatialGrid e
  = DblGrid.insertAll (DblGrid.clear (spatialGrid e))
      (imap (fun i p => (i, currentPyramidCenter p)) (peaks e)).

End DblPS.

(** ** The constructor and its scene argument *)

(** A [THREE.Scene] object. *)
Inductive Scene : Type := THREE_Scene.

(** [new ParticleSystem(scene, baseRadius)]; no scene is [undefined].
    The grid is built first; then [initPeaks] calls
    [this.scene.add(grain)] for its first grain, which raises a
    TypeError when there is no scene.  With a scene the fields of the
    motion engine are those of [ParticleSystem_constructor]. *)
Definition ParticleSystem_new (scene : option Scene) (baseRadius : R)
    (rng : nat -> R) : outcome Engine :=
  match Grid.constructor 50 with
  | Thrown msg => Thrown msg
  | Returned _ =>
      match scene with
      | None =>
          Thrown "TypeError: Cannot read properties of undefined (reading 'add')"
      | Some _ => ParticleSystem_constructor baseRadius rng
      end
  end.

(** ** Concrete inputs on doubles *)

(** A grid whose cell size is the double next above 1. *)
Definition skewGrid : SpatialGrid := mkGrid (1 + Dbl.pow2 (-52)) ∅.

(** A couple just beyond the keep radius of 35: agent 1 is at
    (21 + 2^-48, 0, 28), which is the double 21.000000000000004. *)
Definition grazeScene : Engine :=
  sceneOf [peakAt (mkV 0 0 0); peakAt (mkV (21 + Dbl.pow2 (-48)) 0 28)]
          [solidOf "low"; solidOf "mid"]
          [pairedWith 1; pairedWith 0]
          [Some (mkV 1 0 0)] 0.

(** One "low" agent at the origin and two "mid" agents, both 10 units
    away from it, all unpaired; the grid holds the three centers. *)
Definition tieSceneD : Engine :=
  DblPS.rebuildGrid
    (sceneOf [peakAt (mkV 0 0 0); peakAt (mkV 10 0 0); peakAt (mkV 0 0 10)]
             [solidOf "low"; solidOf "mid"; solidOf "mid"]
             [newPairState; newPairState; newPairState]
             [] 0).

(** ** Rounding errors *)

(** Half a unit in the last place, and half the spacing of the
    subnormal numbers. *)
Definition u53 : R := Dbl.pow2 (-53).
Definition eta : R := Dbl.pow2 (-1075).

(** The sum of squares as [length] computes it. *)
Definition sumSq (v : Vector3) : R :=
  Dbl.add (Dbl.add (Dbl.mul (vx v) (vx v)) (Dbl.mul (vy v) (vy v)))
          (Dbl.mul (vz v) (vz v)).

(** What rounding can cost a grid query: [2^-53] times the magnitudes of
    the coordinates involved and of the radius, for the three quotients
    by the cell size, and [3 * 2^-1075] cell sizes for their underflow. *)
Definition querySlack (g : SpatialGrid) (p q : Vector3) (radius : R) : R :=
  u53 * (Rabs (vx p) + Rabs (vx q) + Rabs (vz p) + Rabs (vz q) + radius)
  + 3 * eta * cellSize g.

(** * Properties *)

(** ** Boolean comparisons *)

Lemma Rltb_true a b : Rltb a b = true <-> a < b.
Proof. unfold Rltb. destruct (Rlt_dec a b); split; auto; discriminate. Qed.

Lemma Rltb_false a b : Rltb a b = false <-> b <= a.
Proof.
  unfold Rltb. destruct (Rlt_dec a b); split; auto; try discriminate; lra.
Qed.

Lemma Rleb_true a b : Rleb a b = true <-> a <= b.
Proof. unfold Rleb. destruct (Rle_dec a b); split; auto; discriminate. Qed.

Lemma Rleb_false a b : Rleb a b = false <-> b < a.
Proof.
  unfold Rleb. destruct (Rle_dec a b); split; auto; try discriminate; lra.
Qed.


(** ** SpatialGrid: cell size and offsets *)

Lemma insertAll_cellSize agents g :
  cellSize (Grid.insertAll g agents) = cellSize g.
Proof.
  unfold Grid.insertAll. revert g.
  induction agents as [|a agents IH]; intros g; simpl; [done|].
  by rewrite IH.
Qed.

Lemma offsets_spec cells d :
  (- cells <= d <= cells)%Z -> In d (Grid.offsets cells).
Proof.
  intros Hd. unfold Grid.offsets. apply in_map_iff.
  exists (Z.to_nat (d + cells)). split; [lia|].
  apply in_seq. lia.
Qed.

(** ** Generic facts on the helpers *)

Lemma foldM_inv {A S} (f : A -> S -> option S) (P : S -> Prop) l :
  (forall a s s', f a s = Some s' -> P s -> P s') ->
  forall s s', foldM f l s = Some s' -> P s -> P s'.
Proof.
  intros Hf. induction l as [|a l IH]; simpl; intros s s' H Hs.
  - by simplify_eq.
  - destruct (f a s) as [s1|] eqn:E; [|done]. eauto.
Qed.

Lemma fold_left_inv {A S} (f : S -> A -> S) (P : S -> Prop) l :
  (forall a s, P s -> P (f s a)) ->
  forall s, P s -> P (fold_left f l s).
Proof.
  intros Hf. induction l as [|a l IH]; simpl; intros s Hs; eauto.
Qed.

Lemma lookupZ_Some {A} (l : list A) (i : Z) (x : A) :
  lookupZ l i = Some x <-> (0 <= i)%Z /\ l !! Z.to_nat i = Some x.
Proof.
  unfold lookupZ. destruct (Z.ltb_spec i 0) as [Hi|Hi]; split.
  - done.
  - intros [Hp _]. lia.
  - intros H. by split.
  - by intros [_ H].
Qed.

Lemma lookupZ_of_nat {A} (l : list A) (i : nat) :
  lookupZ l (Z.of_nat i) = l !! i.
Proof.
  unfold lookupZ. destruct (Z.ltb_spec (Z.of_nat i) 0); [lia|].
  by rewrite Nat2Z.id.
Qed.

(** ** Pairing symmetry *)

Section Symmetry.

Lemma symmetric_partners ps : symmetric ps <-> symZ (partners ps).
Proof.
  unfold symmetric, symZ, partners. split; intros H i j.
  - intros a b Ha Hb. rewrite list_lookup_fmap in Ha, Hb.
    destruct (ps !! i) as [si|] eqn:Ei; [|done].
    destruct (ps !! j) as [sj|] eqn:Ej; [|done].
    simpl in *. simplify_eq. by eapply H.
  - intros si sj Hi Hj. apply (H i j); rewrite list_lookup_fmap.
    + by rewrite Hi. + by rewrite Hj.
Qed.

Lemma partners_alter_const (c : Z) (f : PairState -> PairState) i ps :
  (forall s, partner (f s) = c) ->
  partners (alter f i ps) = alter (fun _ => c) i (partners ps).
Proof.
  intros Hf. unfold partners. apply list_fmap_alter, Forall_forall.
  intros s _. apply Hf.
Qed.

Lemma partners_alter_same (f : PairState -> PairState) i ps :
  (forall s, partner (f s) = partner s) ->
  partners (alter f i ps) = partners ps.
Proof.
  intros Hf. unfold partners.
  rewrite (list_fmap_alter partner f (fun z : Z => z)).
  - apply list_alter_id. done.
  - apply Forall_forall. intros s _. apply Hf.
Qed.

Lemma partners_length ps : length (partners ps) = length ps.
Proof. unfold partners. by rewrite length_fmap. Qed.

Lemma partners_lookup ps i s :
  ps !! i = Some s -> partners ps !! i = Some (partner s).
Proof. intros H. unfold partners. by rewrite list_lookup_fmap, H. Qed.

Lemma cleared_lookup (P : list Z) (i j k : nat) (a : Z) :
  alter (fun _ => (-1)%Z) j (alter (fun _ => (-1)%Z) i P) !! k = Some a ->
  (a = (-1)%Z /\ (k = i \/ k = j) /\ is_Some (P !! k))
  \/ (P !! k = Some a /\ k <> i /\ k <> j).
Proof.
  rewrite !list_lookup_alter. intros H.
  destruct (decide (j = k)) as [->|Hj].
  - destruct (decide (i = k)) as [->|Hi].
    + destruct (P !! k) eqn:E; simpl in H; simplify_eq. left. eauto.
    + destruct (P !! k) eqn:E; simpl in H; simplify_eq. left. eauto.
  - destruct (decide (i = k)) as [->|Hi].
    + destruct (P !! k) eqn:E; simpl in H; simplify_eq. left. eauto.
    + right. eauto.
Qed.

Lemma symZ_clear_pair P i p :
  symZ P -> P !! i = Some p -> (0 <= p)%Z ->
  symZ (alter (fun _ => (-1)%Z) (Z.to_nat p) (alter (fun _ => (-1)%Z) i P)).
Proof.
  intros Hs Hi Hp.
  assert (Hpi : forall c, P !! Z.to_nat p = Some c -> c = Z.of_nat i).
  { intros c Hc. apply (Hs i (Z.to_nat p) p c Hi Hc). lia. }
  assert (Hone : forall k l b, (k = i \/ k = Z.to_nat p) -> is_Some (P !! k) ->
            P !! l = Some b -> l <> i -> l <> Z.to_nat p -> b <> Z.of_nat k).
  { intros k l b [->| ->] [c Hc] Hl Hli Hlp Hb.
    - pose proof (Hs _ _ _ _ Hl Hi) as [Hx _]. specialize (Hx Hb). lia.
    - pose proof (Hs _ _ _ _ Hl Hc) as [Hx _]. specialize (Hx Hb).
      specialize (Hpi _ Hc). lia. }
  intros k l a b Hk Hl.
  apply cleared_lookup in Hk as [(-> & Hk & Hkin)|(Hk & Hki & Hkp)];
  apply cleared_lookup in Hl as [(-> & Hl & Hlin)|(Hl & Hli & Hlp)].
  - split; lia.
  - split; [lia|]. intros Hb. exfalso. by eapply (Hone k l b).
  - split; [|lia]. intros Ha. exfalso. by eapply (Hone l k a).
  - by apply Hs.
Qed.

(** Clearing one end whose partner has no state. *)
Lemma symZ_clear_dangling P i p :
  symZ P -> P !! i = Some p -> P !! Z.to_nat p = None \/ (p < 0)%Z ->
  symZ (alter (fun _ => (-1)%Z) i P).
Proof.
  intros Hs Hi Hp k l a b Hk Hl.
  rewrite list_lookup_alter in Hk, Hl.
  destruct (decide (i = k)) as [<-|Hik]; destruct (decide (i = l)) as [<-|Hil].
  - rewrite Hi in Hk, Hl. simpl in *. simplify_eq. split; lia.
  - rewrite Hi in Hk. simpl in *. simplify_eq. split; [lia|]. intros ->.
    pose proof (Hs _ _ _ _ Hl Hi) as [Hx _]. specialize (Hx eq_refl).
    destruct Hp as [Hp|Hp]; [|lia]. subst p. rewrite Nat2Z.id in Hp. congruence.
  - rewrite Hi in Hl. simpl in *. simplify_eq. split; [|lia]. intros ->.
    pose proof (Hs _ _ _ _ Hk Hi) as [Hx _]. specialize (Hx eq_refl).
    destruct Hp as [Hp|Hp]; [|lia]. subst p. rewrite Nat2Z.id in Hp. congruence.
  - by apply Hs.
Qed.

(** Linking two unpaired, distinct agents. *)
Lemma symZ_link P i j :
  symZ P -> i <> j -> P !! i = Some (-1)%Z -> P !! j = Some (-1)%Z ->
  symZ (alter (fun _ => Z.of_nat i) j (alter (fun _ => Z.of_nat j) i P)).
Proof.
  intros Hs Hij Hi Hj k l a b Hk Hl.
  rewrite !list_lookup_alter in Hk, Hl.
  assert (Hfree : forall m c n, (n = i \/ n = j) -> P !! m = Some c ->
             c <> Z.of_nat n).
  { intros m c n [->| ->] Hm Hc.
    - pose proof (Hs _ _ _ _ Hm Hi) as [Hx _]. specialize (Hx Hc). lia.
    - pose proof (Hs _ _ _ _ Hm Hj) as [Hx _]. specialize (Hx Hc). lia. }
  destruct (decide (j = k)) as [<-|Hjk]; destruct (decide (j = l)) as [<-|Hjl];
  destruct (decide (i = j)) as [?|_]; try done.
  - rewrite Hj in Hk, Hl. simpl in *. simplify_eq. split; lia.
  - rewrite Hj in Hk. simpl in Hk. simplify_eq.
    destruct (decide (i = l)) as [<-|Hil].
    + rewrite Hi in Hl. simpl in Hl. simplify_eq. done.
    + split; [lia|]. intros Hb. exfalso. by eapply (Hfree l b j); eauto.
  - rewrite Hj in Hl. simpl in Hl. simplify_eq.
    destruct (decide (i = k)) as [<-|Hik].
    + rewrite Hi in Hk. simpl in Hk. simplify_eq. done.
    + split; [|lia]. intros Ha. exfalso. by eapply (Hfree k a j); eauto.
  - destruct (decide (i = k)) as [<-|Hik]; destruct (decide (i = l)) as [<-|Hil].
    + rewrite Hi in Hk, Hl. simpl in *. simplify_eq. split; lia.
    + rewrite Hi in Hk. simpl in Hk. simplify_eq. split; [lia|].
      intros Hb. exfalso. by eapply (Hfree l b i); eauto.
    + rewrite Hi in Hl. simpl in Hl. simplify_eq. split; [|lia].
      intros Ha. exfalso. by eapply (Hfree k a i); eauto.
    + by apply Hs.
Qed.

End Symmetry.

(** ** _findPairs: timers, distance breaks, candidate search *)

Lemma tickTimers_partner s : partner (tickTimers s) = partner s.
Proof.
  unfold tickTimers. repeat case_match; reflexivity.
Qed.

Lemma timersStep_partners e :
  partners (_pairStates (timersStep e)) = partners (_pairStates e).
Proof.
  unfold timersStep, partners; simpl. rewrite <- list_fmap_compose.
  apply list_fmap_ext. intros _ s _. apply tickTimers_partner.
Qed.

Lemma breakWrites_partners M i p ps :
  partners (breakWrites M i p ps)
  = alter (fun _ => (-1)%Z) (Z.to_nat p)
      (alter (fun _ => (-1)%Z) i (partners ps)).
Proof.
  unfold breakWrites.
  rewrite (partners_alter_const (-1)) by done.
  rewrite (partners_alter_const (-1)) by done.
  by rewrite !partners_alter_same by done.
Qed.

Lemma considerCandidate_pick e i peakA catA j acc :
  (i = j \/ is_Some (_pairStates e !! j)) ->
  considerCandidate e i peakA catA j acc = Some (pick e i peakA catA acc j).
Proof.
  intros Hj. unfold considerCandidate, pick, eligible, distFrom.
  destruct (Nat.eqb_spec i j) as [->|Hij]; [done|].
  destruct Hj as [?|[stB HstB]]; [congruence|]. rewrite HstB. simpl.
  destruct (peaks e !! j) as [peakB|];
    destruct (Z.eqb_spec (partner stB) (-1)); simpl; try done;
    destruct (Z.ltb_spec 0 (cooldown stB)); simpl; try done.
  destruct (complementary catA (pairCategory e j)); simpl; [|done].
  by destruct (Rleb _ _).
Qed.

Lemma foldM_pick e i peakA catA l acc :
  Forall (fun j => i = j \/ is_Some (_pairStates e !! j)) l ->
  foldM (considerCandidate e i peakA catA) l acc
  = Some (fold_left (pick e i peakA catA) l acc).
Proof.
  intros H. revert acc. induction H as [|j l Hj Hl IH]; intros acc; [done|].
  simpl. rewrite considerCandidate_pick by done. apply IH.
Qed.

(** The search keeps the last of the closest eligible candidates. *)
Lemma pick_fold_spec e i peakA catA l b0 d0 :
  let r := fold_left (pick e i peakA catA) l (b0, d0) in
  snd r <= d0 /\
  (forall j, In j l -> eligible e i catA j = true ->
             snd r <= distFrom e peakA j) /\
  ((r = (b0, d0) /\
    forall j, In j l -> eligible e i catA j = true ->
              d0 < distFrom e peakA j)
   \/ exists l1 j l2,
        l = l1 ++ j :: l2 /\ r = (Z.of_nat j, distFrom e peakA j) /\
        eligible e i catA j = true /\
        forall k, In k l2 -> eligible e i catA k = true ->
                  distFrom e peakA j < distFrom e peakA k).
Proof.
  induction l as [|x l IH] using rev_ind; simpl.
  - split; [lra|]. split; [done|]. left. by split.
  - rewrite fold_left_app. simpl.
    destruct IH as (Hle & Hmin & Hlast).
    set (r := fold_left (pick e i peakA catA) l (b0, d0)) in *.
    assert (Hcase : (eligible e i catA x = true
                     /\ distFrom e peakA x <= r.2
                     /\ pick e i peakA catA r x
                        = (Z.of_nat x, distFrom e peakA x))
                    \/ ((eligible e i catA x = true -> r.2 < distFrom e peakA x)
                        /\ pick e i peakA catA r x = r)).
    { unfold pick. destruct (eligible e i catA x); simpl.
      - destruct (Rleb (distFrom e peakA x) r.2) eqn:Ed.
        + left. by apply Rleb_true in Ed.
        + right. by apply Rleb_false in Ed.
      - right. done. }
    destruct Hcase as [(Ex & Ed & ->)|(Ex & ->)]; simpl.
    + split; [lra|]. split.
      * intros j Hj Hel. apply in_app_or in Hj as [Hj|[->|[]]]; [|lra].
        specialize (Hmin j Hj Hel). lra.
      * right. exists l, x, []. done.
    + split; [done|]. split.
      * intros j Hj Hel. apply in_app_or in Hj as [Hj|[->|[]]]; [by apply Hmin|].
        specialize (Ex Hel). lra.
      * destruct Hlast as [[Hr Hall]|(l1 & j & l2 & -> & Hr & Hel & Hall)].
        -- left. split; [done|]. intros j Hj Hj'.
           apply in_app_or in Hj as [Hj|[->|[]]]; [by apply Hall|].
           specialize (Ex Hj'). rewrite Hr in Ex. done.
        -- right. exists l1, j, (l2 ++ [x]). split; [by rewrite <- app_assoc|].
           split; [done|]. split; [done|]. intros k Hk Hk'.
           apply in_app_or in Hk as [Hk|[->|[]]]; [by apply Hall|].
           specialize (Ex Hk'). rewrite Hr in Ex. done.
Qed.

Lemma considerCandidate_Some e i peakA catA j acc r :
  considerCandidate e i peakA catA j acc = Some r ->
  r = pick e i peakA catA acc j.
Proof.
  intros H.
  destruct (decide (i = j)) as [Hij|Hij].
  - rewrite considerCandidate_pick in H by auto. congruence.
  - destruct (_pairStates e !! j) as [stB|] eqn:Ej.
    + rewrite considerCandidate_pick in H by (right; rewrite Ej; eauto).
      congruence.
    + unfold considerCandidate in H. rewrite Ej in H.
      destruct (Nat.eqb_spec i j); done.
Qed.

Lemma foldM_pick_Some e i peakA catA l acc r :
  foldM (considerCandidate e i peakA catA) l acc = Some r ->
  r = fold_left (pick e i peakA catA) l acc.
Proof.
  revert acc. induction l as [|j l IH]; intros acc H; simpl in *.
  - congruence.
  - destruct (considerCandidate e i peakA catA j acc) as [a|] eqn:E; [|done].
    apply considerCandidate_Some in E as ->. by apply IH.
Qed.

Lemma eligible_inv e i catA j :
  eligible e i catA j = true ->
  i <> j /\ exists stB peakB,
    _pairStates e !! j = Some stB /\ peaks e !! j = Some peakB /\
    partner stB = (-1)%Z /\ (cooldown stB <= 0)%Z /\
    complementary catA (pairCategory e j) = true.
Proof.
  unfold eligible. intros H.
  apply andb_prop in H as [Hij H].
  destruct (Nat.eqb_spec i j); [done|]. split; [done|].
  destruct (_pairStates e !! j) as [stB|]; [|done].
  destruct (peaks e !! j) as [peakB|]; [|done].
  apply andb_prop in H as [H Hc]. apply andb_prop in H as [Hp Hcd].
  exists stB, peakB. repeat split; try done.
  - by apply Z.eqb_eq.
  - destruct (Z.ltb_spec 0 (cooldown stB)); [done|lia].
Qed.

(** What the formation step for [i] can do: nothing, or link [i] to the
    candidate found by the search. *)
Lemma formPair_cases i e e' :
  formPair i e = Some e' ->
  e' = e \/
  exists state peakA j d,
    _pairStates e !! i = Some state /\ partner state = (-1)%Z /\
    (cooldown state <= 0)%Z /\ peaks e !! i = Some peakA /\
    truthy (pairCategory e i) = true /\
    fold_left (pick e i peakA (pairCategory e i))
      (Grid.getNearby (spatialGrid e) (currentPyramidCenter peakA)
         (pairFormRadius (motionSystem e)))
      ((-1)%Z, pairFormRadius (motionSystem e)) = (Z.of_nat j, d) /\
    eligible e i (pairCategory e i) j = true /\
    e' = linkPair i (Z.of_nat j) e.
Proof.
  unfold formPair. intros H.
  destruct (_pairStates e !! i) as [state|] eqn:Ei; [|done].
  destruct (Z.eqb_spec (partner state) (-1)) as [Hp|]; simpl in H;
    [|left; congruence].
  destruct (Z.ltb_spec 0 (cooldown state)); simpl in H; [left; congruence|].
  destruct (peaks e !! i) as [peakA|] eqn:EA; [|left; congruence].
  destruct (truthy (pairCategory e i)) eqn:Ecat; simpl in H;
    [|left; congruence].
  destruct (bestCandidate e i peakA (pairCategory e i)) as [[b d]|] eqn:Eb;
    [|done].
  destruct (Z.eqb_spec b (-1)); [left; congruence|].
  apply foldM_pick_Some in Eb.
  pose proof (pick_fold_spec e i peakA (pairCategory e i)
                (Grid.getNearby (spatialGrid e) (currentPyramidCenter peakA)
                   (pairFormRadius (motionSystem e)))
                (-1)%Z (pairFormRadius (motionSystem e))) as (_ & _ & Hl).
  simpl in Hl. rewrite <- Eb in Hl.
  destruct Hl as [[Hr _]|(l1 & j & l2 & _ & Hr & Hel & _)]; [congruence|].
  right. exists state, peakA, j, d. simplify_eq.
  repeat split; done.
Qed.

Lemma linkPair_pairStates i b e :
  _pairStates (linkPair i b e)
  = alter (fun s => set_frames (set_partner s (Z.of_nat i)) 0) (Z.to_nat b)
      (alter (fun s => set_frames (set_partner s b) 0) i (_pairStates e)).
Proof.
  unfold linkPair. simpl.
  destruct (getSparse _ _); [done|]. reflexivity.
Qed.

Lemma rebuildGrid_pairStates e : _pairStates (rebuildGrid e) = _pairStates e.
Proof. reflexivity. Qed.

(** ** The moves of the partner fields *)

Lemma inRange_partners ps : inRange ps <-> inRangeZ (partners ps).
Proof.
  unfold inRange, inRangeZ. split; intros H i.
  - intros a Ha. unfold partners in Ha. rewrite list_lookup_fmap in Ha.
    destruct (ps !! i) as [s|] eqn:E; [|done]. simpl in Ha.
    injection Ha as <-. rewrite partners_length. by apply (H i).
  - intros s Hs. rewrite <- partners_length. apply (H i).
    by apply partners_lookup.
Qed.

Lemma inRangeZ_clear P i : inRangeZ P -> inRangeZ (alter (fun _ => (-1)%Z) i P).
Proof.
  intros H k a Hk. rewrite length_alter. rewrite list_lookup_alter in Hk.
  destruct (decide (i = k)) as [->|Hne]; [|by apply (H k)].
  destruct (P !! k); [|done]. simpl in Hk. left. congruence.
Qed.

Lemma inRangeZ_set P i (j : nat) :
  (j < length P)%nat -> inRangeZ P ->
  inRangeZ (alter (fun _ => Z.of_nat j) i P).
Proof.
  intros Hj H k a Hk. rewrite length_alter. rewrite list_lookup_alter in Hk.
  destruct (decide (i = k)) as [->|Hne]; [|by apply (H k)].
  destruct (P !! k); [|done]. simpl in Hk. right.
  injection Hk as <-. lia.
Qed.

Lemma pbreak_symZ P P' : pbreak P P' -> symZ P -> symZ P'.
Proof.
  intros [P0 i p Hi Hp _|P0 i p Hi Hp] Hs.
  - by apply symZ_clear_pair.
  - apply (symZ_clear_dangling _ _ p); [done|done|tauto].
Qed.

Lemma pbreak_inRangeZ P P' : pbreak P P' -> inRangeZ P -> inRangeZ P'.
Proof.
  intros [P0 i p Hi Hp _|P0 i p Hi Hp] Hs; by repeat apply inRangeZ_clear.
Qed.

(** A break never pairs anyone: an unpaired slot stays unpaired. *)
Lemma pbreak_unpaired P P' k :
  pbreak P P' -> P !! k = Some (-1)%Z -> P' !! k = Some (-1)%Z.
Proof.
  intros [P0 i p Hi Hp _|P0 i p Hi Hp] Hk;
    rewrite !list_lookup_alter; repeat case_decide; subst;
    rewrite ?Hk; done.
Qed.

Lemma pbreak_length P P' : pbreak P P' -> length P' = length P.
Proof. intros [P0 i p _ _ _|P0 i p _ _]; by rewrite !length_alter. Qed.

Lemma pstep_symZ P P' : pstep P P' -> inRangeZ P -> symZ P -> symZ P'.
Proof.
  intros [P0 P1 Hb|P0 i j Hij Hi Hj|P0 n] Hr Hs.
  - by eapply pbreak_symZ.
  - by apply symZ_link.
  - intros i j a b Hi Hj.
    apply lookup_app_Some in Hi as [Hi|[Hi1 Hi2]];
    apply lookup_app_Some in Hj as [Hj|[Hj1 Hj2]].
    + by apply (Hs i j).
    + apply lookup_replicate in Hj2 as [-> _].
      destruct (Hr _ _ Hi) as [->|Ha]; split; lia.
    + apply lookup_replicate in Hi2 as [-> _].
      destruct (Hr _ _ Hj) as [->|Hb]; split; lia.
    + apply lookup_replicate in Hi2 as [-> _].
      apply lookup_replicate in Hj2 as [-> _]. split; lia.
Qed.

Lemma pstep_inRangeZ P P' : pstep P P' -> inRangeZ P -> inRangeZ P'.
Proof.
  intros [P0 P1 Hb|P0 i j Hij Hi Hj|P0 n] Hr.
  - by eapply pbreak_inRangeZ.
  - apply lookup_lt_Some in Hi, Hj.
    apply inRangeZ_set; [by rewrite length_alter|]. by apply inRangeZ_set.
  - intros i a Hi. rewrite length_app.
    apply lookup_app_Some in Hi as [Hi|[_ Hi]].
    + destruct (Hr _ _ Hi); [by left|right; lia].
    + apply lookup_replicate in Hi as [-> _]. by left.
Qed.


Lemma linked_partners ps : linked ps <-> linkedZ (partners ps).
Proof.
  unfold linked, linkedZ. by rewrite symmetric_partners, inRange_partners.
Qed.

Lemma psteps_linkedZ P P' : rtc pstep P P' -> linkedZ P -> linkedZ P'.
Proof.
  induction 1 as [|P Q R Hstep _ IH]; [done|]. intros [Hs Hr]. apply IH.
  split; [by eapply pstep_symZ|by eapply pstep_inRangeZ].
Qed.

Lemma pbreaks_psteps P P' : rtc pbreak P P' -> rtc pstep P P'.
Proof.
  induction 1 as [|P Q R Hstep _ IH]; [done|].
  eapply rtc_l; [|exact IH]. by constructor.
Qed.

Lemma pbreaks_unpaired P P' k :
  rtc pbreak P P' -> P !! k = Some (-1)%Z -> P' !! k = Some (-1)%Z.
Proof.
  induction 1 as [|P Q R Hstep _ IH]; [done|]. intros Hk. apply IH.
  by eapply pbreak_unpaired.
Qed.

(** *** The moves made by the engine *)

Lemma breakCheck_pbreak i e :
  rtc pbreak (partners (_pairStates e))
             (partners (_pairStates (breakCheck i e))).
Proof.
  unfold breakCheck.
  destruct (_pairStates e !! i) as [state|] eqn:Ei; [|done].
  destruct (Z.eqb_spec (partner state) (-1)); [done|].
  destruct (lookupZ (_pairStates e) (partner state)) as [ps|] eqn:Ep; [|done].
  destruct (peaks e !! i); [|done].
  destruct (lookupZ (peaks e) (partner state)); [|done].
  case_match; [|done]. simpl.
  apply rtc_once. rewrite breakWrites_partners.
  apply lookupZ_Some in Ep as [Hp0 Ep].
  apply pbreak_pair; [by apply partners_lookup|done|].
  apply partners_lookup in Ep. eauto.
Qed.

Lemma breakLoop_pbreak e :
  rtc pbreak (partners (_pairStates e))
             (partners (_pairStates (breakLoop e))).
Proof.
  unfold breakLoop.
  apply (fold_left_inv (fun e i => breakCheck i e)
           (fun e' => rtc pbreak (partners (_pairStates e))
                                 (partners (_pairStates e')))); [|done].
  intros a s Hs. etrans; [exact Hs|]. apply breakCheck_pbreak.
Qed.

Lemma formPair_pstep i e e' :
  formPair i e = Some e' ->
  rtc pstep (partners (_pairStates e)) (partners (_pairStates e')).
Proof.
  intros H.
  apply formPair_cases in H
    as [->|(state & peakA & j & d & Hi & Hp & _ & _ & _ & _ & Hel & ->)];
    [done|].
  apply eligible_inv in Hel as (Hij & stB & _ & Hj & _ & HpB & _).
  apply rtc_once. rewrite linkPair_pairStates.
  rewrite (partners_alter_const (Z.of_nat i)) by done.
  rewrite (partners_alter_const (Z.of_nat j)) by done.
  rewrite Nat2Z.id.
  apply pstep_link; [done| |].
  - apply partners_lookup in Hi. by rewrite Hp in Hi.
  - apply partners_lookup in Hj. by rewrite HpB in Hj.
Qed.


Lemma findPairs_pstep e e' :
  _findPairs e = Some e' ->
  rtc pstep (partners (_pairStates e)) (partners (_pairStates e')).
Proof.
  unfold _findPairs. intros H.
  eapply (foldM_inv formPair
            (fun e' => rtc pstep (partners (_pairStates e))
                                 (partners (_pairStates e')))); [|exact H|].
  - intros a s s' Hf Hs. etrans; [exact Hs|]. by eapply formPair_pstep.
  - rewrite <- (timersStep_partners e) at 1.
    rewrite <- (rebuildGrid_pairStates (timersStep e)).
    apply pbreaks_psteps, breakLoop_pbreak.
Qed.

Lemma breakPair_pbreak (i : nat) st h ease e :
  _pairStates e !! i = Some st ->
  pbreak (partners (_pairStates e))
         (partners (_pairStates (_breakPair i (partner st) h ease e))).
Proof.
  intros Hi. unfold _breakPair. simpl.
  destruct (lookupZ _ (partner st)) as [sb|] eqn:Eb.
  - rewrite (partners_alter_const (-1)) by done.
    rewrite (partners_alter_const (-1)) by done.
    apply lookupZ_Some in Eb as [Hp0 Eb].
    apply pbreak_pair; [by apply partners_lookup|done|].
    rewrite list_lookup_alter in Eb. unfold partners.
    rewrite list_lookup_fmap.
    destruct (decide (i = Z.to_nat (partner st))) as [Heq|Hne].
    + rewrite <- Heq, Hi. eauto.
    + rewrite Eb. eauto.
  - rewrite (partners_alter_const (-1)) by done.
    apply (pbreak_one _ _ (partner st)); [by apply partners_lookup|].
    destruct (Z.ltb_spec (partner st) 0) as [Hn|Hn]; [by left|right].
    unfold lookupZ in Eb. destruct (Z.ltb_spec (partner st) 0); [lia|].
    rewrite list_lookup_alter in Eb.
    unfold partners. rewrite list_lookup_fmap.
    destruct (decide (i = Z.to_nat (partner st))) as [Heq|Hne].
    + rewrite Hi in Eb. done.
    + by rewrite Eb.
Qed.

(** ** Frame properties of the force passes *)

Lemma world_inv e e' :
  world e' = world e ->
  peaks e' = peaks e /\ peakSolids e' = peakSolids e /\ time e' = time e /\
  categoryFilterActive e' = categoryFilterActive e /\
  stopAllMovement e' = stopAllMovement e /\
  evolvingActive e' = evolvingActive e /\
  spatialGrid e' = spatialGrid e /\ motionSystem e' = motionSystem e /\
  _lastPositions e' = _lastPositions e /\ _velocities e' = _velocities e
  /\ rng e' = rng e /\ frozenSwarmPositions e' = frozenSwarmPositions e
  /\ targetLocked e' = targetLocked e.
Proof. unfold world. intros H. by simplify_eq. Qed.

Lemma random_inv e r e1 :
  random e = (r, e1) -> r = rng e (rngPos e) /\ e1 = set_rngPos e (S (rngPos e)).
Proof. unfold random. intros H. by simplify_eq. Qed.

Lemma random_world e r e1 :
  random e = (r, e1) ->
  world e1 = world e /\ _pairStates e1 = _pairStates e
  /\ _pairDirections e1 = _pairDirections e.
Proof. intros [-> ->]%random_inv. done. Qed.

Lemma randomDirection_world e d e1 :
  randomDirection e = (d, e1) ->
  world e1 = world e /\ _pairStates e1 = _pairStates e
  /\ _pairDirections e1 = _pairDirections e.
Proof.
  unfold randomDirection. intros H.
  destruct (random e) as [r1 ea] eqn:E1.
  destruct (random ea) as [r2 eb] eqn:E2. simplify_eq.
  apply random_world in E1 as (W1 & P1 & D1).
  apply random_world in E2 as (W2 & P2 & D2).
  repeat split; congruence.
Qed.

Lemma growDirections_world n e :
  world (growDirections n e) = world e
  /\ _pairStates (growDirections n e) = _pairStates e.
Proof.
  revert e. induction n as [|n IH]; intros e; cbn [growDirections]; [done|].
  destruct (randomDirection e) as [d e1] eqn:E.
  apply randomDirection_world in E as (W & P & D).
  destruct (IH (set_pairDirections e1 (_pairDirections e1 ++ [Some d])))
    as [W' P'].
  rewrite W', P'. split; [|done]. rewrite <- W. reflexivity.
Qed.

Lemma desiredHeading_world index state fr pc qc e t e1 :
  desiredHeading index state fr pc qc e = (t, e1) ->
  world e1 = world e /\ _pairStates e1 = _pairStates e
  /\ _pairDirections e1 = _pairDirections e.
Proof.
  unfold desiredHeading. intros H.
  destruct (Z.rem fr _ =? 0)%Z.
  - destruct (random e) as [r ea] eqn:E. injection H as <- <-.
    by apply random_world in E.
  - by injection H as <- <-.
Qed.

Lemma breakPair_world i p h ease e :
  world (_breakPair i p h ease e) = world e.
Proof. reflexivity. Qed.

(** The partner fields after the paired branch: unchanged, or the link
    between [index] and its partner cleared by [_breakPair]. *)
Lemma pairedForces_inv index peak state F e F' e' :
  pairedForces index peak state F e = Some (F', e') ->
  world e' = world e /\
  (partners (_pairStates e') = partners (_pairStates e)
   \/ exists h ease e0,
        partners (_pairStates e0) = partners (_pairStates e) /\
        _pairStates e' = _pairStates (_breakPair index (partner state) h ease e0)).
Proof.
  unfold pairedForces. intros H.
  set (e0 := set_pairStates e _) in H.
  assert (W0 : world e0 = world e) by done.
  assert (P0 : partners (_pairStates e0) = partners (_pairStates e)).
  { unfold e0; simpl. by apply partners_alter_same. }
  clearbody e0.
  destruct (lookupZ (peaks e0) (partner state)) as [partnerPeak|];
    [|injection H as <- <-; eauto].
  destruct (Rltb _ 1e-6); [injection H as <- <-; eauto|].
  destruct (getSparse _ _) as [heading0|]; [|done].
  match type of H with
  | (let '(_, _) := ?t in _) = _ => destruct t as [heading ea] eqn:Eh
  end.
  assert (world ea = world e /\
          partners (_pairStates ea) = partners (_pairStates e)) as [Wa Pa].
  { destruct (_ =? _)%Z.
    - destruct (desiredHeading _ _ _ _ _ _) as [tangent eb] eqn:Ed.
      injection Eh as <- <-.
      apply desiredHeading_world in Ed as (W & P & D).
      simpl. split; [|congruence]. rewrite <- W0, <- W. done.
    - by injection Eh as <- <-. }
  clear Eh.
  destruct (random ea) as [r1 e1] eqn:E1.
  destruct (random e1) as [r2 e2] eqn:E2.
  apply random_world in E1 as (W1 & P1 & _).
  apply random_world in E2 as (W2 & P2 & _).
  destruct (_ <? _)%Z.
  - destruct (random e2) as [r3 e3] eqn:E3.
    apply random_world in E3 as (W3 & P3 & _).
    destruct (Rltb r3 _); injection H as <- <-.
    + split; [rewrite breakPair_world; congruence|].
      right. eexists _, _, e3. split; [|done]. congruence.
    + split; [congruence|]. left. congruence.
  - injection H as <- <-. split; [congruence|]. left. congruence.
Qed.

Lemma partners_eq_lookup ps ps' i s :
  partners ps' = partners ps -> ps !! i = Some s ->
  exists s', ps' !! i = Some s' /\ partner s' = partner s.
Proof.
  intros HP Hi. apply partners_lookup in Hi. rewrite <- HP in Hi.
  unfold partners in Hi. rewrite list_lookup_fmap in Hi.
  destruct (ps' !! i) as [s'|]; [|done]. exists s'. split; [done|].
  simpl in Hi. congruence.
Qed.


Lemma soloForces_inv index state F e F' e' :
  soloForces index state F e = (F', e') ->
  world e' = world e /\ partners (_pairStates e') = partners (_pairStates e).
Proof.
  unfold soloForces. intros H. cbv zeta in H.
  destruct ((0 <? breakFade state)%Z && _).
  - match type of H with
    | context [random ?x] => set (e0 := x) in H
    end.
    assert (W0 : world e0 = world e) by done.
    assert (P0 : partners (_pairStates e0) = partners (_pairStates e)).
    { unfold e0; simpl. by apply partners_alter_same. }
    clearbody e0.
    destruct (random e0) as [r1 e1] eqn:E1.
    destruct (random e1) as [r2 e2] eqn:E2.
    apply random_world in E1 as (W1 & P1 & _).
    apply random_world in E2 as (W2 & P2 & _).
    injection H as <- <-. split; congruence.
  - destruct (random e) as [r1 e1] eqn:E1.
    destruct (random e1) as [r2 e2] eqn:E2.
    apply random_world in E1 as (W1 & P1 & _).
    apply random_world in E2 as (W2 & P2 & _).
    injection H as <- <-. split; congruence.
Qed.

Lemma applyPairingForces_inv index F e F' e' :
  _applyPairingForces index F e = Some (F', e') ->
  world e' = world e /\
  (partners (_pairStates e') = partners (_pairStates e)
   \/ exists state h ease e0,
        _pairStates e !! index = Some state /\
        partners (_pairStates e0) = partners (_pairStates e) /\
        _pairStates e' = _pairStates (_breakPair index (partner state) h ease e0)).
Proof.
  unfold _applyPairingForces. intros H.
  destruct (peaks e !! index) as [peak|]; [|done].
  destruct (_pairStates e !! index) as [state|] eqn:Ei; [|done].
  destruct (growDirections_world
              (length (peaks e) - length (_pairDirections e)) e) as [Wg Pg].
  destruct (negb _).
  - apply pairedForces_inv in H as [W [P|(h & ease & e0 & P & Hb)]].
    + split; [congruence|]. left. congruence.
    + split; [congruence|]. right. exists state, h, ease, e0.
      split; [done|]. split; [congruence|done].
  - match type of H with
    | Some ?t = _ => assert (Hs : t = (F', e')) by congruence
    end.
    apply soloForces_inv in Hs as [W P].
    split; [congruence|]. left. congruence.
Qed.

Lemma applyExplorationForces_inv index F t e F' e' :
  _applyExplorationForces index F t e = Some (F', e') ->
  world e' = world e /\ _pairStates e' = _pairStates e
  /\ _pairDirections e' = _pairDirections e.
Proof.
  unfold _applyExplorationForces. intros H.
  destruct (peaks e !! index) as [peak|]; [|done].
  destruct (outerPart _ _ _) as [push radial].
  destruct (centerAvoidance _ _ _ e) as [push' e1] eqn:Ec.
  injection H as <- <-.
  unfold centerAvoidance in Ec.
  destruct (Rltb _ _); [|by injection Ec as <- <-].
  destruct (Rgtb _ _); [by injection Ec as <- <-|].
  destruct (randomDirection e) as [d e2] eqn:Ed.
  injection Ec as <- <-. by apply randomDirection_world in Ed.
Qed.

Lemma recordLastPositions_pairStates e :
  _pairStates (recordLastPositions e) = _pairStates e.
Proof.
  unfold recordLastPositions.
  apply (fold_left_inv _ (fun e' => _pairStates e' = _pairStates e)); [|done].
  intros a s Hs. by destruct (peaks s !! a).
Qed.

Lemma applyPairingForces_pbreak index F e F' e' :
  _applyPairingForces index F e = Some (F', e') ->
  rtc pbreak (partners (_pairStates e)) (partners (_pairStates e')).
Proof.
  intros H.
  apply applyPairingForces_inv in H
    as [_ [P|(state & h & ease & e0 & Hi & P & ->)]].
  - by rewrite P.
  - destruct (partners_eq_lookup _ _ _ _ P Hi) as (s0 & Hi0 & <-).
    rewrite <- P. apply rtc_once. by apply breakPair_pbreak.
Qed.

Lemma accumulateForces_inv i e F e' :
  accumulateForces i e = Some (F, e') ->
  world e' = world e /\
  rtc pbreak (partners (_pairStates e)) (partners (_pairStates e')).
Proof.
  unfold accumulateForces. intros H.
  destruct (_pairStates e !! i) as [s0|]; [|done].
  set (e0 := set_pairStates e _) in H.
  assert (W0 : world e0 = world e) by done.
  assert (P0 : partners (_pairStates e0) = partners (_pairStates e)).
  { unfold e0; simpl. by apply partners_alter_same. }
  clearbody e0.
  destruct (_applyPairingForces i V3.zero e0) as [[F1 e1]|] eqn:Ep; [|done].
  destruct (_pairStates e1 !! i) as [st|]; [|done].
  destruct (if breakThisFrame st then _ else _) as [F2|]; [|done].
  apply applyExplorationForces_inv in H as (W & P & _).
  pose proof (applyPairingForces_pbreak _ _ _ _ _ Ep) as Hb.
  apply applyPairingForces_inv in Ep as [W1 _].
  split; [congruence|]. rewrite P, <- P0. exact Hb.
Qed.

Lemma integratePeak_inv sp i peak e e' :
  integratePeak sp i peak e = Some e' ->
  exists F e1 v,
    accumulateForces i e = Some (F, e1) /\
    e' = set_peaks (set_velocities e1 (setAt (_velocities e1) i v))
           (alter (fun p => set_center p
                              (V3.add (currentPyramidCenter peak) v)) i
              (peaks e1)) /\
    exists baseTarget paired,
      sp !! i = Some baseTarget /\
      v = stepVelocity (motionSystem e1) (currentPyramidCenter peak)
            baseTarget (dampForce (motionSystem e1) F) paired
            (match _velocities e1 !! i with Some v => v | None => V3.zero end).
Proof.
  unfold integratePeak. intros H.
  destruct (sp !! i) as [bt|]; [|done].
  destruct (accumulateForces i e) as [[F e1]|]; [|done].
  injection H as <-. eexists F, e1, _. split; [done|]. split; [done|].
  eauto.
Qed.

Lemma movePeak_pbreak sp i e e' :
  movePeak sp i e = Some e' ->
  rtc pbreak (partners (_pairStates e)) (partners (_pairStates e')).
Proof.
  unfold movePeak. intros H.
  destruct (peaks e !! i) as [peak|]; [|by injection H as <-].
  destruct (_ && _); [by injection H as <-|].
  destruct (stopAllMovement e); [by injection H as <-|].
  destruct (_ && _); [by injection H as <-|].
  destruct (if evolvingLock peak then _ else _).
  - by injection H as <-.
  - apply integratePeak_inv in H as (F & e1 & v & Ha & -> & _).
    by apply (accumulateForces_inv _ _ _ _ Ha).
Qed.

Lemma movePeaks_pbreak sp l e e' :
  foldM (movePeak sp) l e = Some e' ->
  rtc pbreak (partners (_pairStates e)) (partners (_pairStates e')).
Proof.
  intros H.
  eapply (foldM_inv (movePeak sp)
            (fun e' => rtc pbreak (partners (_pairStates e))
                                  (partners (_pairStates e')))); [|exact H|done].
  intros a s s' Hm Hs. etrans; [exact Hs|]. by eapply movePeak_pbreak.
Qed.

Lemma resizeArrays_pstep e :
  pstep (partners (_pairStates e)) (partners (_pairStates (resizeArrays e))).
Proof.
  unfold resizeArrays; simpl. unfold partners.
  rewrite fmap_app, fmap_replicate. apply pstep_grow.
Qed.

Lemma world_config e e' : world e' = world e -> config e' = config e.
Proof.
  unfold world, config. intros H. injection H. intros. congruence.
Qed.

Lemma config_inv e e' :
  config e' = config e ->
  peakSolids e' = peakSolids e /\ time e' = time e /\
  categoryFilterActive e' = categoryFilterActive e /\
  stopAllMovement e' = stopAllMovement e /\
  evolvingActive e' = evolvingActive e /\
  motionSystem e' = motionSystem e /\ rng e' = rng e /\
  frozenSwarmPositions e' = frozenSwarmPositions e /\
  targetLocked e' = targetLocked e.
Proof. unfold config. intros H. injection H. intros. repeat split; congruence. Qed.

(** *** _findPairs leaves the scene alone *)

Lemma breakCheck_frame i e :
  world (breakCheck i e) = world e
  /\ _pairDirections (breakCheck i e) = _pairDirections e
  /\ rngPos (breakCheck i e) = rngPos e
  /\ length (_pairStates (breakCheck i e)) = length (_pairStates e).
Proof.
  unfold breakCheck. repeat case_match; try done.
  simpl. unfold breakWrites. by rewrite !length_alter.
Qed.

Lemma breakLoop_frame e :
  world (breakLoop e) = world e
  /\ _pairDirections (breakLoop e) = _pairDirections e
  /\ rngPos (breakLoop e) = rngPos e
  /\ length (_pairStates (breakLoop e)) = length (_pairStates e).
Proof.
  unfold breakLoop.
  apply (fold_left_inv (fun e i => breakCheck i e)
           (fun e' => world e' = world e
                      /\ _pairDirections e' = _pairDirections e
                      /\ rngPos e' = rngPos e
                      /\ length (_pairStates e') = length (_pairStates e)));
    [|done].
  intros a s (W & D & R & L).
  destruct (breakCheck_frame a s) as (W' & D' & R' & L').
  repeat split; congruence.
Qed.

Lemma linkPair_frame i b e :
  world (linkPair i b e) = world e
  /\ length (_pairStates (linkPair i b e)) = length (_pairStates e).
Proof.
  split.
  - unfold linkPair. destruct (getSparse _ _); [done|].
    destruct (randomDirection _) as [d e2] eqn:Ed.
    apply randomDirection_world in Ed as (W & _ & _).
    cbn [world] in *. unfold world in *. simpl in *. done.
  - rewrite linkPair_pairStates. by rewrite !length_alter.
Qed.

Lemma formPair_frame i e e' :
  formPair i e = Some e' ->
  world e' = world e
  /\ length (_pairStates e') = length (_pairStates e).
Proof.
  intros H. apply formPair_cases in H as [->|(?&?&j&?&_&_&_&_&_&_&_&->)];
    [done|]. apply linkPair_frame.
Qed.

Lemma findPairs_frame e e' :
  _findPairs e = Some e' ->
  world e' = world (rebuildGrid e)
  /\ length (_pairStates e') = length (_pairStates e).
Proof.
  unfold _findPairs. intros H.
  destruct (breakLoop_frame (rebuildGrid (timersStep e))) as (W & _ & _ & L).
  eapply (foldM_inv formPair
            (fun e' => world e' = world (rebuildGrid e)
                       /\ length (_pairStates e') = length (_pairStates e)));
    [|exact H|].
  - intros a s s' Hf [Ws Ls]. apply formPair_frame in Hf as [W' L'].
    split; congruence.
  - split; [rewrite W; done|]. rewrite L. simpl. by rewrite length_map.
Qed.

(** *** What the movement of one peak changes *)

Lemma setAt_length l i v :
  (i < length l)%nat -> length (setAt l i v) = length l.
Proof.
  intros H. unfold setAt. destruct (Nat.ltb_spec i (length l)); [|lia].
  by rewrite length_insert.
Qed.


Lemma setAt_lookup_ne l i k v :
  (i < length l)%nat -> i <> k -> setAt l i v !! k = l !! k.
Proof.
  intros H Hne. unfold setAt. destruct (Nat.ltb_spec i (length l)); [|lia].
  by apply list_lookup_insert_ne.
Qed.

Lemma accumulateForces_pairStates_length i e F e' :
  accumulateForces i e = Some (F, e') ->
  length (_pairStates e') = length (_pairStates e).
Proof.
  intros H. apply accumulateForces_inv in H as [_ H].
  rewrite <- !partners_length.
  induction H as [|P Q R Hb _ IH]; [done|].
  rewrite IH. by apply pbreak_length.
Qed.

Lemma movePeak_frame sp i e e' :
  movePeak sp i e = Some e' ->
  config e' = config e /\ spatialGrid e' = spatialGrid e /\
  _lastPositions e' = _lastPositions e /\
  length (peaks e') = length (peaks e) /\
  length (_pairStates e') = length (_pairStates e) /\
  (forall k, k <> i -> peaks e' !! k = peaks e !! k) /\
  ((length (peaks e) <= length (_velocities e))%nat ->
   length (_velocities e') = length (_velocities e) /\
   forall k, k <> i -> _velocities e' !! k = _velocities e !! k).
Proof.
  unfold movePeak. intros H.
  destruct (peaks e !! i) as [peak|] eqn:Ei; [|by injection H as <-].
  destruct (_ && _); [by injection H as <-|].
  destruct (stopAllMovement e); [by injection H as <-|].
  destruct (_ && _); [by injection H as <-|].
  destruct (if evolvingLock peak then _ else _).
  - injection H as <-. simpl. repeat split; try done.
    + by rewrite length_insert.
    + intros k Hk. by apply list_lookup_insert_ne.
  - pose proof H as Hi.
    apply integratePeak_inv in H as (F & e1 & v & Ha & -> & _).
    pose proof (accumulateForces_pairStates_length _ _ _ _ Ha) as HL.
    apply accumulateForces_inv in Ha as [W _].
    pose proof (world_config _ _ W) as C.
    apply world_inv in W as (Wp & _ & _ & _ & _ & _ & Wg & _ & Wl & Wv & _).
    simpl. rewrite Wp, Wv.
    apply lookup_lt_Some in Ei.
    repeat split; try done.
    + by rewrite length_alter.
    + intros k Hk. by apply list_lookup_alter_ne.
    + apply setAt_length. lia.
    + intros k Hk. apply setAt_lookup_ne; [lia|done].
Qed.

Lemma movePeaks_frame sp l e e' :
  foldM (movePeak sp) l e = Some e' ->
  config e' = config e /\ spatialGrid e' = spatialGrid e /\
  _lastPositions e' = _lastPositions e /\
  length (peaks e') = length (peaks e) /\
  length (_pairStates e') = length (_pairStates e) /\
  (forall k, ~ In k l -> peaks e' !! k = peaks e !! k) /\
  ((length (peaks e) <= length (_velocities e))%nat ->
   length (_velocities e') = length (_velocities e) /\
   forall k, ~ In k l -> _velocities e' !! k = _velocities e !! k).
Proof.
  revert e. induction l as [|a l IH]; intros e H; simpl in H.
  - injection H as <-. repeat split; done.
  - destruct (movePeak sp a e) as [e1|] eqn:E1; [|done].
    apply movePeak_frame in E1 as (C1 & G1 & L1 & N1 & S1 & P1 & V1).
    apply IH in H as (C & G & L & N & S & P & V).
    split; [congruence|]. split; [congruence|]. split; [congruence|].
    split; [congruence|]. split; [congruence|]. split.
    + intros k Hk. rewrite P, P1; [done| |]; intros ?; apply Hk; simpl; auto.
    + intros Hlen. destruct (V1 Hlen) as [HL HV].
      destruct V as [HL' HV']; [lia|]. split; [lia|].
      intros k Hk.
      rewrite HV', HV; [done| |]; intros ?; apply Hk; simpl; auto.
Qed.


Lemma recordLastPositions_frame e :
  config (recordLastPositions e) = config e
  /\ peaks (recordLastPositions e) = peaks e
  /\ _velocities (recordLastPositions e) = _velocities e
  /\ spatialGrid (recordLastPositions e) = spatialGrid e
  /\ _pairDirections (recordLastPositions e) = _pairDirections e.
Proof.
  unfold recordLastPositions.
  generalize (seq 0 (length (peaks e))). intros l.
  apply (fold_left_inv _
           (fun e' => config e' = config e /\ peaks e' = peaks e
                      /\ _velocities e' = _velocities e
                      /\ spatialGrid e' = spatialGrid e
                      /\ _pairDirections e' = _pairDirections e)); [|done].
  intros a s (C & P & V & G & D). by destruct (peaks s !! a).
Qed.

Lemma resizeArrays_frame e :
  config (resizeArrays e) = config e /\ peaks (resizeArrays e) = peaks e
  /\ spatialGrid (resizeArrays e) = spatialGrid e
  /\ _pairDirections (resizeArrays e) = _pairDirections e
  /\ (length (peaks e) <= length (_pairStates (resizeArrays e)))%nat
  /\ (length (peaks e) <= length (_velocities (resizeArrays e)))%nat
  /\ (length (peaks e) <= length (_lastPositions (resizeArrays e)))%nat.
Proof.
  unfold resizeArrays; simpl. repeat split; try done;
    rewrite length_app, length_replicate; lia.
Qed.

(** The shape of a completed tick. *)
Lemma tick_inv e e' :
  tick e = Some e' ->
  exists e1 e2,
    _findPairs (resizeArrays e) = Some e1 /\
    foldM (movePeak (swarmTargets (resizeArrays e)))
      (seq 0 (length (peaks e1))) e1 = Some e2 /\
    e' = recordLastPositions e2.
Proof.
  unfold tick. intros H.
  destruct (_findPairs (resizeArrays e)) as [e1|] eqn:Ef; [|done].
  destruct (foldM _ _ e1) as [e2|] eqn:Em; [|done].
  injection H as <-. eauto.
Qed.

Lemma tick_lengths e e' :
  tick e = Some e' ->
  length (peaks e') = length (peaks e)
  /\ (length (peaks e') <= length (_pairStates e'))%nat
  /\ (length (peaks e') <= length (_velocities e'))%nat.
Proof.
  intros H. apply tick_inv in H as (e1 & e2 & Hf & Hm & ->).
  destruct (resizeArrays_frame e) as (_ & Pr & _ & _ & Lr & Vr & _).
  apply findPairs_frame in Hf as [Wf Lf].
  apply world_inv in Wf as (Pf & _ & _ & _ & _ & _ & _ & _ & _ & Vf & _).
  assert (Pf' : peaks e1 = peaks e) by (rewrite Pf; reflexivity).
  assert (Vf' : _velocities e1 = _velocities (resizeArrays e))
    by (rewrite Vf; reflexivity).
  apply movePeaks_frame in Hm as (_ & _ & _ & Nm & Sm & _ & Vm).
  destruct (recordLastPositions_frame e2) as (_ & Pl & Vl & _).
  rewrite recordLastPositions_pairStates, Pl, Vl, Nm, Sm, Lf, Pf'.
  destruct Vm as [Vm _]; [rewrite Pf', Vf'; exact Vr|].
  rewrite Vm, Vf'. repeat split; done.
Qed.

(** *** Shared headings are never lost *)

Lemma getSparse_Some {A} (l : list (option A)) k v :
  getSparse l k = Some v <-> (0 <= k)%Z /\ l !! Z.to_nat k = Some (Some v).
Proof.
  unfold getSparse. destruct (lookupZ l k) as [[w|]|] eqn:E.
  - apply lookupZ_Some in E as [H0 E]. rewrite E. split.
    + intros [= ->]. done.
    + intros [_ [= ->]]. done.
  - apply lookupZ_Some in E as [H0 E]. rewrite E. split; [done|].
    intros [_ ?]. done.
  - split; [done|]. intros [H0 H].
    assert (lookupZ l k = Some (Some v)) by (by apply lookupZ_Some).
    congruence.
Qed.

Lemma dirsGrow_refl D : dirsGrow D D.
Proof. split; [done|auto]. Qed.

Lemma dirsGrow_trans D1 D2 D3 : dirsGrow D1 D2 -> dirsGrow D2 D3 -> dirsGrow D1 D3.
Proof. intros [L1 H1] [L2 H2]. split; [lia|auto]. Qed.

Lemma dirsGrow_app D x : dirsGrow D (D ++ [x]).
Proof.
  split; [rewrite length_app; lia|].
  intros k [v Hv]. apply getSparse_Some in Hv as [H0 Hv].
  exists v. apply getSparse_Some. split; [done|].
  by apply lookup_app_l_Some.
Qed.

Lemma dirsGrow_insert D k (h : Vector3) : dirsGrow D (<[k := Some h]> D).
Proof.
  split; [by rewrite length_insert|].
  intros k' [v Hv]. apply getSparse_Some in Hv as [H0 Hv].
  destruct (decide (k = Z.to_nat k')) as [->|Hne].
  - exists h. apply getSparse_Some. split; [done|].
    apply list_lookup_insert_eq. by apply lookup_lt_Some in Hv.
  - exists v. apply getSparse_Some. split; [done|].
    by rewrite list_lookup_insert_ne.
Qed.

Lemma getSparse_setSparse_eq {A} (l : list (option A)) (k : nat) (v : A) :
  getSparse (setSparse l k v) (Z.of_nat k) = Some v.
Proof.
  apply getSparse_Some. split; [lia|]. rewrite Nat2Z.id.
  unfold setSparse. destruct (Nat.ltb_spec k (length l)).
  - by apply list_lookup_insert_eq.
  - rewrite lookup_app_r by done.
    rewrite lookup_app_r by (rewrite length_replicate; lia).
    rewrite length_replicate. by replace (k - _ - _)%nat with 0%nat by lia.
Qed.

Lemma dirsGrow_setSparse D k (v : Vector3) : dirsGrow D (setSparse D k v).
Proof.
  unfold setSparse. destruct (Nat.ltb_spec k (length D)).
  - apply dirsGrow_insert.
  - split; [rewrite length_app; lia|].
    intros k' [w Hw]. apply getSparse_Some in Hw as [H0 Hw].
    exists w. apply getSparse_Some. split; [done|].
    by apply lookup_app_l_Some.
Qed.

Lemma headed_dirsGrow P D D' : dirsGrow D D' -> headed P D -> headed P D'.
Proof. intros [_ HG] H i a Hi Ha. apply HG. by apply (H i a). Qed.

Lemma headed_pbreak P P' D : pbreak P P' -> headed P D -> headed P' D.
Proof.
  intros Hb H k a Hk Ha.
  destruct Hb as [P i p Hi Hp _|P i p Hi Hp];
    rewrite ?list_lookup_alter in Hk; repeat case_decide; subst;
    repeat match goal with
    | H : _ <$> ?o = Some _ |- _ =>
        let E := fresh in destruct o eqn:E; simpl in H; [|done]
    end; simplify_eq; try done; by apply (H k a).
Qed.

Lemma headed_pbreaks P P' D : rtc pbreak P P' -> headed P D -> headed P' D.
Proof.
  induction 1 as [|P Q R Hb _ IH]; [done|]. intros H. apply IH.
  by eapply headed_pbreak.
Qed.

Lemma headed_grow P D n : headed P D -> headed (P ++ replicate n (-1)%Z) D.
Proof.
  intros H k a Hk Ha. apply lookup_app_Some in Hk as [Hk|[_ Hk]].
  - by apply (H k a).
  - apply lookup_replicate in Hk as [-> _]. done.
Qed.

Lemma headed_link P D D' (i j : nat) :
  dirsGrow D D' ->
  is_Some (getSparse D' (Z.min (Z.of_nat i) (Z.of_nat j))) ->
  headed P D ->
  headed (alter (fun _ => Z.of_nat i) j (alter (fun _ => Z.of_nat j) i P)) D'.
Proof.
  intros HG Hij H k a Hk Ha.
  rewrite !list_lookup_alter in Hk.
  destruct (decide (j = k)) as [->|Hjk].
  - destruct (decide (i = k)) as [->|Hik].
    + destruct (P !! k); [|done]. simpl in Hk. injection Hk as <-.
      by rewrite Z.min_id in *.
    + destruct (P !! k); [|done]. simpl in Hk. injection Hk as <-.
      by rewrite Z.min_comm.
  - destruct (decide (i = k)) as [->|Hik].
    + destruct (P !! k); [|done]. simpl in Hk. injection Hk as <-. done.
    + eapply headed_dirsGrow; eauto.
Qed.

(** *** Indices held by the grid *)

Lemma gridBound_clear g n : gridBound (Grid.clear g) n.
Proof. intros key j. unfold bucket, Grid.clear; simpl. by rewrite lookup_empty. Qed.

Lemma gridBound_insert g n i p :
  (i < n)%nat -> gridBound g n -> gridBound (Grid.insert g i p) n.
Proof.
  intros Hi Hg key j. unfold bucket, Grid.insert; simpl.
  destruct (decide (Grid._hash g (vx p) (vz p) = key)) as [->|Hne].
  - rewrite lookup_insert_eq. intros [Hj|[->|[]]]%in_app_or; [|done].
    apply (Hg key). exact Hj.
  - rewrite lookup_insert_ne by done. apply Hg.
Qed.

Lemma gridBound_insertAll agents g n :
  Forall (fun a => (a.1 < n)%nat) agents ->
  gridBound g n -> gridBound (Grid.insertAll g agents) n.
Proof.
  intros H. revert g. induction H as [|a agents Ha _ IH]; intros g Hg; [done|].
  simpl. apply IH. by apply gridBound_insert.
Qed.

Lemma gridBound_rebuild e :
  gridBound (spatialGrid (rebuildGrid e)) (length (peaks e)).
Proof.
  unfold rebuildGrid; simpl. apply gridBound_insertAll;
    [|apply gridBound_clear].
  apply Forall_forall. intros [i p] Hin.
  apply list_elem_of_lookup in Hin as [k Hk].
  apply list_lookup_imap_Some in Hk as (x & Hx & [= -> ->]).
  simpl. by apply lookup_lt_Some in Hx.
Qed.

Lemma getNearby_bound g n q r j :
  gridBound g n -> In j (Grid.getNearby g q r) -> (j < n)%nat.
Proof.
  intros Hg Hj. unfold Grid.getNearby in Hj.
  apply in_flat_map in Hj as (dx & _ & Hj).
  apply in_flat_map in Hj as (dz & _ & Hj).
  by eapply Hg.
Qed.

Lemma rebuildGrid_built e : gridBuilt (rebuildGrid e).
Proof.
  unfold gridBuilt, rebuildGrid; simpl. f_equal.
  unfold Grid.clear. f_equal. by rewrite insertAll_cellSize.
Qed.

(** *** Totality of the pairing pass *)

Lemma foldM_total {A S} (f : A -> S -> option S) (I : S -> Prop)
    (Q : A -> Prop) l :
  (forall a s, Q a -> I s -> exists s', f a s = Some s' /\ I s') ->
  Forall Q l ->
  forall s, I s -> exists s', foldM f l s = Some s' /\ I s'.
Proof.
  intros Hf H. induction H as [|a l Ha _ IH]; intros s Hs; simpl; [eauto|].
  destruct (Hf a s Ha Hs) as (s1 & -> & Hs1). by apply IH.
Qed.

Lemma formPair_total i e :
  (length (peaks e) <= length (_pairStates e))%nat ->
  gridBound (spatialGrid e) (length (peaks e)) ->
  (i < length (peaks e))%nat ->
  is_Some (formPair i e).
Proof.
  intros HL HG Hi. unfold formPair.
  destruct (lookup_lt_is_Some_2 (_pairStates e) i) as [state ->]; [lia|].
  destruct (negb _ || _); [done|].
  destruct (peaks e !! i) as [peakA|]; [|done].
  destruct (negb _); [done|].
  unfold bestCandidate. rewrite foldM_pick.
  - destruct (fold_left _ _ _) as [b d]. by destruct (b =? -1)%Z.
  - apply Forall_forall. intros j Hj. right.
    apply list_elem_of_In in Hj.
    apply lookup_lt_is_Some_2.
    pose proof (getNearby_bound _ _ _ _ _ HG Hj). lia.
Qed.

Lemma findPairs_total e :
  (length (peaks e) <= length (_pairStates e))%nat ->
  is_Some (_findPairs e).
Proof.
  intros HL. unfold _findPairs.
  set (e3 := breakLoop (rebuildGrid (timersStep e))).
  destruct (breakLoop_frame (rebuildGrid (timersStep e))) as (W & _ & _ & L).
  fold e3 in W, L.
  apply world_inv in W as (Wp & _ & _ & _ & _ & _ & Wg & _).
  assert (Hp : peaks e3 = peaks e) by (rewrite Wp; reflexivity).
  assert (Hl : length (_pairStates e3) = length (_pairStates e)).
  { rewrite L. simpl. by rewrite length_map. }
  destruct (foldM_total formPair
              (fun s => peaks s = peaks e
                        /\ spatialGrid s = spatialGrid e3
                        /\ length (_pairStates s) = length (_pairStates e))
              (fun i => (i < length (peaks e))%nat)
              (seq 0 (length (peaks e3)))) with (s := e3)
    as (s' & Hs' & _).
  - intros a s Ha (Ps & Gs & Ls).
    destruct (formPair_total a s) as [s' Hs']; [rewrite Ps; lia| |by rewrite Ps|].
    + rewrite Ps, Gs, Wg. apply (gridBound_rebuild (timersStep e)).
    + exists s'. split; [done|].
      apply formPair_frame in Hs' as [W' L'].
      apply world_inv in W' as (Wp' & _ & _ & _ & _ & _ & Wg' & _).
      repeat split; congruence.
  - rewrite Hp. apply Forall_forall.
    intros i Hi%list_elem_of_In%in_seq. lia.
  - done.
  - by rewrite Hs'.
Qed.

(** *** Headings through the pairing pass *)

Lemma breakLoop_headed e : headedE e -> headedE (breakLoop e).
Proof.
  unfold headedE. intros H.
  destruct (breakLoop_frame e) as (_ & -> & _).
  eapply headed_pbreaks; [apply breakLoop_pbreak|done].
Qed.

Lemma linkPair_headed (i j : nat) e :
  headedE e -> headedE (linkPair i (Z.of_nat j) e).
Proof.
  unfold headedE. intros H. rewrite linkPair_pairStates.
  rewrite (partners_alter_const (Z.of_nat i)) by done.
  rewrite (partners_alter_const (Z.of_nat j)) by done.
  rewrite Nat2Z.id. unfold linkPair. cbn zeta.
  match goal with
  | |- context [getSparse ?D ?k] => destruct (getSparse D k) as [v|] eqn:Ev
  end.
  - simpl in *. apply (headed_link _ (_pairDirections e));
      [apply dirsGrow_refl| |done]. rewrite Ev. eauto.
  - destruct (randomDirection _) as [d e2] eqn:Ed.
    apply randomDirection_world in Ed as (_ & _ & D). simpl in *.
    rewrite D. apply (headed_link _ (_pairDirections e));
      [apply dirsGrow_setSparse| |done].
    replace (Z.min (Z.of_nat i) (Z.of_nat j))
      with (Z.of_nat (Z.to_nat (Z.min (Z.of_nat i) (Z.of_nat j)))) at 2 by lia.
    rewrite getSparse_setSparse_eq. eauto.
Qed.

Lemma formPair_headed i e e' :
  formPair i e = Some e' -> headedE e -> headedE e'.
Proof.
  intros H. apply formPair_cases in H as [->|(?&?&j&?&_&_&_&_&_&_&_&->)];
    [done|]. apply linkPair_headed.
Qed.

Lemma findPairs_headed e e' :
  _findPairs e = Some e' -> headedE e -> headedE e'.
Proof.
  unfold _findPairs. intros H He.
  eapply (foldM_inv formPair headedE); [|exact H|].
  - intros a s s'. apply formPair_headed.
  - apply breakLoop_headed. unfold headedE in *.
    rewrite rebuildGrid_pairStates, timersStep_partners. exact He.
Qed.

(** *** Headings through the force passes *)

Lemma growDirections_dirs n e :
  dirsGrow (_pairDirections e) (_pairDirections (growDirections n e)).
Proof.
  revert e. induction n as [|n IH]; intros e; cbn [growDirections];
    [apply dirsGrow_refl|].
  destruct (randomDirection e) as [d e1] eqn:E.
  apply randomDirection_world in E as (_ & _ & D).
  eapply dirsGrow_trans; [|apply IH]. simpl. rewrite D. apply dirsGrow_app.
Qed.

Lemma pairedForces_dirs index peak state F e F' e' :
  pairedForces index peak state F e = Some (F', e') ->
  dirsGrow (_pairDirections e) (_pairDirections e').
Proof.
  unfold pairedForces. intros H.
  set (e0 := set_pairStates e _) in H.
  assert (D0 : _pairDirections e0 = _pairDirections e) by done.
  clearbody e0.
  destruct (lookupZ (peaks e0) (partner state)) as [partnerPeak|];
    [|injection H as <- <-; rewrite D0; apply dirsGrow_refl].
  destruct (Rltb _ 1e-6);
    [injection H as <- <-; rewrite D0; apply dirsGrow_refl|].
  destruct (getSparse _ _) as [heading0|]; [|done].
  match type of H with
  | (let '(_, _) := ?t in _) = _ => destruct t as [heading ea] eqn:Eh
  end.
  assert (Da : dirsGrow (_pairDirections e) (_pairDirections ea)).
  { destruct (_ =? _)%Z.
    - destruct (desiredHeading _ _ _ _ _ _) as [tangent eb] eqn:Ed.
      injection Eh as <- <-.
      apply desiredHeading_world in Ed as (_ & _ & D).
      simpl. rewrite D, D0. apply dirsGrow_insert.
    - injection Eh as <- <-. rewrite D0. apply dirsGrow_refl. }
  clear Eh.
  destruct (random ea) as [r1 e1] eqn:E1.
  destruct (random e1) as [r2 e2] eqn:E2.
  apply random_world in E1 as (_ & _ & D1).
  apply random_world in E2 as (_ & _ & D2).
  destruct (_ <? _)%Z.
  - destruct (random e2) as [r3 e3] eqn:E3.
    apply random_world in E3 as (_ & _ & D3).
    destruct (Rltb r3 _); injection H as <- <-; simpl; congruence.
  - injection H as <- <-. congruence.
Qed.

Lemma soloForces_dirs index state F e F' e' :
  soloForces index state F e = (F', e') ->
  _pairDirections e' = _pairDirections e.
Proof.
  unfold soloForces. intros H. cbv zeta in H.
  destruct ((0 <? breakFade state)%Z && _).
  - match type of H with
    | context [random ?x] => set (e0 := x) in H
    end.
    assert (D0 : _pairDirections e0 = _pairDirections e) by done.
    clearbody e0.
    destruct (random e0) as [r1 e1] eqn:E1.
    destruct (random e1) as [r2 e2] eqn:E2.
    apply random_world in E1 as (_ & _ & D1).
    apply random_world in E2 as (_ & _ & D2).
    injection H as <- <-. congruence.
  - destruct (random e) as [r1 e1] eqn:E1.
    destruct (random e1) as [r2 e2] eqn:E2.
    apply random_world in E1 as (_ & _ & D1).
    apply random_world in E2 as (_ & _ & D2).
    injection H as <- <-. congruence.
Qed.

Lemma applyPairingForces_dirs index F e F' e' :
  _applyPairingForces index F e = Some (F', e') ->
  dirsGrow (_pairDirections e) (_pairDirections e').
Proof.
  unfold _applyPairingForces. intros H.
  destruct (peaks e !! index) as [peak|]; [|done].
  destruct (_pairStates e !! index) as [state|] eqn:Ei; [|done].
  pose proof (growDirections_dirs
                (length (peaks e) - length (_pairDirections e)) e) as Dg.
  destruct (negb _).
  - apply pairedForces_dirs in H. by eapply dirsGrow_trans.
  - match type of H with
    | Some ?t = _ => assert (Hs : t = (F', e')) by congruence
    end.
    apply soloForces_dirs in Hs. by rewrite Hs.
Qed.

Lemma accumulateForces_dirs i e F e' :
  accumulateForces i e = Some (F, e') ->
  dirsGrow (_pairDirections e) (_pairDirections e').
Proof.
  unfold accumulateForces. intros H.
  destruct (_pairStates e !! i) as [s0|]; [|done].
  set (e0 := set_pairStates e _) in H.
  assert (D0 : _pairDirections e0 = _pairDirections e) by done.
  clearbody e0.
  destruct (_applyPairingForces i V3.zero e0) as [[F1 e1]|] eqn:Ep; [|done].
  destruct (_pairStates e1 !! i) as [st|]; [|done].
  destruct (if breakThisFrame st then _ else _) as [F2|]; [|done].
  apply applyExplorationForces_inv in H as (_ & _ & D).
  apply applyPairingForces_dirs in Ep. rewrite D, <- D0. exact Ep.
Qed.

Lemma accumulateForces_headed i e F e' :
  accumulateForces i e = Some (F, e') -> headedE e -> headedE e'.
Proof.
  intros H He. unfold headedE in *.
  pose proof (accumulateForces_dirs _ _ _ _ H) as D.
  apply accumulateForces_inv in H as [_ Hb].
  eapply headed_dirsGrow; [exact D|]. by eapply headed_pbreaks.
Qed.

Lemma movePeak_headed sp i e e' :
  movePeak sp i e = Some e' -> headedE e -> headedE e'.
Proof.
  unfold movePeak. intros H He.
  destruct (peaks e !! i) as [peak|]; [|by injection H as <-].
  destruct (_ && _); [by injection H as <-|].
  destruct (stopAllMovement e); [by injection H as <-|].
  destruct (_ && _); [by injection H as <-|].
  destruct (if evolvingLock peak then _ else _).
  - by injection H as <-.
  - apply integratePeak_inv in H as (F & e1 & v & Ha & -> & _).
    by apply (accumulateForces_headed _ _ _ _ Ha).
Qed.

(** *** Totality of the movement loop *)

Lemma pairedForces_total index peak state F e :
  is_Some (getSparse (_pairDirections e)
             (Z.min (Z.of_nat index) (partner state))) ->
  is_Some (pairedForces index peak state F e).
Proof.
  intros [h Hh]. unfold pairedForces. cbv zeta.
  destruct (lookupZ _ _); [|done].
  destruct (Rltb _ _); [done|].
  cbn [_pairDirections set_pairStates]. rewrite Hh.
  match goal with
  | |- is_Some (let '(_, _) := ?t in _) => destruct t as [heading ea]
  end.
  destruct (random ea) as [r1 e1]. destruct (random e1) as [r2 e2].
  destruct (_ <? _)%Z; [|done].
  destruct (random e2) as [r3 e3]. by destruct (Rltb _ _).
Qed.

Lemma applyPairingForces_total index F e :
  (index < length (peaks e))%nat ->
  (index < length (_pairStates e))%nat ->
  headedE e ->
  is_Some (_applyPairingForces index F e).
Proof.
  intros Hp Hs He. unfold _applyPairingForces.
  destruct (lookup_lt_is_Some_2 _ _ Hp) as [peak ->].
  destruct (lookup_lt_is_Some_2 _ _ Hs) as [state Hst]. rewrite Hst.
  destruct (Z.eqb_spec (partner state) (-1)) as [|Hne]; simpl; [done|].
  apply pairedForces_total.
  destruct (growDirections_dirs
              (length (peaks e) - length (_pairDirections e)) e) as [_ HG].
  apply HG. apply (He index (partner state)); [|done].
  by apply partners_lookup.
Qed.

Lemma applyRepulsionForces_total index F e :
  (index < length (peaks e))%nat -> is_Some (_applyRepulsionForces index F e).
Proof.
  intros Hp. unfold _applyRepulsionForces.
  by destruct (lookup_lt_is_Some_2 _ _ Hp) as [peak ->].
Qed.

Lemma applyExplorationForces_total index F t e :
  (index < length (peaks e))%nat ->
  is_Some (_applyExplorationForces index F t e).
Proof.
  intros Hp. unfold _applyExplorationForces.
  destruct (lookup_lt_is_Some_2 _ _ Hp) as [peak ->].
  destruct (outerPart _ _ _). by destruct (centerAvoidance _ _ _ _).
Qed.

Lemma accumulateForces_total i e :
  (i < length (peaks e))%nat ->
  (i < length (_pairStates e))%nat ->
  headedE e ->
  is_Some (accumulateForces i e).
Proof.
  intros Hp Hs He. unfold accumulateForces.
  destruct (lookup_lt_is_Some_2 _ _ Hs) as [state ->].
  set (e0 := set_pairStates e _).
  assert (He0 : headedE e0).
  { unfold headedE, e0; simpl. by rewrite partners_alter_same. }
  assert (Hp0 : (i < length (peaks e0))%nat) by done.
  assert (Hs0 : (i < length (_pairStates e0))%nat).
  { unfold e0; simpl. by rewrite length_alter. }
  clearbody e0.
  destruct (applyPairingForces_total i V3.zero e0 Hp0 Hs0 He0)
    as [[F1 e1] Hpf]. rewrite Hpf.
  pose proof (applyPairingForces_pbreak _ _ _ _ _ Hpf) as Hb.
  apply applyPairingForces_inv in Hpf as [W _].
  apply world_inv in W as (Wp & _).
  assert (Hs1 : (i < length (_pairStates e1))%nat).
  { rewrite <- partners_length.
    assert (length (partners (_pairStates e1))
            = length (partners (_pairStates e0))) as ->.
    { clear -Hb. induction Hb as [|P Q R Hb _ IH]; [done|].
      rewrite IH. by apply pbreak_length. }
    by rewrite partners_length. }
  destruct (lookup_lt_is_Some_2 _ _ Hs1) as [st ->].
  assert (Hp1 : (i < length (peaks e1))%nat) by (by rewrite Wp).
  destruct (breakThisFrame st).
  - by apply applyExplorationForces_total.
  - destruct (applyRepulsionForces_total i F1 e1 Hp1) as [F2 ->].
    by apply applyExplorationForces_total.
Qed.

Lemma movePeak_total sp i e :
  (i < length sp)%nat ->
  (length (peaks e) <= length (_pairStates e))%nat ->
  headedE e ->
  is_Some (movePeak sp i e).
Proof.
  intros Hsp HL He. unfold movePeak.
  destruct (peaks e !! i) as [peak|] eqn:Ei; [|done].
  destruct (_ && _); [done|].
  destruct (stopAllMovement e); [done|].
  destruct (_ && _); [done|].
  destruct (if evolvingLock peak then _ else _); [done|].
  unfold integratePeak.
  destruct (lookup_lt_is_Some_2 _ _ Hsp) as [bt ->].
  apply lookup_lt_Some in Ei.
  destruct (accumulateForces_total i e) as [[F e1] ->]; [done|lia|done|done].
Qed.

Lemma movePeaks_total sp l e :
  Forall (fun i => (i < length sp)%nat) l ->
  (length (peaks e) <= length (_pairStates e))%nat ->
  headedE e ->
  exists e', foldM (movePeak sp) l e = Some e' /\ headedE e'.
Proof.
  intros Hl HL He.
  destruct (foldM_total (movePeak sp)
              (fun s => (length (peaks s) <= length (_pairStates s))%nat
                        /\ headedE s)
              (fun i => (i < length sp)%nat) l) with (s := e)
    as (e' & He' & _ & Hh); [|done|done|eauto].
  intros a s Ha [Ls Hs].
  destruct (movePeak_total sp a s Ha Ls Hs) as [s' Hs'].
  exists s'. split; [done|].
  pose proof (movePeak_headed _ _ _ _ Hs' Hs).
  apply movePeak_frame in Hs' as (_ & _ & _ & N & S & _).
  split; [lia|done].
Qed.

Lemma swarmTargets_length e : length (swarmTargets e) = length (peaks e).
Proof.
  unfold swarmTargets, generateSwarmPeakPositions.
  destruct (frozenSwarmPositions e) as [frozen|].
  - destruct (targetLocked e); simpl.
    + destruct (Nat.eqb_spec (length frozen) (length (peaks e))); [done|].
      by rewrite length_map, length_seq.
    + by rewrite length_map, length_seq.
  - by rewrite length_map, length_seq.
Qed.

Lemma wf_resize e : wf e -> wf (resizeArrays e).
Proof.
  intros [HL HH]. split.
  - apply linked_partners. apply (psteps_linkedZ (partners (_pairStates e))).
    + apply rtc_once, resizeArrays_pstep.
    + by apply linked_partners.
  - unfold resizeArrays; simpl. unfold partners.
    rewrite fmap_app, fmap_replicate. by apply headed_grow.
Qed.

(** A tick always completes and re-establishes the invariant. *)
Lemma tick_total e : wf e -> exists e', tick e = Some e' /\ wf e'.
Proof.
  intros Hwf. pose proof (wf_resize e Hwf) as [HL HH].
  destruct (resizeArrays_frame e) as (_ & Pr & _ & _ & Lr & _).
  destruct (findPairs_total (resizeArrays e)) as [e1 H1];
    [by rewrite Pr|].
  pose proof (findPairs_headed _ _ H1 HH) as HH1.
  pose proof (findPairs_pstep _ _ H1) as HP1.
  pose proof (findPairs_frame _ _ H1) as [W1 L1].
  apply world_inv in W1 as (Wp & _).
  assert (Hp1 : peaks e1 = peaks e) by (rewrite Wp; reflexivity).
  destruct (movePeaks_total (swarmTargets (resizeArrays e))
              (seq 0 (length (peaks e1))) e1) as (e2 & H2 & HH2).
  - apply Forall_forall. intros i Hi%list_elem_of_In%in_seq.
    rewrite swarmTargets_length, Pr, <- Hp1. lia.
  - rewrite L1, Hp1. exact Lr.
  - done.
  - exists (recordLastPositions e2). split.
    + unfold tick. by rewrite H1, H2.
    + split.
      * rewrite recordLastPositions_pairStates.
        apply linked_partners.
        apply (psteps_linkedZ (partners (_pairStates (resizeArrays e))));
          [|by apply linked_partners].
        etrans; [exact HP1|].
        by eapply pbreaks_psteps, movePeaks_pbreak.
      * unfold headedE in HH2.
        destruct (recordLastPositions_frame e2) as (_ & _ & _ & _ & D).
        by rewrite recordLastPositions_pairStates, D.
Qed.

(** ** C1: pairing symmetry *)

Lemma wf_coupleScene d : wf (coupleScene d).
Proof.
  split; [split|].
  - intros i j si sj Hi Hj.
    destruct i as [|[|i]]; destruct j as [|[|j]]; simpl in *;
      try done; injection Hi as <-; injection Hj as <-; simpl; split; lia.
  - intros i s Hi. destruct i as [|[|i]]; simpl in *; try done;
      injection Hi as <-; simpl; right; lia.
  - intros i a Hi Ha. destruct i as [|[|i]]; simpl in *; try done;
      injection Hi as <-; simpl; eauto.
Qed.

(** C1.  Pairing links are mutual.  From a state satisfying the registry
    invariant, the pairing pass of a tick completes with mutual links,
    a probabilistic break of any agent with its partner keeps links
    mutual, and the whole tick completes in a state that satisfies the
    invariant again, where for all indices [i], [j] of the population
    [i]'s partner is [j] exactly when [j]'s partner is [i]. *)
Theorem pairing_symmetry (e : Engine) :
  wf e ->
  (exists e1, _findPairs (resizeArrays e) = Some e1
              /\ linked (_pairStates e1)) /\
  (forall (i : nat) st h ease,
     _pairStates e !! i = Some st ->
     linked (_pairStates (_breakPair i (partner st) h ease e))) /\
  (exists e', tick e = Some e' /\ wf e' /\
     forall i j : nat,
       (i < length (peaks e'))%nat -> (j < length (peaks e'))%nat ->
       exists si sj,
         _pairStates e' !! i = Some si /\ _pairStates e' !! j = Some sj /\
         (partner si = Z.of_nat j <-> partner sj = Z.of_nat i)).
Proof.
  intros Hwf. split; [|split].
  - destruct (wf_resize e Hwf) as [HL _].
    destruct (resizeArrays_frame e) as (_ & Pr & _ & _ & Lr & _).
    destruct (findPairs_total (resizeArrays e)) as [e1 H1];
      [by rewrite Pr|].
    exists e1. split; [done|]. apply linked_partners.
    eapply psteps_linkedZ; [by apply findPairs_pstep|].
    by apply linked_partners.
  - intros i st h ease Hi. destruct Hwf as [HL _].
    apply linked_partners.
    apply (psteps_linkedZ (partners (_pairStates e)));
      [|by apply linked_partners].
    apply rtc_once, pstep_break. by apply breakPair_pbreak.
  - destruct (tick_total e Hwf) as (e' & Ht & Hwf').
    exists e'. split; [done|]. split; [done|].
    intros i j Hi Hj.
    destruct (tick_lengths _ _ Ht) as (_ & HL & _).
    destruct (lookup_lt_is_Some_2 (_pairStates e') i) as [si Hsi]; [lia|].
    destruct (lookup_lt_is_Some_2 (_pairStates e') j) as [sj Hsj]; [lia|].
    exists si, sj. split; [done|]. split; [done|].
    destruct Hwf' as [[Hs _] _]. by apply (Hs i j).
Qed.

Lemma pairing_symmetry_witness :
  wf (coupleScene 10) /\
  exists e', tick (coupleScene 10) = Some e' /\ wf e'.
Proof.
  split; [apply wf_coupleScene|].
  destruct (pairing_symmetry (coupleScene 10) (wf_coupleScene 10))
    as (_ & _ & e' & Ht & Hwf & _).
  exists e'. by split.
Defined.

(** ** The writes of a break *)

Lemma breakWrites_other M k p ps m :
  m <> k -> m <> Z.to_nat p -> breakWrites M k p ps !! m = ps !! m.
Proof.
  intros Hk Hp. unfold breakWrites.
  by rewrite !list_lookup_alter_ne by done.
Qed.

Lemma breakWrites_self M (k j : nat) ps s :
  ps !! k = Some s ->
  exists s', breakWrites M k (Z.of_nat j) ps !! k = Some s'
             /\ brokenFrom M j s'.
Proof.
  intros Hs. unfold breakWrites. rewrite Nat2Z.id.
  rewrite !list_lookup_alter.
  repeat case_decide; try congruence; subst; rewrite Hs; simpl;
    (eexists; split; [done|]; by repeat split).
Qed.

Lemma breakWrites_partner M (k j : nat) ps s :
  ps !! j = Some s ->
  exists s', breakWrites M k (Z.of_nat j) ps !! j = Some s'
             /\ brokenFrom M k s'.
Proof.
  intros Hs. unfold breakWrites. rewrite Nat2Z.id.
  rewrite !list_lookup_alter.
  repeat case_decide; try congruence; subst; rewrite Hs; simpl;
    (eexists; split; [done|]; by repeat split).
Qed.

Lemma pbreaks_symZ P P' : rtc pbreak P P' -> symZ P -> symZ P'.
Proof.
  induction 1 as [|P Q R Hb _ IH]; [done|]. intros H. apply IH.
  by eapply pbreak_symZ.
Qed.

(** ** The formation step on a concrete scene *)

Lemma Zfloor_unit x : 0 <= x < 1 -> Zfloor x = 0%Z.
Proof. intros H. apply Zfloor_eq. simpl. lra. Qed.

Lemma Zceil_unit x : 0 < x <= 1 -> Zceil x = 1%Z.
Proof. intros H. apply Zceil_eq. simpl. lra. Qed.

Lemma tieScene_nearby :
  Grid.getNearby (spatialGrid tieScene) (mkV 0 0 0) 25 = [0; 1; 2]%nat.
Proof.
  unfold tieScene, rebuildGrid, Grid.getNearby, Grid.insertAll, Grid.insert,
    Grid._hash, Grid.clear; simpl.
  rewrite !(Zfloor_unit (0 / 50)) by lra.
  rewrite !(Zfloor_unit (10 / 50)) by lra.
  rewrite (Zceil_unit (25 / 50)) by lra.
  vm_compute. reflexivity.
Qed.

Lemma gridBuilt_bound e :
  gridBuilt e -> gridBound (spatialGrid e) (length (peaks e)).
Proof.
  intros HG. rewrite HG.
  apply gridBound_insertAll; [|apply gridBound_clear].
  apply Forall_forall. intros [a p] Hin.
  apply list_elem_of_lookup in Hin as [m Hm].
  apply list_lookup_imap_Some in Hm as (x & Hx & [= -> ->]).
  simpl. by apply lookup_lt_Some in Hx.
Qed.

(** The formation step of an agent that passes the guards, as a pure
    search followed by the link. *)
Lemma formPair_search e i state peakA :
  gridBuilt e ->
  (length (peaks e) <= length (_pairStates e))%nat ->
  _pairStates e !! i = Some state ->
  partner state = (-1)%Z -> cooldown state = 0%Z ->
  peaks e !! i = Some peakA ->
  truthy (pairCategory e i) = true ->
  formPair i e
  = let r := fold_left (pick e i peakA (pairCategory e i))
               (Grid.getNearby (spatialGrid e) (currentPyramidCenter peakA)
                  (pairFormRadius (motionSystem e)))
               ((-1)%Z, pairFormRadius (motionSystem e)) in
    if (r.1 =? -1)%Z then Some e else Some (linkPair i r.1 e).
Proof.
  intros HG HL Hi Hp Hcd HA Hcat.
  unfold formPair. rewrite Hi, Hp, Hcd, HA. simpl.
  rewrite Hcat. simpl. unfold bestCandidate. rewrite foldM_pick.
  - by destruct (fold_left _ _ _).
  - apply Forall_forall. intros j Hj%list_elem_of_In. right.
    apply lookup_lt_is_Some_2.
    assert (j < length (peaks e))%nat; [|lia].
    eapply getNearby_bound; [|exact Hj]. by apply gridBuilt_bound.
Qed.

(** *** The tie scene *)

Lemma distanceTo_x0 d : 0 <= d -> V3.distanceTo (mkV 0 0 0) (mkV d 0 0) = d.
Proof.
  intros H. unfold V3.distanceTo, V3.distanceToSquared; simpl.
  replace (_ + _ + _) with (d * d) by ring. by apply sqrt_square.
Qed.

Lemma distanceTo_z0 d : 0 <= d -> V3.distanceTo (mkV 0 0 0) (mkV 0 0 d) = d.
Proof.
  intros H. unfold V3.distanceTo, V3.distanceToSquared; simpl.
  replace (_ + _ + _) with (d * d) by ring. by apply sqrt_square.
Qed.

Lemma tieScene_built : gridBuilt tieScene.
Proof. apply rebuildGrid_built. Qed.

Lemma tieScene_dist1 : distFrom tieScene (peakAt (mkV 0 0 0)) 1 = 10.
Proof. unfold distFrom; simpl. apply distanceTo_x0. lra. Qed.

Lemma tieScene_dist2 : distFrom tieScene (peakAt (mkV 0 0 0)) 2 = 10.
Proof. unfold distFrom; simpl. apply distanceTo_z0. lra. Qed.

Lemma tieScene_eligible1 : eligible tieScene 0 (Some "low"%string) 1 = true.
Proof. reflexivity. Qed.

Lemma tieScene_eligible2 : eligible tieScene 0 (Some "low"%string) 2 = true.
Proof. reflexivity. Qed.

(** The claimed tie-break fails: agents 1 and 2 are both eligible for agent
    0 and equally far from it, and the query returns 1 before 2, yet the
    formation step links 0 with 2. *)
Lemma tie_goes_to_last :
  eligible tieScene 0 (pairCategory tieScene 0) 1 = true /\
  eligible tieScene 0 (pairCategory tieScene 0) 2 = true /\
  distFrom tieScene (peakAt (mkV 0 0 0)) 1
  = distFrom tieScene (peakAt (mkV 0 0 0)) 2 /\
  Grid.getNearby (spatialGrid tieScene) (mkV 0 0 0)
    (pairFormRadius (motionSystem tieScene)) = [0; 1; 2]%nat /\
  formPair 0 tieScene = Some (linkPair 0 2 tieScene) /\
  exists s0, _pairStates (linkPair 0 2 tieScene) !! 0%nat = Some s0
             /\ partner s0 = 2%Z.
Proof.
  split; [exact tieScene_eligible1|]. split; [exact tieScene_eligible2|].
  split; [by rewrite tieScene_dist1, tieScene_dist2|].
  split; [exact tieScene_nearby|]. split.
  - assert (HL : (length (peaks tieScene) <= length (_pairStates tieScene))%nat)
      by (simpl; lia).
    rewrite (formPair_search tieScene 0 newPairState (peakAt (mkV 0 0 0))
               tieScene_built HL eq_refl eq_refl eq_refl eq_refl eq_refl).
    change (currentPyramidCenter (peakAt (mkV 0 0 0))) with (mkV 0 0 0).
    change (pairFormRadius (motionSystem tieScene)) with 25.
    rewrite tieScene_nearby.
    change (pairCategory tieScene 0) with (Some "low"%string).
    set (pk := peakAt (mkV 0 0 0)).
    assert (P0 : pick tieScene 0 pk (Some "low"%string) ((-1)%Z, 25) 0
                 = ((-1)%Z, 25)).
    { unfold pick.
      by change (eligible tieScene 0 (Some "low"%string) 0) with false. }
    assert (P1 : pick tieScene 0 pk (Some "low"%string) ((-1)%Z, 25) 1
                 = (1%Z, 10)).
    { unfold pick, pk. rewrite tieScene_eligible1, tieScene_dist1.
      cbn [andb snd]. by rewrite (proj2 (Rleb_true 10 25)) by lra. }
    assert (P2 : pick tieScene 0 pk (Some "low"%string) (1%Z, 10) 2
                 = (2%Z, 10)).
    { unfold pick, pk. rewrite tieScene_eligible2, tieScene_dist2.
      cbn [andb snd]. by rewrite (proj2 (Rleb_true 10 10)) by lra. }
    cbn [fold_left]. rewrite P0, P1, P2. reflexivity.
  - eexists. split; [reflexivity|]. reflexivity.
Qed.

(** ** C8: construction performs no validation *)

(** A zero cell size is accepted: the constructor returns an instance
    and raises nothing.  The failure shows in the simulation only: on
    that instance the query with the formation radius of 25 does not
    return ([25 / 0] is [Infinity], and the loop over the cells never
    ends). *)
Lemma zero_cell_size_accepted :
  Grid.constructor 0 = Returned (mkGrid 0 ∅)
  /\ (~ exists msg, Grid.constructor 0 = Thrown msg)
  /\ forall q, DblGrid.getNearby (mkGrid 0 ∅) q 25 = None.
Proof.
  split; [reflexivity|]. split; [intros [msg H]; discriminate H|].
  intros q. unfold DblGrid.getNearby; simpl.
  destruct (Req_dec_T 0 0) as [_|C]; [|by destruct C].
  unfold Rltb. destruct (Rlt_dec 0 25) as [_|C]; [done|]. destruct C. lra.
Qed.

Lemma wf_empty_states e :
  _pairStates e = [] -> wf e.
Proof.
  intros H. unfold wf, linked, symmetric, inRange, headed, partners.
  rewrite H. repeat split; intros; by rewrite ?lookup_nil in *.
Qed.

(** C8 (as the code has it).  Neither constructor validates its
    configuration.  The grid constructor returns for every cell size.
    The engine constructor takes a scene and a base radius, no cell size
    and no speed: without a scene it raises the TypeError of
    [this.scene.add] in [initPeaks]; with a scene it returns, whatever
    the base radius, an engine with a grid of cell size 50, the motion
    table with [maxVelocity = 1.5] and ten peaks, in a state that
    satisfies the registry invariant. *)
Theorem construction_validates_nothing :
  (forall c : R, Grid.constructor c = Returned (mkGrid c ∅)) /\
  (forall (baseRadius : R) (rng : nat -> R),
     exists msg, ParticleSystem_new None baseRadius rng = Thrown msg) /\
  (forall (scene : Scene) (baseRadius : R) (rng : nat -> R),
     exists e, ParticleSystem_new (Some scene) baseRadius rng = Returned e
               /\ cellSize (spatialGrid e) = 50
               /\ maxVelocity (motionSystem e) = 1.5
               /\ length (peaks e) = 10%nat
               /\ wf e).
Proof.
  split; [reflexivity|]. split.
  - intros b rng. eexists. reflexivity.
  - intros s b rng. eexists. split; [reflexivity|].
    split; [reflexivity|]. split; [reflexivity|]. split; [reflexivity|].
    by apply wf_empty_states.
Qed.

(** ** C3: the resize step only grows the auxiliary arrays *)

Lemma repositionPeaks_frame e :
  length (peaks (repositionPeaks e)) = length (peaks e)
  /\ _pairStates (repositionPeaks e) = _pairStates e
  /\ _lastPositions (repositionPeaks e) = _lastPositions e
  /\ _velocities (repositionPeaks e) = _velocities e
  /\ _pairDirections (repositionPeaks e) = _pairDirections e.
Proof. unfold repositionPeaks; simpl. by rewrite length_imap. Qed.

Lemma createPeaks_frame total l e :
  let e' := fold_left (fun e i => createSinglePeak i total e) l e in
  length (peaks e') = (length (peaks e) + length l)%nat
  /\ _pairStates e' = _pairStates e
  /\ _lastPositions e' = _lastPositions e
  /\ _velocities e' = _velocities e
  /\ _pairDirections e' = _pairDirections e.
Proof.
  revert e. induction l as [|a l IH]; intros e; simpl.
  - repeat split; lia.
  - destruct (IH (createSinglePeak a total e)) as (L & -> & -> & -> & ->).
    rewrite L. unfold createSinglePeak; simpl. rewrite length_app; simpl.
    repeat split; lia.
Qed.

Lemma removePeaks_frame n : forall target e,
  length (peaks e) = (target + n)%nat ->
  let e' := fold_left (fun e i => removeSinglePeak i e)
              (rev (seq target n)) e in
  length (peaks e') = target
  /\ _pairStates e' = _pairStates e
  /\ _lastPositions e' = _lastPositions e
  /\ _velocities e' = _velocities e
  /\ _pairDirections e' = _pairDirections e.
Proof.
  induction n as [|n IH]; intros target e HL; cbv zeta.
  - simpl. repeat split; lia.
  - rewrite seq_S, rev_app_distr. cbn [rev app fold_left].
    assert (Hrm : length (peaks (removeSinglePeak (target + n) e))
                  = (target + n)%nat).
    { unfold removeSinglePeak.
      destruct (Nat.leb_spec (length (peaks e)) (target + n)); [lia|].
      simpl. rewrite length_delete; [lia|].
      apply lookup_lt_is_Some_2. lia. }
    destruct (IH target (removeSinglePeak (target + n) e) Hrm)
      as (L & -> & -> & -> & ->).
    split; [exact L|].
    unfold removeSinglePeak. by destruct (_ <=? _)%nat.
Qed.

Lemma adjustPeakCount_frame target e :
  (0 < target)%nat ->
  length (peaks (adjustPeakCount target e)) = target
  /\ _pairStates (adjustPeakCount target e) = _pairStates e
  /\ _lastPositions (adjustPeakCount target e) = _lastPositions e
  /\ _velocities (adjustPeakCount target e) = _velocities e
  /\ _pairDirections (adjustPeakCount target e) = _pairDirections e.
Proof.
  intros Ht. unfold adjustPeakCount.
  destruct (Nat.eqb_spec target 0); [lia|].
  match goal with
  | |- context [repositionPeaks ?x] => set (e1 := x)
  end.
  destruct (repositionPeaks_frame e1) as (-> & -> & -> & -> & ->).
  unfold e1. clear e1.
  destruct (Nat.ltb_spec (length (peaks e)) target).
  - destruct (createPeaks_frame target
                (seq (length (peaks e)) (target - length (peaks e))) e)
      as (L & -> & -> & -> & ->).
    rewrite L, length_seq. repeat split; lia.
  - destruct (Nat.ltb_spec target (length (peaks e))).
    + apply removePeaks_frame. lia.
    + repeat split; lia.
Qed.

(** The population shrinks from 10 to 5, but the pair states keep their
    10 entries after the resize step, and agent 3 still stores partner 7. *)
Lemma shrink_keeps_stale_state :
  let e' := resizeArrays (adjustPeakCount 5 crowdScene) in
  length (peaks e') = 5%nat /\
  length (_pairStates e') = 10%nat /\
  length (_lastPositions e') = 10%nat /\
  length (_velocities e') = 10%nat /\
  exists s, _pairStates e' !! 3%nat = Some s /\ partner s = 7%Z.
Proof.
  cbv zeta.
  assert (H5 : (0 < 5)%nat) by lia.
  destruct (adjustPeakCount_frame 5 crowdScene H5) as (L & P & LP & V & _).
  unfold resizeArrays; cbn [peaks _pairStates _lastPositions _velocities
    set_pairStates set_lastPositions set_velocities].
  rewrite L, P, LP, V.
  split; [done|]. split; [reflexivity|]. split; [reflexivity|].
  split; [reflexivity|]. eexists. split; reflexivity.
Qed.

(** C3 (as the code has it).  After the population is set to a positive
    [target] and the resize step of the next tick has run, the population
    has [target] agents and each auxiliary array has the larger of its
    old length and [target]: the arrays only grow, and every pair state
    that existed before, with the partner index it stores, is still
    there. *)
Theorem resize_only_grows (e : Engine) (target : nat) :
  (0 < target)%nat ->
  let e' := resizeArrays (adjustPeakCount target e) in
  length (peaks e') = target /\
  length (_pairStates e') = Nat.max (length (_pairStates e)) target /\
  length (_lastPositions e') = Nat.max (length (_lastPositions e)) target /\
  length (_velocities e') = Nat.max (length (_velocities e)) target /\
  (forall i s, _pairStates e !! i = Some s -> _pairStates e' !! i = Some s) /\
  (forall i s, _pairStates e' !! i = Some s ->
               (length (_pairStates e) <= i)%nat -> s = newPairState).
Proof.
  intros Ht. cbv zeta.
  destruct (adjustPeakCount_frame target e Ht) as (L & P & LP & V & _).
  unfold resizeArrays; cbn [peaks _pairStates _lastPositions _velocities
    set_pairStates set_lastPositions set_velocities].
  rewrite L, P, LP, V, !length_app, !length_replicate.
  split; [done|]. split; [lia|]. split; [lia|]. split; [lia|]. split.
  - intros i s Hi. by apply lookup_app_l_Some.
  - intros i s Hi Hge. rewrite lookup_app_r in Hi by done.
    by apply lookup_replicate in Hi as [-> _].
Qed.

Lemma resize_only_grows_witness :
  length (peaks (resizeArrays (adjustPeakCount 5 crowdScene))) = 5%nat /\
  length (_pairStates (resizeArrays (adjustPeakCount 5 crowdScene)))
  = Nat.max (length (_pairStates crowdScene)) 5.
Proof.
  assert (H5 : (0 < 5)%nat) by lia.
  destruct (resize_only_grows crowdScene 5 H5) as (H1 & H2 & _).
  split; [exact H1|exact H2].
Defined.

(** ** Lengths of scaled and normalized vectors *)

Lemma lengthSq_nonneg a : 0 <= V3.lengthSq a.
Proof. unfold V3.lengthSq. nra. Qed.

Lemma length_nonneg a : 0 <= V3.length a.
Proof. apply sqrt_pos. Qed.

Lemma length_zero_iff a :
  V3.length a = 0 <-> vx a = 0 /\ vy a = 0 /\ vz a = 0.
Proof.
  unfold V3.length. split.
  - intros H. apply sqrt_eq_0 in H; [|apply lengthSq_nonneg].
    unfold V3.lengthSq in H. repeat split; nra.
  - intros (Hx & Hy & Hz). unfold V3.lengthSq. rewrite Hx, Hy, Hz.
    replace (0 * 0 + 0 * 0 + 0 * 0) with 0 by ring. apply sqrt_0.
Qed.

Lemma normalize_zero a : V3.length a = 0 -> V3.normalize a = a.
Proof.
  intros H. unfold V3.normalize, V3.divideScalar, num_or.
  destruct (Req_dec_T (V3.length a) 0); [|done].
  unfold V3.multiplyScalar. destruct a as [x y z]; simpl. f_equal; field.
Qed.

(** ** C9: center avoidance at the origin *)

Lemma origin_length : V3.length (V3.setY (mkV 0 0 0) 0) = 0.
Proof. apply length_zero_iff. by simpl. Qed.

(** The push of the center avoidance for an agent exactly at the origin
    is the random direction scaled by the avoidance strength. *)
Lemma centerAvoidance_origin M radial e :
  0 < avoidCenterRadius M ->
  centerAvoidance M radial 0 e
  = (V3.multiplyScalar (fst (randomDirection e)) (avoidCenterStrength M),
     snd (randomDirection e)).
Proof.
  intros HM. unfold centerAvoidance.
  rewrite (proj2 (Rltb_true 0 (avoidCenterRadius M))) by done.
  unfold Rgtb. rewrite (proj2 (Rltb_false 1e-4 0)) by lra.
  by destruct (randomDirection e).
Qed.

Lemma degenerate_direction c :
  randomDirection (loneScene c 0.5)
  = (V3.zero, set_rngPos (loneScene c 0.5) 2).
Proof.
  unfold randomDirection, random, loneScene, sceneOf;
    cbn [fst rngPos set_rngPos rng].
  f_equal. rewrite normalize_zero.
  - unfold V3.zero. f_equal; lra.
  - apply length_zero_iff. simpl. repeat split; lra.
Qed.

(** C9.  The code at the failing input: an agent exactly at the origin,
    [avoidCenterRadius = 50], and both draws of the fallback direction
    equal to 0.5.  The fallback direction is the zero vector, which
    [normalize] leaves as it is, so the center-avoidance push is the zero
    vector, and the exploration pass adds nothing but the circular drift
    and the noise to the force offset. *)
Theorem origin_push_degenerate (F : Vector3) (t : R) :
  fst (centerAvoidance defaultMotion (V3.setY (mkV 0 0 0) 0)
         (V3.length (V3.setY (mkV 0 0 0) 0))
         (loneScene (mkV 0 0 0) 0.5))
  = V3.zero
  /\ _applyExplorationForces 0 F t (loneScene (mkV 0 0 0) 0.5)
     = Some (V3.add
               (V3.add
                  (V3.add (V3.add F (circularPart defaultMotion 1 0 t))
                          (noisePart defaultMotion 1 0 t))
                  V3.zero)
               V3.zero,
             set_rngPos (loneScene (mkV 0 0 0) 0.5) 2).
Proof.
  assert (Hc : centerAvoidance defaultMotion (V3.setY (mkV 0 0 0) 0) 0
                 (loneScene (mkV 0 0 0) 0.5)
               = (V3.zero, set_rngPos (loneScene (mkV 0 0 0) 0.5) 2)).
  { rewrite centerAvoidance_origin by (simpl; lra).
    rewrite degenerate_direction. cbn [fst snd]. f_equal.
    unfold V3.multiplyScalar, V3.zero; simpl. f_equal; ring. }
  split; [by rewrite origin_length, Hc|].
  unfold _applyExplorationForces.
  change (peaks (loneScene (mkV 0 0 0) 0.5) !! 0%nat)
    with (Some (peakAt (mkV 0 0 0))).
  change (_pairStates (loneScene (mkV 0 0 0) 0.5) !! 0%nat)
    with (Some newPairState).
  cbn [partner newPairState Z.eqb negb exploreSeed peakAt
       currentPyramidCenter motionSystem loneScene sceneOf].
  rewrite origin_length.
  unfold outerPart, Rgtb at 1.
  rewrite (proj2 (Rltb_false (maxRange defaultMotion) 0)) by (simpl; lra).
  fold (sceneOf [peakAt (mkV 0 0 0)] [] [newPairState] [] 0.5).
  fold (loneScene (mkV 0 0 0) 0.5).
  rewrite Hc. reflexivity.
Qed.

(** ** The movement loop, seen from one index *)





(** ** C10: a probabilistic break skips the repulsion pass *)

Lemma random_stream e r e1 :
  random e = (r, e1) ->
  rng e1 = rng e /\ rngPos e1 = S (rngPos e).
Proof. intros [-> ->]%random_inv. done. Qed.

Lemma randomDirection_stream e d e1 :
  randomDirection e = (d, e1) ->
  rng e1 = rng e /\ rngPos e1 = S (S (rngPos e)).
Proof.
  unfold randomDirection. intros H.
  destruct (random e) as [r1 ea] eqn:E1.
  destruct (random ea) as [r2 eb] eqn:E2. injection H as <- <-.
  apply random_stream in E1 as [R1 P1].
  apply random_stream in E2 as [R2 P2]. split; congruence.
Qed.

Lemma growDirections_stream n e :
  rng (growDirections n e) = rng e
  /\ rngPos (growDirections n e) = (rngPos e + 2 * n)%nat
  /\ length (_pairDirections (growDirections n e))
     = (length (_pairDirections e) + n)%nat.
Proof.
  revert e. induction n as [|n IH]; intros e; cbn [growDirections].
  - repeat split; lia.
  - destruct (randomDirection e) as [d e1] eqn:E.
    pose proof (randomDirection_world _ _ _ E) as (_ & _ & D).
    apply randomDirection_stream in E as [R P].
    destruct (IH (set_pairDirections e1 (_pairDirections e1 ++ [Some d])))
      as (R' & P' & L').
    rewrite R', P', L'. simpl. rewrite length_app, D. simpl.
    repeat split; [done|lia|lia].
Qed.

Lemma desiredHeading_stream index state fr pc qc e t e1 :
  desiredHeading index state fr pc qc e = (t, e1) ->
  rng e1 = rng e
  /\ rngPos e1 = (rngPos e
                  + (if (Z.rem fr (pairJitterInterval (motionSystem e)) =? 0)%Z
                     then 1 else 0))%nat.
Proof.
  unfold desiredHeading. intros H.
  destruct (Z.rem fr _ =? 0)%Z.
  - destruct (random e) as [r ea] eqn:E. injection H as <- <-.
    apply random_stream in E as [R P]. split; [done|lia].
  - injection H as <- <-. split; [done|lia].
Qed.

(** The paired branch when the break test succeeds. *)
Lemma pairedForces_break index peak state F e partnerPeak h0 :
  lookupZ (peaks e) (partner state) = Some partnerPeak ->
  1e-6 <= V3.length (V3.subVectors (currentPyramidCenter partnerPeak)
                                   (currentPyramidCenter peak)) ->
  getSparse (_pairDirections e)
    (Z.min (Z.of_nat index) (partner state)) = Some h0 ->
  (pairMinFrames (motionSystem e) < frames state + 1)%Z ->
  rng e (rngPos e
         + (if jitters index state (motionSystem e) then 1 else 0) + 2)%nat
  < pairBreakProb (motionSystem e) ->
  exists F' heading ease e3,
    pairedForces index peak state F e
    = Some (F', _breakPair index (partner state) heading ease e3)
    /\ length (_pairStates e3) = length (_pairStates e)
    /\ world e3 = world e.
Proof.
  intros Hq Hd Hh Hf Hr. unfold pairedForces. cbv zeta.
  cbn [peaks set_pairStates motionSystem _pairDirections].
  rewrite Hq. rewrite (proj2 (Rltb_false _ _) Hd). rewrite Hh.
  match goal with
  | |- context [random (snd ?t)] => idtac
  | |- exists _ _ _ _, (let '(_, _) := ?t in _) = _ /\ _ =>
      destruct t as [heading ea] eqn:Eh
  end.
  assert (Hea : rng ea = rng e
                /\ rngPos ea = (rngPos e
                     + (if jitters index state (motionSystem e)
                        then 1 else 0))%nat
                /\ length (_pairStates ea) = length (_pairStates e)
                /\ motionSystem ea = motionSystem e
                /\ world ea = world e).
  { unfold jitters.
    destruct (Z.of_nat index =? _)%Z.
    - destruct (desiredHeading _ _ _ _ _ _) as [tangent eb] eqn:Ed.
      injection Eh as <- <-.
      pose proof (desiredHeading_world _ _ _ _ _ _ _ _ Ed) as (W & P & _).
      apply desiredHeading_stream in Ed as [R Pos].
      cbn [rng rngPos set_pairDirections _pairStates motionSystem
           set_pairStates] in *.
      rewrite R, Pos, P. simpl. rewrite length_alter.
      apply world_inv in W as W'. destruct W' as (_&_&_&_&_&_&_&WM&_).
      simpl in WM. repeat split; try done.
      all: try (rewrite <- W; reflexivity).
    - injection Eh as <- <-. simpl. rewrite length_alter.
      repeat split; try done; lia. }
  destruct Hea as (Ra & Pa & La & Ma & Wa). clear Eh.
  destruct (random ea) as [r1 e1] eqn:E1.
  destruct (random e1) as [r2 e2] eqn:E2.
  destruct (random e2) as [r3 e3] eqn:E3.
  pose proof (random_world _ _ _ E1) as (W1 & S1 & _).
  pose proof (random_world _ _ _ E2) as (W2 & S2 & _).
  pose proof (random_world _ _ _ E3) as (W3 & S3 & _).
  apply random_stream in E1 as [R1 P1].
  apply random_stream in E2 as [R2 P2].
  apply random_inv in E3 as [-> ->].
  rewrite (proj2 (Z.ltb_lt _ _) Hf).
  assert (Hdraw : rng e2 (rngPos e2) < pairBreakProb (motionSystem e)).
  { rewrite R2, R1, Ra, P2, P1, Pa.
    replace (S (S _)) with (rngPos e
         + (if jitters index state (motionSystem e) then 1 else 0) + 2)%nat
      by lia. exact Hr. }
  rewrite (proj2 (Rltb_true _ _) Hdraw).
  eexists _, _, _, _. split; [reflexivity|].
  split; [simpl; congruence|]. congruence.
Qed.

Lemma breakPair_lookup_self (i : nat) p h ease e s :
  _pairStates e !! i = Some s ->
  exists st, _pairStates (_breakPair i p h ease e) !! i = Some st
             /\ partner st = (-1)%Z /\ breakThisFrame st = true.
Proof.
  intros Hi. unfold _breakPair. cbn [_pairStates set_pairStates].
  destruct (lookupZ _ p) eqn:E.
  - rewrite !list_lookup_alter. case_decide.
    + rewrite decide_True by done. rewrite Hi. simpl. eauto.
    + rewrite decide_True by done. rewrite Hi. simpl. eauto.
  - rewrite list_lookup_alter_eq, Hi. simpl. eauto.
Qed.

Lemma breakPair_lookup_partner (i p : nat) h ease e s :
  _pairStates e !! p = Some s ->
  exists st, _pairStates (_breakPair i (Z.of_nat p) h ease e) !! p = Some st
             /\ partner st = (-1)%Z.
Proof.
  intros Hp. unfold _breakPair. cbn [_pairStates set_pairStates].
  assert (E : is_Some (lookupZ
                (alter (brokenState (motionSystem e) (Z.of_nat p) h ease) i
                   (_pairStates e)) (Z.of_nat p))).
  { rewrite lookupZ_of_nat, list_lookup_alter.
    case_decide; subst; rewrite ?Hp; simpl; eauto. }
  destruct E as [x ->]. rewrite Nat2Z.id.
  rewrite list_lookup_alter_eq, list_lookup_alter.
  case_decide; subst; rewrite ?Hp; simpl; eauto.
Qed.

Lemma breakTriggered_skips i e :
  headedE e -> breakTriggered i e -> repulsionSkipped i e.
Proof.
  intros He (state & peak & partnerPeak & Hi & Hp & Hne & Hq & Hd & Hf & Hr).
  set (state0 := set_breakThisFrame state false).
  assert (Hi0 : _pairStates (resetFlag i e) !! i = Some state0).
  { unfold resetFlag; simpl. by rewrite list_lookup_alter_eq, Hi. }
  set (n := (length (peaks e) - length (_pairDirections e))%nat).
  set (eg := growDirections n (resetFlag i e)).
  destruct (growDirections_world n (resetFlag i e)) as [Wg Sg].
  destruct (growDirections_stream n (resetFlag i e)) as (Rg & Pg & _).
  pose proof (world_inv _ _ Wg) as (Wp & _ & _ & _ & _ & _ & _ & WM & _).
  fold eg in Wg, Sg, Rg, Pg, Wp, WM.
  assert (Hhead : is_Some (getSparse (_pairDirections eg)
                             (Z.min (Z.of_nat i) (partner state0)))).
  { destruct (growDirections_dirs n (resetFlag i e)) as [_ HG].
    apply HG. apply (He i (partner state)); [|done].
    by apply partners_lookup. }
  destruct Hhead as [h0 Hh0].
  destruct (pairedForces_break i peak state0 V3.zero eg partnerPeak h0)
    as (F1 & heading & ease & e3 & Hpf & L3 & W3).
  - by rewrite Wp.
  - done.
  - done.
  - by rewrite WM.
  - rewrite Rg, Pg, WM. exact Hr.
  - assert (Hap : _applyPairingForces i V3.zero (resetFlag i e)
                  = Some (F1, _breakPair i (partner state0) heading ease e3)).
    { unfold _applyPairingForces.
      change (peaks (resetFlag i e)) with (peaks e).
      change (_pairDirections (resetFlag i e)) with (_pairDirections e).
      rewrite Hp, Hi0. fold n. fold eg.
      change (partner state0) with (partner state).
      destruct (Z.eqb_spec (partner state) (-1)); [done|]. exact Hpf. }
    assert (Hs3 : is_Some (_pairStates e3 !! i)).
    { apply lookup_lt_is_Some_2. rewrite L3, Sg.
      by apply lookup_lt_Some in Hi0. }
    destruct Hs3 as [s3 Hs3].
    destruct (breakPair_lookup_self i (partner state0) heading ease e3 s3 Hs3)
      as (st & Hst & Hpst & Hflag).
    assert (Hacc : accumulateForces i e
                   = _applyExplorationForces i F1
                       (time (_breakPair i (partner state0) heading ease e3))
                       (_breakPair i (partner state0) heading ease e3)).
    { unfold accumulateForces. rewrite Hi.
      change (set_pairStates e _) with (resetFlag i e).
      rewrite Hap, Hst, Hflag. reflexivity. }
    exists F1, (_breakPair i (partner state0) heading ease e3), st.
    split; [done|]. split; [done|]. split; [done|]. split; [done|].
    split; [done|]. rewrite Hacc.
    apply applyExplorationForces_total.
    apply world_inv in W3 as (W3p & _).
    cbn [peaks _breakPair set_pairStates]. rewrite W3p, Wp.
    by apply lookup_lt_Some in Hp.
Qed.

Lemma soloForces_flag index state F e F' e' s :
  soloForces index state F e = (F', e') ->
  _pairStates e !! index = Some s ->
  exists st, _pairStates e' !! index = Some st
             /\ breakThisFrame st = breakThisFrame s
             /\ partner st = partner s.
Proof.
  unfold soloForces. intros H Hs. cbv zeta in H.
  destruct ((0 <? breakFade state)%Z && _).
  - match type of H with
    | context [random ?x] => set (e0 := x) in H
    end.
    assert (S0 : _pairStates e0 !! index
                 = Some (set_breakFade s (breakFade s - 1)%Z)).
    { unfold e0; simpl. by rewrite list_lookup_alter_eq, Hs. }
    clearbody e0.
    destruct (random e0) as [r1 e1] eqn:E1.
    destruct (random e1) as [r2 e2] eqn:E2.
    apply random_world in E1 as (_ & P1 & _).
    apply random_world in E2 as (_ & P2 & _).
    injection H as <- <-. rewrite P2, P1, S0. eauto.
  - destruct (random e) as [r1 e1] eqn:E1.
    destruct (random e1) as [r2 e2] eqn:E2.
    apply random_world in E1 as (_ & P1 & _).
    apply random_world in E2 as (_ & P2 & _).
    injection H as <- <-. rewrite P2, P1, Hs. eauto.
Qed.

(** An agent that is unpaired when its force passes start gets the
    repulsion pass. *)
Lemma unpaired_repulsion q e s :
  _pairStates e !! q = Some s -> partner s = (-1)%Z ->
  (q < length (peaks e))%nat ->
  repulsionApplied q e.
Proof.
  intros Hq Hp Hlt.
  destruct (lookup_lt_is_Some_2 _ _ Hlt) as [peak Hpeak].
  set (state0 := set_breakThisFrame s false).
  assert (Hq0 : _pairStates (resetFlag q e) !! q = Some state0).
  { unfold resetFlag; simpl. by rewrite list_lookup_alter_eq, Hq. }
  set (n := (length (peaks e) - length (_pairDirections e))%nat).
  set (eg := growDirections n (resetFlag q e)).
  destruct (growDirections_world n (resetFlag q e)) as [Wg Sg].
  fold eg in Wg, Sg.
  destruct (soloForces q state0 V3.zero eg) as [F1 e1] eqn:Es.
  assert (Hap : _applyPairingForces q V3.zero (resetFlag q e)
                = Some (F1, e1)).
  { unfold _applyPairingForces.
    change (peaks (resetFlag q e)) with (peaks e).
    change (_pairDirections (resetFlag q e)) with (_pairDirections e).
    rewrite Hpeak, Hq0. fold n. fold eg.
    change (partner state0) with (partner s). rewrite Hp. simpl.
    by rewrite Es. }
  assert (Hq1 : _pairStates eg !! q = Some state0) by (by rewrite Sg).
  destruct (soloForces_flag _ _ _ _ _ _ _ Es Hq1) as (st & Hst & Hfl & _).
  apply soloForces_inv in Es as [W1 _].
  pose proof (world_inv _ _ W1) as (W1p & _).
  pose proof (world_inv _ _ Wg) as (Wgp & _).
  destruct (applyRepulsionForces_total q F1 e1) as [F2 HF2].
  { rewrite W1p, Wgp. exact Hlt. }
  exists F1, e1, F2. split; [done|]. split; [done|].
  unfold accumulateForces. rewrite Hq.
  change (set_pairStates e _) with (resetFlag q e).
  rewrite Hap, Hst, Hfl. simpl. by rewrite HF2.
Qed.

(** C10.  When the pairing-force pass of agent [i] triggers a
    probabilistic break, the force offset of [i] on that tick is the
    pairing offset followed by the exploration pass only: the repulsion
    pass is skipped for [i], whose state comes out unpaired with the
    break flag raised.  The partner [p] comes out unpaired too, and in
    every state reached afterwards by moving other peaks on the same
    tick, the force passes of [p] include the repulsion pass. *)
Theorem break_skips_repulsion (e : Engine) (i : nat) :
  headedE e -> breakTriggered i e ->
  repulsionSkipped i e /\
  forall F' e' st (p : nat),
    accumulateForces i e = Some (F', e') ->
    _pairStates e !! i = Some st -> partner st = Z.of_nat p ->
    is_Some (_pairStates e !! p) ->
    forall ex sp ks e'',
      _pairStates ex = _pairStates e' ->
      foldM (movePeak sp) ks ex = Some e'' ->
      (p < length (peaks e''))%nat ->
      repulsionApplied p e''.
Proof.
  intros He Ht. pose proof (breakTriggered_skips i e He Ht) as Hskip.
  split; [exact Hskip|].
  intros F' e' st p Hacc Hi Hp [sp0 Hsp0] ex sp ks e'' Hex Hm Hlt.
  assert (Hun : partners (_pairStates e') !! p = Some (-1)%Z).
  { destruct Hskip as (F1 & e1 & st1 & Hap & _ & _ & _ & Hacc' & _).
    rewrite Hacc' in Hacc.
    apply applyExplorationForces_inv in Hacc as (_ & -> & _).
    destruct Ht as (state & peak & partnerPeak & Hi' & Hpk & Hne & Hq
                    & Hd & Hf & Hr).
    rewrite Hi in Hi'. injection Hi' as <-.
    (* replay the pairing pass to expose the break *)
    set (state0 := set_breakThisFrame st false).
    assert (Hi0 : _pairStates (resetFlag i e) !! i = Some state0).
    { unfold resetFlag; simpl. by rewrite list_lookup_alter_eq, Hi. }
    set (n := (length (peaks e) - length (_pairDirections e))%nat).
    set (eg := growDirections n (resetFlag i e)).
    destruct (growDirections_world n (resetFlag i e)) as [Wg Sg].
    destruct (growDirections_stream n (resetFlag i e)) as (Rg & Pg & _).
    pose proof (world_inv _ _ Wg) as (Wp & _ & _ & _ & _ & _ & _ & WM & _).
    fold eg in Wg, Sg, Rg, Pg, Wp, WM.
    assert (Hhead : is_Some (getSparse (_pairDirections eg)
                               (Z.min (Z.of_nat i) (partner state0)))).
    { destruct (growDirections_dirs n (resetFlag i e)) as [_ HG].
      apply HG. apply (He i (partner st)); [|done].
      by apply partners_lookup. }
    destruct Hhead as [h0 Hh0].
    destruct (pairedForces_break i peak state0 V3.zero eg partnerPeak h0)
      as (F1' & heading & ease & e3 & Hpf & L3 & W3);
      [by rewrite Wp|done|done|by rewrite WM|
       rewrite Rg, Pg, WM; exact Hr|].
    assert (Hap' : _applyPairingForces i V3.zero (resetFlag i e)
                   = Some (F1', _breakPair i (partner state0) heading ease e3)).
    { unfold _applyPairingForces.
      change (peaks (resetFlag i e)) with (peaks e).
      change (_pairDirections (resetFlag i e)) with (_pairDirections e).
      rewrite Hpk, Hi0. fold n. fold eg.
      change (partner state0) with (partner st).
      destruct (Z.eqb_spec (partner st) (-1)); [done|]. exact Hpf. }
    rewrite Hap' in Hap. injection Hap as <- <-.
    change (partner state0) with (partner st). rewrite Hp.
    assert (Hp3 : is_Some (_pairStates e3 !! p)).
    { apply lookup_lt_is_Some_2. rewrite L3, Sg.
      unfold resetFlag; simpl. rewrite length_alter.
      by apply lookup_lt_Some in Hsp0. }
    destruct Hp3 as [s3 Hs3].
    destruct (breakPair_lookup_partner i p heading ease e3 s3 Hs3)
      as (stp & Hstp & Hpp).
    apply partners_lookup in Hstp. by rewrite Hpp in Hstp. }
  pose proof (movePeaks_pbreak _ _ _ _ Hm) as Hb.
  rewrite Hex in Hb.
  pose proof (pbreaks_unpaired _ _ p Hb Hun) as Hun''.
  unfold partners in Hun''. rewrite list_lookup_fmap in Hun''.
  destruct (_pairStates e'' !! p) as [sp''|] eqn:E''; [|done].
  simpl in Hun''. injection Hun'' as Hpp.
  by eapply unpaired_repulsion.
Qed.

Lemma length_x0 d :
  0 <= d -> V3.length (V3.subVectors (mkV d 0 0) (mkV 0 0 0)) = d.
Proof.
  intros H. unfold V3.length, V3.lengthSq, V3.subVectors; simpl.
  replace (_ + _ + _) with (d * d) by ring. by apply sqrt_square.
Qed.

Lemma headed_agedCouple : headedE agedCouple.
Proof.
  intros i a Hi Ha. destruct i as [|[|i]]; simpl in *; try done;
    injection Hi as <-; simpl; eauto.
Qed.

Lemma triggered_agedCouple : breakTriggered 0 agedCouple.
Proof.
  exists (set_frames (pairedWith 1) 500), (peakAt (mkV 0 0 0)),
         (peakAt (mkV 10 0 0)).
  split; [reflexivity|]. split; [reflexivity|]. split; [simpl; lia|].
  split; [reflexivity|]. split.
  - simpl. rewrite length_x0; lra.
  - split; [simpl; lia|]. simpl. lra.
Qed.

Lemma break_skips_repulsion_witness : repulsionSkipped 0 agedCouple.
Proof.
  destruct (break_skips_repulsion agedCouple 0 headed_agedCouple
              triggered_agedCouple) as [H _].
  exact H.
Defined.

(** ** C7: the vertical component *)

(** *** Vector operations on vectors of the plane *)

Ltac yzero :=
  repeat match goal with
         | H : vy _ = 0 |- _ => rewrite H; clear H
         end;
  try ring.

Lemma Y0_scale a s : vy a = 0 -> vy (V3.multiplyScalar a s) = 0.
Proof. simpl. intros. yzero. Qed.

Lemma Y0_normalize a : vy a = 0 -> vy (V3.normalize a) = 0.
Proof. intros H. unfold V3.normalize, V3.divideScalar. by apply Y0_scale. Qed.

Lemma Y0_setLength a l : vy a = 0 -> vy (V3.setLength a l) = 0.
Proof. intros H. unfold V3.setLength. by apply Y0_scale, Y0_normalize. Qed.

Lemma Y0_addScaled a v s :
  vy a = 0 -> vy v = 0 -> vy (V3.addScaledVector a v s) = 0.
Proof. simpl. intros. yzero. Qed.

Lemma Y0_lerp a b s : vy a = 0 -> vy b = 0 -> vy (V3.lerp a b s) = 0.
Proof. simpl. intros. yzero. Qed.

Lemma randomDirection_Y0 e : vy (randomDirection e).1 = 0.
Proof.
  unfold randomDirection, random. cbn [fst]. by apply Y0_normalize.
Qed.

(** *** The exploration pass never adds a vertical force *)

Lemma centerAvoidance_Y0 M radial len e :
  vy radial = 0 -> vy (centerAvoidance M radial len e).1 = 0.
Proof.
  intros H. unfold centerAvoidance.
  destruct (Rltb _ _); [|done].
  destruct (Rgtb _ _).
  - cbn [fst]. by apply Y0_scale, Y0_normalize.
  - pose proof (randomDirection_Y0 e).
    destruct (randomDirection e) as [d e1]. cbn [fst] in *.
    by apply Y0_scale.
Qed.

Lemma outerPart_Y0 M radial len :
  vy radial = 0 ->
  vy (outerPart M radial len).1 = 0 /\ vy (outerPart M radial len).2 = 0.
Proof.
  intros H. unfold outerPart. destruct (Rgtb _ _); cbn [fst snd].
  - split; [by apply Y0_scale, Y0_normalize|by apply Y0_normalize].
  - done.
Qed.

Lemma applyExplorationForces_y index F t e F' e' :
  _applyExplorationForces index F t e = Some (F', e') -> vy F' = vy F.
Proof.
  unfold _applyExplorationForces. intros H.
  destruct (peaks e !! index) as [peak|]; [|done].
  match type of H with
  | context [outerPart ?M ?r ?l] =>
      destruct (outerPart_Y0 M r l) as [Ho1 Ho2]; [done|];
      destruct (outerPart M r l) as [push radial]
  end.
  cbn [fst snd] in *.
  match type of H with
  | context [centerAvoidance ?M ?r ?l ?e] =>
      pose proof (centerAvoidance_Y0 M r l e Ho2) as Hc;
      destruct (centerAvoidance M r l e) as [push' e1]
  end.
  cbn [fst] in Hc. injection H as <- _.
  cbn [vy V3.add circularPart noisePart V3.multiplyScalar V3.normalize
       V3.divideScalar]. rewrite Ho1, Hc. ring.
Qed.

(** *** The repulsion pass among agents of equal height *)

Lemma repulsionFrom_y e index peak ms F j :
  (forall other, peaks e !! j = Some other ->
     vy (currentPyramidCenter other) = vy (currentPyramidCenter peak)) ->
  vy (repulsionFrom e index peak ms F j) = vy F.
Proof.
  intros Hlevel. unfold repulsionFrom.
  destruct (index =? j)%nat; [done|].
  destruct (peaks e !! j) as [other|]; [|done].
  specialize (Hlevel other eq_refl).
  set (delta := V3.subVectors _ _).
  assert (Hd : vy delta = 0) by (unfold delta; simpl; rewrite Hlevel; ring).
  destruct (Rltb (V3.length delta) 0.0001); [done|].
  cbv zeta.
  match goal with
  | |- vy (let '(_, _) := ?t in _) = _ =>
      assert (Ht : vy t.1 = vy F /\ vy t.2 = 0);
      [|destruct t as [F1 delta1]]
  end.
  { destruct (Rltb _ _); cbn [fst snd]; [|done].
    split; [|by apply Y0_normalize].
    cbn [vy V3.addScaledVector]. rewrite (Y0_normalize _ Hd). ring. }
  cbn [fst snd] in Ht. destruct Ht as [HF1 Hd1].
  destruct (peakSolids e !! index); [|done].
  destruct (peakSolids e !! j); [|done].
  destruct (complementary _ _); [|done].
  destruct (match ms with Some _ => _ | None => _ end); [done|].
  destruct (_ && _); [|done].
  cbn [vy V3.addScaledVector]. rewrite (Y0_normalize _ Hd1), HF1. ring.
Qed.

Lemma applyRepulsionForces_y index F e F' peak :
  peaks e !! index = Some peak ->
  (forall j other, peaks e !! j = Some other ->
     vy (currentPyramidCenter other) = vy (currentPyramidCenter peak)) ->
  _applyRepulsionForces index F e = Some F' -> vy F' = vy F.
Proof.
  intros Hp Hlevel. unfold _applyRepulsionForces. rewrite Hp.
  intros [= <-].
  generalize (Grid.getNearby (spatialGrid e) (currentPyramidCenter peak)
                (Rmax (minSeparation (motionSystem e))
                      (complementaryRange (motionSystem e)))).
  intros l. revert F. induction l as [|j l IH]; intros F; simpl; [done|].
  rewrite IH. apply repulsionFrom_y. intros other. apply Hlevel.
Qed.

(** *** The solo branch of the pairing pass *)

Lemma flatStates_alter f i ps :
  (forall s, vy (breakHeading (f s)) = vy (breakHeading s)) ->
  flatStates ps -> flatStates (alter f i ps).
Proof.
  intros Hf H k s Hk. rewrite list_lookup_alter in Hk.
  destruct (decide (i = k)) as [->|]; [|by apply (H k)].
  destruct (ps !! k) as [s0|] eqn:E; [|done]. simpl in Hk.
  injection Hk as <-. rewrite Hf. by apply (H k).
Qed.

Lemma soloForces_y index state F e F' e' :
  vy (breakHeading state) = 0 ->
  soloForces index state F e = (F', e') ->
  vy F' = vy F
  /\ (flatStates (_pairStates e) -> flatStates (_pairStates e')).
Proof.
  intros Hb. unfold soloForces. intros H. cbv zeta in H.
  destruct ((0 <? breakFade state)%Z && _).
  - match type of H with
    | context [random ?x] => set (e0 := x) in H
    end.
    assert (S0 : flatStates (_pairStates e) -> flatStates (_pairStates e0)).
    { unfold e0; simpl. by apply flatStates_alter. }
    clearbody e0.
    destruct (random e0) as [r1 e1] eqn:E1.
    destruct (random e1) as [r2 e2] eqn:E2.
    apply random_world in E1 as (_ & P1 & _).
    apply random_world in E2 as (_ & P2 & _).
    injection H as <- <-. rewrite P2, P1. split; [|done].
    cbn [vy V3.addScaledVector]. rewrite Hb. ring.
  - destruct (random e) as [r1 e1] eqn:E1.
    destruct (random e1) as [r2 e2] eqn:E2.
    apply random_world in E1 as (_ & P1 & _).
    apply random_world in E2 as (_ & P2 & _).
    injection H as <- <-. rewrite P2, P1. split; done.
Qed.

(** *** The paired branch keeps force, headings and states in the plane *)

Lemma flatStates_alter_set f i ps :
  (forall s, vy (breakHeading (f s)) = 0) ->
  flatStates ps -> flatStates (alter f i ps).
Proof.
  intros Hf H k s Hk. rewrite list_lookup_alter in Hk.
  destruct (decide (i = k)) as [->|]; [|by apply (H k)].
  destruct (ps !! k) as [s0|] eqn:E; [|done]. simpl in Hk.
  injection Hk as <-. apply Hf.
Qed.

Lemma flatDirs_app D d : vy d = 0 -> flatDirs D -> flatDirs (D ++ [Some d]).
Proof.
  intros Hd H k x Hk. apply lookup_app_Some in Hk as [Hk|[_ Hk]].
  - by apply (H k).
  - apply list_lookup_singleton_Some in Hk as [_ [= <-]]. done.
Qed.

Lemma flatDirs_insert D k h :
  vy h = 0 -> flatDirs D -> flatDirs (<[k := Some h]> D).
Proof.
  intros Hh H k' x Hk.
  destruct (decide (k = k')) as [->|Hne].
  - destruct (decide (k' < length D)%nat).
    + rewrite list_lookup_insert_eq in Hk by done. by injection Hk as <-.
    + rewrite list_insert_ge in Hk by lia. by apply (H k').
  - rewrite list_lookup_insert_ne in Hk by done. by apply (H k').
Qed.

Lemma flatDirs_setSparse D k v :
  vy v = 0 -> flatDirs D -> flatDirs (setSparse D k v).
Proof.
  intros Hv H. unfold setSparse. destruct (_ <? _)%nat.
  - by apply flatDirs_insert.
  - intros k' x Hk. apply lookup_app_Some in Hk as [Hk|[_ Hk]].
    + by apply (H k').
    + apply lookup_app_Some in Hk as [Hk|[_ Hk]].
      * by apply lookup_replicate in Hk as [? _].
      * apply list_lookup_singleton_Some in Hk as [_ [= <-]]. done.
Qed.

Lemma flatDirs_get D k h : flatDirs D -> getSparse D k = Some h -> vy h = 0.
Proof. intros H Hk. apply getSparse_Some in Hk as [_ Hk]. by apply (H _ _ Hk). Qed.

Lemma growDirections_flat n e :
  flatDirs (_pairDirections e) ->
  flatDirs (_pairDirections (growDirections n e)).
Proof.
  revert e. induction n as [|n IH]; intros e H; cbn [growDirections]; [done|].
  pose proof (randomDirection_Y0 e) as Hd.
  destruct (randomDirection e) as [d e1] eqn:E. cbn [fst] in Hd.
  apply randomDirection_world in E as (_ & _ & D).
  apply IH. simpl. rewrite D. by apply flatDirs_app.
Qed.

Lemma desiredHeading_Y0 index state fr pc qc e t e1 :
  vy pc = 0 -> vy qc = 0 -> flatVecs (_lastPositions e) ->
  desiredHeading index state fr pc qc e = (t, e1) -> vy t = 0.
Proof.
  intros Hp Hq HL. unfold desiredHeading. cbv zeta.
  set (t0 := if Rgtb _ 1e-6 then _ else mkV 1 0 0).
  assert (Ht0 : vy t0 = 0).
  { unfold t0. destruct (Rgtb _ _); [|done].
    apply Y0_normalize. simpl. ring. }
  clearbody t0.
  set (lastMine := match _lastPositions e !! index with
                   | Some l => l | None => pc end).
  assert (Hlm : vy lastMine = 0).
  { unfold lastMine. destruct (_ !! index) eqn:E; [by apply (HL index)|done]. }
  set (lastPartner := match lookupZ (_lastPositions e) (partner state) with
                      | Some l => l | None => qc end).
  assert (Hlp : vy lastPartner = 0).
  { unfold lastPartner. destruct (lookupZ _ _) eqn:E; [|done].
    apply lookupZ_Some in E as [_ E]. by apply (HL _ _ E). }
  clearbody lastMine lastPartner.
  set (avgVel := V3.addVectors _ _).
  assert (Hav : vy avgVel = 0).
  { unfold avgVel. simpl. rewrite Hp, Hq, Hlm, Hlp. ring. }
  clearbody avgVel.
  set (t1 := if Rgtb (V3.lengthSq avgVel) 1e-6 then _ else t0).
  assert (Ht1 : vy t1 = 0).
  { unfold t1. destruct (Rgtb _ _); [|done].
    apply Y0_normalize, Y0_addScaled; [by apply Y0_scale|].
    by apply Y0_normalize. }
  clearbody t1.
  destruct (_ =? 0)%Z.
  - destruct (random e) as [r ea]. intros [= <- _]. by apply Y0_normalize.
  - by intros [= <- _].
Qed.

Lemma breakPair_flat i p h ease e :
  vy h = 0 -> flatStates (_pairStates e) ->
  flatStates (_pairStates (_breakPair i p h ease e)).
Proof.
  intros Hh H. unfold _breakPair. cbn [_pairStates set_pairStates].
  destruct (lookupZ _ _); repeat apply flatStates_alter_set; done.
Qed.

Lemma pairedForces_flat index peak state F e F' e' :
  vy (currentPyramidCenter peak) = 0 -> flatPeaks (peaks e) ->
  flatVecs (_lastPositions e) -> flatDirs (_pairDirections e) ->
  flatStates (_pairStates e) -> vy F = 0 ->
  pairedForces index peak state F e = Some (F', e') ->
  vy F' = 0 /\ flatDirs (_pairDirections e')
  /\ flatStates (_pairStates e').
Proof.
  intros Hpc HP HL HD HS HF. unfold pairedForces. intros H.
  set (e0 := set_pairStates e _) in H.
  assert (S0 : flatStates (_pairStates e0)).
  { unfold e0; simpl. by apply flatStates_alter. }
  assert (D0 : _pairDirections e0 = _pairDirections e) by done.
  assert (P0 : peaks e0 = peaks e) by done.
  assert (L0 : _lastPositions e0 = _lastPositions e) by done.
  clearbody e0.
  destruct (lookupZ (peaks e0) (partner state)) as [partnerPeak|] eqn:Eq;
    [|injection H as <- <-; by rewrite D0].
  assert (Hqc : vy (currentPyramidCenter partnerPeak) = 0).
  { apply lookupZ_Some in Eq as [_ Eq]. rewrite P0 in Eq.
    by destruct (HP _ _ Eq). }
  destruct (Rltb _ 1e-6); [injection H as <- <-; by rewrite D0|].
  cbv zeta in H.
  set (u := V3.normalize (V3.subVectors _ _)) in H.
  assert (Hu : vy u = 0).
  { unfold u. apply Y0_normalize. simpl. rewrite Hpc, Hqc. ring. }
  clearbody u.
  set (Fa := if Rltb _ (pairDesiredSeparation _) then _
             else if Rgtb _ _ then _ else F) in H.
  assert (HFa : vy Fa = 0).
  { unfold Fa. destruct (Rltb _ _); [by apply Y0_addScaled|].
    destruct (Rgtb _ _); [by apply Y0_addScaled|done]. }
  clearbody Fa.
  set (tm := V3.normalize (V3.subVectors _ (currentPyramidCenter peak))) in H.
  assert (Htm : vy tm = 0).
  { unfold tm. apply Y0_normalize. simpl. rewrite Hpc, Hqc. ring. }
  clearbody tm.
  destruct (getSparse _ _) as [heading0|] eqn:Eh0; [|done].
  assert (Hh0 : vy heading0 = 0).
  { rewrite D0 in Eh0. by eapply flatDirs_get. }
  match type of H with
  | (let '(_, _) := ?t in _) = _ => destruct t as [heading ea] eqn:Eh
  end.
  assert (Hea : vy heading = 0 /\ flatDirs (_pairDirections ea)
                /\ flatStates (_pairStates ea)).
  { destruct (_ =? _)%Z.
    - destruct (desiredHeading _ _ _ _ _ _) as [tangent eb] eqn:Ed.
      injection Eh as <- <-.
      pose proof (desiredHeading_world _ _ _ _ _ _ _ _ Ed) as (_ & P & D).
      apply desiredHeading_Y0 in Ed; [|done|done|by rewrite L0].
      split; [by apply Y0_normalize, Y0_lerp|].
      simpl. rewrite D, P, D0. split; [|done].
      apply flatDirs_insert; [by apply Y0_normalize, Y0_lerp|done].
    - injection Eh as <- <-. by rewrite D0. }
  destruct Hea as (Hh & Da & Sa). clear Eh.
  destruct (random ea) as [r1 e1] eqn:E1.
  destruct (random e1) as [r2 e2] eqn:E2.
  apply random_world in E1 as (_ & P1 & D1).
  apply random_world in E2 as (_ & P2 & D2).
  destruct (_ <? _)%Z.
  - destruct (random e2) as [r3 e3] eqn:E3.
    apply random_world in E3 as (_ & P3 & D3).
    destruct (Rltb r3 _); injection H as <- <-.
    + split; [cbn [vy V3.addScaledVector]; rewrite HFa, Htm, Hh; ring|].
      split.
      * unfold _breakPair. cbn [_pairDirections set_pairStates].
        by rewrite D3, D2, D1.
      * apply breakPair_flat; [done|]. by rewrite P3, P2, P1.
    + split; [cbn [vy V3.addScaledVector]; rewrite HFa, Htm, Hh; ring|].
      split; [by rewrite D3, D2, D1|by rewrite P3, P2, P1].
  - injection H as <- <-.
    split; [cbn [vy V3.addScaledVector]; rewrite HFa, Htm, Hh; ring|].
    split; [by rewrite D2, D1|by rewrite P2, P1].
Qed.

(** *** The three passes together *)

Lemma flat_world e e' :
  world e' = world e -> flatDirs (_pairDirections e') ->
  flatStates (_pairStates e') -> flat e -> flat e'.
Proof.
  intros W D S (HP & HV & HL & _ & _ & HF).
  apply world_inv in W
    as (Wp & _ & _ & _ & _ & _ & _ & _ & Wl & Wv & _ & Wf & _).
  unfold flat. by rewrite Wp, Wv, Wl, Wf.
Qed.

Lemma applyPairingForces_flat index F e F' e' :
  flat e -> vy F = 0 ->
  _applyPairingForces index F e = Some (F', e') ->
  vy F' = 0 /\ flat e'.
Proof.
  intros Hflat HF H.
  pose proof (applyPairingForces_inv _ _ _ _ _ H) as [W _].
  pose proof Hflat as (HP & HV & HL & HD & HS & Hfz).
  unfold _applyPairingForces in H.
  destruct (peaks e !! index) as [peak|] eqn:Ep; [|done].
  destruct (_pairStates e !! index) as [state|] eqn:Ei; [|done].
  set (eg := growDirections _ e) in H.
  destruct (growDirections_world
              (length (peaks e) - length (_pairDirections e)) e) as [Wg Sg].
  pose proof (growDirections_flat
                (length (peaks e) - length (_pairDirections e)) e HD) as Dg.
  fold eg in Wg, Sg, Dg.
  pose proof (world_inv _ _ Wg)
    as (Wp & _ & _ & _ & _ & _ & _ & _ & Wl & _).
  destruct (negb _).
  - apply pairedForces_flat in H as (HF' & D' & S').
    + split; [done|]. by apply (flat_world e).
    + by destruct (HP _ _ Ep).
    + by rewrite Wp.
    + by rewrite Wl.
    + done.
    + by rewrite Sg.
    + done.
  - match type of H with
    | Some ?t = _ => assert (Hs : t = (F', e')) by congruence
    end.
    pose proof (soloForces_dirs _ _ _ _ _ _ Hs) as D'.
    apply soloForces_y in Hs as [HF' S']; [|by apply (HS index)].
    split; [congruence|]. apply (flat_world e); [done| | |done].
    + by rewrite D'.
    + apply S'. by rewrite Sg.
Qed.

Lemma accumulateForces_flat i e F e' :
  flat e -> accumulateForces i e = Some (F, e') -> vy F = 0 /\ flat e'.
Proof.
  intros Hflat H. unfold accumulateForces in H.
  destruct (_pairStates e !! i) as [s0|]; [|done].
  set (e0 := set_pairStates e _) in H.
  assert (F0 : flat e0).
  { apply (flat_world e); [done|by destruct Hflat as (_&_&_&?&_)| |done].
    unfold e0; simpl. apply flatStates_alter; [done|].
    by destruct Hflat as (_&_&_&_&?&_). }
  clearbody e0.
  destruct (_applyPairingForces i V3.zero e0) as [[F1 e1]|] eqn:Ep; [|done].
  apply applyPairingForces_flat in Ep as [HF1 F1']; [|done|done].
  destruct (_pairStates e1 !! i) as [st|]; [|done].
  destruct (if breakThisFrame st then _ else _) as [F2|] eqn:Er; [|done].
  assert (HF2 : vy F2 = 0).
  { destruct (breakThisFrame st); [congruence|].
    destruct (peaks e1 !! i) as [peak|] eqn:Epk.
    - rewrite (applyRepulsionForces_y i F1 e1 F2 peak Epk); [done| |done].
      intros j other Hj. destruct F1' as (HP & _).
      destruct (HP _ _ Hj) as [-> _]. by destruct (HP _ _ Epk) as [-> _].
    - unfold _applyRepulsionForces in Er. by rewrite Epk in Er. }
  pose proof (applyExplorationForces_y _ _ _ _ _ _ H) as HF.
  apply applyExplorationForces_inv in H as (W & P & D).
  split; [congruence|].
  apply (flat_world e1); [done| | |done].
  - rewrite D. by destruct F1' as (_&_&_&?&_).
  - rewrite P. by destruct F1' as (_&_&_&_&?&_).
Qed.

(** *** Integration and the movement loop *)

Lemma dampForce_Y0 M F : vy F = 0 -> vy (dampForce M F) = 0.
Proof.
  intros H. unfold dampForce. cbv zeta.
  destruct (Rgtb _ _); [by apply Y0_setLength, Y0_scale|by apply Y0_scale].
Qed.

(** The vertical velocity before the clamp: the stored one blended
    toward the pull of the swarm target's height and the force. *)
Lemma stepVelocity_Y0 M c b F p v :
  vy c = 0 -> vy b = 0 -> vy F = 0 -> vy v = 0 ->
  vy (stepVelocity M c b F p v) = 0.
Proof.
  intros Hc Hb HF Hv. unfold stepVelocity. cbv zeta.
  match goal with
  | |- context [Rgtb (V3.length ?w) _] => set (v' := w)
  end.
  assert (Hv' : vy v' = 0).
  { unfold v'. simpl. rewrite Hc, Hb, HF, Hv. ring. }
  destruct (Rgtb _ _); [by apply Y0_setLength|done].
Qed.

Lemma flatVecs_setAt l i v : vy v = 0 -> flatVecs l -> flatVecs (setAt l i v).
Proof.
  intros Hv H k x Hk. unfold setAt in Hk. destruct (_ <? _)%nat.
  - destruct (decide (i = k)) as [->|Hne].
    + destruct (decide (k < length l)%nat).
      * rewrite list_lookup_insert_eq in Hk by done. by injection Hk as <-.
      * rewrite list_insert_ge in Hk by lia. by apply (H k).
    + rewrite list_lookup_insert_ne in Hk by done. by apply (H k).
  - apply lookup_app_Some in Hk as [Hk|[_ Hk]]; [by apply (H k)|].
    apply lookup_app_Some in Hk as [Hk|[_ Hk]].
    + by apply lookup_replicate in Hk as [-> _].
    + apply list_lookup_singleton_Some in Hk as [_ <-]. done.
Qed.

Lemma flatPeaks_alter_center pks i c :
  vy c = 0 -> flatPeaks pks ->
  flatPeaks (alter (fun p => set_center p c) i pks).
Proof.
  intros Hc H k p Hk. rewrite list_lookup_alter in Hk.
  destruct (decide (i = k)) as [->|]; [|by apply (H k)].
  destruct (pks !! k) as [p0|] eqn:E; [|done]. simpl in Hk.
  injection Hk as <-. simpl. split; [done|]. by destruct (H _ _ E).
Qed.

Lemma movePeak_flat sp i e e' :
  flatVecs sp -> flat e -> movePeak sp i e = Some e' -> flat e'.
Proof.
  intros Hsp Hflat H. unfold movePeak in H.
  destruct (peaks e !! i) as [peak|] eqn:Ei; [|by injection H as <-].
  destruct (_ && _); [by injection H as <-|].
  destruct (stopAllMovement e); [by injection H as <-|].
  destruct (_ && _); [by injection H as <-|].
  destruct (if evolvingLock peak then _ else _) as [target|] eqn:Et.
  - injection H as <-.
    destruct Hflat as (HP & HV & HL & HD & HS & Hfz).
    split; [|done]. cbn [peaks set_peaks].
    destruct (HP _ _ Ei) as [Hc Htg].
    assert (Htgt : vy target = 0).
    { destruct (evolvingLock peak); [done|]. by apply Htg. }
    intros k p Hk.
    destruct (decide (i = k)) as [->|Hne].
    + rewrite list_lookup_insert_eq in Hk by (by apply lookup_lt_Some in Ei).
      injection Hk as <-.
      destruct (Rltb _ _); simpl; (split; [|done]); [done|].
      rewrite Hc, Htgt. ring.
    + rewrite list_lookup_insert_ne in Hk by done. by apply (HP k).
  - apply integratePeak_inv in H
      as (F & e1 & v & Ha & -> & bt & paired & Hbt & ->).
    apply accumulateForces_flat in Ha as [HF F1]; [|done].
    destruct F1 as (HP & HV & HL & HD & HS & Hfz).
    destruct Hflat as (HP0 & _).
    destruct (HP0 _ _ Ei) as [Hc _].
    set (v0 := match _velocities e1 !! i with Some v => v | None => V3.zero end).
    assert (Hv0 : vy v0 = 0).
    { unfold v0. destruct (_velocities e1 !! i) eqn:E; [by apply (HV i)|done]. }
    assert (Hv : vy (stepVelocity (motionSystem e1) (currentPyramidCenter peak)
                       bt (dampForce (motionSystem e1) F) paired v0) = 0).
    { apply stepVelocity_Y0; [done|by apply (Hsp i)|by apply dampForce_Y0|done]. }
    split; [|split]; cbn [peaks _velocities set_peaks set_velocities].
    + apply flatPeaks_alter_center; [|done]. simpl. rewrite Hc.
      fold v0. rewrite Hv. ring.
    + by apply flatVecs_setAt.
    + done.
Qed.

(** *** The pairing pass, the resize and the position record *)

Lemma flat_ext e e' :
  peaks e' = peaks e -> _velocities e' = _velocities e ->
  _lastPositions e' = _lastPositions e ->
  frozenSwarmPositions e' = frozenSwarmPositions e ->
  flatDirs (_pairDirections e') -> flatStates (_pairStates e') ->
  flat e -> flat e'.
Proof.
  intros Wp Wv Wl Wf D S (HP & HV & HL & _ & _ & HF).
  unfold flat. by rewrite Wp, Wv, Wl, Wf.
Qed.

Lemma tickTimers_heading s : breakHeading (tickTimers s) = breakHeading s.
Proof. unfold tickTimers. repeat case_match; reflexivity. Qed.

Lemma timersStep_flat e :
  flatStates (_pairStates e) -> flatStates (_pairStates (timersStep e)).
Proof.
  intros H i s Hi. unfold timersStep in Hi. simpl in Hi.
  rewrite list_lookup_fmap in Hi.
  destruct (_pairStates e !! i) as [s0|] eqn:E; [|done].
  simpl in Hi. injection Hi as <-. rewrite tickTimers_heading.
  by apply (H i).
Qed.

Lemma breakCheck_flat i e :
  flatStates (_pairStates e) -> flatStates (_pairStates (breakCheck i e)).
Proof.
  intros H. unfold breakCheck. repeat case_match; try done.
  simpl. unfold breakWrites. by repeat apply flatStates_alter.
Qed.

Lemma breakLoop_flat e :
  flatStates (_pairStates e) -> flatStates (_pairStates (breakLoop e)).
Proof.
  unfold breakLoop.
  apply (fold_left_inv (fun e i => breakCheck i e)
           (fun e => flatStates (_pairStates e))).
  intros a s. apply breakCheck_flat.
Qed.

Lemma linkPair_flat i b e :
  flatDirs (_pairDirections e) -> flatStates (_pairStates e) ->
  flatDirs (_pairDirections (linkPair i b e))
  /\ flatStates (_pairStates (linkPair i b e)).
Proof.
  intros HD HS. split.
  - unfold linkPair. cbv zeta.
    cbn [_pairDirections set_pairStates].
    destruct (getSparse _ _); [done|].
    pose proof (randomDirection_Y0
                  (set_pairStates e
                     (alter (fun s => set_frames (set_partner s (Z.of_nat i)) 0)
                        (Z.to_nat b)
                        (alter (fun s => set_frames (set_partner s b) 0) i
                           (_pairStates e))))) as Hd.
    destruct (randomDirection _) as [d e2] eqn:Ed. cbn [fst] in Hd.
    apply randomDirection_world in Ed as (_ & _ & D).
    cbn [_pairDirections set_pairDirections]. rewrite D.
    by apply flatDirs_setSparse.
  - rewrite linkPair_pairStates. by repeat apply flatStates_alter.
Qed.

Lemma formPair_flat i e e' :
  formPair i e = Some e' ->
  flatDirs (_pairDirections e) -> flatStates (_pairStates e) ->
  flatDirs (_pairDirections e') /\ flatStates (_pairStates e').
Proof.
  intros H HD HS.
  apply formPair_cases in H as [->|(?&?&j&?&_&_&_&_&_&_&_&->)]; [done|].
  by apply linkPair_flat.
Qed.

Lemma findPairs_flat e e' : _findPairs e = Some e' -> flat e -> flat e'.
Proof.
  intros H Hflat.
  pose proof (findPairs_frame _ _ H) as [W _].
  apply world_inv in W
    as (Wp & _ & _ & _ & _ & _ & _ & _ & Wl & Wv & _ & Wf & _).
  unfold _findPairs in H.
  destruct Hflat as (HP & HV & HL & HD & HS & Hfz).
  assert (HA : flatDirs (_pairDirections e') /\ flatStates (_pairStates e')).
  { eapply (foldM_inv formPair
              (fun e => flatDirs (_pairDirections e)
                        /\ flatStates (_pairStates e))); [|exact H|].
    - intros a s s' Hf [D S]. by eapply formPair_flat.
    - destruct (breakLoop_frame (rebuildGrid (timersStep e)))
        as (_ & -> & _). split; [done|].
      apply breakLoop_flat. rewrite rebuildGrid_pairStates.
      by apply timersStep_flat. }
  destruct HA as [D S].
  apply (flat_ext e); try done.
Qed.

Lemma flatVecs_pad l n :
  flatVecs l -> flatVecs (l ++ replicate n V3.zero).
Proof.
  intros H k x Hk. apply lookup_app_Some in Hk as [Hk|[_ Hk]].
  - by apply (H k).
  - by apply lookup_replicate in Hk as [-> _].
Qed.

Lemma resizeArrays_flat e : flat e -> flat (resizeArrays e).
Proof.
  intros (HP & HV & HL & HD & HS & Hfz). unfold resizeArrays, flat; simpl.
  split; [done|]. split; [by apply flatVecs_pad|].
  split; [by apply flatVecs_pad|]. split; [done|]. split; [|done].
  intros k s Hk. apply lookup_app_Some in Hk as [Hk|[_ Hk]].
  - by apply (HS k).
  - by apply lookup_replicate in Hk as [-> _].
Qed.

Lemma recordLastPositions_flat e : flat e -> flat (recordLastPositions e).
Proof.
  unfold recordLastPositions. generalize (seq 0 (length (peaks e))).
  intros l. apply (fold_left_inv _ flat). clear e l.
  intros a s Hs. destruct (peaks s !! a) as [p|] eqn:E; [|done].
  destruct Hs as (HP & HV & HL & HD & HS & Hfz).
  split; [done|]. split; [done|]. split; [|done].
  apply flatVecs_setAt; [|done]. by destruct (HP _ _ E).
Qed.

Lemma swarmTargets_flat e : flat e -> flatVecs (swarmTargets e).
Proof.
  intros (_ & _ & _ & _ & _ & Hfz).
  assert (Hgen : forall n t, flatVecs (generateSwarmPeakPositions n t)).
  { intros n t k v Hk. unfold generateSwarmPeakPositions in Hk.
    rewrite list_lookup_fmap in Hk.
    destruct (seq 0 n !! k); [|done]. simpl in Hk. by injection Hk as <-. }
  unfold swarmTargets. destruct (frozenSwarmPositions e) as [fz|]; [|done].
  destruct (_ && _); [by apply Hfz|done].
Qed.

Lemma movePeaks_flat sp l e e' :
  flatVecs sp -> foldM (movePeak sp) l e = Some e' -> flat e -> flat e'.
Proof.
  intros Hsp. apply (foldM_inv (movePeak sp) flat).
  intros a s s' H Hs. by eapply movePeak_flat.
Qed.

(** C7 (as the code has it).  The engine moves positions with full 3D
    vector operations and keeps them in the plane y = 0 in which it
    creates them: from a state that satisfies the engine invariant and
    in which every center, evolving target, stored velocity, last
    position, shared heading and break heading has y = 0, the tick
    completes in such a state again, and the y component of every
    agent's position is unchanged by the tick. *)
Theorem vertical_stays_zero (e : Engine) :
  wf e -> flat e ->
  exists e', tick e = Some e' /\ flat e' /\
    forall i p p',
      peaks e !! i = Some p -> peaks e' !! i = Some p' ->
      vy (currentPyramidCenter p') = vy (currentPyramidCenter p).
Proof.
  intros Hwf Hflat. destruct (tick_total e Hwf) as (e' & Ht & _).
  exists e'. split; [done|].
  assert (Hf' : flat e').
  { apply tick_inv in Ht as (e1 & e2 & Hf & Hm & ->).
    apply recordLastPositions_flat.
    pose proof (resizeArrays_flat e Hflat) as Hr.
    apply (movePeaks_flat _ _ _ _ (swarmTargets_flat _ Hr) Hm).
    by apply (findPairs_flat _ _ Hf). }
  split; [done|]. intros i p p' Hp Hp'.
  destruct Hflat as (HP & _). destruct Hf' as (HP' & _).
  destruct (HP _ _ Hp) as [-> _]. by destruct (HP' _ _ Hp') as [-> _].
Qed.

(** *** A position above the plane *)

(** The forces on an unpaired agent have no vertical part when all
    agents are at one height. *)
Lemma accumulateForces_solo_y i e F e' s :
  _pairStates e !! i = Some s -> partner s = (-1)%Z ->
  flatStates (_pairStates e) -> level (peaks e) ->
  accumulateForces i e = Some (F, e') -> vy F = 0.
Proof.
  intros Hs Hp HS Hlev H. unfold accumulateForces in H. rewrite Hs in H.
  set (e0 := set_pairStates e _) in H.
  assert (S0 : _pairStates e0 !! i = Some (set_breakThisFrame s false)).
  { unfold e0; simpl. by rewrite list_lookup_alter_eq, Hs. }
  assert (P0 : peaks e0 = peaks e) by done.
  clearbody e0.
  destruct (_applyPairingForces i V3.zero e0) as [[F1 e1]|] eqn:Ep; [|done].
  pose proof (applyPairingForces_inv _ _ _ _ _ Ep) as [W _].
  apply world_inv in W as (Wp & _).
  assert (HF1 : vy F1 = 0).
  { unfold _applyPairingForces in Ep.
    destruct (peaks e0 !! i) as [peak|]; [|done].
    rewrite S0 in Ep. simpl in Ep. rewrite Hp in Ep. simpl in Ep.
    match type of Ep with
    | Some ?t = _ => assert (Hsolo : t = (F1, e1)) by congruence
    end.
    apply soloForces_y in Hsolo as [-> _]; [done|].
    simpl. by apply (HS i). }
  destruct (_pairStates e1 !! i) as [st|]; [|done].
  destruct (if breakThisFrame st then _ else _) as [F2|] eqn:Er; [|done].
  assert (HF2 : vy F2 = 0).
  { destruct (breakThisFrame st); [congruence|].
    destruct (peaks e1 !! i) as [peak|] eqn:Epk.
    - rewrite (applyRepulsionForces_y i F1 e1 F2 peak Epk); [done| |done].
      intros j other Hj. apply (Hlev j i); by rewrite <- P0, <- Wp.
    - unfold _applyRepulsionForces in Er. by rewrite Epk in Er. }
  apply applyExplorationForces_y in H. congruence.
Qed.

(** Above the plane the blend toward the swarm target, whose height is 0,
    gives the new velocity a downward part; the clamp only rescales it. *)
Lemma stepVelocity_sinks M c b F p v :
  vy b = 0 -> vy F = 0 -> vy v = 0 -> 0 < vy c ->
  0 < swarmWeight M -> 0 < followLerp M -> 0 < maxVelocity M ->
  vy (stepVelocity M c b F p v) < 0.
Proof.
  intros Hb HF Hv Hc Hw Hl Hm. unfold stepVelocity. cbv zeta.
  match goal with
  | |- context [Rgtb (V3.length ?w) _] => set (v' := w)
  end.
  assert (Hv' : vy v' < 0).
  { unfold v'. simpl. rewrite Hb, HF, Hv.
    assert (Hk : 0 < (if p then swarmWeight M * 0.55 else swarmWeight M))
      by (destruct p; lra).
    set (k := if p then _ else _) in *.
    replace (0 + ((vy c + (0 - vy c) * k + 0 - vy c) * followLerp M - 0) * 0.3)
      with (- (vy c * k * followLerp M * 0.3)) by ring.
    assert (0 < vy c * k * followLerp M) by (repeat apply Rmult_lt_0_compat; done).
    lra. }
  clearbody v'. destruct (Rgtb _ _); [|done].
  unfold V3.setLength, V3.normalize, V3.divideScalar, num_or.
  destruct (Req_dec_T (V3.length v') 0) as [E|N].
  - apply length_zero_iff in E as (_ & E & _). lra.
  - pose proof (length_nonneg v').
    assert (Hpos : 0 < 1 / V3.length v')
      by (apply Rdiv_lt_0_compat; lra).
    cbn [V3.multiplyScalar vy].
    replace (vy v' * (1 / V3.length v') * maxVelocity M)
      with (- ((- vy v') * (1 / V3.length v') * maxVelocity M)) by ring.
    assert (0 < (- vy v') * (1 / V3.length v') * maxVelocity M)
      by (repeat apply Rmult_lt_0_compat; lra).
    lra.
Qed.

Lemma wf_loneScene c r : wf (loneScene c r).
Proof.
  split; [split|].
  - intros i j si sj Hi Hj.
    destruct i as [|i]; destruct j as [|j]; simpl in *; try done.
    injection Hi as <-; injection Hj as <-; simpl; split; lia.
  - intros i s Hi. destruct i as [|i]; simpl in *; try done.
    injection Hi as <-; simpl; left; lia.
  - intros i a Hi Ha. destruct i as [|i]; simpl in *; try done.
    injection Hi as <-. simpl in Ha. lia.
Qed.

(** An agent without a solid is left alone by the pairing pass. *)
Lemma findPairs_loneScene c r :
  _findPairs (resizeArrays (loneScene c r))
  = Some (rebuildGrid (timersStep (resizeArrays (loneScene c r)))).
Proof. reflexivity. Qed.

Lemma movePeak_free sp i e peak :
  peaks e !! i = Some peak ->
  categoryFilterActive e = false -> stopAllMovement e = false ->
  evolvingLock peak = false -> evolvingTargetCenter peak = None ->
  movePeak sp i e = integratePeak sp i peak e.
Proof.
  intros Hp Hc Hs Hl Ht. unfold movePeak. rewrite Hp, Hc, Hs, Hl, Ht.
  simpl. by rewrite andb_false_r.
Qed.

(** The state in which the movement loop finds a lone agent. *)
Lemma loneScene_afterPairing c r :
  let e1 := rebuildGrid (timersStep (resizeArrays (loneScene c r))) in
  peaks e1 = [peakAt c] /\ _pairStates e1 = [newPairState]
  /\ _velocities e1 = [V3.zero] /\ motionSystem e1 = defaultMotion
  /\ categoryFilterActive e1 = false /\ stopAllMovement e1 = false
  /\ swarmTargets (resizeArrays (loneScene c r))
     = generateSwarmPeakPositions 1 0.
Proof. repeat split. Qed.

(** A lone agent above the plane is lower after the tick. *)
Lemma loneScene_sinks c r e' :
  0 < vy c -> tick (loneScene c r) = Some e' ->
  exists p', peaks e' !! 0%nat = Some p'
             /\ vy (currentPyramidCenter p') < vy c.
Proof.
  intros Hc Ht. apply tick_inv in Ht as (e1 & e2 & Hf & Hm & ->).
  rewrite findPairs_loneScene in Hf. injection Hf as <-.
  destruct (loneScene_afterPairing c r) as (Pk & Ps & Pv & PM & Pc & Pst & Psp).
  revert Hm. rewrite Psp.
  generalize dependent (rebuildGrid (timersStep (resizeArrays (loneScene c r)))).
  intros e1 Pk Ps Pv PM Pc Pst. rewrite Pk. cbn [length seq foldM].
  destruct (movePeak _ 0 e1) as [e2'|] eqn:Emove; [|done].
  intros [= ->].
  destruct (recordLastPositions_frame e2) as (_ & -> & _).
  rewrite (movePeak_free _ 0 e1 (peakAt c)) in Emove
    by (done || by rewrite Pk).
  unfold integratePeak in Emove.
  destruct (generateSwarmPeakPositions 1 0 !! 0%nat) as [b|] eqn:Eb; [|done].
  assert (Hb : vy b = 0).
  { cbn [generateSwarmPeakPositions seq map lookup list_lookup] in Eb.
    by injection Eb as <-. }
  destruct (accumulateForces 0 e1) as [[F ea]|] eqn:Ea; [|done].
  assert (HF : vy F = 0).
  { apply (accumulateForces_solo_y 0 e1 F ea newPairState);
      [by rewrite Ps|reflexivity| | |done].
    - rewrite Ps. intros [|k] s Hk; [|done]. by injection Hk as <-.
    - rewrite Pk. intros [|j] [|k] p q Hj Hk; try done.
      injection Hj as <-. by injection Hk as <-. }
  apply accumulateForces_inv in Ea as [W _].
  apply world_inv in W
    as (Wp & _ & _ & _ & _ & _ & _ & WM & _ & Wv & _).
  injection Emove as <-. cbv zeta.
  cbn [peaks set_peaks set_velocities]. rewrite Wp, Pk.
  cbn [alter list_alter lookup list_lookup].
  eexists. split; [reflexivity|].
  cbn [currentPyramidCenter set_center V3.add vy peakAt].
  match goal with
  | |- vy c + vy ?w < vy c => assert (Hw : vy w < 0); [|lra]
  end.
  rewrite WM, PM, Wv, Pv.
  apply stepVelocity_sinks; try done.
  - by apply dampForce_Y0.
  - simpl. lra.
  - simpl. lra.
  - simpl. lra.
Qed.

(** C7 (counterexample).  A lone agent at (100, 10, 0): after one tick
    its position has a y component below 10.  The integration adds the
    full 3D velocity, whose vertical part is pulled toward the swarm
    target's height 0. *)
Lemma height_not_preserved :
  exists e' p p',
    peaks (loneScene (mkV 100 10 0) 0) !! 0%nat = Some p /\
    vy (currentPyramidCenter p) = 10 /\
    tick (loneScene (mkV 100 10 0) 0) = Some e' /\
    peaks e' !! 0%nat = Some p' /\
    vy (currentPyramidCenter p') < 10.
Proof.
  destruct (tick_total _ (wf_loneScene (mkV 100 10 0) 0)) as (e' & Ht & _).
  assert (Hc : 0 < vy (mkV 100 10 0)) by (simpl; lra).
  destruct (loneScene_sinks _ _ _ Hc Ht) as (p' & Hp' & Hlt).
  exists e', (peakAt (mkV 100 10 0)), p'.
  split; [reflexivity|]. split; [reflexivity|]. split; [exact Ht|].
  split; [exact Hp'|exact Hlt].
Qed.

Lemma flat_coupleScene d : flat (coupleScene d).
Proof.
  repeat split.
  - by destruct i as [|[|i]]; simpl in *; simplify_eq.
  - intros t Ht. by destruct i as [|[|i]]; simpl in *; simplify_eq.
  - intros i v Hi. done.
  - intros i v Hi. done.
  - intros k v Hk. by destruct k as [|k]; simpl in *; simplify_eq.
  - intros i s Hi. by destruct i as [|[|i]]; simpl in *; simplify_eq.
  - done.
Qed.

Lemma vertical_stays_zero_witness :
  wf (coupleScene 10) /\ flat (coupleScene 10) /\
  exists e', tick (coupleScene 10) = Some e' /\ flat e'.
Proof.
  split; [apply wf_coupleScene|]. split; [apply flat_coupleScene|].
  destruct (vertical_stays_zero (coupleScene 10) (wf_coupleScene 10)
              (flat_coupleScene 10)) as (e' & Ht & Hflat & _).
  exists e'. by split.
Defined.

(** * Further properties of the code *)

(** ** SpatialGrid: the offsets of a query *)

Lemma offsets_inv cells d :
  In d (Grid.offsets cells) -> (- cells <= d <= cells)%Z.
Proof.
  unfold Grid.offsets. intros (k & <- & Hk%in_seq)%in_map_iff. lia.
Qed.

Lemma flat_map_bind {A B} (f : A -> list B) (l : list A) :
  flat_map f l = l ≫= f.
Proof. induction l as [|x l IH]; csimpl; [done|]. by rewrite IH. Qed.

Lemma offsets_NoDup cells : NoDup (Grid.offsets cells).
Proof.
  unfold Grid.offsets.
  apply NoDup_fmap_2_strong; [|apply NoDup_seq].
  intros a b _ _ Hab. lia.
Qed.


(** ** _findPairs: who is left alone *)

Lemma maps_to_table a b :
  maps_to a b = true <->
  (a = "low" /\ b = "mid") \/ (a = "high" /\ b = "mid") \/
  (a = "mid" /\ b = "rhythmic") \/ (a = "rhythmic" /\ b = "mid").
Proof.
  unfold maps_to, complementary_map.
  destruct (String.eqb_spec a "low") as [Hal|Hal].
  { rewrite String.eqb_eq. split; [intros <-; tauto|].
    intros H. decompose [or and] H; congruence. }
  destruct (String.eqb_spec a "high") as [Hah|Hah].
  { rewrite String.eqb_eq. split; [intros <-; tauto|].
    intros H. decompose [or and] H; congruence. }
  destruct (String.eqb_spec a "mid") as [Ham|Ham].
  { rewrite String.eqb_eq. split; [intros <-; tauto|].
    intros H. decompose [or and] H; congruence. }
  destruct (String.eqb_spec a "rhythmic") as [Har|Har].
  { rewrite String.eqb_eq. split; [intros <-; tauto|].
    intros H. decompose [or and] H; congruence. }
  split; [discriminate|]. intros H. decompose [or and] H; congruence.
Qed.

Lemma maps_to_truthy a b :
  maps_to a b = true -> truthy (Some a) = true /\ truthy (Some b) = true.
Proof.
  intros H. apply maps_to_table in H.
  decompose [or and] H; subst; by split.
Qed.

(** X3.  The complementary relation tested by the pairing and attraction
    code holds exactly for the three couples low/mid, high/mid and
    mid/rhythmic, in either order; in particular it is symmetric and no
    category is complementary to itself. *)
Theorem complementary_table (a b : string) :
  complementary (Some a) (Some b) = true <->
  (a = "low" /\ b = "mid") \/ (a = "mid" /\ b = "low") \/
  (a = "high" /\ b = "mid") \/ (a = "mid" /\ b = "high") \/
  (a = "mid" /\ b = "rhythmic") \/ (a = "rhythmic" /\ b = "mid").
Proof.
  unfold complementary. split.
  - intros H. apply andb_prop in H as [_ H].
    apply orb_prop in H as [H|H]; apply maps_to_table in H; tauto.
  - intros H.
    assert (Hm : maps_to a b = true \/ maps_to b a = true).
    { rewrite !maps_to_table. tauto. }
    apply andb_true_intro. split.
    + destruct Hm as [Hm|Hm]; apply maps_to_truthy in Hm as [-> ->]; done.
    + apply orb_true_intro. tauto.
Qed.




















(** ** The force passes *)

(** X7.  The ease factor of a pair that has lasted a non-negative number
    of frames lies between 0 and 1, and is exactly 1 from
    [max 1 pairEaseFrames] frames on. *)
Theorem pairEase_range (M : MotionSystem) (fr : Z) :
  (0 <= fr)%Z ->
  0 <= pairEase M fr <= 1
  /\ ((Z.max 1 (pairEaseFrames M) <= fr)%Z -> pairEase M fr = 1).
Proof.
  intros Hfr. unfold pairEase. cbv zeta.
  set (d := IZR (Z.max 1 (pairEaseFrames M))).
  assert (Hd : 1 <= d) by (apply IZR_le; lia).
  assert (Hq : 0 <= IZR fr / d).
  { apply Rmult_le_pos; [by apply IZR_le|].
    left. apply Rinv_0_lt_compat. lra. }
  set (t := Rmin 1 (IZR fr / d)).
  assert (Ht : 0 <= t <= 1).
  { unfold t, Rmin. destruct (Rle_dec _ _); lra. }
  split.
  { assert (H1 : 0 <= t * t) by nra.
    assert (H2 : 0 <= (1 - t) * (1 - t) * (1 + 2 * t)).
    { apply Rmult_le_pos; [nra|lra]. }
    split; [apply Rmult_le_pos; [done|lra]|].
    replace (t * t * (3 - 2 * t))
      with (1 - (1 - t) * (1 - t) * (1 + 2 * t)) by ring. lra. }
  intros Hle. assert (Ht1 : t = 1).
  { unfold t. apply Rmin_left.
    apply IZR_le in Hle. fold d in Hle.
    apply (Rmult_le_reg_r d); [lra|].
    unfold Rdiv. rewrite Rmult_assoc, Rinv_l by lra. lra. }
  rewrite Ht1. ring.
Qed.

Lemma pairEase_range_witness :
  0 <= pairEase defaultMotion 75 <= 1 /\ pairEase defaultMotion 150 = 1.
Proof.
  split.
  - apply (pairEase_range defaultMotion 75). lia.
  - apply (pairEase_range defaultMotion 150); simpl; lia.
Defined.













(** ** update: what one tick does to a peak *)

















(** ** update: the frame counter and the swarm targets *)

(** X15.  With the constructor's [updateInterval] of 40 the motion runs
    on every second call: from an even frame counter, one call to
    [update] only advances the clock and the counter, and the next call
    advances them again and runs the tick. *)
Theorem update_every_second_frame (e : Engine) :
  peaks e <> [] -> updateInterval e = 40%Z ->
  Z.even (frameCounter e) = true ->
  let e1 := set_clock e (time e + 0.016) (frameCounter e + 1)%Z in
  update e = Some e1 /\
  update e1
  = tick (set_clock e1 (time e1 + 0.016) (frameCounter e + 2)%Z).
Proof.
  intros Hp Hu Hev e1.
  assert (Hn : (length (peaks e) =? 0)%nat = false).
  { apply Nat.eqb_neq. destruct (peaks e); [done|simpl; lia]. }
  apply Z.even_spec in Hev as [k Hk].
  split.
  - unfold update. rewrite Hn. cbv zeta.
    cbn [frameCounter updateInterval set_clock]. rewrite Hu, Hk.
    change (40 / 16)%Z with 2%Z.
    assert (E : Z.rem (2 * k + 1) 2 <> 0%Z).
    { intros H. apply Z.rem_divide in H; [|lia].
      destruct H as [m Hm]. lia. }
    apply Z.eqb_neq in E. rewrite E. simpl. unfold e1. by rewrite Hk.
  - unfold update, e1. cbn [peaks set_clock]. rewrite Hn. cbv zeta.
    cbn [frameCounter updateInterval set_clock time]. rewrite Hu, Hk.
    change (40 / 16)%Z with 2%Z.
    assert (E : Z.rem (2 * k + 1 + 1) 2 = 0%Z).
    { apply Z.rem_divide; [lia|]. exists (k + 1)%Z. lia. }
    apply Z.eqb_eq in E. rewrite E. simpl.
    do 2 f_equal. lia.
Qed.

Lemma update_every_second_frame_witness :
  update (coupleScene 10)
  = Some (set_clock (coupleScene 10) (0 + 0.016) 1).
Proof.
  destruct (update_every_second_frame (coupleScene 10)) as [H _];
    [done|reflexivity|reflexivity|].
  exact H.
Defined.

(** X16.  The swarm targets: one per peak, all in the plane y = 0 and at
    most 110 units from the origin (base radius 50, spread 75 scaled by
    0.5 and 0.3). *)
Theorem swarm_targets_disc (numPeaks : nat) (time : R) :
  length (generateSwarmPeakPositions numPeaks time) = numPeaks /\
  forall i v,
    generateSwarmPeakPositions numPeaks time !! i = Some v ->
    vy v = 0 /\ V3.length v <= 110.
Proof.
  unfold generateSwarmPeakPositions. cbv zeta. split.
  { by rewrite length_map, length_seq. }
  intros i v Hv. rewrite list_lookup_fmap in Hv.
  destruct (seq 0 numPeaks !! i) as [k|]; [|done].
  injection Hv as <-. cbn [vy]. split; [done|].
  set (t := time + INR k * 10).
  set (angle := sin (t * 0.13 + INR k) * PI
                + cos (t * 0.17 + INR k * 0.5) * PI * 0.5).
  set (radius := 50 + sin (t * 0.07 + INR k) * 75 * 0.5
                 + cos (t * 0.11 + INR k) * 75 * 0.3).
  assert (Hr : -10 <= radius <= 110).
  { unfold radius. pose proof (SIN_bound (t * 0.07 + INR k)).
    pose proof (COS_bound (t * 0.11 + INR k)). lra. }
  unfold V3.length, V3.lengthSq; cbn [vx vy vz].
  replace (cos angle * radius * (cos angle * radius) + 0 * 0
           + sin angle * radius * (sin angle * radius))
    with (Rsqr radius * (Rsqr (sin angle) + Rsqr (cos angle)))
    by (unfold Rsqr; ring).
  rewrite sin2_cos2, Rmult_1_r, sqrt_Rsqr_abs.
  apply Rabs_le. lra.
Qed.


(** ** Evolving alignment *)

(** The invariant of the engine only reads the pairing registry. *)
Lemma wf_ext e e' :
  _pairStates e' = _pairStates e -> _pairDirections e' = _pairDirections e ->
  wf e -> wf e'.
Proof. unfold wf. by intros -> ->. Qed.

Lemma indexOfSolid_Some e s k :
  indexOfSolid e s = Some k <-> k = s /\ (s < length (peakSolids e))%nat.
Proof.
  unfold indexOfSolid. destruct (Nat.ltb_spec s (length (peakSolids e))).
  - split; [by intros [= <-]|by intros [-> _]].
  - split; [done|]. intros [_ ?]. lia.
Qed.

(** What [snapPeak] leaves alone. *)
Lemma snapPeak_frame entry e :
  let e' := snapPeak entry e in
  config e' = config e /\ _pairStates e' = _pairStates e /\
  _pairDirections e' = _pairDirections e /\
  length (peaks e') = length (peaks e) /\
  length (_lastPositions e') = length (_lastPositions e) /\
  length (_velocities e') = length (_velocities e) /\
  forall k, k <> entry.1 ->
    peaks e' !! k = peaks e !! k /\
    _lastPositions e' !! k = _lastPositions e !! k /\
    _velocities e' !! k = _velocities e !! k.
Proof.
  cbv zeta. unfold snapPeak.
  destruct (indexOfSolid e entry.1) as [k|] eqn:Ek; [|done].
  apply indexOfSolid_Some in Ek as [-> _].
  destruct (peaks e !! entry.1) as [p|]; [|done]. simpl.
  rewrite !length_insert. repeat split; try done;
    by rewrite list_lookup_insert_ne.
Qed.


Lemma snapFold_frame tl e :
  let e' := fold_left (fun e entry => snapPeak entry e) tl e in
  config e' = config e /\ _pairStates e' = _pairStates e /\
  _pairDirections e' = _pairDirections e /\
  length (peaks e') = length (peaks e) /\
  length (_lastPositions e') = length (_lastPositions e) /\
  length (_velocities e') = length (_velocities e) /\
  forall k, k ∉ tl.*1 ->
    peaks e' !! k = peaks e !! k /\
    _lastPositions e' !! k = _lastPositions e !! k /\
    _velocities e' !! k = _velocities e !! k.
Proof.
  revert e. induction tl as [|a tl IH]; intros e; [done|]. cbn [fold_left].
  destruct (IH (snapPeak a e)) as (C & S & D & LP & LL & LV & O).
  destruct (snapPeak_frame a e) as (C1 & S1 & D1 & LP1 & LL1 & LV1 & O1).
  cbv zeta. repeat split; try congruence.
  all: intros; rewrite fmap_cons, not_elem_of_cons in *.
  all: destruct (O k) as (? & ? & ?); [tauto|].
  all: destruct (O1 k) as (? & ? & ?); [tauto|]; congruence.
Qed.


Lemma startInstant_frame tl e :
  let e' := startEvolvingAlignmentInstant tl e in
  _pairStates e' = _pairStates e /\ _pairDirections e' = _pairDirections e /\
  peakSolids e' = peakSolids e /\
  categoryFilterActive e' = categoryFilterActive e /\
  stopAllMovement e' = stopAllMovement e /\
  length (peaks e') = length (peaks e).
Proof.
  cbv zeta. unfold startEvolvingAlignmentInstant.
  destruct tl as [|a tl]; [done|].
  match goal with
  | |- context [fold_left ?f ?l ?x] =>
      destruct (snapFold_frame l x) as (C & S & D & LP & _)
  end.
  apply config_inv in C as (C0 & _ & C1 & C2 & _).
  cbv zeta in *. by rewrite S, D, C0, C1, C2, LP.
Qed.



Lemma aimPeak_frame entry e :
  let e' := aimPeak entry e in
  config e' = config e /\ _pairStates e' = _pairStates e /\
  _pairDirections e' = _pairDirections e /\
  _velocities e' = _velocities e /\
  forall k, k <> entry.1 -> peaks e' !! k = peaks e !! k.
Proof.
  cbv zeta. unfold aimPeak.
  destruct (indexOfSolid e entry.1) as [k|] eqn:Ek; [|done].
  apply indexOfSolid_Some in Ek as [-> _]. simpl.
  repeat split; try done. intros k Hk. by rewrite list_lookup_alter_ne.
Qed.

Lemma aimFold_frame tl e :
  let e' := fold_left (fun e entry => aimPeak entry e) tl e in
  config e' = config e /\ _pairStates e' = _pairStates e /\
  _pairDirections e' = _pairDirections e /\
  _velocities e' = _velocities e /\
  forall k, k ∉ tl.*1 -> peaks e' !! k = peaks e !! k.
Proof.
  revert e. induction tl as [|a tl IH]; intros e; [done|]. cbn [fold_left].
  destruct (IH (aimPeak a e)) as (C & S & D & V & O).
  destruct (aimPeak_frame a e) as (C1 & S1 & D1 & V1 & O1).
  cbv zeta. repeat split; try congruence.
  intros k Hk. rewrite fmap_cons, not_elem_of_cons in Hk.
  rewrite O, O1; tauto.
Qed.







(** ** Category filter *)

Lemma applyVisibility_lookup vs e i p :
  peaks e !! i = Some p ->
  peaks (applyCategoryVisibilityBySolids vs e) !! i
  = Some (set_categoryVisible p
            (match peakSolids e !! i with
             | Some _ => bool_decide (i ∈ vs)
             | None => false
             end)).
Proof.
  intros Hp. unfold applyCategoryVisibilityBySolids; simpl.
  by rewrite list_lookup_imap, Hp.
Qed.

(** X20.  Filter round trip.  On an engine with the filter off and every
    peak visible, applying a category filter and clearing it gives back
    exactly the state before: no position, pair state or velocity was
    touched by either call. *)
Theorem category_filter_round_trip (vs : list nat) (e : Engine) :
  categoryFilterActive e = false ->
  (forall i p, peaks e !! i = Some p -> categoryVisible p = true) ->
  clearCategoryVisibility (applyCategoryVisibilityBySolids vs e) = e.
Proof.
  intros Hf Hv. unfold clearCategoryVisibility.
  assert (Hp : map (fun peak => set_categoryVisible peak true)
                 (peaks (applyCategoryVisibilityBySolids vs e)) = peaks e).
  { apply list_eq. intros i. rewrite list_lookup_fmap.
    destruct (peaks e !! i) as [p|] eqn:E.
    - rewrite (applyVisibility_lookup vs e i p E). simpl.
      specialize (Hv i p E). destruct p; simpl in *. by rewrite Hv.
    - unfold applyCategoryVisibilityBySolids; simpl.
      by rewrite list_lookup_imap, E. }
  rewrite Hp. unfold applyCategoryVisibilityBySolids.
  destruct e; simpl in *. by rewrite Hf.
Qed.

Lemma category_filter_round_trip_witness :
  clearCategoryVisibility
    (applyCategoryVisibilityBySolids [1%nat] (coupleScene 10))
  = coupleScene 10.
Proof.
  apply category_filter_round_trip; [reflexivity|].
  intros i p Hp. destruct i as [|[|i]]; simpl in Hp; try done;
    by injection Hp as <-.
Defined.



(** ** Population changes *)

Lemma createPeaks_peaks total l e :
  peaks (fold_left (fun e i => createSinglePeak i total e) l e)
  = peaks e
    ++ map (fun i : nat =>
              let c := mkV (INR i * 80 - (INR total * 80) / 2) 0 0 in
              mkPeak c c true None false None None) l.
Proof.
  revert e. induction l as [|a l IH]; intros e; cbn [fold_left map].
  - by rewrite app_nil_r.
  - rewrite IH. unfold createSinglePeak; simpl. by rewrite <- app_assoc.
Qed.

Lemma removePeaks_peaks n : forall target e,
  length (peaks e) = (target + n)%nat ->
  peaks (fold_left (fun e i => removeSinglePeak i e) (rev (seq target n)) e)
  = take target (peaks e).
Proof.
  induction n as [|n IH]; intros target e HL.
  - simpl. rewrite take_ge; [done|lia].
  - rewrite seq_S, rev_app_distr. cbn [rev app fold_left].
    assert (Hrm : peaks (removeSinglePeak (target + n) e)
                  = take (target + n) (peaks e)).
    { unfold removeSinglePeak.
      destruct (Nat.leb_spec (length (peaks e)) (target + n)); [lia|].
      simpl. apply list_eq. intros k.
      destruct (Nat.lt_ge_cases k (target + n)).
      - rewrite list_lookup_delete_lt, lookup_take_lt by done. done.
      - rewrite list_lookup_delete_ge, lookup_take_ge by done.
        apply lookup_ge_None. lia. }
    rewrite IH.
    + rewrite Hrm, take_take. f_equal. lia.
    + rewrite Hrm, length_take. lia.
Qed.

(** X22.  [adjustPeakCount] with a positive target lines the population
    up: peak [i] of the [target] peaks ends at x = 30 i - 15 target, for
    both its current and its next center.  A peak that existed before
    keeps everything else (y, z, visibility, seed, evolving fields), the
    peaks kept by a shrink being the first [target] ones; a new peak is
    at y = z = 0, visible, with no seed and no evolving fields. *)
Theorem adjustPeakCount_layout (e : Engine) (target i : nat) :
  (0 < target)%nat -> (i < target)%nat ->
  peaks (adjustPeakCount target e) !! i
  = Some (match peaks e !! i with
          | Some p => movedToX p (slotX i target)
          | None => peakAt (mkV (slotX i target) 0 0)
          end).
Proof.
  intros Ht Hi. unfold adjustPeakCount.
  destruct (Nat.eqb_spec target 0); [lia|].
  match goal with
  | |- context [repositionPeaks ?x] => set (e1 := x)
  end.
  assert (H1 : length (peaks e1) = target /\
               peaks e1 !! i
               = Some (match peaks e !! i with
                       | Some p => p
                       | None =>
                           let c := mkV (INR i * 80 - (INR target * 80) / 2)
                                        0 0 in
                           mkPeak c c true None false None None
                       end)).
  { unfold e1. destruct (Nat.ltb_spec (length (peaks e)) target).
    - rewrite createPeaks_peaks. split.
      { rewrite length_app, length_map, length_seq. lia. }
      destruct (peaks e !! i) as [p|] eqn:E.
      + by rewrite lookup_app_l, E by (by eapply lookup_lt_Some).
      + apply lookup_ge_None in E. rewrite lookup_app_r by done.
        rewrite list_lookup_fmap, lookup_seq_lt by lia. simpl.
        by replace (length (peaks e) + (i - length (peaks e)))%nat
          with i by lia.
    - destruct (Nat.ltb_spec target (length (peaks e))).
      + rewrite (removePeaks_peaks (length (peaks e) - target)) by lia.
        split; [rewrite length_take; lia|].
        rewrite lookup_take_lt by done.
        destruct (lookup_lt_is_Some_2 (peaks e) i) as [p Hp]; [lia|].
        by rewrite Hp.
      + split; [lia|].
        destruct (lookup_lt_is_Some_2 (peaks e) i) as [p Hp]; [lia|].
        by rewrite Hp. }
  destruct H1 as [L1 P1]. unfold repositionPeaks; simpl.
  rewrite list_lookup_imap, P1, L1. simpl.
  destruct (peaks e !! i) as [p|]; done.
Qed.

Lemma adjustPeakCount_layout_witness :
  peaks (adjustPeakCount 3 (coupleScene 10)) !! 2%nat
  = Some (peakAt (mkV (slotX 2 3) 0 0)).
Proof. apply (adjustPeakCount_layout (coupleScene 10) 3 2); lia. Defined.

(** ** The engine in use *)

Lemma update_total e : wf e -> exists e', update e = Some e' /\ wf e'.
Proof.
  intros Hwf. unfold update.
  destruct (length (peaks e) =? 0)%nat; [by exists e|]. cbv zeta.
  set (e1 := set_clock e _ _).
  assert (Hwf1 : wf e1) by (by apply (wf_ext e)).
  destruct (negb _); [by exists e1|]. by apply tick_total.
Qed.

Lemma startEvolvingAlignment_frame tl e :
  _pairStates (startEvolvingAlignment tl e) = _pairStates e /\
  _pairDirections (startEvolvingAlignment tl e) = _pairDirections e.
Proof.
  unfold startEvolvingAlignment. destruct tl as [|a tl]; [done|].
  match goal with
  | |- context [fold_left ?f ?l ?x] =>
      destruct (aimFold_frame l x) as (_ & S & D & _)
  end.
  cbv zeta in *. by rewrite S, D.
Qed.

Lemma reachable_wf e : reachable e -> wf e.
Proof.
  induction 1 as [b r e Hc|e e' _ IH Hu|e n _ IH|e tl _ IH|e tl _ IH|e _ IH
                  |e vs _ IH|e _ IH|e solids _ IH|e l s f _ IH].
  - apply wf_empty_states.
    apply (f_equal (fun o => match o with
                             | Returned x => _pairStates x
                             | Thrown _ => []
                             end)) in Hc.
    by rewrite <- Hc.
  - destruct (update_total e IH) as (e2 & Hu2 & Hwf2). congruence.
  - unfold adjustPeakCount. destruct (n =? 0)%nat eqn:En; [done|].
    apply Nat.eqb_neq in En.
    destruct (adjustPeakCount_frame n e) as (_ & S & _ & _ & D); [lia|].
    unfold adjustPeakCount in S, D. apply Nat.eqb_neq in En.
    rewrite En in S, D. by apply (wf_ext e).
  - destruct (startEvolvingAlignment_frame tl e) as [S D].
    by apply (wf_ext e).
  - destruct (startInstant_frame tl e) as (S & D & _). by apply (wf_ext e).
  - by apply (wf_ext e).
  - by apply (wf_ext e).
  - by apply (wf_ext e).
  - by apply (wf_ext e).
  - by apply (wf_ext e).
Qed.

(** X23.  No sequence of calls breaks the engine.  In every state
    reached from the constructor by frames, population changes,
    alignments, filters, and writes of the solids array and of the
    save-mode fields, the pairing links are mutual and in range, every
    stored link has its shared heading, and the motion part of [update]
    completes: it meets no missing state, peak or heading. *)
Theorem engine_never_throws (e : Engine) :
  reachable e ->
  wf e /\ exists e', update e = Some e' /\ reachable e'.
Proof.
  intros Hr. pose proof (reachable_wf e Hr) as Hwf. split; [done|].
  destruct (update_total e Hwf) as (e' & Hu & _).
  exists e'. split; [done|]. by eapply reach_update.
Qed.

Lemma engine_never_throws_witness :
  exists e e',
    ParticleSystem_constructor 2 (fun _ => 0) = Returned e /\
    update (adjustPeakCount 4 e) = Some e'.
Proof.
  eexists. 
  destruct (engine_never_throws
              (adjustPeakCount 4
                 {| peaks := initPeaks (fun _ => 0);
                    peakSolids := [];
                    time := 0;
                    updateInterval := 40;
                    frameCounter := 0;
                    targetLocked := false;
                    frozenSwarmPositions := None;
                    categoryFilterActive := false;
                    stopAllMovement := false;
                    evolvingActive := false;
                    spatialGrid := mkGrid 50 ∅;
                    motionSystem := defaultMotion;
                    _pairStates := [];
                    _lastPositions := [];
                    _pairDirections := [];
                    _velocities := [];
                    rng := fun _ => 0;
                    rngPos := (10 * 3901)%nat |}))
    as (_ & e' & Hu & _).
  - apply reach_adjust. by eapply (reach_new 2 (fun _ => 0)).
  - exists e'. split; [reflexivity|exact Hu].
Defined.


(** ** _findPairs: which links can appear *)












(** ** _findPairs: what the pass reads *)

Lemma pairingView_inv x y :
  pairingView x = pairingView y ->
  map currentPyramidCenter (peaks x) = map currentPyramidCenter (peaks y) /\
  peakSolids x = peakSolids y /\ motionSystem x = motionSystem y /\
  _pairStates x = _pairStates y /\ _pairDirections x = _pairDirections y /\
  rng x = rng y /\ rngPos x = rngPos y /\ spatialGrid x = spatialGrid y.
Proof. unfold pairingView. intros H. by simplify_eq. Qed.

Lemma centers_lookup x y j :
  map currentPyramidCenter (peaks x) = map currentPyramidCenter (peaks y) ->
  currentPyramidCenter <$> peaks x !! j = currentPyramidCenter <$> peaks y !! j.
Proof.
  intros H.
  change (currentPyramidCenter <$> peaks x = currentPyramidCenter <$> peaks y)
    in H.
  by rewrite <- !list_lookup_fmap, H.
Qed.

Lemma centers_lookupZ x y p :
  map currentPyramidCenter (peaks x) = map currentPyramidCenter (peaks y) ->
  currentPyramidCenter <$> lookupZ (peaks x) p
  = currentPyramidCenter <$> lookupZ (peaks y) p.
Proof.
  intros H. unfold lookupZ. destruct (p <? 0)%Z; [done|].
  by apply centers_lookup.
Qed.

Lemma view_start x y :
  pairingInput x = pairingInput y ->
  pairingView (rebuildGrid (timersStep x))
  = pairingView (rebuildGrid (timersStep y)).
Proof.
  unfold pairingInput. intros H.
  injection H as Hc Hs HM Hp Hd Hr Hn Hg.
  set (x' := rebuildGrid (timersStep x)).
  set (y' := rebuildGrid (timersStep y)).
  assert (E1 : map currentPyramidCenter (peaks x')
               = map currentPyramidCenter (peaks y')) by exact Hc.
  assert (E2 : peakSolids x' = peakSolids y') by exact Hs.
  assert (E3 : motionSystem x' = motionSystem y') by exact HM.
  assert (E4 : _pairStates x' = _pairStates y').
  { unfold x', y', rebuildGrid, timersStep; simpl. by rewrite Hp. }
  assert (E5 : _pairDirections x' = _pairDirections y') by exact Hd.
  assert (E6 : rng x' = rng y') by exact Hr.
  assert (E7 : rngPos x' = rngPos y') by exact Hn.
  assert (E8 : spatialGrid x' = spatialGrid y').
  { unfold x', y', rebuildGrid, timersStep, Grid.clear.
    cbn [spatialGrid set_spatialGrid set_pairStates peaks].
    rewrite Hg. f_equal.
    change (fun (i : nat) (p : Peak) => (i, currentPyramidCenter p))
      with (fun i : nat => (fun c : Vector3 => (i, c)) ∘ currentPyramidCenter).
    change (currentPyramidCenter <$> peaks x = currentPyramidCenter <$> peaks y)
      in Hc.
    by rewrite <- !imap_fmap, Hc. }
  unfold pairingView. by rewrite E1, E2, E3, E4, E5, E6, E7, E8.
Qed.

Lemma view_breakCheck k x y :
  pairingView x = pairingView y ->
  pairingView (breakCheck k x) = pairingView (breakCheck k y).
Proof.
  intros H.
  pose proof (pairingView_inv x y H) as (Hc & Hs & HM & Hp & Hd & Hr & Hn & Hg).
  unfold breakCheck. rewrite Hp, HM.
  destruct (_pairStates y !! k) as [state|]; [|done].
  destruct (partner state =? -1)%Z; [done|].
  destruct (lookupZ (_pairStates y) (partner state)); [|done].
  pose proof (centers_lookup x y k Hc) as Ek.
  pose proof (centers_lookupZ x y (partner state) Hc) as Eq.
  destruct (peaks x !! k) as [A|], (peaks y !! k) as [A'|]; try done.
  destruct (lookupZ (peaks x) (partner state)) as [B|],
           (lookupZ (peaks y) (partner state)) as [B'|]; try done.
  simpl in Ek, Eq. injection Ek as ->. injection Eq as ->.
  destruct (Rgtb _ _); [|done].
  unfold pairingView.
  cbn [peaks peakSolids motionSystem _pairStates _pairDirections rng rngPos
       spatialGrid set_pairStates].
  congruence.
Qed.

Lemma view_breakFold l : forall x y,
  pairingView x = pairingView y ->
  pairingView (fold_left (fun e k => breakCheck k e) l x)
  = pairingView (fold_left (fun e k => breakCheck k e) l y).
Proof.
  induction l as [|k l IH]; intros x y H; [done|]. simpl.
  by apply IH, view_breakCheck.
Qed.

Lemma view_breakLoop x y :
  pairingView x = pairingView y ->
  pairingView (breakLoop x) = pairingView (breakLoop y).
Proof.
  intros H. unfold breakLoop.
  pose proof (pairingView_inv x y H) as (_ & _ & _ & -> & _).
  by apply view_breakFold.
Qed.

Lemma view_considerCandidate x y i A A' cat j acc :
  pairingView x = pairingView y ->
  currentPyramidCenter A = currentPyramidCenter A' ->
  considerCandidate x i A cat j acc = considerCandidate y i A' cat j acc.
Proof.
  intros H HA.
  pose proof (pairingView_inv x y H) as (Hc & Hs & HM & Hp & _).
  unfold considerCandidate, pairCategory. rewrite Hp, Hs, HA.
  destruct (i =? j)%nat; [done|].
  destruct (_pairStates y !! j) as [stB|]; [|done].
  destruct (_ || _); [done|].
  pose proof (centers_lookup x y j Hc) as Ej.
  destruct (peaks x !! j) as [B|], (peaks y !! j) as [B'|]; try done.
  simpl in Ej. injection Ej as ->. done.
Qed.

Lemma foldM_ext {A S} (f g : A -> S -> option S) l s :
  (forall a s, f a s = g a s) -> foldM f l s = foldM g l s.
Proof.
  intros H. revert s. induction l as [|a l IH]; intros s; simpl; [done|].
  rewrite H. destruct (g a s); [apply IH|done].
Qed.

Lemma view_bestCandidate x y i A A' cat :
  pairingView x = pairingView y ->
  currentPyramidCenter A = currentPyramidCenter A' ->
  bestCandidate x i A cat = bestCandidate y i A' cat.
Proof.
  intros H HA.
  pose proof (pairingView_inv x y H) as (_ & _ & HM & _ & _ & _ & _ & Hg).
  unfold bestCandidate. rewrite HM, Hg, HA.
  apply foldM_ext. intros j acc. by apply view_considerCandidate.
Qed.

Lemma view_randomDirection x y :
  pairingView x = pairingView y ->
  fst (randomDirection x) = fst (randomDirection y) /\
  pairingView (snd (randomDirection x))
  = pairingView (snd (randomDirection y)).
Proof.
  intros H.
  pose proof (pairingView_inv x y H) as (Hc & Hs & HM & Hp & Hd & Hr & Hn & Hg).
  unfold randomDirection, random, pairingView; simpl.
  rewrite Hc, Hs, HM, Hp, Hd, Hr, Hn, Hg. done.
Qed.

Lemma view_set_pairStates x y ps :
  pairingView x = pairingView y ->
  pairingView (set_pairStates x ps) = pairingView (set_pairStates y ps).
Proof.
  intros H.
  pose proof (pairingView_inv x y H) as (Hc & Hs & HM & Hp & Hd & Hr & Hn & Hg).
  unfold pairingView.
  cbn [peaks peakSolids motionSystem _pairStates _pairDirections rng rngPos
       spatialGrid set_pairStates].
  congruence.
Qed.

Lemma view_set_pairDirections x y D :
  pairingView x = pairingView y ->
  pairingView (set_pairDirections x D) = pairingView (set_pairDirections y D).
Proof.
  intros H.
  pose proof (pairingView_inv x y H) as (Hc & Hs & HM & Hp & Hd & Hr & Hn & Hg).
  unfold pairingView.
  cbn [peaks peakSolids motionSystem _pairStates _pairDirections rng rngPos
       spatialGrid set_pairDirections].
  congruence.
Qed.

Lemma view_linkPair i b x y :
  pairingView x = pairingView y ->
  pairingView (linkPair i b x) = pairingView (linkPair i b y).
Proof.
  intros H.
  pose proof (pairingView_inv x y H) as (_ & _ & _ & Hp & Hd & _).
  unfold linkPair. cbv zeta. rewrite Hp.
  set (ps := alter _ (Z.to_nat b) _).
  pose proof (view_set_pairStates x y ps H) as H1.
  cbn [_pairDirections set_pairStates]. rewrite Hd.
  destruct (getSparse _ _); [done|].
  destruct (view_randomDirection _ _ H1) as [Hf Hv].
  destruct (randomDirection (set_pairStates x ps)) as [d1 x2],
           (randomDirection (set_pairStates y ps)) as [d2 y2].
  simpl in Hf, Hv. subst d2.
  pose proof (pairingView_inv x2 y2 Hv) as (_ & _ & _ & _ & -> & _).
  by apply view_set_pairDirections.
Qed.

Lemma view_formPair i x y :
  pairingView x = pairingView y ->
  pairingView <$> formPair i x = pairingView <$> formPair i y.
Proof.
  intros H.
  pose proof (pairingView_inv x y H) as (Hc & Hs & _ & Hp & _).
  unfold formPair, pairCategory. rewrite Hp, Hs.
  destruct (_pairStates y !! i) as [state|]; [|done].
  destruct (_ || _); [simpl; by f_equal|].
  pose proof (centers_lookup x y i Hc) as Ei.
  destruct (peaks x !! i) as [A|], (peaks y !! i) as [A'|]; try done;
    [|simpl; by f_equal].
  simpl in Ei. injection Ei as HA. cbv zeta.
  destruct (negb _); [simpl; by f_equal|].
  rewrite (view_bestCandidate x y i A A' _ H HA).
  destruct (bestCandidate y i A' _) as [[b d]|]; [|done].
  destruct (b =? -1)%Z; simpl; f_equal; [done|]. by apply view_linkPair.
Qed.

Lemma view_formPairs l : forall x y,
  pairingView x = pairingView y ->
  pairingView <$> foldM formPair l x = pairingView <$> foldM formPair l y.
Proof.
  induction l as [|i l IH]; intros x y H; simpl; [by f_equal|].
  pose proof (view_formPair i x y H) as Hi.
  destruct (formPair i x) as [x'|], (formPair i y) as [y'|]; try done.
  apply IH. simpl in Hi. congruence.
Qed.

(** X25.  The pairing pass reads nothing of a peak but its center.  Two
    engines that agree on the centers, the solids, the motion table, the
    pair states, the shared headings, the random stream and the cell
    size get the same pair states, headings and grid from [_findPairs]
    (or both fail), whatever their category filter, save-mode and
    evolving flags and the visibility and locks of their peaks: a
    hidden, frozen or locked peak is paired and unpaired like any
    other. *)
Theorem pairing_reads_centers_only (e d : Engine) :
  pairingInput e = pairingInput d ->
  pairingView <$> _findPairs e = pairingView <$> _findPairs d.
Proof.
  intros H. unfold _findPairs. cbv zeta.
  pose proof (view_breakLoop _ _ (view_start e d H)) as H3.
  pose proof (pairingView_inv _ _ H3) as (Hc & _).
  assert (HL : length (peaks (breakLoop (rebuildGrid (timersStep e))))
               = length (peaks (breakLoop (rebuildGrid (timersStep d))))).
  { apply (f_equal length) in Hc. by rewrite !length_map in Hc. }
  rewrite HL. by apply view_formPairs.
Qed.

Lemma pairing_reads_centers_only_witness :
  pairingView <$> _findPairs (coupleScene 10)
  = pairingView
      <$> _findPairs (applyCategoryVisibilityBySolids [] (coupleScene 10)).
Proof. apply pairing_reads_centers_only. reflexivity. Defined.

(** * Properties of the engine in double precision *)

(** ** Rounding *)

Lemma Rltb_yes a b : a < b -> Rltb a b = true.
Proof. apply Rltb_true. Qed.

Lemma Rltb_no a b : b <= a -> Rltb a b = false.
Proof. apply Rltb_false. Qed.

Lemma Rleb_yes a b : a <= b -> Rleb a b = true.
Proof. apply Rleb_true. Qed.

Lemma Rleb_no a b : b < a -> Rleb a b = false.
Proof. apply Rleb_false. Qed.

Lemma Rabs_le_inv a b : Rabs a <= b -> - b <= a <= b.
Proof. unfold Rabs. destruct (Rcase_abs a); lra. Qed.

(** *** Powers of two *)

Lemma pow2_powerRZ k : Dbl.pow2 k = powerRZ 2 k.
Proof.
  unfold Dbl.pow2, powerRZ. destruct k as [|p|p].
  - reflexivity.
  - change (0 <=? Z.pos p)%Z with true. cbv iota.
    by rewrite pow_IZR, positive_nat_Z.
  - change (0 <=? Z.neg p)%Z with false. cbv iota.
    change (- Z.neg p)%Z with (Z.pos p).
    by rewrite pow_IZR, positive_nat_Z.
Qed.

Lemma pow2_pos k : 0 < Dbl.pow2 k.
Proof. rewrite pow2_powerRZ. apply powerRZ_lt. lra. Qed.

Lemma pow2_add a b : Dbl.pow2 (a + b) = Dbl.pow2 a * Dbl.pow2 b.
Proof. rewrite !pow2_powerRZ. apply powerRZ_add. lra. Qed.

Lemma pow2_0 : Dbl.pow2 0 = 1.
Proof. reflexivity. Qed.

Lemma pow2_1 : Dbl.pow2 1 = 2.
Proof. reflexivity. Qed.

Lemma pow2_opp k : Dbl.pow2 (- k) = / Dbl.pow2 k.
Proof.
  pose proof (pow2_pos k). pose proof (pow2_add k (- k)) as E.
  rewrite Z.add_opp_diag_r, pow2_0 in E.
  apply Rmult_eq_reg_l with (Dbl.pow2 k); [|lra].
  rewrite <- E. field. lra.
Qed.

Lemma pow2_succ k : Dbl.pow2 (k + 1) = 2 * Dbl.pow2 k.
Proof. rewrite pow2_add, pow2_1. lra. Qed.

Lemma pow2_le a b : (a <= b)%Z -> Dbl.pow2 a <= Dbl.pow2 b.
Proof.
  intros H. replace b with (a + (b - a))%Z by lia.
  rewrite pow2_add. pose proof (pow2_pos a).
  assert (1 <= Dbl.pow2 (b - a)); [|nra].
  unfold Dbl.pow2. destruct (Z.leb_spec 0 (b - a)); [|lia].
  apply IZR_le. assert (0 < 2 ^ (b - a))%Z by (apply Z.pow_pos_nonneg; lia). lia.
Qed.

Lemma pow2_lt a b : (a < b)%Z -> Dbl.pow2 a < Dbl.pow2 b.
Proof.
  intros H. pose proof (pow2_le (a + 1) b ltac:(lia)) as L.
  rewrite pow2_succ in L. pose proof (pow2_pos a). lra.
Qed.

Lemma pow2_ln k : ln (Dbl.pow2 k) = IZR k * ln 2.
Proof.
  rewrite pow2_powerRZ, powerRZ_Rpower by lra. unfold Rpower.
  by rewrite ln_exp.
Qed.

Lemma ln2_pos : 0 < ln 2.
Proof. pose proof ln_lt_2. lra. Qed.

(** *** The binade of a number *)

Lemma mag_unique x e :
  Dbl.pow2 e <= Rabs x < Dbl.pow2 (e + 1) -> Dbl.mag x = e.
Proof.
  intros [H1 H2]. pose proof (pow2_pos e) as P. pose proof ln2_pos as L.
  unfold Dbl.mag. apply Zfloor_eq.
  assert (A : IZR e * ln 2 <= ln (Rabs x)).
  { rewrite <- pow2_ln. destruct H1 as [H1|H1].
    - left. apply ln_increasing; lra.
    - right. by rewrite H1. }
  assert (B : ln (Rabs x) < (IZR e + 1) * ln 2).
  { rewrite <- plus_IZR, <- pow2_ln. apply ln_increasing; lra. }
  split.
  - apply Rmult_le_reg_r with (ln 2); [lra|].
    unfold Rdiv. rewrite Rmult_assoc, Rinv_l by lra. lra.
  - apply Rmult_lt_reg_r with (ln 2); [lra|].
    unfold Rdiv. rewrite Rmult_assoc, Rinv_l by lra. lra.
Qed.

Lemma mag_spec x :
  x <> 0 -> Dbl.pow2 (Dbl.mag x) <= Rabs x < Dbl.pow2 (Dbl.mag x + 1).
Proof.
  intros Hx. pose proof ln2_pos as L.
  assert (Hp : 0 < Rabs x) by (by apply Rabs_pos_lt).
  unfold Dbl.mag. set (y := ln (Rabs x) / ln 2).
  destruct (Zfloor_bound y) as [B1 B2].
  assert (E : ln (Rabs x) = y * ln 2) by (unfold y; field; lra).
  split.
  - destruct (Rle_lt_dec (Dbl.pow2 (Zfloor y)) (Rabs x)) as [?|C]; [done|].
    apply ln_increasing in C; [|done]. rewrite pow2_ln, E in C. nra.
  - destruct (Rle_lt_dec (Dbl.pow2 (Zfloor y + 1)) (Rabs x)) as [C|?]; [|done].
    assert (ln (Dbl.pow2 (Zfloor y + 1)) <= ln (Rabs x)) as C'.
    { destruct C as [C|C]; [left; apply ln_increasing; [apply pow2_pos|done]
                           |right; by rewrite C]. }
    rewrite pow2_ln, plus_IZR, E in C'. nra.
Qed.

Lemma expo_normal x e :
  (-1022 <= e)%Z -> Dbl.pow2 e <= Rabs x < Dbl.pow2 (e + 1) -> Dbl.expo x = e.
Proof. intros He H. unfold Dbl.expo. rewrite (mag_unique x e H). lia. Qed.

Lemma expo_small x :
  x <> 0 -> Rabs x < Dbl.pow2 (-1022) -> Dbl.expo x = (-1022)%Z.
Proof.
  intros Hx H. unfold Dbl.expo.
  destruct (mag_spec x Hx) as [M1 _].
  destruct (Z_lt_le_dec (Dbl.mag x) (-1022)) as [?|C]; [lia|].
  apply pow2_le in C. lra.
Qed.

Lemma expo_ge x : (-1022 <= Dbl.expo x)%Z.
Proof. unfold Dbl.expo. lia. Qed.

Lemma expo_bound x :
  x <> 0 -> Rabs x < Dbl.pow2 (Dbl.expo x + 1).
Proof.
  intros Hx. destruct (mag_spec x Hx) as [_ M2].
  eapply Rlt_le_trans; [exact M2|]. apply pow2_le. unfold Dbl.expo. lia.
Qed.

(** *** Nearest integer *)

Lemma nearestE_near y m : Rabs (y - IZR m) < 1 / 2 -> Dbl.nearestE y = m.
Proof.
  intros H. apply Rabs_def2 in H as [H1 H2].
  pose proof (Zfloor_bound y) as [B1 B2].
  assert (F : Zfloor y = m \/ Zfloor y = (m - 1)%Z).
  { assert (m - 1 <= Zfloor y)%Z.
    { apply Zfloor_lub. rewrite minus_IZR. lra. }
    assert (Zfloor y < m + 1)%Z.
    { apply lt_IZR. rewrite plus_IZR. lra. }
    lia. }
  unfold Dbl.nearestE. destruct F as [F|F]; rewrite F in *.
  - rewrite Rltb_yes; [done|lra].
  - rewrite minus_IZR in *. rewrite Rltb_no by lra.
    rewrite Rltb_yes by lra. lia.
Qed.

Lemma nearestE_IZR m : Dbl.nearestE (IZR m) = m.
Proof.
  apply nearestE_near. replace (IZR m - IZR m) with 0 by lra.
  rewrite Rabs_R0. lra.
Qed.

Lemma nearestE_err y : Rabs (IZR (Dbl.nearestE y) - y) <= 1 / 2.
Proof.
  pose proof (Zfloor_bound y) as [B1 B2]. unfold Dbl.nearestE.
  apply Rabs_le.
  destruct (Rlt_dec (y - IZR (Zfloor y)) (1 / 2)) as [H|H].
  - rewrite Rltb_yes by lra. lra.
  - rewrite Rltb_no by lra.
    destruct (Rlt_dec (1 / 2) (y - IZR (Zfloor y))) as [H'|H'].
    + rewrite Rltb_yes by lra. rewrite plus_IZR. lra.
    + rewrite Rltb_no by lra.
      destruct (Z.even _); rewrite ?plus_IZR; lra.
Qed.

(** A tie goes to the even neighbour. *)
Lemma nearestE_tie y m :
  y = IZR m + 1 / 2 ->
  Dbl.nearestE y = if Z.even m then m else (m + 1)%Z.
Proof.
  intros ->. unfold Dbl.nearestE.
  assert (F : Zfloor (IZR m + 1 / 2) = m) by (apply Zfloor_eq; lra).
  rewrite F. rewrite !Rltb_no by lra. done.
Qed.

(** *** Evaluating and bounding [rnd] *)

Lemma rnd_0 : Dbl.rnd 0 = 0.
Proof.
  unfold Dbl.rnd. rewrite Rmult_0_l.
  change 0 with (IZR 0). rewrite nearestE_IZR. simpl. lra.
Qed.

Lemma rnd_at x e :
  Dbl.expo x = e ->
  Dbl.rnd x = IZR (Dbl.nearestE (x * Dbl.pow2 (52 - e))) * Dbl.pow2 (e - 52).
Proof. intros <-. reflexivity. Qed.

(** The value of [rnd x] in the binade of exponent [e]: the multiple of
    [2^(e-52)] that is less than half a unit away. *)
Lemma rnd_eval x e m :
  (-1022 <= e)%Z ->
  Dbl.pow2 e <= Rabs x < Dbl.pow2 (e + 1) ->
  Rabs (x * Dbl.pow2 (52 - e) - IZR m) < 1 / 2 ->
  Dbl.rnd x = IZR m * Dbl.pow2 (e - 52).
Proof.
  intros He Hb Hm. rewrite (rnd_at x e) by (by apply expo_normal).
  by rewrite (nearestE_near _ m).
Qed.

(** The same below the normal range, where the spacing is [2^-1074]. *)
Lemma rnd_eval_subnormal x m :
  Rabs x < Dbl.pow2 (-1022) ->
  Rabs (x * Dbl.pow2 1074 - IZR m) < 1 / 2 ->
  Dbl.rnd x = IZR m * Dbl.pow2 (-1074).
Proof.
  intros Hb Hm. destruct (Req_dec x 0) as [->|Hx].
  - rewrite rnd_0. rewrite Rmult_0_l in Hm.
    assert (m = 0%Z) as ->; [|lra].
    apply Rabs_def2 in Hm as [H1 H2].
    assert (-1 < m < 1)%Z; [|lia].
    split; apply lt_IZR; lra.
  - rewrite (rnd_at x (-1022)) by (by apply expo_small).
    change (52 - -1022)%Z with 1074%Z. change (-1022 - 52)%Z with (-1074)%Z.
    by rewrite (nearestE_near _ m).
Qed.

Lemma rnd_err_abs x :
  Rabs (Dbl.rnd x - x) <= Dbl.pow2 (Dbl.expo x - 53).
Proof.
  unfold Dbl.rnd. set (e := Dbl.expo x).
  pose proof (nearestE_err (x * Dbl.pow2 (52 - e))) as H.
  pose proof (pow2_pos (e - 52)) as P.
  replace (IZR (Dbl.nearestE (x * Dbl.pow2 (52 - e))) * Dbl.pow2 (e - 52) - x)
    with ((IZR (Dbl.nearestE (x * Dbl.pow2 (52 - e))) - x * Dbl.pow2 (52 - e))
          * Dbl.pow2 (e - 52)).
  - rewrite Rabs_mult, (Rabs_pos_eq (Dbl.pow2 _)) by lra.
    replace (e - 53)%Z with ((e - 52) + (-1))%Z by lia.
    rewrite pow2_add. change (Dbl.pow2 (-1)) with (/ 2). nra.
  - replace (52 - e)%Z with (- (e - 52))%Z by lia. rewrite pow2_opp.
    field. lra.
Qed.

(** Relative error in the normal range: half a unit in the last place. *)
Lemma rnd_err_rel x :
  Dbl.pow2 (-1022) <= Rabs x ->
  Rabs (Dbl.rnd x - x) <= Dbl.pow2 (-53) * Rabs x.
Proof.
  intros H. pose proof (pow2_pos (-1022)).
  assert (Hx : x <> 0).
  { intros ->. rewrite Rabs_R0 in H. lra. }
  destruct (mag_spec x Hx) as [M1 M2].
  assert (Hm : (-1022 <= Dbl.mag x)%Z).
  { destruct (Z_lt_le_dec (Dbl.mag x) (-1022)) as [C|?]; [|done].
    assert (Dbl.mag x + 1 <= -1022)%Z as C' by lia.
    apply pow2_le in C'. lra. }
  pose proof (rnd_err_abs x) as E.
  assert (Ee : Dbl.expo x = Dbl.mag x) by (unfold Dbl.expo; lia).
  rewrite Ee in E. eapply Rle_trans; [exact E|].
  replace (Dbl.mag x - 53)%Z with (-53 + Dbl.mag x)%Z by lia.
  rewrite pow2_add. pose proof (pow2_pos (-53)). nra.
Qed.

(** In general: relative error [2^-53] or absolute error [2^-1075]. *)
Lemma rnd_err x :
  Rabs (Dbl.rnd x - x) <= Dbl.pow2 (-53) * Rabs x + Dbl.pow2 (-1075).
Proof.
  pose proof (pow2_pos (-53)). pose proof (pow2_pos (-1075)).
  pose proof (Rabs_pos x).
  destruct (Rle_lt_dec (Dbl.pow2 (-1022)) (Rabs x)) as [Hn|Hs].
  - pose proof (rnd_err_rel x Hn). nra.
  - destruct (Req_dec x 0) as [->|Hx].
    + rewrite rnd_0. replace (0 - 0) with 0 by lra. rewrite Rabs_R0. nra.
    + pose proof (rnd_err_abs x) as E. rewrite (expo_small x Hx Hs) in E.
      change (-1022 - 53)%Z with (-1075)%Z in E. nra.
Qed.

(** Integers up to [2^53] in magnitude are doubles. *)
Lemma rnd_IZR n : (Z.abs n <= 2 ^ 53)%Z -> Dbl.rnd (IZR n) = IZR n.
Proof.
  intros Hn. destruct (Z.eq_dec n 0%Z) as [->|Hz]; [apply rnd_0|].
  set (e := Z.log2 (Z.abs n)).
  assert (Ha : (0 < Z.abs n)%Z) by lia.
  destruct (Z.log2_spec _ Ha) as [L1 L2]. fold e in L1, L2.
  assert (He0 : (0 <= e)%Z) by apply Z.log2_nonneg.
  assert (He : (e <= 53)%Z).
  { destruct (Z_lt_le_dec 53 e) as [C|?]; [|done].
    assert (2 ^ 54 <= 2 ^ e)%Z by (apply Z.pow_le_mono_r; lia). lia. }
  assert (Hb : Dbl.pow2 e <= Rabs (IZR n) < Dbl.pow2 (e + 1)).
  { rewrite <- abs_IZR. unfold Dbl.pow2.
    destruct (Z.leb_spec 0 e); [|lia]. destruct (Z.leb_spec 0 (e + 1)); [|lia].
    replace (e + 1)%Z with (Z.succ e) by lia.
    split; [by apply IZR_le|by apply IZR_lt]. }
  destruct (Z.eq_dec e 53%Z) as [E53|E53].
  - (* |n| = 2^53 *)
    assert (Z.abs n = 2 ^ 53)%Z as Hn'.
    { rewrite E53 in L1. lia. }
    rewrite (rnd_eval (IZR n) 53 (n / 2)); [| lia | by rewrite <- E53 | ].
    + change (53 - 52)%Z with 1%Z. rewrite pow2_1.
      assert (n = 2 * (n / 2))%Z as E.
      { destruct (Z.abs_eq_or_opp n) as [A|A]; rewrite A in Hn'.
        - rewrite Hn'. reflexivity.
        - assert (n = - 2 ^ 53)%Z as -> by lia. reflexivity. }
      rewrite E at 2. rewrite mult_IZR. lra.
    + change (52 - 53)%Z with (-1)%Z. change (Dbl.pow2 (-1)) with (/ 2).
      assert (n = 2 * (n / 2))%Z as E.
      { destruct (Z.abs_eq_or_opp n) as [A|A]; rewrite A in Hn'.
        - rewrite Hn'. reflexivity.
        - assert (n = - 2 ^ 53)%Z as -> by lia. reflexivity. }
      rewrite E at 1. rewrite mult_IZR.
      replace (2 * IZR (n / 2) * / 2 - IZR (n / 2)) with 0 by lra.
      rewrite Rabs_R0. lra.
  - rewrite (rnd_eval (IZR n) e (n * 2 ^ (52 - e))); [| lia | done | ].
    + rewrite mult_IZR.
      replace (e - 52)%Z with (- (52 - e))%Z by lia. rewrite pow2_opp.
      unfold Dbl.pow2. destruct (Z.leb_spec 0 (52 - e)); [|lia].
      field. apply not_0_IZR.
      assert (0 < 2 ^ (52 - e))%Z by (apply Z.pow_pos_nonneg; lia). lia.
    + rewrite mult_IZR. unfold Dbl.pow2 at 1.
      destruct (Z.leb_spec 0 (52 - e)); [|lia].
      replace (IZR n * IZR (2 ^ (52 - e)) - IZR n * IZR (2 ^ (52 - e)))
        with 0 by lra.
      rewrite Rabs_R0. lra.
Qed.

Lemma rnd_nonneg x : 0 <= x -> 0 <= Dbl.rnd x.
Proof.
  intros H. unfold Dbl.rnd.
  pose proof (pow2_pos (Dbl.expo x - 52)). pose proof (pow2_pos (52 - Dbl.expo x)).
  apply Rmult_le_pos; [|lra]. apply IZR_le.
  set (y := x * Dbl.pow2 (52 - Dbl.expo x)).
  assert (Hy : 0 <= y) by (unfold y; nra).
  pose proof (nearestE_err y) as E. apply Rabs_le_inv in E.
  assert (-1 < Dbl.nearestE y)%Z; [|lia].
  apply lt_IZR. lra.
Qed.

Lemma rnd_opp x : Dbl.expo (- x) = Dbl.expo x.
Proof. unfold Dbl.expo, Dbl.mag. by rewrite Rabs_Ropp. Qed.

(** ** SpatialGrid on doubles *)

(** Turns [Dbl.pow2 k] for a literal [k] into a numeral. *)
Ltac pow2c :=
  repeat match goal with
  | |- context [Dbl.pow2 ?k] =>
      let b := eval vm_compute in (0 <=? k)%Z in
      lazymatch b with
      | true => let v := eval vm_compute in (2 ^ k)%Z in
                change (Dbl.pow2 k) with (IZR v)
      | false => let v := eval vm_compute in (2 ^ (- k))%Z in
                 change (Dbl.pow2 k) with (/ IZR v)
      end
  end.

Lemma rnd_eval_pos x e m :
  (-1022 <= e)%Z ->
  Dbl.pow2 e <= x < Dbl.pow2 (e + 1) ->
  - (1 / 2) < x * Dbl.pow2 (52 - e) - IZR m < 1 / 2 ->
  Dbl.rnd x = IZR m * Dbl.pow2 (e - 52).
Proof.
  intros He Hb Hm. pose proof (pow2_pos e).
  apply rnd_eval; [done| |].
  - rewrite Rabs_pos_eq by lra. done.
  - apply Rabs_def1; lra.
Qed.

Lemma rnd_eval_neg x e m :
  (-1022 <= e)%Z ->
  Dbl.pow2 e <= - x < Dbl.pow2 (e + 1) ->
  - (1 / 2) < x * Dbl.pow2 (52 - e) - IZR m < 1 / 2 ->
  Dbl.rnd x = IZR m * Dbl.pow2 (e - 52).
Proof.
  intros He Hb Hm. pose proof (pow2_pos e).
  apply rnd_eval; [done| |].
  - rewrite Rabs_left by lra. done.
  - apply Rabs_def1; lra.
Qed.

(** A quotient that is an integer of at most 53 bits is exact. *)
Lemma div_exact a c n :
  c <> 0 -> a = IZR n * c -> (Z.abs n <= 2 ^ 53)%Z -> Dbl.div a c = IZR n.
Proof.
  intros Hc -> Hn. unfold Dbl.div.
  replace (IZR n * c / c) with (IZR n) by (field; done).
  by apply rnd_IZR.
Qed.

Lemma cellKey_safe c d :
  (Z.abs (c + d) <= 2 ^ 53)%Z -> DblGrid.cellKey c d = (c + d)%Z.
Proof.
  intros H. unfold DblGrid.cellKey, Dbl.add.
  rewrite <- plus_IZR, rnd_IZR by done. apply ZfloorZ.
Qed.

Lemma dbl_insertAll_cellSize agents g :
  cellSize (DblGrid.insertAll g agents) = cellSize g.
Proof.
  unfold DblGrid.insertAll. revert g.
  induction agents as [|a agents IH]; intros g; simpl; [done|].
  by rewrite IH.
Qed.

Lemma dbl_bucket_clear g key : bucket (DblGrid.clear g) key = [].
Proof. unfold bucket, DblGrid.clear; simpl. by rewrite lookup_empty. Qed.

Lemma dbl_bucket_insert g j p key :
  bucket (DblGrid.insert g j p) key
  = if decide (DblGrid._hash g (vx p) (vz p) = key)
    then bucket g key ++ [j] else bucket g key.
Proof.
  unfold bucket, DblGrid.insert; simpl. case_decide as H.
  - subst key. by rewrite lookup_insert_eq.
  - by rewrite lookup_insert_ne.
Qed.

Lemma dbl_hash_insert g j p x z :
  DblGrid._hash (DblGrid.insert g j p) x z = DblGrid._hash g x z.
Proof. reflexivity. Qed.

Lemma dbl_bucket_insertAll_mono agents g key i :
  In i (bucket g key) -> In i (bucket (DblGrid.insertAll g agents) key).
Proof.
  revert g. induction agents as [|a agents IH]; intros g Hi; simpl; [done|].
  apply IH. rewrite dbl_bucket_insert. case_decide; [|done].
  apply in_or_app. by left.
Qed.

Lemma dbl_bucket_insertAll agents g i p :
  In (i, p) agents ->
  In i (bucket (DblGrid.insertAll g agents) (DblGrid._hash g (vx p) (vz p))).
Proof.
  revert g. induction agents as [|a agents IH]; intros g Hin; [done|].
  destruct Hin as [->|Hin]; simpl.
  - apply dbl_bucket_insertAll_mono. rewrite dbl_bucket_insert.
    rewrite decide_True by done. apply in_or_app. right. by left.
  - specialize (IH (DblGrid.insert g a.1 a.2) Hin).
    by rewrite dbl_hash_insert in IH.
Qed.

Lemma dbl_bucket_insertAll_inv agents g key j :
  In j (bucket (DblGrid.insertAll g agents) key) ->
  In j (bucket g key)
  \/ exists p, In (j, p) agents /\ DblGrid._hash g (vx p) (vz p) = key.
Proof.
  revert g. induction agents as [|[i p] agents IH]; intros g Hj; simpl in *;
    [by left|].
  apply IH in Hj as [Hj|(p' & Hin & Hk)].
  - rewrite dbl_bucket_insert in Hj. case_decide as Hk.
    + apply in_app_or in Hj as [Hj|[<-|[]]]; [by left|].
      right. exists p. split; [by left|done].
    + by left.
  - right. exists p'. split; [by right|done].
Qed.

(** Each index sits in one cell, once. *)
Lemma dbl_insertAll_once agents g :
  NoDup (agents.*1) ->
  (forall key, NoDup (bucket g key)) ->
  (forall k1 k2 j, j ∈ bucket g k1 -> j ∈ bucket g k2 -> k1 = k2) ->
  (forall a key, a ∈ agents -> a.1 ∉ bucket g key) ->
  (forall key, NoDup (bucket (DblGrid.insertAll g agents) key)) /\
  (forall k1 k2 j, j ∈ bucket (DblGrid.insertAll g agents) k1 ->
                   j ∈ bucket (DblGrid.insertAll g agents) k2 -> k1 = k2).
Proof.
  revert g. induction agents as [|[i p] agents IH];
    intros g Hnd Hb Hu Hfresh; [done|].
  apply NoDup_cons in Hnd as [Hi Hnd]. simpl. apply IH; [done|..].
  - intros key. rewrite dbl_bucket_insert. case_decide; [|done].
    apply NoDup_app. split; [done|]. split; [|apply NoDup_singleton].
    intros x Hx ->%list_elem_of_singleton.
    by apply (Hfresh (i, p) key); [left|].
  - intros k1 k2 j. rewrite !dbl_bucket_insert.
    repeat case_decide; subst; try done; rewrite ?elem_of_app;
      rewrite ?list_elem_of_singleton; intros H1 H2.
    + destruct H1 as [H1| ->]; [by eapply Hu|].
      by destruct (Hfresh (i, p) k2); [left|].
    + destruct H2 as [H2| ->]; [by eapply Hu|].
      by destruct (Hfresh (i, p) k1); [left|].
    + by eapply Hu.
  - intros a key Ha. rewrite dbl_bucket_insert. case_decide.
    + rewrite elem_of_app, list_elem_of_singleton.
      intros [Hin|Heq]; [by apply (Hfresh a key); [right|]|].
      apply Hi. apply list_elem_of_fmap. by exists a.
    + by apply Hfresh; right.
Qed.

Lemma flat_map_ext_In {A B} (f g : A -> list B) (l : list A) :
  (forall a, In a l -> f a = g a) -> flat_map f l = flat_map g l.
Proof.
  induction l as [|a l IH]; intros H; simpl; [done|].
  rewrite H by (by left). rewrite IH; [done|].
  intros b Hb. apply H. by right.
Qed.

(** The query on a grid of non-zero cell size whose window stays below
    [2^53]: it returns, and what it returns is the content of the cells
    of the window. *)
Lemma dbl_getNearby_safe g q radius :
  cellSize g <> 0 ->
  let cells := Zceil (Dbl.div radius (cellSize g)) in
  let cq := DblGrid._hash g (vx q) (vz q) in
  (Z.abs cq.1 + cells < 2 ^ 53)%Z -> (Z.abs cq.2 + cells < 2 ^ 53)%Z ->
  DblGrid.getNearby g q radius
  = Some (flat_map (fun dx =>
            flat_map (fun dz => bucket g ((cq.1 + dx)%Z, (cq.2 + dz)%Z))
              (Grid.offsets cells)) (Grid.offsets cells)).
Proof.
  intros Hc cells cq H1 H2. unfold DblGrid.getNearby.
  destruct (Req_dec_T (cellSize g) 0) as [?|_]; [done|].
  fold cells. destruct (Z.leb_spec (2 ^ 53) cells) as [?|_]; [lia|].
  f_equal. apply flat_map_ext_In. intros dx Hdx%offsets_inv.
  apply flat_map_ext_In. intros dz Hdz%offsets_inv.
  unfold cq, DblGrid._hash in *. simpl in *.
  rewrite !cellKey_safe by lia. reflexivity.
Qed.

(** The query returns, and its result holds every inserted agent whose
    cell lies in the window of the query, as long as the window stays
    below [2^53], where cell indices add up exactly. *)
Lemma dbl_window_covered (g : SpatialGrid)
    (agents : list (nat * Vector3)) (q : Vector3) (radius : R) (i : nat)
    (p : Vector3) :
  cellSize g <> 0 ->
  In (i, p) agents ->
  let cells := Zceil (Dbl.div radius (cellSize g)) in
  let cq := DblGrid._hash g (vx q) (vz q) in
  let cp := DblGrid._hash g (vx p) (vz p) in
  (Z.abs cq.1 + cells < 2 ^ 53)%Z -> (Z.abs cq.2 + cells < 2 ^ 53)%Z ->
  (Z.abs (cp.1 - cq.1) <= cells)%Z -> (Z.abs (cp.2 - cq.2) <= cells)%Z ->
  exists l,
    DblGrid.getNearby (DblGrid.insertAll g agents) q radius = Some l
    /\ In i l.
Proof.
  intros Hc Hin cells cq cp S1 S2 W1 W2.
  pose proof (dbl_getNearby_safe (DblGrid.insertAll g agents) q radius) as E.
  rewrite dbl_insertAll_cellSize in E. specialize (E Hc).
  change (DblGrid._hash (DblGrid.insertAll g agents) (vx q) (vz q))
    with (Zfloor (Dbl.div (vx q) (cellSize (DblGrid.insertAll g agents))),
          Zfloor (Dbl.div (vz q) (cellSize (DblGrid.insertAll g agents))))
    in E.
  rewrite dbl_insertAll_cellSize in E.
  specialize (E S1 S2). eexists. split; [exact E|].
  apply in_flat_map. exists (cp.1 - cq.1)%Z.
  split; [apply offsets_spec; fold cells; lia|].
  apply in_flat_map. exists (cp.2 - cq.2)%Z.
  split; [apply offsets_spec; fold cells; lia|].
  pose proof (dbl_bucket_insertAll agents g i p Hin) as Hb.
  fold cp in Hb. destruct cp as [c1 c2]. simpl in *.
  match goal with
  | |- In i (bucket _ (?a, ?b)) =>
      replace a with c1 by lia; replace b with c2 by lia
  end.
  exact Hb.
Qed.

(** X26.  On a grid of non-zero cell size, the query returns, and its
    result holds every inserted agent whose cell lies in the window of
    the query: the cell indices [floor(x / cellSize)] of agent and query
    position, computed in doubles, differ by at most
    [ceil(radius / cellSize)] on each axis.  The window is assumed to
    stay below [2^53], where cell indices add up exactly. *)
Theorem getNearby_covers_window (g : SpatialGrid)
    (agents : list (nat * Vector3)) (q : Vector3) (radius : R) (i : nat)
    (p : Vector3) :
  cellSize g <> 0 ->
  In (i, p) agents ->
  let cells := Zceil (Dbl.div radius (cellSize g)) in
  let cq := DblGrid._hash g (vx q) (vz q) in
  let cp := DblGrid._hash g (vx p) (vz p) in
  (Z.abs cq.1 + cells < 2 ^ 53)%Z -> (Z.abs cq.2 + cells < 2 ^ 53)%Z ->
  (Z.abs (cp.1 - cq.1) <= cells)%Z -> (Z.abs (cp.2 - cq.2) <= cells)%Z ->
  exists l,
    DblGrid.getNearby (DblGrid.insertAll g agents) q radius = Some l
    /\ In i l.
Proof.
  intros Hc Hin cells cq cp S1 S2 W1 W2.
  by apply dbl_window_covered with p.
Qed.

(** X1.  After [clear] and a series of [insert]s on a grid of non-zero
    cell size, a query whose window stays below [2^53] returns only
    indices that were inserted, and only from its window: the cell of a
    returned agent, as [floor(x / cellSize)] computes it in doubles, is
    at most [ceil(radius / cellSize)] cells from the cell of the query
    position on each axis. *)
Theorem getNearby_within_window (g : SpatialGrid)
    (agents : list (nat * Vector3)) (q : Vector3) (radius : R)
    (l : list nat) (j : nat) :
  cellSize g <> 0 ->
  let cells := Zceil (Dbl.div radius (cellSize g)) in
  let cq := DblGrid._hash g (vx q) (vz q) in
  (Z.abs cq.1 + cells < 2 ^ 53)%Z -> (Z.abs cq.2 + cells < 2 ^ 53)%Z ->
  DblGrid.getNearby (DblGrid.insertAll (DblGrid.clear g) agents) q radius
  = Some l ->
  In j l ->
  exists p,
    In (j, p) agents /\
    let cp := DblGrid._hash g (vx p) (vz p) in
    (Z.abs (cp.1 - cq.1) <= cells)%Z /\ (Z.abs (cp.2 - cq.2) <= cells)%Z.
Proof.
  intros Hc cells cq S1 S2 Hq Hj.
  set (G := DblGrid.insertAll (DblGrid.clear g) agents) in *.
  assert (HG : cellSize G = cellSize g).
  { unfold G. by rewrite dbl_insertAll_cellSize. }
  pose proof (dbl_getNearby_safe G q radius) as E.
  unfold DblGrid._hash in E. rewrite HG in E. specialize (E Hc S1 S2).
  rewrite E in Hq. injection Hq as <-.
  apply in_flat_map in Hj as (dx & Hdx%offsets_inv & Hj).
  apply in_flat_map in Hj as (dz & Hdz%offsets_inv & Hj).
  apply dbl_bucket_insertAll_inv in Hj as [Hj|(p & Hin & Hk)].
  { by rewrite dbl_bucket_clear in Hj. }
  exists p. split; [done|].
  unfold DblGrid._hash in Hk. change (cellSize (DblGrid.clear g))
    with (cellSize g) in Hk.
  injection Hk as Hx Hz. unfold DblGrid._hash, cq. simpl in *.
  fold cells in Hdx, Hdz. lia.
Qed.

(** X2.  When every index is inserted once after [clear], on a grid of
    non-zero cell size, a query whose window stays below [2^53] returns
    no index twice: each index sits in one cell and the query visits
    each cell of its window once. *)
Theorem getNearby_no_repeats (g : SpatialGrid)
    (agents : list (nat * Vector3)) (q : Vector3) (radius : R) :
  cellSize g <> 0 ->
  NoDup (agents.*1) ->
  let cells := Zceil (Dbl.div radius (cellSize g)) in
  let cq := DblGrid._hash g (vx q) (vz q) in
  (Z.abs cq.1 + cells < 2 ^ 53)%Z -> (Z.abs cq.2 + cells < 2 ^ 53)%Z ->
  exists l,
    DblGrid.getNearby (DblGrid.insertAll (DblGrid.clear g) agents) q radius
    = Some l
    /\ NoDup l.
Proof.
  intros Hc Hnd cells cq S1 S2.
  destruct (dbl_insertAll_once agents (DblGrid.clear g) Hnd) as [Hb Hu].
  { intros key. rewrite dbl_bucket_clear. constructor. }
  { intros k1 k2 j. rewrite dbl_bucket_clear. by intros ?%elem_of_nil. }
  { intros a key _. rewrite dbl_bucket_clear. apply not_elem_of_nil. }
  set (G := DblGrid.insertAll (DblGrid.clear g) agents) in *.
  assert (HG : cellSize G = cellSize g).
  { unfold G. by rewrite dbl_insertAll_cellSize. }
  pose proof (dbl_getNearby_safe G q radius) as E.
  unfold DblGrid._hash in E. rewrite HG in E. specialize (E Hc S1 S2).
  eexists. split; [exact E|]. simpl.
  set (cx := Zfloor _). set (cz := Zfloor _).
  rewrite flat_map_bind. apply NoDup_bind; [| |apply offsets_NoDup].
  - intros dx1 dx2 j _ _. rewrite !flat_map_bind.
    intros (dz1 & H1 & _)%list_elem_of_bind (dz2 & H2 & _)%list_elem_of_bind.
    assert (K := Hu (cx + dx1, cz + dz1)%Z (cx + dx2, cz + dz2)%Z j H1 H2).
    injection K. lia.
  - intros dx _. rewrite flat_map_bind.
    apply NoDup_bind; [| |apply offsets_NoDup].
    + intros dz1 dz2 j _ _ H1 H2.
      assert (K := Hu (cx + dx, cz + dz1)%Z (cx + dx, cz + dz2)%Z j H1 H2).
      injection K. lia.
    + intros dz _. apply Hb.
Qed.

Lemma ZceilZ z : Zceil (IZR z) = z.
Proof. apply Zceil_eq. lra. Qed.

(** *** A neighbour within the radius that the query misses *)

Lemma skew_radius_cells :
  Dbl.div (3 + Dbl.pow2 (-50)) (1 + Dbl.pow2 (-52)) = 3.
Proof.
  unfold Dbl.div.
  rewrite (rnd_eval_pos _ 1 6755399441055744); pow2c; try lia; lra.
Qed.

Lemma skew_query_cell : Dbl.div 1 (1 + Dbl.pow2 (-52)) = 1 - Dbl.pow2 (-52).
Proof.
  unfold Dbl.div.
  rewrite (rnd_eval_pos _ (-1) 9007199254740990); pow2c; try lia; lra.
Qed.

Lemma skew_agent_cell :
  Dbl.div (4 + Dbl.pow2 (-50)) (1 + Dbl.pow2 (-52)) = 4.
Proof.
  apply (div_exact _ _ 4); [pow2c; lra | pow2c; lra | lia].
Qed.

Lemma skew_zero_cell : Dbl.div 0 (1 + Dbl.pow2 (-52)) = 0.
Proof. apply (div_exact _ _ 0); [pow2c; lra | lra | lia]. Qed.

(** The claimed superset fails in double arithmetic: with cell size
    1 + 2^-52 and radius 3 + 2^-50, an agent at x = 4 + 2^-50 is exactly
    the radius away from a query at x = 1, but [radius / cellSize] rounds
    to 3, the agent is in cell 4 and the query in cell 0, and the query
    returns nothing. *)
Lemma radius_neighbour_missed :
  0 < cellSize skewGrid /\
  planarDistance (mkV (4 + Dbl.pow2 (-50)) 0 0) (mkV 1 0 0)
  <= 3 + Dbl.pow2 (-50) /\
  DblGrid.getNearby
    (DblGrid.insertAll skewGrid [(0%nat, mkV (4 + Dbl.pow2 (-50)) 0 0)])
    (mkV 1 0 0) (3 + Dbl.pow2 (-50))
  = Some [].
Proof.
  split; [unfold skewGrid; simpl; pow2c; lra|]. split.
  - unfold planarDistance; simpl.
    replace (_ + _) with ((3 + Dbl.pow2 (-50)) * (3 + Dbl.pow2 (-50))) by ring.
    rewrite sqrt_square; [lra|]. pow2c. lra.
  - unfold DblGrid.getNearby, DblGrid.insertAll, DblGrid.insert,
      DblGrid._hash, skewGrid; simpl.
    destruct (Req_dec_T _ 0) as [E|_]; [exfalso; revert E; pow2c; lra|].
    rewrite skew_radius_cells, skew_query_cell, skew_agent_cell,
      skew_zero_cell.
    change 3 with (IZR 3). rewrite ZceilZ.
    change 4 with (IZR 4). change 0 with (IZR 0). rewrite !ZfloorZ.
    assert (Zfloor (1 - Dbl.pow2 (-52)) = 0%Z) as ->.
    { apply Zfloor_eq. pow2c. lra. }
    change (2 ^ 53 <=? 3)%Z with false. cbv iota.
    unfold Grid.offsets. simpl seq. simpl map.
    cbn [flat_map].
    rewrite !cellKey_safe by lia.
    vm_compute. reflexivity.
Qed.

(** *** Witnesses *)

Lemma getNearby_covers_window_witness :
  exists l,
    DblGrid.getNearby
      (DblGrid.insertAll (mkGrid 50 ∅)
         [(0%nat, mkV 0 0 0); (1%nat, mkV 50 0 0)])
      (mkV 0 0 0) 50 = Some l
    /\ In 1%nat l.
Proof.
  assert (E0 : Dbl.div 0 50 = 0) by (apply (div_exact _ _ 0); [lra|lra|lia]).
  assert (E1 : Dbl.div 50 50 = 1) by (apply (div_exact _ _ 1); [lra|lra|lia]).
  apply (getNearby_covers_window (mkGrid 50 ∅) _ (mkV 0 0 0) 50 1%nat
           (mkV 50 0 0)); unfold DblGrid._hash; simpl;
    rewrite ?E0, ?E1;
    change 0 with (IZR 0); change 1 with (IZR 1);
    rewrite ?ZfloorZ, ?ZceilZ; try lia.
  - lra.
  - right. by left.
Defined.

Lemma lineGrid_query :
  DblGrid.getNearby
    (DblGrid.insertAll (DblGrid.clear (mkGrid 50 ∅)) [(1%nat, mkV 50 0 0)])
    (mkV 0 0 0) 50 = Some [1%nat].
Proof.
  assert (E0 : Dbl.div 0 50 = 0) by (apply (div_exact _ _ 0); [lra|lra|lia]).
  assert (E1 : Dbl.div 50 50 = 1) by (apply (div_exact _ _ 1); [lra|lra|lia]).
  unfold DblGrid.getNearby, DblGrid.insertAll, DblGrid.insert,
    DblGrid._hash, DblGrid.clear; simpl.
  destruct (Req_dec_T _ 0) as [E|_]; [exfalso; lra|].
  rewrite E0, E1. change 0 with (IZR 0). change 1 with (IZR 1).
  rewrite !ZfloorZ, ZceilZ.
  change (2 ^ 53 <=? 1)%Z with false. cbv iota.
  unfold Grid.offsets. simpl seq. simpl map. cbn [flat_map].
  rewrite !cellKey_safe by lia.
  vm_compute. reflexivity.
Qed.

Lemma getNearby_within_window_witness :
  exists p,
    In (1%nat, p) [(1%nat, mkV 50 0 0)] /\
    (Z.abs ((DblGrid._hash (mkGrid 50 ∅) (vx p) (vz p)).1
            - (DblGrid._hash (mkGrid 50 ∅) 0 0).1)
     <= Zceil (Dbl.div 50 50))%Z.
Proof.
  assert (E0 : Dbl.div 0 50 = 0) by (apply (div_exact _ _ 0); [lra|lra|lia]).
  assert (E1 : Dbl.div 50 50 = 1) by (apply (div_exact _ _ 1); [lra|lra|lia]).
  destruct (getNearby_within_window (mkGrid 50 ∅) [(1%nat, mkV 50 0 0)]
              (mkV 0 0 0) 50 [1%nat] 1%nat) as (p & Hin & Hx & _).
  - simpl. lra.
  - unfold DblGrid._hash; simpl. rewrite E0, E1.
    change 0 with (IZR 0). change 1 with (IZR 1).
    rewrite ZfloorZ, ZceilZ. lia.
  - unfold DblGrid._hash; simpl. rewrite E0, E1.
    change 0 with (IZR 0). change 1 with (IZR 1).
    rewrite ZfloorZ, ZceilZ. lia.
  - exact lineGrid_query.
  - by left.
  - exists p. split; [exact Hin|exact Hx].
Defined.

Lemma getNearby_no_repeats_witness :
  exists l,
    DblGrid.getNearby
      (DblGrid.insertAll (DblGrid.clear (mkGrid 50 ∅))
         [(0%nat, mkV 0 0 0); (1%nat, mkV 50 0 0)])
      (mkV 0 0 0) 50 = Some l
    /\ NoDup l.
Proof.
  assert (E0 : Dbl.div 0 50 = 0) by (apply (div_exact _ _ 0); [lra|lra|lia]).
  assert (E1 : Dbl.div 50 50 = 1) by (apply (div_exact _ _ 1); [lra|lra|lia]).
  apply (getNearby_no_repeats (mkGrid 50 ∅)
           [(0%nat, mkV 0 0 0); (1%nat, mkV 50 0 0)] (mkV 0 0 0) 50).
  - simpl. lra.
  - simpl. apply NoDup_cons. split; [|apply NoDup_singleton].
    by intros ?%list_elem_of_singleton.
  - unfold DblGrid._hash; simpl. rewrite E0, E1.
    change 0 with (IZR 0). change 1 with (IZR 1).
    rewrite ZfloorZ, ZceilZ. lia.
  - unfold DblGrid._hash; simpl. rewrite E0, E1.
    change 0 with (IZR 0). change 1 with (IZR 1).
    rewrite ZfloorZ, ZceilZ. lia.
Defined.

(** ** Rounding is odd; evaluation helpers *)

Lemma nearestE_opp y : Dbl.nearestE (- y) = (- Dbl.nearestE y)%Z.
Proof.
  set (n := Dbl.nearestE y).
  pose proof (nearestE_err y) as E. fold n in E.
  apply Rabs_le_inv in E.
  destruct (Req_dec (IZR n - y) (1 / 2)) as [Hu|Hu].
  - (* y = (n - 1) + 1/2 *)
    assert (Hy : y = IZR (n - 1) + 1 / 2) by (rewrite minus_IZR; lra).
    pose proof (nearestE_tie y (n - 1) Hy) as T. fold n in T.
    assert (Hev : Z.even n = true).
    { destruct (Z.even (n - 1)) eqn:Ev; [lia|].
      replace n with (Z.succ (n - 1)) by lia. rewrite Z.even_succ.
      rewrite <- Z.negb_even. by rewrite Ev. }
    rewrite (nearestE_tie (- y) (- n)).
    + rewrite Z.even_opp, Hev. done.
    + rewrite opp_IZR. lra.
  - destruct (Req_dec (IZR n - y) (- (1 / 2))) as [Hl|Hl].
    + (* y = n + 1/2 *)
      assert (Hy : y = IZR n + 1 / 2) by lra.
      pose proof (nearestE_tie y n Hy) as T. fold n in T.
      assert (Hev : Z.even n = true).
      { destruct (Z.even n) eqn:Ev; [done|lia]. }
      rewrite (nearestE_tie (- y) (- n - 1)).
      * replace (- n - 1)%Z with (Z.pred (- n)) by lia.
        rewrite Z.even_pred, <- Z.negb_even, Z.even_opp, Hev. simpl. lia.
      * rewrite minus_IZR, opp_IZR. lra.
    + apply nearestE_near. rewrite opp_IZR. apply Rabs_def1; lra.
Qed.

Lemma rnd_opp_eq x : Dbl.rnd (- x) = - Dbl.rnd x.
Proof.
  unfold Dbl.rnd. rewrite rnd_opp.
  replace (- x * Dbl.pow2 (52 - Dbl.expo x))
    with (- (x * Dbl.pow2 (52 - Dbl.expo x))) by ring.
  rewrite nearestE_opp, opp_IZR. ring.
Qed.

Lemma dbl_sub_swap a b : Dbl.sub b a = - Dbl.sub a b.
Proof.
  unfold Dbl.sub. replace (b - a) with (- (a - b)) by ring.
  apply rnd_opp_eq.
Qed.

Lemma dbl_mul_opp a : Dbl.mul (- a) (- a) = Dbl.mul a a.
Proof. unfold Dbl.mul. f_equal. ring. Qed.

Lemma dbl_distanceTo_sym a b : DblV3.distanceTo a b = DblV3.distanceTo b a.
Proof.
  unfold DblV3.distanceTo, DblV3.distanceToSquared. cbv zeta.
  rewrite (dbl_sub_swap (vx a) (vx b)), (dbl_sub_swap (vy a) (vy b)),
    (dbl_sub_swap (vz a) (vz b)).
  by rewrite !dbl_mul_opp.
Qed.

Lemma rnd_is_pos x y e m :
  (-1022 <= e)%Z ->
  Dbl.pow2 e <= x < Dbl.pow2 (e + 1) ->
  y = IZR m * Dbl.pow2 (e - 52) ->
  - (1 / 2) < x * Dbl.pow2 (52 - e) - IZR m < 1 / 2 ->
  Dbl.rnd x = y.
Proof. intros He Hb -> Hm. by apply rnd_eval_pos. Qed.

Lemma rnd_is_neg x y e m :
  (-1022 <= e)%Z ->
  Dbl.pow2 e <= - x < Dbl.pow2 (e + 1) ->
  y = IZR m * Dbl.pow2 (e - 52) ->
  - (1 / 2) < x * Dbl.pow2 (52 - e) - IZR m < 1 / 2 ->
  Dbl.rnd x = y.
Proof. intros He Hb -> Hm. by apply rnd_eval_neg. Qed.

Lemma sqrt_between lo hi a :
  0 <= lo -> 0 <= hi -> lo * lo <= a < hi * hi -> lo <= sqrt a < hi.
Proof.
  intros Hlo Hhi [H1 H2]. split.
  - rewrite <- (sqrt_square lo) by done. by apply sqrt_le_1_alt.
  - rewrite <- (sqrt_square hi) by done. apply sqrt_lt_1_alt. split; [|done].
    nra.
Qed.

(** ** C5: distance break, on the distance the code computes *)

Lemma dbl_breakCheck_pbreak i e :
  rtc pbreak (partners (_pairStates e))
             (partners (_pairStates (DblPS.breakCheck i e))).
Proof.
  unfold DblPS.breakCheck.
  destruct (_pairStates e !! i) as [state|] eqn:Ei; [|done].
  destruct (Z.eqb_spec (partner state) (-1)); [done|].
  destruct (lookupZ (_pairStates e) (partner state)) as [ps|] eqn:Ep; [|done].
  destruct (peaks e !! i); [|done].
  destruct (lookupZ (peaks e) (partner state)); [|done].
  case_match; [|done]. simpl.
  apply rtc_once. rewrite breakWrites_partners.
  apply lookupZ_Some in Ep as [Hp0 Ep].
  apply pbreak_pair; [by apply partners_lookup|done|].
  apply partners_lookup in Ep. eauto.
Qed.

Lemma dbl_breakCheck_frame i e :
  world (DblPS.breakCheck i e) = world e
  /\ _pairDirections (DblPS.breakCheck i e) = _pairDirections e
  /\ rngPos (DblPS.breakCheck i e) = rngPos e
  /\ length (_pairStates (DblPS.breakCheck i e)) = length (_pairStates e).
Proof.
  unfold DblPS.breakCheck. repeat case_match; try done.
  simpl. unfold breakWrites. by rewrite !length_alter.
Qed.

(** What one iteration can do. *)
Lemma dbl_breakCheck_cases k e' :
  DblPS.breakCheck k e' = e' \/
  exists state (p : nat),
    _pairStates e' !! k = Some state /\ partner state = Z.of_nat p /\
    is_Some (_pairStates e' !! p) /\
    DblPS.breakCheck k e'
    = set_pairStates e'
        (breakWrites (motionSystem e') k (Z.of_nat p) (_pairStates e')).
Proof.
  unfold DblPS.breakCheck.
  destruct (_pairStates e' !! k) as [state|] eqn:Ek; [|by left].
  destruct (Z.eqb_spec (partner state) (-1)); [by left|].
  destruct (lookupZ (_pairStates e') (partner state)) as [ps|] eqn:Ep;
    [|by left].
  destruct (peaks e' !! k); [|by left].
  destruct (lookupZ (peaks e') (partner state)); [|by left].
  destruct (Rgtb _ _); [|by left].
  right. apply lookupZ_Some in Ep as [H0 Ep].
  exists state, (Z.to_nat (partner state)).
  rewrite Z2Nat.id by done. eauto.
Qed.

Section DistanceBreakDbl.

Variables (e : Engine) (i j : nat) (si sj : PairState) (A B : Peak).
Hypothesis Hsi : partner si = Z.of_nat j.
Hypothesis Hsj : partner sj = Z.of_nat i.
Hypothesis HA : peaks e !! i = Some A.
Hypothesis HB : peaks e !! j = Some B.
Hypothesis Hfar :
  pairKeepRadius (motionSystem e)
  < DblV3.distanceTo (currentPyramidCenter A) (currentPyramidCenter B).

Let sameScene (e' : Engine) : Prop :=
  world e' = world e /\ symmetric (_pairStates e').

Lemma dbl_far_apart :
  Rgtb (DblV3.distanceTo (currentPyramidCenter A) (currentPyramidCenter B))
       (pairKeepRadius (motionSystem e)) = true
  /\ Rgtb (DblV3.distanceTo (currentPyramidCenter B) (currentPyramidCenter A))
          (pairKeepRadius (motionSystem e)) = true.
Proof.
  rewrite (dbl_distanceTo_sym (currentPyramidCenter B)).
  split; apply Rltb_true; lra.
Qed.

Lemma dbl_breakCheck_sameScene k e' :
  sameScene e' -> sameScene (DblPS.breakCheck k e').
Proof.
  intros [W S]. split.
  - destruct (dbl_breakCheck_frame k e') as (W' & _). congruence.
  - apply symmetric_partners.
    eapply pbreaks_symZ; [apply dbl_breakCheck_pbreak|].
    by apply symmetric_partners.
Qed.

Lemma dbl_breakCheck_keeps_broken k e' :
  sameScene e' ->
  bothBroken (motionSystem e) i j e' ->
  bothBroken (motionSystem e) i j (DblPS.breakCheck k e').
Proof.
  intros [W S] (si' & sj' & Hi & Hj & Bi & Bj).
  destruct (dbl_breakCheck_cases k e')
    as [->|(state & p & Hk & Hp & [sp Hsp] & ->)].
  { by exists si', sj'. }
  exists si', sj'. simpl.
  pose proof Bi as (Pi & _). pose proof Bj as (Pj & _).
  assert (k <> i) by (intros ->; rewrite Hi in Hk; injection Hk as <-; lia).
  assert (k <> j) by (intros ->; rewrite Hj in Hk; injection Hk as <-; lia).
  assert (p <> i).
  { intros ->. rewrite Hi in Hsp. injection Hsp as <-.
    apply (S k i state si' Hk Hi) in Hp. lia. }
  assert (p <> j).
  { intros ->. rewrite Hj in Hsp. injection Hsp as <-.
    apply (S k j state sj' Hk Hj) in Hp. lia. }
  rewrite !breakWrites_other by (rewrite ?Nat2Z.id; done).
  done.
Qed.

Lemma dbl_breakCheck_other k e' :
  sameScene e' -> k <> i -> k <> j ->
  stillLinked i j si sj e' -> stillLinked i j si sj (DblPS.breakCheck k e').
Proof.
  intros [W S] Hki Hkj [Hi Hj].
  destruct (dbl_breakCheck_cases k e')
    as [->|(state & p & Hk & Hp & [sp Hsp] & ->)].
  { done. }
  assert (p <> i).
  { intros ->. rewrite Hi in Hsp. injection Hsp as <-.
    apply (S k i state si Hk Hi) in Hp. lia. }
  assert (p <> j).
  { intros ->. rewrite Hj in Hsp. injection Hsp as <-.
    apply (S k j state sj Hk Hj) in Hp. lia. }
  split; simpl; rewrite breakWrites_other by (rewrite ?Nat2Z.id; done); done.
Qed.

Lemma dbl_breakCheck_first e' :
  sameScene e' -> stillLinked i j si sj e' ->
  bothBroken (motionSystem e) i j (DblPS.breakCheck i e').
Proof.
  intros [W S] [Hi Hj].
  apply world_inv in W as (Wp & _ & _ & _ & _ & _ & _ & WM & _).
  destruct dbl_far_apart as [Hf _].
  unfold DblPS.breakCheck. rewrite Hi, Hsi. simpl.
  rewrite !lookupZ_of_nat, Hj, Wp, HA, HB, WM, Hf.
  destruct (Z.eqb_spec (Z.of_nat j) (-1)); [lia|].
  simpl.
  destruct (breakWrites_self (motionSystem e) i j _ _ Hi) as (si' & E1 & B1).
  destruct (breakWrites_partner (motionSystem e) i j _ _ Hj) as (sj' & E2 & B2).
  by exists si', sj'.
Qed.

Lemma dbl_breakCheck_second e' :
  sameScene e' -> stillLinked i j si sj e' ->
  bothBroken (motionSystem e) i j (DblPS.breakCheck j e').
Proof.
  intros [W S] [Hi Hj].
  apply world_inv in W as (Wp & _ & _ & _ & _ & _ & _ & WM & _).
  destruct dbl_far_apart as [_ Hf].
  unfold DblPS.breakCheck. rewrite Hj, Hsj. simpl.
  rewrite !lookupZ_of_nat, Hi, Wp, HA, HB, WM, Hf.
  destruct (Z.eqb_spec (Z.of_nat i) (-1)); [lia|].
  simpl.
  destruct (breakWrites_self (motionSystem e) j i _ _ Hj) as (sj' & E1 & B1).
  destruct (breakWrites_partner (motionSystem e) j i _ _ Hi) as (si' & E2 & B2).
  by exists si', sj'.
Qed.

Lemma dbl_breakFold l e' :
  sameScene e' ->
  (bothBroken (motionSystem e) i j e' \/
   (stillLinked i j si sj e' /\ (In i l \/ In j l))) ->
  bothBroken (motionSystem e) i j
    (fold_left (fun e k => DblPS.breakCheck k e) l e').
Proof.
  revert e'. induction l as [|k l IH]; intros e' HS H; simpl.
  - destruct H as [H|[_ [[]|[]]]]. done.
  - apply IH; [by apply dbl_breakCheck_sameScene|].
    destruct H as [H|[HL Hin]].
    + left. by apply dbl_breakCheck_keeps_broken.
    + destruct (decide (k = i)) as [->|Hki];
        [left; by apply dbl_breakCheck_first|].
      destruct (decide (k = j)) as [->|Hkj];
        [left; by apply dbl_breakCheck_second|].
      right. split; [by apply dbl_breakCheck_other|].
      destruct Hin as [[?|?]|[?|?]]; try congruence; auto.
Qed.

End DistanceBreakDbl.

(** A mutually paired couple whose computed distance exceeds the keep
    radius is dissolved by the break check. *)
Lemma dbl_distance_break (e : Engine) (i j : nat) (si sj : PairState)
    (A B : Peak) :
  symmetric (_pairStates e) ->
  _pairStates e !! i = Some si -> _pairStates e !! j = Some sj ->
  partner si = Z.of_nat j -> partner sj = Z.of_nat i ->
  peaks e !! i = Some A -> peaks e !! j = Some B ->
  pairKeepRadius (motionSystem e)
  < DblV3.distanceTo (currentPyramidCenter A) (currentPyramidCenter B) ->
  bothBroken (motionSystem e) i j (DblPS.breakLoop e).
Proof.
  intros HS Hi Hj Hsi Hsj HA HB Hfar. unfold DblPS.breakLoop.
  eapply dbl_breakFold; eauto.
  right. split; [by split|]. left. apply in_seq.
  apply lookup_lt_Some in Hi. lia.
Qed.

(** X27.  A mutually paired couple whose distance, as [distanceTo]
    computes it in doubles, exceeds the keep radius when the break check
    starts is dissolved by it: afterwards both members have no partner,
    zero paired frames, the pair cooldown, the break grace and each
    other as break partner. *)
Theorem computed_distance_break (e : Engine) (i j : nat) (si sj : PairState)
    (A B : Peak) :
  symmetric (_pairStates e) ->
  _pairStates e !! i = Some si -> _pairStates e !! j = Some sj ->
  partner si = Z.of_nat j -> partner sj = Z.of_nat i ->
  peaks e !! i = Some A -> peaks e !! j = Some B ->
  pairKeepRadius (motionSystem e)
  < DblV3.distanceTo (currentPyramidCenter A) (currentPyramidCenter B) ->
  bothBroken (motionSystem e) i j (DblPS.breakLoop e).
Proof.
  intros HS Hi Hj Hsi Hsj HA HB Hfar.
  by apply (dbl_distance_break e i j si sj A B).
Qed.

(** *** Distances between points with small integer coordinates *)

Lemma dbl_sub_IZR a b :
  (Z.abs (a - b) <= 2 ^ 53)%Z -> Dbl.sub (IZR a) (IZR b) = IZR (a - b).
Proof. intros H. unfold Dbl.sub. rewrite <- minus_IZR. by apply rnd_IZR. Qed.

Lemma dbl_mul_IZR a b :
  (Z.abs (a * b) <= 2 ^ 53)%Z -> Dbl.mul (IZR a) (IZR b) = IZR (a * b).
Proof. intros H. unfold Dbl.mul. rewrite <- mult_IZR. by apply rnd_IZR. Qed.

Lemma dbl_add_IZR a b :
  (Z.abs (a + b) <= 2 ^ 53)%Z -> Dbl.add (IZR a) (IZR b) = IZR (a + b).
Proof. intros H. unfold Dbl.add. rewrite <- plus_IZR. by apply rnd_IZR. Qed.

Lemma dbl_sqrt_square n :
  (0 <= n <= 2 ^ 53)%Z -> Dbl.sqrt (IZR (n * n)) = IZR n.
Proof.
  intros H. unfold Dbl.sqrt. rewrite mult_IZR, sqrt_square.
  - apply rnd_IZR. lia.
  - apply IZR_le. lia.
Qed.

Lemma dbl_distanceTo_x0 n :
  (0 <= n <= 2 ^ 26)%Z ->
  DblV3.distanceTo (mkV 0 0 0) (mkV (IZR n) 0 0) = IZR n.
Proof.
  intros H. assert (n * n <= 2 ^ 26 * 2 ^ 26)%Z by nia.
  unfold DblV3.distanceTo, DblV3.distanceToSquared; simpl.
  change 0 with (IZR 0).
  rewrite !dbl_sub_IZR by lia. rewrite !dbl_mul_IZR by lia.
  rewrite !dbl_add_IZR by lia.
  replace ((0 - n) * (0 - n) + (0 - 0) * (0 - 0) + (0 - 0) * (0 - 0))%Z
    with (n * n)%Z by lia.
  apply dbl_sqrt_square. lia.
Qed.

Lemma dbl_distanceTo_z0 n :
  (0 <= n <= 2 ^ 26)%Z ->
  DblV3.distanceTo (mkV 0 0 0) (mkV 0 0 (IZR n)) = IZR n.
Proof.
  intros H. assert (n * n <= 2 ^ 26 * 2 ^ 26)%Z by nia.
  unfold DblV3.distanceTo, DblV3.distanceToSquared; simpl.
  change 0 with (IZR 0).
  rewrite !dbl_sub_IZR by lia. rewrite !dbl_mul_IZR by lia.
  rewrite !dbl_add_IZR by lia.
  replace ((0 - 0) * (0 - 0) + (0 - 0) * (0 - 0) + (0 - n) * (0 - n))%Z
    with (n * n)%Z by lia.
  apply dbl_sqrt_square. lia.
Qed.

Lemma computed_distance_break_witness :
  bothBroken defaultMotion 0 1 (DblPS.breakLoop (coupleScene 100)).
Proof.
  apply (computed_distance_break (coupleScene 100) 0 1 (pairedWith 1) (pairedWith 0)
           (peakAt (mkV 0 0 0)) (peakAt (mkV 100 0 0))).
  - apply wf_coupleScene.
  - reflexivity.
  - reflexivity.
  - reflexivity.
  - reflexivity.
  - reflexivity.
  - reflexivity.
  - simpl. change 100 with (IZR 100). rewrite dbl_distanceTo_x0 by lia. lra.
Defined.

(** *** A couple beyond the keep radius that stays paired *)

(** The distance the code computes between the origin and
    (21 + 2^-48, 0, 28) is exactly 35. *)
Lemma graze_distance :
  DblV3.distanceTo (mkV 0 0 0) (mkV (21 + Dbl.pow2 (-48)) 0 28) = 35.
Proof.
  unfold DblV3.distanceTo, DblV3.distanceToSquared; simpl.
  assert (Dx : Dbl.sub 0 (21 + Dbl.pow2 (-48)) = - (21 + Dbl.pow2 (-48))).
  { unfold Dbl.sub. apply (rnd_is_neg _ _ 4 (-5910974510923777));
      pow2c; [lia|lra|lra|lra]. }
  assert (Dy : Dbl.sub 0 0 = 0).
  { change 0 with (IZR 0). by rewrite dbl_sub_IZR by lia. }
  assert (Dz : Dbl.sub 0 28 = -28).
  { change 0 with (IZR 0). change 28 with (IZR 28).
    rewrite dbl_sub_IZR by lia. reflexivity. }
  rewrite Dx, Dy, Dz.
  assert (Sx : Dbl.mul (- (21 + Dbl.pow2 (-48))) (- (21 + Dbl.pow2 (-48)))
               = 441 + 3 * Dbl.pow2 (-44)).
  { unfold Dbl.mul. apply (rnd_is_pos _ _ 8 7758154045587459);
      pow2c; [lia|lra|lra|lra]. }
  assert (Sy : Dbl.mul 0 0 = 0).
  { change 0 with (IZR 0). by rewrite dbl_mul_IZR by lia. }
  assert (Sz : Dbl.mul (-28) (-28) = 784).
  { change (-28) with (IZR (-28)). rewrite dbl_mul_IZR by lia. reflexivity. }
  rewrite Sx, Sy, Sz.
  assert (A1 : Dbl.add (441 + 3 * Dbl.pow2 (-44)) 0
               = 441 + 3 * Dbl.pow2 (-44)).
  { unfold Dbl.add. apply (rnd_is_pos _ _ 8 7758154045587459);
      pow2c; [lia|lra|lra|lra]. }
  rewrite A1.
  assert (A2 : Dbl.add (441 + 3 * Dbl.pow2 (-44)) 784
               = 1225 + Dbl.pow2 (-42)).
  { unfold Dbl.add. apply (rnd_is_pos _ _ 10 5387606976102401);
      pow2c; [lia|lra|lra|lra]. }
  rewrite A2. unfold Dbl.sqrt.
  assert (B : 35 <= sqrt (1225 + Dbl.pow2 (-42)) < 35 + Dbl.pow2 (-48)).
  { apply sqrt_between; pow2c; lra. }
  revert B. pow2c. intros B.
  apply (rnd_is_pos _ _ 5 4925812092436480); pow2c; [lia|lra|lra|lra].
Qed.

Lemma graze_planar :
  35 < planarDistance (mkV 0 0 0) (mkV (21 + Dbl.pow2 (-48)) 0 28).
Proof.
  unfold planarDistance; simpl.
  rewrite <- (sqrt_square 35) at 1 by lra.
  apply sqrt_lt_1_alt. pow2c. lra.
Qed.

(** The claimed postcondition fails in double arithmetic: the two
    members of [grazeScene] are paired with each other and their planar
    distance exceeds the keep radius of 35, but [distanceTo] returns 35,
    the test [dist > 35] is false, and the break check changes nothing. *)
Lemma graze_pair_kept :
  pairKeepRadius (motionSystem grazeScene)
  < planarDistance (mkV 0 0 0) (mkV (21 + Dbl.pow2 (-48)) 0 28) /\
  DblPS.breakLoop grazeScene = grazeScene /\
  _pairStates (DblPS.breakLoop grazeScene) !! 0%nat = Some (pairedWith 1) /\
  _pairStates (DblPS.breakLoop grazeScene) !! 1%nat = Some (pairedWith 0).
Proof.
  split; [exact graze_planar|].
  assert (E : DblPS.breakLoop grazeScene = grazeScene).
  { assert (E0 : DblPS.breakCheck 0 grazeScene = grazeScene).
    { unfold DblPS.breakCheck. simpl.
      rewrite graze_distance. unfold Rgtb. by rewrite Rltb_no by lra. }
    assert (E1 : DblPS.breakCheck 1 grazeScene = grazeScene).
    { unfold DblPS.breakCheck. simpl.
      rewrite <- dbl_distanceTo_sym, graze_distance.
      unfold Rgtb. by rewrite Rltb_no by lra. }
    unfold DblPS.breakLoop.
    change (seq 0 (length (_pairStates grazeScene))) with [0; 1]%nat.
    cbn [fold_left]. by rewrite E0, E1. }
  split; [exact E|]. rewrite E. split; reflexivity.
Qed.

(** ** C4: the formation step, on the distances the code computes *)

Lemma dbl_considerCandidate_pick e i peakA catA j acc :
  (i = j \/ is_Some (_pairStates e !! j)) ->
  DblPS.considerCandidate e i peakA catA j acc
  = Some (DblPS.pick e i peakA catA acc j).
Proof.
  intros Hj. unfold DblPS.considerCandidate, DblPS.pick, eligible,
    DblPS.distFrom.
  destruct (Nat.eqb_spec i j) as [->|Hij]; [done|].
  destruct Hj as [?|[stB HstB]]; [congruence|]. rewrite HstB. simpl.
  destruct (peaks e !! j) as [peakB|];
    destruct (Z.eqb_spec (partner stB) (-1)); simpl; try done;
    destruct (Z.ltb_spec 0 (cooldown stB)); simpl; try done.
  destruct (complementary catA (pairCategory e j)); simpl; [|done].
  by destruct (Rleb _ _).
Qed.

Lemma dbl_foldM_pick e i peakA catA l acc :
  Forall (fun j => i = j \/ is_Some (_pairStates e !! j)) l ->
  foldM (DblPS.considerCandidate e i peakA catA) l acc
  = Some (fold_left (DblPS.pick e i peakA catA) l acc).
Proof.
  intros H. revert acc. induction H as [|j l Hj Hl IH]; intros acc; [done|].
  simpl. rewrite dbl_considerCandidate_pick by done. apply IH.
Qed.

(** The search keeps the last of the closest eligible candidates. *)
Lemma dbl_pick_fold_spec e i peakA catA l b0 d0 :
  let r := fold_left (DblPS.pick e i peakA catA) l (b0, d0) in
  snd r <= d0 /\
  (forall j, In j l -> eligible e i catA j = true ->
             snd r <= DblPS.distFrom e peakA j) /\
  ((r = (b0, d0) /\
    forall j, In j l -> eligible e i catA j = true ->
              d0 < DblPS.distFrom e peakA j)
   \/ exists l1 j l2,
        l = l1 ++ j :: l2 /\ r = (Z.of_nat j, DblPS.distFrom e peakA j) /\
        eligible e i catA j = true /\
        forall k, In k l2 -> eligible e i catA k = true ->
                  DblPS.distFrom e peakA j < DblPS.distFrom e peakA k).
Proof.
  induction l as [|x l IH] using rev_ind; simpl.
  - split; [lra|]. split; [done|]. left. by split.
  - rewrite fold_left_app. simpl.
    destruct IH as (Hle & Hmin & Hlast).
    set (r := fold_left (DblPS.pick e i peakA catA) l (b0, d0)) in *.
    assert (Hcase : (eligible e i catA x = true
                     /\ DblPS.distFrom e peakA x <= r.2
                     /\ DblPS.pick e i peakA catA r x
                        = (Z.of_nat x, DblPS.distFrom e peakA x))
                    \/ ((eligible e i catA x = true
                         -> r.2 < DblPS.distFrom e peakA x)
                        /\ DblPS.pick e i peakA catA r x = r)).
    { unfold DblPS.pick. destruct (eligible e i catA x); simpl.
      - destruct (Rleb (DblPS.distFrom e peakA x) r.2) eqn:Ed.
        + left. by apply Rleb_true in Ed.
        + right. by apply Rleb_false in Ed.
      - right. done. }
    destruct Hcase as [(Ex & Ed & ->)|(Ex & ->)]; simpl.
    + split; [lra|]. split.
      * intros j Hj Hel. apply in_app_or in Hj as [Hj|[->|[]]]; [|lra].
        specialize (Hmin j Hj Hel). lra.
      * right. exists l, x, []. done.
    + split; [done|]. split.
      * intros j Hj Hel. apply in_app_or in Hj as [Hj|[->|[]]]; [by apply Hmin|].
        specialize (Ex Hel). lra.
      * destruct Hlast as [[Hr Hall]|(l1 & j & l2 & -> & Hr & Hel & Hall)].
        -- left. split; [done|]. intros j Hj Hj'.
           apply in_app_or in Hj as [Hj|[->|[]]]; [by apply Hall|].
           specialize (Ex Hj'). rewrite Hr in Ex. done.
        -- right. exists l1, j, (l2 ++ [x]). split; [by rewrite <- app_assoc|].
           split; [done|]. split; [done|]. intros k Hk Hk'.
           apply in_app_or in Hk as [Hk|[->|[]]]; [by apply Hall|].
           specialize (Ex Hk'). rewrite Hr in Ex. done.
Qed.

Lemma dbl_linkPair_pairStates i b e :
  _pairStates (DblPS.linkPair i b e)
  = alter (fun s => set_frames (set_partner s (Z.of_nat i)) 0) (Z.to_nat b)
      (alter (fun s => set_frames (set_partner s b) 0) i (_pairStates e)).
Proof.
  unfold DblPS.linkPair. simpl.
  destruct (getSparse _ _); [done|]. reflexivity.
Qed.

Lemma dbl_linkPair_links (i j : nat) e si sj :
  i <> j -> _pairStates e !! i = Some si -> _pairStates e !! j = Some sj ->
  exists si' sj',
    _pairStates (DblPS.linkPair i (Z.of_nat j) e) !! i = Some si' /\
    _pairStates (DblPS.linkPair i (Z.of_nat j) e) !! j = Some sj' /\
    partner si' = Z.of_nat j /\ frames si' = 0%Z /\
    partner sj' = Z.of_nat i /\ frames sj' = 0%Z.
Proof.
  intros Hij Hi Hj. rewrite dbl_linkPair_pairStates, Nat2Z.id.
  rewrite list_lookup_alter_ne by done. rewrite list_lookup_alter_eq, Hi.
  rewrite list_lookup_alter_eq, list_lookup_alter_ne by done. rewrite Hj.
  simpl. eauto 10.
Qed.

Lemma dbl_gridBound_clear g n : gridBound (DblGrid.clear g) n.
Proof. intros key j. by rewrite dbl_bucket_clear. Qed.

Lemma dbl_gridBound_insertAll agents g n :
  Forall (fun a => (a.1 < n)%nat) agents ->
  gridBound g n -> gridBound (DblGrid.insertAll g agents) n.
Proof.
  intros H. revert g. induction H as [|a agents Ha _ IH]; intros g Hg; [done|].
  simpl. apply IH. intros key j. rewrite dbl_bucket_insert.
  case_decide; [|apply Hg].
  intros [Hj|[<-|[]]]%in_app_or; [by apply (Hg key)|done].
Qed.

Lemma dbl_getNearby_bound g n q r l j :
  gridBound g n -> DblGrid.getNearby g q r = Some l -> In j l -> (j < n)%nat.
Proof.
  intros Hg Hq Hj. unfold DblGrid.getNearby in Hq.
  destruct (Req_dec_T _ _).
  - destruct (Rltb 0 r); [done|]. injection Hq as <-. done.
  - destruct (_ <=? _)%Z; [done|]. injection Hq as <-.
    apply in_flat_map in Hj as (dx & _ & Hj).
    apply in_flat_map in Hj as (dz & _ & Hj).
    by eapply Hg.
Qed.

Lemma dbl_gridBuilt_bound e :
  DblPS.gridBuilt e -> gridBound (spatialGrid e) (length (peaks e)).
Proof.
  intros HG. rewrite HG.
  apply dbl_gridBound_insertAll; [|apply dbl_gridBound_clear].
  apply Forall_forall. intros [a p] Hin.
  apply list_elem_of_lookup in Hin as [m Hm].
  apply list_lookup_imap_Some in Hm as (x & Hx & [= -> ->]).
  simpl. by apply lookup_lt_Some in Hx.
Qed.

Lemma dbl_rebuildGrid_built e : DblPS.gridBuilt (DblPS.rebuildGrid e).
Proof.
  unfold DblPS.gridBuilt, DblPS.rebuildGrid; simpl. f_equal.
  unfold DblGrid.clear. f_equal. by rewrite dbl_insertAll_cellSize.
Qed.

(** The formation step of an agent that passes the guards, as a pure
    search followed by the link. *)
Lemma dbl_formPair_search e i state peakA nearby :
  DblPS.gridBuilt e ->
  (length (peaks e) <= length (_pairStates e))%nat ->
  _pairStates e !! i = Some state ->
  partner state = (-1)%Z -> cooldown state = 0%Z ->
  peaks e !! i = Some peakA ->
  truthy (pairCategory e i) = true ->
  DblGrid.getNearby (spatialGrid e) (currentPyramidCenter peakA)
    (pairFormRadius (motionSystem e)) = Some nearby ->
  DblPS.formPair i e
  = let r := fold_left (DblPS.pick e i peakA (pairCategory e i)) nearby
               ((-1)%Z, pairFormRadius (motionSystem e)) in
    if (r.1 =? -1)%Z then Some e else Some (DblPS.linkPair i r.1 e).
Proof.
  intros HG HL Hi Hp Hcd HA Hcat Hq.
  unfold DblPS.formPair. rewrite Hi, Hp, Hcd, HA. simpl.
  rewrite Hcat. simpl. unfold DblPS.bestCandidate. rewrite Hq.
  rewrite dbl_foldM_pick.
  - by destruct (fold_left _ _ _).
  - apply Forall_forall. intros j Hj%list_elem_of_In. right.
    apply lookup_lt_is_Some_2.
    assert (j < length (peaks e))%nat; [|lia].
    eapply dbl_getNearby_bound; [|exact Hq|exact Hj].
    by apply dbl_gridBuilt_bound.
Qed.

(** C4 (as the code has it).  In the formation step of an unpaired agent
    [i] with no cooldown and a category, on a grid that holds the current
    centers and whose query returns the list [nearby]: with distances as
    [distanceTo] computes them in doubles, when no eligible candidate of
    [nearby] lies within the formation radius nothing changes; otherwise
    [i] is linked, mutually and with zero frames, to an eligible
    candidate [j] of [nearby] within the radius that is at least as close
    as every other eligible candidate of [nearby], and among candidates
    at that same computed distance [j] is the one the query returns
    last. *)
Theorem closest_candidate (e : Engine) (i : nat) (state : PairState)
    (peakA : Peak) (nearby : list nat) :
  DblPS.gridBuilt e ->
  (length (peaks e) <= length (_pairStates e))%nat ->
  _pairStates e !! i = Some state ->
  partner state = (-1)%Z -> cooldown state = 0%Z ->
  peaks e !! i = Some peakA ->
  truthy (pairCategory e i) = true ->
  let catA := pairCategory e i in
  let radius := pairFormRadius (motionSystem e) in
  DblGrid.getNearby (spatialGrid e) (currentPyramidCenter peakA) radius
  = Some nearby ->
  ((forall k, In k nearby -> eligible e i catA k = true ->
              radius < DblPS.distFrom e peakA k) ->
   DblPS.formPair i e = Some e) /\
  (forall k, In k nearby -> eligible e i catA k = true ->
             DblPS.distFrom e peakA k <= radius ->
   exists (j : nat) l1 l2 si' sj',
     DblPS.formPair i e = Some (DblPS.linkPair i (Z.of_nat j) e) /\
     eligible e i catA j = true /\
     DblPS.distFrom e peakA j <= radius /\
     (forall k', In k' nearby -> eligible e i catA k' = true ->
                 DblPS.distFrom e peakA j <= DblPS.distFrom e peakA k') /\
     nearby = l1 ++ j :: l2 /\
     (forall k', In k' l2 -> eligible e i catA k' = true ->
                 DblPS.distFrom e peakA j < DblPS.distFrom e peakA k') /\
     _pairStates (DblPS.linkPair i (Z.of_nat j) e) !! i = Some si' /\
     _pairStates (DblPS.linkPair i (Z.of_nat j) e) !! j = Some sj' /\
     partner si' = Z.of_nat j /\ frames si' = 0%Z /\
     partner sj' = Z.of_nat i /\ frames sj' = 0%Z).
Proof.
  intros HG HL Hi Hp Hcd HA Hcat catA radius Hq.
  pose proof (dbl_formPair_search e i state peakA nearby HG HL Hi Hp Hcd HA
                Hcat Hq) as Hform.
  fold catA radius in Hform.
  destruct (dbl_pick_fold_spec e i peakA catA nearby (-1)%Z radius)
    as (Hle & Hmin & Hlast).
  cbv zeta in Hform, Hle, Hmin, Hlast.
  split.
  - intros Hnone. rewrite Hform.
    destruct Hlast as [[-> _]|(l1 & j & l2 & Hn & Hr & Hel & _)]; [done|].
    rewrite Hr in Hle. simpl in Hle.
    assert (Hj : In j nearby) by (rewrite Hn; apply in_elt).
    specialize (Hnone j Hj Hel). lra.
  - intros k Hin Hk Hkd.
    destruct Hlast as [[_ Hall]|(l1 & j & l2 & Hn & Hr & Hel & Htie)].
    { exfalso. specialize (Hall k Hin Hk). lra. }
    rewrite Hr in Hform, Hle, Hmin. simpl in Hform, Hle, Hmin.
    destruct (Z.eqb_spec (Z.of_nat j) (-1)); [lia|].
    pose proof Hel as Hel'.
    apply eligible_inv in Hel' as (Hij & stB & peakB & Hj & _).
    destruct (dbl_linkPair_links i j e state stB Hij Hi Hj)
      as (si' & sj' & E1 & E2 & Q).
    exists j, l1, l2, si', sj'.
    split; [done|]. split; [done|]. split; [done|]. split.
    + intros k' Hk' Hel'. by apply Hmin.
    + split; [done|]. split; [done|]. split; [done|]. split; [done|]. done.
Qed.

(** *** The tie scene on doubles *)

Lemma dbl_div_half : Dbl.div 25 50 = 1 / 2.
Proof.
  unfold Dbl.div. apply (rnd_is_pos _ _ (-1) 4503599627370496);
    pow2c; [lia|lra|lra|lra].
Qed.

Lemma dbl_div_fifth : Zfloor (Dbl.div 10 50) = 0%Z.
Proof.
  unfold Dbl.div.
  rewrite (rnd_is_pos (10 / 50) (7205759403792794 * Dbl.pow2 (-55)) (-3)
             7205759403792794); pow2c; [|lia|lra|lra|lra].
  apply Zfloor_eq. lra.
Qed.

Lemma dbl_div_zero c : c <> 0 -> Dbl.div 0 c = 0.
Proof. intros H. apply (div_exact _ _ 0); [done|lra|lia]. Qed.

Lemma tieSceneD_nearby :
  DblGrid.getNearby (spatialGrid tieSceneD) (mkV 0 0 0) 25
  = Some [0; 1; 2]%nat.
Proof.
  unfold tieSceneD, DblPS.rebuildGrid, DblGrid.getNearby, DblGrid.insertAll,
    DblGrid.insert, DblGrid._hash, DblGrid.clear; simpl.
  destruct (Req_dec_T _ 0) as [E|_]; [exfalso; lra|].
  rewrite dbl_div_half, !dbl_div_fifth, !(dbl_div_zero 50) by lra.
  change 0 with (IZR 0). rewrite !ZfloorZ.
  assert (Zceil (1 / 2) = 1%Z) as -> by (apply Zceil_eq; lra).
  change (2 ^ 53 <=? 1)%Z with false. cbv iota.
  unfold Grid.offsets. simpl seq. simpl map. cbn [flat_map].
  rewrite !cellKey_safe by lia.
  vm_compute. reflexivity.
Qed.

Lemma tieSceneD_dist1 : DblPS.distFrom tieSceneD (peakAt (mkV 0 0 0)) 1 = 10.
Proof.
  unfold DblPS.distFrom; simpl. change 10 with (IZR 10).
  apply dbl_distanceTo_x0. lia.
Qed.

Lemma closest_candidate_witness :
  exists j : nat,
    DblPS.formPair 0 tieSceneD
    = Some (DblPS.linkPair 0 (Z.of_nat j) tieSceneD)
    /\ eligible tieSceneD 0 (pairCategory tieSceneD 0) j = true
    /\ DblPS.distFrom tieSceneD (peakAt (mkV 0 0 0)) j <= 25.
Proof.
  assert (HL : (length (peaks tieSceneD) <= length (_pairStates tieSceneD))%nat)
    by (simpl; lia).
  destruct (closest_candidate tieSceneD 0 newPairState (peakAt (mkV 0 0 0))
              [0; 1; 2]%nat (dbl_rebuildGrid_built _) HL eq_refl eq_refl
              eq_refl eq_refl eq_refl tieSceneD_nearby)
    as [_ H].
  destruct (H 1%nat) as (j & l1 & l2 & si' & sj' & Hf & He & Hd & _).
  - right. by left.
  - reflexivity.
  - rewrite tieSceneD_dist1. simpl. lra.
  - exists j. split; [exact Hf|]. split; [exact He|exact Hd].
Defined.

(** ** C6: the velocity clamp, up to rounding *)

Lemma u53_bounds : 0 < u53 <= 1 / 1000000.
Proof. unfold u53. pow2c. lra. Qed.

Lemma eta_pos : 0 < eta.
Proof. apply pow2_pos. Qed.

(** [eta] is negligible against anything of the size of [2^-500]. *)
Lemma eta_small : eta * Dbl.pow2 22 <= u53 * Dbl.pow2 (-500) * Dbl.pow2 (-500).
Proof.
  unfold eta, u53. rewrite <- !pow2_add. apply pow2_le. lia.
Qed.

Lemma pow2_500_sq : Dbl.pow2 500 * Dbl.pow2 500 = Dbl.pow2 1000.
Proof. by rewrite <- pow2_add. Qed.

Lemma pow2_m500 : Dbl.pow2 (-500) * Dbl.pow2 500 = 1.
Proof. by rewrite <- pow2_add. Qed.

Lemma pow2_22_big : 1000000 <= Dbl.pow2 22.
Proof. pow2c. lra. Qed.

Lemma rnd_lo t : 0 <= t -> t * (1 - u53) - eta <= Dbl.rnd t.
Proof.
  intros H. pose proof (rnd_err t) as E. apply Rabs_le_inv in E.
  rewrite (Rabs_pos_eq t) in E by done. unfold u53, eta. lra.
Qed.

Lemma rnd_hi t : 0 <= t -> Dbl.rnd t <= t * (1 + u53) + eta.
Proof.
  intros H. pose proof (rnd_err t) as E. apply Rabs_le_inv in E.
  rewrite (Rabs_pos_eq t) in E by done. unfold u53, eta. lra.
Qed.

Lemma rnd_abs_hi t : Rabs (Dbl.rnd t) <= Rabs t * (1 + u53) + eta.
Proof.
  pose proof (rnd_err t) as E. apply Rabs_le_inv in E.
  pose proof (Rabs_pos t). pose proof u53_bounds. pose proof eta_pos.
  fold u53 eta in E.
  apply Rabs_le. unfold Rabs in *. destruct (Rcase_abs t); lra.
Qed.

Lemma rnd_hi_normal t :
  Dbl.pow2 (-1022) <= t -> Dbl.rnd t <= t * (1 + u53).
Proof.
  intros H. pose proof (pow2_pos (-1022)).
  pose proof (rnd_err_rel t) as E. rewrite (Rabs_pos_eq t) in E by lra.
  specialize (E H). apply Rabs_le_inv in E. unfold u53. lra.
Qed.

Lemma sq_nonneg (x : R) : 0 <= x * x.
Proof. nra. Qed.

Lemma sumSq_nonneg v : 0 <= sumSq v.
Proof.
  unfold sumSq, Dbl.add, Dbl.mul.
  apply rnd_nonneg. apply Rplus_le_le_0_compat.
  - apply rnd_nonneg. apply Rplus_le_le_0_compat; apply rnd_nonneg, sq_nonneg.
  - apply rnd_nonneg, sq_nonneg.
Qed.

Lemma sumSq_lo v :
  V3.lengthSq v * ((1 - u53) * (1 - u53) * (1 - u53)) - 5 * eta <= sumSq v.
Proof.
  pose proof u53_bounds as U. pose proof eta_pos as E.
  unfold sumSq, V3.lengthSq, Dbl.add, Dbl.mul.
  set (x2 := vx v * vx v). set (y2 := vy v * vy v). set (z2 := vz v * vz v).
  assert (Hx : 0 <= x2) by apply sq_nonneg.
  assert (Hy : 0 <= y2) by apply sq_nonneg.
  assert (Hz : 0 <= z2) by apply sq_nonneg.
  pose proof (rnd_lo x2 Hx) as Lx. pose proof (rnd_nonneg x2 Hx) as Nx.
  pose proof (rnd_lo y2 Hy) as Ly. pose proof (rnd_nonneg y2 Hy) as Ny.
  pose proof (rnd_lo z2 Hz) as Lz. pose proof (rnd_nonneg z2 Hz) as Nz.
  set (sx := Dbl.rnd x2) in *. set (sy := Dbl.rnd y2) in *.
  set (sz := Dbl.rnd z2) in *.
  assert (H1 : 0 <= sx + sy) by lra.
  pose proof (rnd_lo _ H1) as L1. pose proof (rnd_nonneg _ H1) as N1.
  set (a1 := Dbl.rnd (sx + sy)) in *.
  assert (H2 : 0 <= a1 + sz) by lra.
  pose proof (rnd_lo _ H2) as L2.
  set (S := Dbl.rnd (a1 + sz)) in *.
  assert (B1 : (x2 + y2) * ((1 - u53) * (1 - u53)) - 3 * eta <= a1) by nra.
  assert (B2 : (x2 + y2) * ((1 - u53) * (1 - u53)) * (1 - u53)
               + z2 * ((1 - u53) * (1 - u53)) - 5 * eta <= S) by nra.
  assert (B3 : 0 <= z2 * ((1 - u53) * (1 - u53)) * u53).
  { apply Rmult_le_pos; [|lra]. apply Rmult_le_pos; [done|nra]. }
  nra.
Qed.

Lemma sumSq_hi v :
  sumSq v <= V3.lengthSq v * ((1 + u53) * (1 + u53) * (1 + u53)) + 6 * eta.
Proof.
  pose proof u53_bounds as U. pose proof eta_pos as E.
  unfold sumSq, V3.lengthSq, Dbl.add, Dbl.mul.
  set (x2 := vx v * vx v). set (y2 := vy v * vy v). set (z2 := vz v * vz v).
  assert (Hx : 0 <= x2) by apply sq_nonneg.
  assert (Hy : 0 <= y2) by apply sq_nonneg.
  assert (Hz : 0 <= z2) by apply sq_nonneg.
  pose proof (rnd_hi x2 Hx) as Lx. pose proof (rnd_nonneg x2 Hx) as Nx.
  pose proof (rnd_hi y2 Hy) as Ly. pose proof (rnd_nonneg y2 Hy) as Ny.
  pose proof (rnd_hi z2 Hz) as Lz. pose proof (rnd_nonneg z2 Hz) as Nz.
  set (sx := Dbl.rnd x2) in *. set (sy := Dbl.rnd y2) in *.
  set (sz := Dbl.rnd z2) in *.
  assert (H1 : 0 <= sx + sy) by lra.
  pose proof (rnd_hi _ H1) as L1. pose proof (rnd_nonneg _ H1) as N1.
  set (a1 := Dbl.rnd (sx + sy)) in *.
  assert (H2 : 0 <= a1 + sz) by lra.
  pose proof (rnd_hi _ H2) as L2.
  set (S := Dbl.rnd (a1 + sz)) in *.
  assert (B1 : a1 <= (x2 + y2) * ((1 + u53) * (1 + u53)) + 4 * eta) by nra.
  assert (B2 : S <= (x2 + y2) * ((1 + u53) * (1 + u53)) * (1 + u53)
                    + z2 * ((1 + u53) * (1 + u53)) + 6 * eta) by nra.
  assert (B3 : 0 <= z2 * ((1 + u53) * (1 + u53)) * u53).
  { apply Rmult_le_pos; [|lra]. apply Rmult_le_pos; [done|nra]. }
  nra.
Qed.

Lemma dbl_length_unfold v : DblV3.length v = Dbl.rnd (sqrt (sumSq v)).
Proof. reflexivity. Qed.

Lemma length_sq v : V3.length v * V3.length v = V3.lengthSq v.
Proof. unfold V3.length. apply sqrt_sqrt, lengthSq_nonneg. Qed.

(** The computed length is not much below the exact one. *)
Lemma dbl_length_lo v :
  Dbl.pow2 (-500) <= V3.length v ->
  V3.length v * (1 - 6 * u53) <= DblV3.length v.
Proof.
  intros Hl. pose proof u53_bounds as U. pose proof eta_pos as E.
  pose proof (pow2_pos (-500)) as P. pose proof (pow2_pos 500) as P5.
  pose proof eta_small as ES. pose proof pow2_m500 as PM.
  pose proof pow2_22_big as P22.
  set (l := V3.length v) in *. set (m := Dbl.pow2 (-500)) in *.
  assert (Hll : m * m <= l * l) by nra.
  (* eta is at most u * m * m / 10^6 *)
  assert (Eta1 : 1000000 * eta <= u53 * (m * m)).
  { assert (1000000 * eta <= eta * Dbl.pow2 22) by nra. lra. }
  assert (Eta2 : eta <= u53 * m).
  { assert (m <= 1).
    { change 1 with (Dbl.pow2 0). apply pow2_le. lia. }
    assert (eta * Dbl.pow2 500 <= u53 * (m * m) * Dbl.pow2 500).
    { assert (0 <= Dbl.pow2 500) by lra. nra. }
    assert (u53 * (m * m) * Dbl.pow2 500 = u53 * m) as K.
    { unfold m. rewrite Rmult_assoc, Rmult_assoc.
      replace (Dbl.pow2 (-500) * Dbl.pow2 500) with 1 by (symmetry; exact PM).
      ring. }
    assert (eta <= eta * Dbl.pow2 500).
    { assert (1 <= Dbl.pow2 500); [|nra].
      change 1 with (Dbl.pow2 0). apply pow2_le. lia. }
    lra. }
  pose proof (sumSq_lo v) as SL. rewrite <- length_sq in SL. fold l in SL.
  assert (S1 : (l * (1 - 4 * u53)) * (l * (1 - 4 * u53)) <= sumSq v).
  { assert ((1 - 3 * u53) <= (1 - u53) * (1 - u53) * (1 - u53)) by nra.
    assert (l * l * (1 - 3 * u53) - 5 * eta <= sumSq v) by nra.
    assert (5 * eta <= u53 * (l * l)) by nra.
    nra. }
  assert (Hl0 : 0 <= l * (1 - 4 * u53)) by nra.
  assert (S2 : l * (1 - 4 * u53) <= sqrt (sumSq v)).
  { rewrite <- (sqrt_square (l * (1 - 4 * u53))) by done.
    by apply sqrt_le_1_alt. }
  rewrite dbl_length_unfold.
  assert (Hs : 0 <= sqrt (sumSq v)) by apply sqrt_pos.
  pose proof (rnd_lo _ Hs) as RL.
  assert (eta <= u53 * l) by nra.
  nra.
Qed.

(** The computed length of a vector with components below [2^500]. *)
Lemma dbl_length_hi v :
  Rabs (vx v) <= Dbl.pow2 500 -> Rabs (vy v) <= Dbl.pow2 500 ->
  Rabs (vz v) <= Dbl.pow2 500 ->
  DblV3.length v <= Dbl.pow2 503.
Proof.
  intros Hx Hy Hz. pose proof u53_bounds as U. pose proof eta_pos as E.
  pose proof (pow2_pos 500) as P5.
  set (X := Dbl.pow2 500) in *.
  assert (X1 : 1 <= X).
  { change 1 with (Dbl.pow2 0). apply pow2_le. lia. }
  assert (E1 : eta <= 1 / 8).
  { assert (K : eta <= Dbl.pow2 (-3)) by (apply pow2_le; lia).
    revert K. pow2c. lra. }
  assert (Qx : vx v * vx v <= X * X).
  { apply Rabs_le_inv in Hx. nra. }
  assert (Qy : vy v * vy v <= X * X).
  { apply Rabs_le_inv in Hy. nra. }
  assert (Qz : vz v * vz v <= X * X).
  { apply Rabs_le_inv in Hz. nra. }
  pose proof (sumSq_hi v) as SH. unfold V3.lengthSq in SH.
  pose proof (sumSq_nonneg v) as SN.
  assert (C3 : 0 <= (1 + u53) * (1 + u53) * (1 + u53) <= 2) by nra.
  set (c3 := (1 + u53) * (1 + u53) * (1 + u53)) in *.
  set (q := vx v * vx v + vy v * vy v + vz v * vz v) in *.
  assert (Q0 : 0 <= q) by (unfold q; nra).
  assert (Q3 : q <= 3 * (X * X)) by (unfold q; lra).
  assert (X2 : 1 <= X * X) by nra.
  assert (S0 : q * c3 <= 6 * (X * X)) by nra.
  assert (S1 : sumSq v <= (3 * X) * (3 * X)) by nra.
  assert (S2 : sqrt (sumSq v) <= 3 * X).
  { rewrite <- (sqrt_square (3 * X)) by lra. by apply sqrt_le_1_alt. }
  rewrite dbl_length_unfold.
  pose proof (rnd_hi _ (sqrt_pos (sumSq v))) as RH.
  replace (Dbl.pow2 503) with (8 * X).
  - nra.
  - unfold X. replace 503%Z with (3 + 500)%Z by lia. rewrite pow2_add.
    f_equal.
Qed.

Lemma abs_sq_le a b : Rabs a <= b -> a * a <= b * b.
Proof. intros H. pose proof (Rabs_pos a). apply Rabs_le_inv in H. nra. Qed.

(** Shifting three non-negative components by [b] lengthens the vector
    by at most [2 b]. *)
Lemma sumsq_shift a1 a2 a3 b s :
  0 <= a1 -> 0 <= a2 -> 0 <= a3 -> 0 <= b -> 0 <= s ->
  a1 * a1 + a2 * a2 + a3 * a3 = s * s ->
  (a1 + b) * (a1 + b) + (a2 + b) * (a2 + b) + (a3 + b) * (a3 + b)
  <= (s + 2 * b) * (s + 2 * b).
Proof.
  intros H1 H2 H3 Hb Hs E.
  assert (T : a1 + a2 + a3 <= 2 * s).
  { destruct (Rle_lt_dec (a1 + a2 + a3) (2 * s)) as [?|C]; [done|].
    exfalso. assert ((2 * s) * (2 * s) < (a1 + a2 + a3) * (a1 + a2 + a3))
      by nra.
    pose proof (sq_nonneg (a1 - a2)). pose proof (sq_nonneg (a1 - a3)).
    pose proof (sq_nonneg (a2 - a3)). nra. }
  assert (b * (a1 + a2 + a3) <= b * (2 * s)) by nra.
  nra.
Qed.

(** One component of [setLength]: the double computation of
    [c * (1 / L) * M]. *)
Lemma scaled_component c inv M :
  0 <= inv -> 0 <= M ->
  Rabs (Dbl.mul (Dbl.mul c inv) M)
  <= Rabs c * (inv * M * ((1 + u53) * (1 + u53)))
     + eta * (M * (1 + u53) + 1).
Proof.
  intros Hi HM. pose proof u53_bounds as U. pose proof eta_pos as E.
  unfold Dbl.mul.
  pose proof (rnd_abs_hi (c * inv)) as H1.
  rewrite Rabs_mult, (Rabs_pos_eq inv) in H1 by done.
  pose proof (rnd_abs_hi (Dbl.rnd (c * inv) * M)) as H2.
  rewrite Rabs_mult, (Rabs_pos_eq M) in H2 by done.
  pose proof (Rabs_pos c). pose proof (Rabs_pos (Dbl.rnd (c * inv))).
  set (a := Rabs c) in *. set (r := Rabs (Dbl.rnd (c * inv))) in *.
  assert (r * M <= (a * inv * (1 + u53) + eta) * M) by nra.
  nra.
Qed.

(** Underflow is negligible against a bound of at least [2^-500]. *)
Lemma underflow_small Mx :
  Dbl.pow2 (-500) <= Mx -> 2 * (eta * (Mx * (1 + u53) + 1)) <= Mx * u53.
Proof.
  intros HM. pose proof u53_bounds as U. pose proof eta_pos as E.
  pose proof eta_small as ES. pose proof pow2_22_big as P22.
  pose proof (pow2_pos (-500)) as Pm.
  set (m := Dbl.pow2 (-500)) in *.
  assert (m <= 1).
  { change 1 with (Dbl.pow2 0). apply pow2_le. lia. }
  assert (K1 : 1000000 * eta <= u53 * m * m).
  { assert (1000000 * eta <= eta * Dbl.pow2 22) by nra. lra. }
  assert (K2 : u53 * m * m <= u53 * m) by nra.
  assert (K3 : u53 * m <= u53 * Mx) by nra.
  assert (K4 : u53 * m <= u53) by nra.
  assert (K5 : eta * Mx <= u53 / 1000000 * Mx).
  { apply Rmult_le_compat_r; lra. }
  assert (K6 : eta * Mx * u53 <= eta * Mx).
  { assert (0 <= eta * Mx) by (apply Rmult_le_pos; lra). nra. }
  lra.
Qed.

(** The rescaling factor against the exact length. *)
Lemma rescale_bound l L inv Mx :
  0 <= l -> 0 < L -> 0 <= inv -> 0 <= Mx ->
  l * (1 - 6 * u53) <= L -> inv * L <= 1 + u53 ->
  l * (inv * Mx * ((1 + u53) * (1 + u53))) <= Mx * (1 + 11 * u53).
Proof.
  intros Hl HL Hi HM HlL HiL. pose proof u53_bounds as U.
  set (c2 := (1 + u53) * (1 + u53)).
  assert (C2 : 0 <= c2 <= 1 + 3 * u53) by (unfold c2; nra).
  assert (P : 0 <= inv * Mx * c2).
  { apply Rmult_le_pos; [apply Rmult_le_pos; lra|lra]. }
  assert (A : l * (1 - 6 * u53) * (inv * Mx * c2) <= L * (inv * Mx * c2)).
  { apply Rmult_le_compat_r; done. }
  assert (B : L * (inv * Mx * c2) <= (1 + u53) * (Mx * c2)).
  { replace (L * (inv * Mx * c2)) with ((inv * L) * (Mx * c2)) by ring.
    apply Rmult_le_compat_r; [|done]. apply Rmult_le_pos; lra. }
  assert (C : (1 + u53) * (Mx * c2) <= Mx * ((1 + 11 * u53) * (1 - 6 * u53))).
  { assert ((1 + u53) * c2 <= (1 + 11 * u53) * (1 - 6 * u53)) by nra.
    replace ((1 + u53) * (Mx * c2)) with (Mx * ((1 + u53) * c2)) by ring.
    apply Rmult_le_compat_l; done. }
  assert (D : 0 < 1 - 6 * u53) by lra.
  apply Rmult_le_reg_r with (1 - 6 * u53); [done|].
  replace (l * (inv * Mx * c2) * (1 - 6 * u53))
    with (l * (1 - 6 * u53) * (inv * Mx * c2)) by ring.
  replace (Mx * (1 + 11 * u53) * (1 - 6 * u53))
    with (Mx * ((1 + 11 * u53) * (1 - 6 * u53))) by ring.
  lra.
Qed.

(** C6 (as the code has it).  The velocity stored by the integration
    step exceeds [maxVelocity] by rounding only: for [maxVelocity]
    between [2^-500] and [2^500] and a blended velocity whose components
    are below [2^500] in magnitude, the exact length of the stored
    velocity is at most [maxVelocity * (1 + 2^-49)]. *)
Theorem velocity_bound (M : MotionSystem) (center baseTarget F : Vector3)
    (paired : bool) (velocity : Vector3) :
  Dbl.pow2 (-500) <= maxVelocity M <= Dbl.pow2 500 ->
  let blended := DblPS.blendVelocity M center baseTarget F paired velocity in
  Rabs (vx blended) <= Dbl.pow2 500 ->
  Rabs (vy blended) <= Dbl.pow2 500 ->
  Rabs (vz blended) <= Dbl.pow2 500 ->
  V3.length (DblPS.stepVelocity M center baseTarget F paired velocity)
  <= maxVelocity M * (1 + Dbl.pow2 (-49)).
Proof.
  intros [HM1 HM2] v Hx Hy Hz.
  change (DblPS.stepVelocity M center baseTarget F paired velocity)
    with (DblPS.clampVelocity M v).
  clearbody v. unfold DblPS.clampVelocity.
  pose proof u53_bounds as U. pose proof eta_pos as E.
  pose proof (pow2_pos (-500)) as Pm. pose proof (pow2_pos 500) as PX.
  assert (U16 : Dbl.pow2 (-49) = 16 * u53).
  { unfold u53. replace (-49)%Z with (4 + -53)%Z by lia.
    rewrite pow2_add. f_equal. }
  rewrite U16.
  set (Mx := maxVelocity M) in *. set (m := Dbl.pow2 (-500)) in *.
  set (l := V3.length v).
  assert (Hl0 : 0 <= l) by apply length_nonneg.
  (* the exact length against the computed one *)
  assert (HlL : Mx <= DblV3.length v -> l * (1 - 6 * u53) <= DblV3.length v).
  { intros HL. destruct (Rle_lt_dec m l) as [Hb|Hs].
    - by apply dbl_length_lo.
    - assert (l * (1 - 6 * u53) <= l) by nra. lra. }
  destruct (Rgtb (DblV3.length v) Mx) eqn:Hcmp.
  - (* rescaled *)
    apply Rltb_true in Hcmp.
    set (L := DblV3.length v) in *.
    assert (HL : l * (1 - 6 * u53) <= L) by (apply HlL; lra).
    assert (HLhi : L <= Dbl.pow2 503).
    { unfold L. apply dbl_length_hi; [exact Hx|exact Hy|exact Hz]. }
    assert (HLpos : 0 < L) by lra.
    unfold DblV3.setLength, DblV3.normalize, DblV3.divideScalar.
    fold L. unfold num_or. destruct (Req_dec_T L 0) as [?|_]; [lra|].
    set (inv := Dbl.div 1 L).
    (* 1 / L is a normal number *)
    assert (Hinv : 0 <= inv /\ inv * L <= 1 + u53).
    { unfold inv, Dbl.div.
      assert (Q : 0 < 1 / L) by (apply Rdiv_lt_0_compat; lra).
      split; [apply rnd_nonneg; lra|].
      assert (N : Dbl.pow2 (-1022) <= 1 / L).
      { assert (Dbl.pow2 (-503) <= 1 / L).
        { change (Dbl.pow2 (-503)) with (Dbl.pow2 (Z.opp 503)).
          rewrite pow2_opp.
          unfold Rdiv. rewrite Rmult_1_l.
          apply Rinv_le_contravar; [done|done]. }
        assert (Dbl.pow2 (-1022) <= Dbl.pow2 (-503)) by (apply pow2_le; lia).
        lra. }
      pose proof (rnd_hi_normal _ N) as H.
      assert (1 / L * L = 1) by (field; lra).
      nra. }
    destruct Hinv as [Hi0 HiL].
    set (al := inv * Mx * ((1 + u53) * (1 + u53))).
    set (be := eta * (Mx * (1 + u53) + 1)).
    assert (Hal : 0 <= al).
    { unfold al. apply Rmult_le_pos; [apply Rmult_le_pos; lra|nra]. }
    assert (HMx : 0 <= Mx) by lra.
    assert (Hbe : 0 <= be).
    { unfold be. apply Rmult_le_pos; [lra|]. nra. }
    pose proof (scaled_component (vx v) inv Mx Hi0 HMx) as Cx.
    pose proof (scaled_component (vy v) inv Mx Hi0 HMx) as Cy.
    pose proof (scaled_component (vz v) inv Mx Hi0 HMx) as Cz.
    fold al be in Cx, Cy, Cz.
    unfold V3.length, V3.lengthSq, DblV3.multiplyScalar; simpl.
    set (x2 := Dbl.mul (Dbl.mul (vx v) inv) Mx) in *.
    set (y2 := Dbl.mul (Dbl.mul (vy v) inv) Mx) in *.
    set (z2 := Dbl.mul (Dbl.mul (vz v) inv) Mx) in *.
    pose proof (Rabs_pos (vx v)) as Ax. pose proof (Rabs_pos (vy v)) as Ay.
    pose proof (Rabs_pos (vz v)) as Az.
    (* the exact length of the scaled vector *)
    assert (Hs : (Rabs (vx v) * al) * (Rabs (vx v) * al)
                 + (Rabs (vy v) * al) * (Rabs (vy v) * al)
                 + (Rabs (vz v) * al) * (Rabs (vz v) * al)
                 = (l * al) * (l * al)).
    { pose proof (length_sq v) as Q. fold l in Q. unfold V3.lengthSq in Q.
      assert (Rabs (vx v) * Rabs (vx v) = vx v * vx v) as Ex.
      { rewrite <- Rabs_mult. apply Rabs_pos_eq, sq_nonneg. }
      assert (Rabs (vy v) * Rabs (vy v) = vy v * vy v) as Ey.
      { rewrite <- Rabs_mult. apply Rabs_pos_eq, sq_nonneg. }
      assert (Rabs (vz v) * Rabs (vz v) = vz v * vz v) as Ez.
      { rewrite <- Rabs_mult. apply Rabs_pos_eq, sq_nonneg. }
      replace ((l * al) * (l * al)) with ((l * l) * (al * al)) by ring.
      rewrite Q, <- Ex, <- Ey, <- Ez. ring. }
    pose proof (sumsq_shift (Rabs (vx v) * al) (Rabs (vy v) * al)
                  (Rabs (vz v) * al) be (l * al)
                  ltac:(nra) ltac:(nra) ltac:(nra) Hbe ltac:(nra) Hs) as Sh.
    apply abs_sq_le in Cx, Cy, Cz.
    assert (Q2 : x2 * x2 + y2 * y2 + z2 * z2
                 <= (l * al + 2 * be) * (l * al + 2 * be)) by lra.
    (* l * al + 2 be <= Mx (1 + 16 u) *)
    assert (A2 : l * al <= Mx * (1 + 11 * u53)).
    { unfold al. by apply (rescale_bound l L inv Mx). }
    assert (A3 : 2 * be <= Mx * u53).
    { unfold be. by apply underflow_small. }
    assert (Hb0 : 0 <= l * al + 2 * be).
    { assert (0 <= l * al) by (by apply Rmult_le_pos). lra. }
    assert (B : l * al + 2 * be <= Mx * (1 + 16 * u53)) by nra.
    assert (B0 : 0 <= Mx * (1 + 16 * u53)) by nra.
    rewrite <- (sqrt_square (Mx * (1 + 16 * u53))) by done.
    apply sqrt_le_1_alt.
    assert ((l * al + 2 * be) * (l * al + 2 * be)
            <= (Mx * (1 + 16 * u53)) * (Mx * (1 + 16 * u53))).
    { apply Rmult_le_compat; done. }
    lra.
  - (* kept *)
    apply Rltb_false in Hcmp.
    destruct (Rle_lt_dec m l) as [Hb|Hs].
    + pose proof (dbl_length_lo v Hb) as HL. fold l in HL.
      assert (l * (1 - 6 * u53) <= Mx) by lra.
      assert (0 < 1 - 6 * u53) by lra.
      assert (K : 1 <= (1 + 16 * u53) * (1 - 6 * u53)) by nra.
      assert (Mx * 1 <= Mx * ((1 + 16 * u53) * (1 - 6 * u53))).
      { apply Rmult_le_compat_l; lra. }
      apply Rmult_le_reg_r with (1 - 6 * u53); [done|]. fold l. lra.
    + assert (Mx * 1 <= Mx * (1 + 16 * u53)).
      { apply Rmult_le_compat_l; lra. }
      fold l. lra.
Qed.

(** *** A velocity that the clamp leaves above the maximum *)

Lemma dbl_sub_0_0 : Dbl.sub 0 0 = 0.
Proof. change 0 with (IZR 0). by rewrite dbl_sub_IZR by lia. Qed.

Lemma dbl_add_0_0 : Dbl.add 0 0 = 0.
Proof. change 0 with (IZR 0). by rewrite dbl_add_IZR by lia. Qed.

Lemma dbl_mul_0_l x : Dbl.mul 0 x = 0.
Proof. unfold Dbl.mul. rewrite Rmult_0_l. apply rnd_0. Qed.

(** The literal [0.3] as a double. *)
Lemma dbl_literal_03 : Dbl.rnd 0.3 = (5404319552844595 * Dbl.pow2 (-54)).
Proof. apply (rnd_is_pos _ _ (-2) (5404319552844595)); pow2c; [lia|lra|lra|lra]. Qed.

(** With no target offset and no force the blend keeps seven tenths of
    the velocity: (1.875, 0, 1.875) becomes (1.3125, 0, 1.3125). *)
Lemma overshoot_blend :
  DblPS.blendVelocity defaultMotion (mkV 0 0 0) (mkV 0 0 0) (mkV 0 0 0) false (mkV 1.875 0 1.875)
  = mkV (5910974510923776 * Dbl.pow2 (-52)) 0 (5910974510923776 * Dbl.pow2 (-52)).
Proof.
  unfold DblPS.blendVelocity, DblV3.lerp, DblV3.add, DblV3.subVectors,
    DblV3.multiplyScalar; simpl.
  rewrite dbl_literal_03.
  repeat (progress rewrite ?dbl_sub_0_0, ?dbl_mul_0_l, ?dbl_add_0_0).
  assert (S2 : Dbl.sub 0 1.875 = - 1.875).
  { unfold Dbl.sub. apply (rnd_is_neg _ _ (0) (-8444249301319680)); pow2c; [lia|lra|lra|lra]. }
  rewrite S2.
  assert (T : Dbl.mul (- 1.875) (5404319552844595 * Dbl.pow2 (-54)) = - (5066549580791808 * Dbl.pow2 (-53))).
  { unfold Dbl.mul. apply (rnd_is_neg _ _ (-1) (-5066549580791808)); pow2c; [lia|lra|lra|lra]. }
  rewrite T.
  assert (A : Dbl.add 1.875 (- (5066549580791808 * Dbl.pow2 (-53))) = (5910974510923776 * Dbl.pow2 (-52))).
  { unfold Dbl.add. apply (rnd_is_pos _ _ (0) (5910974510923776)); pow2c; [lia|lra|lra|lra]. }
  by rewrite A.
Qed.

(** The computed length of (1.3125, 0, 1.3125). *)
Lemma overshoot_length :
  DblV3.length (mkV (5910974510923776 * Dbl.pow2 (-52)) 0 (5910974510923776 * Dbl.pow2 (-52))) = (8359380320190076 * Dbl.pow2 (-52)).
Proof.
  unfold DblV3.length; simpl.
  assert (Q : Dbl.mul (5910974510923776 * Dbl.pow2 (-52)) (5910974510923776 * Dbl.pow2 (-52)) = (7758154045587456 * Dbl.pow2 (-52))).
  { unfold Dbl.mul. apply (rnd_is_pos _ _ (0) (7758154045587456)); pow2c; [lia|lra|lra|lra]. }
  rewrite Q, dbl_mul_0_l.
  assert (A1 : Dbl.add (7758154045587456 * Dbl.pow2 (-52)) 0 = (7758154045587456 * Dbl.pow2 (-52))).
  { unfold Dbl.add. apply (rnd_is_pos _ _ (0) (7758154045587456)); pow2c; [lia|lra|lra|lra]. }
  rewrite A1.
  assert (A2 : Dbl.add (7758154045587456 * Dbl.pow2 (-52)) (7758154045587456 * Dbl.pow2 (-52)) = (7758154045587456 * Dbl.pow2 (-51))).
  { unfold Dbl.add. apply (rnd_is_pos _ _ (1) (7758154045587456)); pow2c; [lia|lra|lra|lra]. }
  rewrite A2. unfold Dbl.sqrt.
  assert (B : 2297808965762712770104239653 * Dbl.pow2 (-90) <= sqrt (7758154045587456 * Dbl.pow2 (-51))
              < 2297808965762712770104239654 * Dbl.pow2 (-90)).
  { apply sqrt_between; pow2c; lra. }
  revert B. pow2c. intros B.
  apply (rnd_is_pos _ _ (0) (8359380320190076)); pow2c; [lia|lra|lra|lra].
Qed.

(** [setLength(1.5)] on (1.3125, 0, 1.3125). *)
Lemma overshoot_clamp :
  DblPS.clampVelocity defaultMotion (mkV (5910974510923776 * Dbl.pow2 (-52)) 0 (5910974510923776 * Dbl.pow2 (-52)))
  = mkV (4776788754394330 * Dbl.pow2 (-52)) 0 (4776788754394330 * Dbl.pow2 (-52)).
Proof.
  unfold DblPS.clampVelocity. rewrite overshoot_length. simpl.
  unfold Rgtb. rewrite Rltb_yes by (pow2c; lra).
  unfold DblV3.setLength, DblV3.normalize, DblV3.divideScalar,
    DblV3.multiplyScalar.
  rewrite overshoot_length. unfold num_or.
  destruct (Req_dec_T (8359380320190076 * Dbl.pow2 (-52)) 0) as [C|_].
  { exfalso. revert C. pow2c. lra. }
  simpl.
  assert (I : Dbl.div 1 (8359380320190076 * Dbl.pow2 (-52)) = (4852610798114875 * Dbl.pow2 (-53))).
  { unfold Dbl.div. apply (rnd_is_pos _ _ (-1) (4852610798114875)); pow2c; [lia|lra|lra|lra]. }
  rewrite I, !dbl_mul_0_l.
  assert (N : Dbl.mul (5910974510923776 * Dbl.pow2 (-52)) (4852610798114875 * Dbl.pow2 (-53)) = (6369051672525773 * Dbl.pow2 (-53))).
  { unfold Dbl.mul. apply (rnd_is_pos _ _ (-1) (6369051672525773)); pow2c; [lia|lra|lra|lra]. }
  rewrite N.
  assert (C : Dbl.mul (6369051672525773 * Dbl.pow2 (-53)) 1.5 = (4776788754394330 * Dbl.pow2 (-52))).
  { unfold Dbl.mul. apply (rnd_is_pos _ _ (0) (4776788754394330)); pow2c; [lia|lra|lra|lra]. }
  by rewrite C.
Qed.

(** The bound [|velocity| <= maxVelocity] fails in double arithmetic:
    from velocity (1.875, 0, 1.875), with no target offset and no force, the
    integration step blends to (1.3125, 0, 1.3125), whose computed length
    exceeds 1.5, and [setLength(1.5)] stores a vector whose length is
    above 1.5. *)
Lemma clamp_overshoots :
  maxVelocity defaultMotion
  < V3.length (DblPS.stepVelocity defaultMotion (mkV 0 0 0) (mkV 0 0 0) (mkV 0 0 0) false (mkV 1.875 0 1.875)).
Proof.
  unfold DblPS.stepVelocity. rewrite overshoot_blend, overshoot_clamp.
  unfold V3.length, V3.lengthSq; simpl.
  rewrite <- (sqrt_square 1.5) at 1 by lra.
  apply sqrt_lt_1_alt. pow2c. lra.
Qed.

Lemma velocity_bound_witness :
  V3.length (DblPS.stepVelocity defaultMotion (mkV 0 0 0) (mkV 0 0 0) (mkV 0 0 0) false
               (mkV 1.875 0 1.875))
  <= maxVelocity defaultMotion * (1 + Dbl.pow2 (-49)).
Proof.
  apply (velocity_bound defaultMotion (mkV 0 0 0) (mkV 0 0 0) (mkV 0 0 0) false (mkV 1.875 0 1.875)).
  - simpl. pow2c. lra.
  - rewrite overshoot_blend. simpl. rewrite Rabs_pos_eq; pow2c; lra.
  - rewrite overshoot_blend. simpl. rewrite Rabs_R0. pow2c. lra.
  - rewrite overshoot_blend. simpl. rewrite Rabs_pos_eq; pow2c; lra.
Defined.

(** ** C5: distance break, from the exact distance *)

Lemma dbl_distanceTo_length a b :
  DblV3.distanceTo a b = DblV3.length (DblV3.subVectors a b).
Proof. reflexivity. Qed.

(** A rounded difference is not much smaller than the exact one. *)
Lemma dbl_sub_lo x y :
  Rabs (x - y) * (1 - u53) <= Rabs (Dbl.sub x y) + eta.
Proof.
  unfold Dbl.sub. pose proof (rnd_err (x - y)) as E. fold u53 eta in E.
  pose proof (Rabs_triang_inv (x - y) (x - y - Dbl.rnd (x - y))) as T.
  replace (x - y - (x - y - Dbl.rnd (x - y))) with (Dbl.rnd (x - y)) in T
    by ring.
  rewrite (Rabs_minus_sym (x - y)) in T. lra.
Qed.

(** The distance that [distanceTo] computes is at least the exact planar
    distance, up to rounding. *)
Lemma dbl_distance_lo a b :
  Dbl.pow2 (-400) <= planarDistance a b ->
  planarDistance a b * (1 - 8 * u53) <= DblV3.distanceTo a b.
Proof.
  intros HP. rewrite dbl_distanceTo_length.
  pose proof u53_bounds as U. pose proof eta_pos as E.
  pose proof eta_small as ES. pose proof pow2_22_big as P22.
  pose proof (pow2_pos (-500)) as Pm.
  set (d := DblV3.subVectors a b). set (P := planarDistance a b) in *.
  set (m := Dbl.pow2 (-500)) in *.
  assert (Hm1 : m <= 1).
  { change 1 with (Dbl.pow2 0). apply pow2_le. lia. }
  assert (Hm4 : 2 * m <= Dbl.pow2 (-400)).
  { replace (-400)%Z with (100 + -500)%Z by lia. rewrite pow2_add. fold m.
    assert (2 <= Dbl.pow2 100) by (pow2c; lra). nra. }
  assert (He : 4 * eta <= u53 * m).
  { assert (1000000 * eta <= eta * Dbl.pow2 22) by nra.
    assert (u53 * m * m <= u53 * m) by nra. lra. }
  set (l := V3.length d).
  assert (Hl0 : 0 <= l) by apply length_nonneg.
  (* the exact planar distance against the exact length of the rounded
     difference *)
  pose proof (dbl_sub_lo (vx a) (vx b)) as Dx.
  pose proof (dbl_sub_lo (vz a) (vz b)) as Dz.
  change (Dbl.sub (vx a) (vx b)) with (vx d) in Dx.
  change (Dbl.sub (vz a) (vz b)) with (vz d) in Dz.
  pose proof (Rabs_pos (vx d)) as Ax. pose proof (Rabs_pos (vy d)) as Ay.
  pose proof (Rabs_pos (vz d)) as Az.
  pose proof (Rabs_pos (vx a - vx b)) as Tx.
  pose proof (Rabs_pos (vz a - vz b)) as Tz.
  assert (Hs : Rabs (vx d) * Rabs (vx d) + Rabs (vy d) * Rabs (vy d)
               + Rabs (vz d) * Rabs (vz d) = l * l).
  { pose proof (length_sq d) as Q. fold l in Q. unfold V3.lengthSq in Q.
    rewrite Q, <- !Rabs_mult.
    rewrite !Rabs_pos_eq by apply sq_nonneg. done. }
  assert (E0 : 0 <= eta) by lra.
  pose proof (sumsq_shift _ _ _ eta l Ax Ay Az E0 Hl0 Hs) as Sh.
  assert (HP0 : 0 <= P) by apply sqrt_pos.
  assert (HP2 : P * P = (vx a - vx b) * (vx a - vx b)
                        + (vz a - vz b) * (vz a - vz b)).
  { unfold P, planarDistance. apply sqrt_sqrt.
    pose proof (sq_nonneg (vx a - vx b)). pose proof (sq_nonneg (vz a - vz b)).
    lra. }
  assert (Hx2 : (Rabs (vx a - vx b) * (1 - u53)) * (Rabs (vx a - vx b) * (1 - u53))
                <= (Rabs (vx d) + eta) * (Rabs (vx d) + eta)).
  { apply Rmult_le_compat; nra. }
  assert (Hz2 : (Rabs (vz a - vz b) * (1 - u53)) * (Rabs (vz a - vz b) * (1 - u53))
                <= (Rabs (vz d) + eta) * (Rabs (vz d) + eta)).
  { apply Rmult_le_compat; nra. }
  assert (Rx : Rabs (vx a - vx b) * Rabs (vx a - vx b)
               = (vx a - vx b) * (vx a - vx b)).
  { rewrite <- Rabs_mult. apply Rabs_pos_eq, sq_nonneg. }
  assert (Rz : Rabs (vz a - vz b) * Rabs (vz a - vz b)
               = (vz a - vz b) * (vz a - vz b)).
  { rewrite <- Rabs_mult. apply Rabs_pos_eq, sq_nonneg. }
  assert (Hy2 : 0 <= (Rabs (vy d) + eta) * (Rabs (vy d) + eta)) by nra.
  assert (Hsq : (P * (1 - u53)) * (P * (1 - u53))
                <= (l + 2 * eta) * (l + 2 * eta)).
  { replace ((P * (1 - u53)) * (P * (1 - u53)))
      with ((P * P) * ((1 - u53) * (1 - u53))) by ring.
    rewrite HP2, <- Rx, <- Rz. nra. }
  assert (Hlin : P * (1 - u53) <= l + 2 * eta).
  { destruct (Rle_lt_dec (P * (1 - u53)) (l + 2 * eta)) as [?|C]; [done|].
    exfalso. assert (0 <= l + 2 * eta) by lra. nra. }
  (* the computed length against the exact one *)
  assert (Hl : m <= l) by nra.
  pose proof (dbl_length_lo d Hl) as HL. fold l in HL.
  assert (K1 : (P * (1 - u53) - 2 * eta) * (1 - 6 * u53)
               <= l * (1 - 6 * u53)).
  { apply Rmult_le_compat_r; lra. }
  assert (K2 : P * (1 - 8 * u53)
               <= (P * (1 - u53) - 2 * eta) * (1 - 6 * u53)).
  { assert (2 * eta <= u53 * P) by nra.
    assert (0 <= u53 * P * u53) by nra. nra. }
  lra.
Qed.

(** C5 (as the code has it).  A mutually paired couple whose planar
    distance exceeds the keep radius by more than rounding can hide --
    by the factor [1 + 2^-49], for a keep radius of at least [2^-400] --
    when the break check starts is dissolved by it: afterwards both
    members have no partner, zero paired frames, the pair cooldown, the
    break grace and each other as break partner. *)
Theorem distance_break (e : Engine) (i j : nat) (si sj : PairState)
    (A B : Peak) :
  symmetric (_pairStates e) ->
  _pairStates e !! i = Some si -> _pairStates e !! j = Some sj ->
  partner si = Z.of_nat j -> partner sj = Z.of_nat i ->
  peaks e !! i = Some A -> peaks e !! j = Some B ->
  Dbl.pow2 (-400) <= pairKeepRadius (motionSystem e) ->
  pairKeepRadius (motionSystem e) * (1 + Dbl.pow2 (-49))
  < planarDistance (currentPyramidCenter A) (currentPyramidCenter B) ->
  bothBroken (motionSystem e) i j (DblPS.breakLoop e).
Proof.
  intros HS Hi Hj Hsi Hsj HA HB Hk Hfar.
  apply (dbl_distance_break e i j si sj A B); try done.
  pose proof u53_bounds as U. pose proof (pow2_pos (-400)) as P4.
  assert (U16 : Dbl.pow2 (-49) = 16 * u53).
  { unfold u53. replace (-49)%Z with (4 + -53)%Z by lia.
    rewrite pow2_add. f_equal. }
  rewrite U16 in Hfar.
  set (K := pairKeepRadius (motionSystem e)) in *.
  set (P := planarDistance _ _) in *.
  assert (HP : Dbl.pow2 (-400) <= P) by nra.
  pose proof (dbl_distance_lo _ _ HP) as HD. fold P in HD.
  assert (K * ((1 + 16 * u53) * (1 - 8 * u53)) < P * (1 - 8 * u53)).
  { replace (K * ((1 + 16 * u53) * (1 - 8 * u53)))
      with (K * (1 + 16 * u53) * (1 - 8 * u53)) by ring.
    apply Rmult_lt_compat_r; lra. }
  assert (K * 1 <= K * ((1 + 16 * u53) * (1 - 8 * u53))).
  { apply Rmult_le_compat_l; [lra|]. nra. }
  lra.
Qed.

Lemma distance_break_witness :
  bothBroken defaultMotion 0 1 (DblPS.breakLoop (coupleScene 100)).
Proof.
  apply (distance_break (coupleScene 100) 0 1 (pairedWith 1) (pairedWith 0)
           (peakAt (mkV 0 0 0)) (peakAt (mkV 100 0 0))).
  - apply wf_coupleScene.
  - reflexivity.
  - reflexivity.
  - reflexivity.
  - reflexivity.
  - reflexivity.
  - reflexivity.
  - simpl. pow2c. lra.
  - unfold planarDistance; simpl.
    replace ((0 - 100) * (0 - 100) + (0 - 0) * (0 - 0)) with (100 * 100)
      by ring.
    rewrite sqrt_square by lra. pow2c. lra.
Defined.

(** ** C2: the query against distances *)

(** *** From distances to cells *)

Lemma Zceil_bound' x : IZR (Zceil x) - 1 < x <= IZR (Zceil x).
Proof.
  unfold Zceil. rewrite opp_IZR.
  pose proof (Zfloor_bound (- x)). lra.
Qed.

Lemma Rabs_div_pos x c : 0 < c -> Rabs (x / c) = Rabs x / c.
Proof.
  intros H. unfold Rdiv. rewrite Rabs_mult, (Rabs_pos_eq (/ c)); [done|].
  left. by apply Rinv_0_lt_compat.
Qed.

Lemma planar_axes p q r :
  planarDistance p q <= r ->
  Rabs (vx p - vx q) <= r /\ Rabs (vz p - vz q) <= r.
Proof.
  unfold planarDistance. intros H.
  set (dx := vx p - vx q) in *. set (dz := vz p - vz q) in *.
  assert (Hx : Rabs dx <= sqrt (dx * dx + dz * dz)).
  { rewrite <- sqrt_Rsqr_abs. apply sqrt_le_1_alt. unfold Rsqr. nra. }
  assert (Hz : Rabs dz <= sqrt (dx * dx + dz * dz)).
  { rewrite <- sqrt_Rsqr_abs. apply sqrt_le_1_alt. unfold Rsqr. nra. }
  lra.
Qed.

(** On one axis: two coordinates that are closer than the radius by the
    rounding slack fall in cells at most [ceil(radius / cellSize)]
    apart, and the window stays far below [2^53]. *)
Lemma cell_gap (c xp xq r : R) :
  0 < c ->
  Rabs xq + r <= Dbl.pow2 50 * c ->
  Rabs (xp - xq) + u53 * (Rabs xp + Rabs xq + r) + 3 * eta * c <= r ->
  let cells := Zceil (Dbl.div r c) in
  let cq := Zfloor (Dbl.div xq c) in
  let cp := Zfloor (Dbl.div xp c) in
  (Z.abs cq + cells < 2 ^ 53)%Z /\ (Z.abs (cp - cq) <= cells)%Z.
Proof.
  intros Hc Hrange Hd cells cq cp.
  pose proof u53_bounds as U. pose proof eta_pos as E.
  assert (E1 : eta <= 1 / 8).
  { assert (K : eta <= Dbl.pow2 (-3)) by (apply pow2_le; lia).
    revert K. pow2c. lra. }
  pose proof (Rabs_pos xp) as Ap. pose proof (Rabs_pos xq) as Aq.
  pose proof (Rabs_pos (xp - xq)) as Ad.
  assert (Hr : 0 <= r) by nra.
  set (a := xp / c). set (b := xq / c). set (rho := r / c).
  assert (Ha : Rabs a = Rabs xp / c) by (by apply Rabs_div_pos).
  assert (Hb : Rabs b = Rabs xq / c) by (by apply Rabs_div_pos).
  assert (Hrho : 0 <= rho).
  { unfold rho, Rdiv. apply Rmult_le_pos; [done|].
    left. by apply Rinv_0_lt_compat. }
  assert (Hab : Rabs (a - b) = Rabs (xp - xq) / c).
  { unfold a, b. rewrite <- Rabs_div_pos by done. f_equal. field. lra. }
  (* the hypotheses, in cells *)
  assert (Hd' : Rabs (a - b) + u53 * (Rabs a + Rabs b + rho) + 3 * eta
                <= rho).
  { rewrite Ha, Hb, Hab. unfold rho.
    apply Rmult_le_reg_r with c; [done|].
    replace ((Rabs (xp - xq) / c + u53 * (Rabs xp / c + Rabs xq / c + r / c)
              + 3 * eta) * c)
      with (Rabs (xp - xq) + u53 * (Rabs xp + Rabs xq + r) + 3 * eta * c)
      by (field; lra).
    replace (r / c * c) with r by (field; lra). done. }
  assert (Hrange' : Rabs b + rho <= Dbl.pow2 50).
  { rewrite Hb. unfold rho.
    apply Rmult_le_reg_r with c; [done|].
    replace ((Rabs xq / c + r / c) * c) with (Rabs xq + r) by (field; lra).
    done. }
  (* the rounded quotients *)
  pose proof (rnd_err a) as Ea. pose proof (rnd_err b) as Eb.
  pose proof (rnd_err rho) as Er.
  fold u53 eta in Ea, Eb, Er.
  rewrite (Rabs_pos_eq rho) in Er by done.
  apply Rabs_le_inv in Ea, Eb, Er.
  pose proof (Rabs_pos a) as Pa. pose proof (Rabs_pos b) as Pb.
  assert (Hab' : - Rabs (a - b) <= a - b <= Rabs (a - b)).
  { apply Rabs_le_inv. lra. }
  assert (Hb' : - Rabs b <= b <= Rabs b) by (apply Rabs_le_inv; lra).
  unfold Dbl.div in cells, cq, cp. fold a in cp. fold b in cq. fold rho in cells.
  set (fa := Dbl.rnd a) in *. set (fb := Dbl.rnd b) in *.
  set (fr := Dbl.rnd rho) in *.
  assert (G1 : fa - fb <= fr) by lra.
  assert (G2 : fb - fa <= fr) by lra.
  pose proof (Zfloor_bound fa) as Fa. pose proof (Zfloor_bound fb) as Fb.
  pose proof (Zceil_bound' fr) as Fr.
  fold cp in Fa. fold cq in Fb. fold cells in Fr.
  assert (P50 : Dbl.pow2 50 = 1125899906842624) by (pow2c; reflexivity).
  split.
  - assert (B1 : Rabs b * u53 <= Rabs b / 1000000) by nra.
    assert (B2 : rho * u53 <= rho / 1000000) by nra.
    assert (Q1 : IZR cq < IZR 2251799813685248) by lra.
    assert (Q2 : IZR (-2251799813685248) < IZR cq) by lra.
    assert (Q3 : IZR cells < IZR 2251799813685248) by lra.
    apply lt_IZR in Q1, Q2, Q3. lia.
  - assert (Q1 : IZR (cp - cq) < IZR (cells + 1)).
    { rewrite minus_IZR, plus_IZR. lra. }
    assert (Q2 : IZR (cq - cp) < IZR (cells + 1)).
    { rewrite minus_IZR, plus_IZR. lra. }
    apply lt_IZR in Q1, Q2. lia.
Qed.

(** C2 (as the code has it).  The query returns a superset of the
    neighbourhood up to rounding.  On a grid of positive cell size, with
    the query position and the radius within [2^50] cells of the origin,
    [getNearby] returns, and its result holds every inserted agent whose
    horizontal distance to the query position is at most the radius less
    the slack [querySlack]: [2^-53] times the sum of the magnitudes of
    the four coordinates and the radius, plus [3 * 2^-1075] cell sizes. *)
Theorem getNearby_superset (g : SpatialGrid) (agents : list (nat * Vector3))
    (q : Vector3) (radius : R) (i : nat) (p : Vector3) :
  0 < cellSize g ->
  In (i, p) agents ->
  Rabs (vx q) + radius <= Dbl.pow2 50 * cellSize g ->
  Rabs (vz q) + radius <= Dbl.pow2 50 * cellSize g ->
  planarDistance p q + querySlack g p q radius <= radius ->
  exists l,
    DblGrid.getNearby (DblGrid.insertAll g agents) q radius = Some l
    /\ In i l.
Proof.
  intros Hc Hin Rx Rz Hd. unfold querySlack in Hd.
  pose proof u53_bounds as U. pose proof eta_pos as E.
  pose proof (Rabs_pos (vx p)). pose proof (Rabs_pos (vx q)).
  pose proof (Rabs_pos (vz p)). pose proof (Rabs_pos (vz q)).
  assert (Hr : 0 <= radius).
  { pose proof (Rabs_pos (vx q)). pose proof (pow2_pos 50).
    unfold planarDistance in Hd. pose proof (sqrt_pos
      ((vx p - vx q) * (vx p - vx q) + (vz p - vz q) * (vz p - vz q))).
    nra. }
  set (sx := u53 * (Rabs (vx p) + Rabs (vx q) + radius) + 3 * eta * cellSize g).
  set (sz := u53 * (Rabs (vz p) + Rabs (vz q) + radius) + 3 * eta * cellSize g).
  assert (Sx : sx <= u53 * (Rabs (vx p) + Rabs (vx q) + Rabs (vz p)
                            + Rabs (vz q) + radius) + 3 * eta * cellSize g).
  { unfold sx. nra. }
  assert (Sz : sz <= u53 * (Rabs (vx p) + Rabs (vx q) + Rabs (vz p)
                            + Rabs (vz q) + radius) + 3 * eta * cellSize g).
  { unfold sz. nra. }
  destruct (planar_axes p q (planarDistance p q) (Rle_refl _)) as [Dx Dz].
  destruct (cell_gap (cellSize g) (vx p) (vx q) radius Hc Rx) as [X1 X2].
  { fold sx in Sx. unfold sx in Sx. lra. }
  destruct (cell_gap (cellSize g) (vz p) (vz q) radius Hc Rz) as [Z1 Z2].
  { fold sz in Sz. unfold sz in Sz. lra. }
  apply dbl_window_covered with p; try done; lra.
Qed.

Lemma getNearby_superset_witness :
  exists l,
    DblGrid.getNearby
      (DblGrid.insertAll (mkGrid 50 ∅)
         [(0%nat, mkV 0 0 0); (1%nat, mkV 10 0 0)])
      (mkV 0 0 0) 25 = Some l
    /\ In 1%nat l.
Proof.
  apply (getNearby_superset (mkGrid 50 ∅) _ (mkV 0 0 0) 25 1%nat
           (mkV 10 0 0)).
  - simpl. lra.
  - right. left. reflexivity.
  - simpl. rewrite Rabs_R0. pow2c. lra.
  - simpl. rewrite Rabs_R0. pow2c. lra.
  - unfold planarDistance, querySlack, u53, eta; simpl.
    replace ((10 - 0) * (10 - 0) + (0 - 0) * (0 - 0)) with (10 * 10) by ring.
    rewrite sqrt_square by lra.
    rewrite Rabs_R0, (Rabs_pos_eq 10) by lra. pow2c. lra.
Defined.
